(** * Non-conforming submesh extraction (mesh/submesh/pncsubmesh.cpp)

    A shallow embedding of the constructor [ParNCSubMesh::ParNCSubMesh]:
    the identity registry, the domain pass, the boundary discovery loop with
    its tree ascent, and the reordering pass, followed by the properties
    C1..C10 established (or refuted) on that embedding.  The embedding
    covers the domain branch (lines 52-166), the boundary branch (lines
    167-517) and, as far as the identity maps go, what follows the branches
    (lines 519-567); the parent mesh and the owning submesh are taken
    through the look-ups the constructor calls.

    Conventions.
    - C++ [int] is [Z]; no arithmetic in the modelled code can overflow
      (only [counter++] and comparisons occur), so no wrap-around is written.
    - [Array<T>], [BlockArray<T>], [std::vector<T>] and [std::array<T,N>]
      are lists; a read [a[i]] is [a !!! i] and is only meaningful in range.
    - [std::unordered_map<int,int>] is [gmap Z Z].
    - [std::set<int>] is a strictly ascending list (its iteration order).
    - [std::map<FaceNodes,int>] is an association list searched with the
      map's own comparator (equality of the sorted node tuples).
    - [MFEM_ASSERT] does not abort in the model: the checked condition is
      recorded, so that "the assertion cannot fail" is a statement about
      the recorded values. *)

From stdpp Require Import base list gmap.
From Stdlib Require Import ZArith Lia Sorted.

Local Open Scope Z_scope.

(** ** Array reads *)

(** [a[i]] for an [int] index. *)
Definition rd {A} `{Inhabited A} (a : list A) (i : Z) : A := a !!! Z.to_nat i.

(** [a[i] = x] for an [int] index; like the C++ write it keeps the size. *)
Definition wr {A} (a : list A) (i : Z) (x : A) : list A := <[Z.to_nat i := x]> a.

(** ** Geometry *)

Inductive Geometry_Type :=
| POINT | SEGMENT | TRIANGLE | SQUARE | TETRAHEDRON | CUBE | PRISM | PYRAMID.

#[global] Instance Geometry_Type_eq_dec : EqDecision Geometry_Type.
Proof. solve_decision. Defined.

#[global] Instance Geometry_Type_inhabited : Inhabited Geometry_Type := populate POINT.

Definition MaxFaceNodes : nat := 4.
Definition MaxElemNodes : nat := 8.
Definition MaxElemChildren : nat := 10.

(** The lambda [face_geom_from_nodes] (pncsubmesh.cpp:169-174). *)
Definition face_geom_from_nodes (nodes : list Z) : Geometry_Type :=
  if rd nodes 3 =? -1 then TRIANGLE
  else if (rd nodes 0 =? rd nodes 1) && (rd nodes 2 =? rd nodes 3) then SEGMENT
  else SQUARE.

(** The rule as the specification words it: segment first, then triangle,
    then quad. *)
Definition face_geom_rule_as_specified (nodes : list Z) : Geometry_Type :=
  if (rd nodes 0 =? rd nodes 1) && (rd nodes 2 =? rd nodes 3) then SEGMENT
  else if rd nodes 3 =? -1 then TRIANGLE
  else SQUARE.

(** ** Identity registry *)

(** Modelled from the spec: [UniqueIndexGenerator] is declared in
    submesh_utils.hpp, which is not among the sources.  Section 4.1 gives its
    contract: a counter of allocated ids and a dictionary from parent id to
    submesh id; [Get] looks the parent id up, and on a miss stores the
    current counter under it, reports "new" and advances the counter. *)
Record UniqueIndexGenerator := mkGen { counter : Z; idx : gmap Z Z }.

Definition empty_generator : UniqueIndexGenerator := mkGen 0 ∅.

(** [int Get(int i, bool &new_index)]: the result is the id, the flag and the
    generator after the call. *)
Definition Get (i : Z) (g : UniqueIndexGenerator) : Z * bool * UniqueIndexGenerator :=
  match idx g !! i with
  | Some v => (v, false, g)
  | None => (counter g, true, mkGen (counter g + 1) (<[i := counter g]> (idx g)))
  end.

(** A sequence of [Get] calls, oldest first. *)
Definition get_all (ps : list Z) (g : UniqueIndexGenerator) : UniqueIndexGenerator :=
  foldl (fun g p => (Get p g).2) g ps.

(** The parent ids of [ps] in the order in which they were first touched. *)
Definition first_touch_from (acc ps : list Z) : list Z :=
  foldl (fun acc p => if decide (p ∈ acc) then acc else acc ++ [p]) acc ps.

Definition first_touch (ps : list Z) : list Z := first_touch_from [] ps.

(** ** Standard-library algorithms used by the constructor *)

(** [std::lexicographical_compare] on two ranges of [int]. *)
Fixpoint lexicographical_compare (a b : list Z) : bool :=
  match a, b with
  | _, [] => false
  | [], _ :: _ => true
  | x :: a', y :: b' =>
      if x <? y then true
      else if y <? x then false
      else lexicographical_compare a' b'
  end.

(** [std::sort] on a range of [int] (ascending). *)
Fixpoint sort_insert (x : Z) (l : list Z) : list Z :=
  match l with
  | [] => [x]
  | y :: l' => if x <=? y then x :: l else y :: sort_insert x l'
  end.

Definition sort_ints (l : list Z) : list Z := foldr sort_insert [] l.

(** [std::is_sorted(first, last, comp)]: no element is smaller than its
    predecessor. *)
Fixpoint is_sorted {A} (comp : A → A → bool) (l : list A) : bool :=
  match l with
  | x :: t => match t with
              | y :: _ => negb (comp y x) && is_sorted comp t
              | [] => true
              end
  | [] => true
  end.

(** [std::stable_sort(first, last, comp)].  The standard fixes the result for
    a strict weak ordering [comp]: the sorted arrangement in which equivalent
    elements keep their relative order.  It is computed here by insertion
    from the right: an element moves behind exactly the leading elements
    that are smaller than it, so equivalent elements never change places. *)
Fixpoint stable_insert {A} (comp : A → A → bool) (x : A) (l : list A) : list A :=
  match l with
  | [] => [x]
  | y :: l' => if comp y x then y :: stable_insert comp x l' else x :: l
  end.

Definition stable_sort {A} (comp : A → A → bool) (l : list A) : list A :=
  foldr (stable_insert comp) [] l.

(** [std::iota(first, last, 0)] on an array of [n] entries. *)
Definition iota (n : nat) : list nat := seq 0 n.

(** [std::set<int>::insert]: the set is its ascending iteration order. *)
Fixpoint set_insert (x : Z) (s : list Z) : list Z :=
  match s with
  | [] => [x]
  | y :: s' => if x <? y then x :: s
               else if x =? y then s
               else y :: set_insert x s'
  end.

(** [m[k]] on a [std::unordered_map<int,int>]: a missing key is inserted
    with the value-initialised [0]. *)
Definition umap_index (m : gmap Z Z) (k : Z) : Z * gmap Z Z :=
  match m !! k with
  | Some v => (v, m)
  | None => (0, <[k := 0]> m)
  end.

(** ** Mesh data *)

(** Modelled from the spec: the refinement tags of ncmesh.hpp used by the
    constructor; what matters to it is that they differ from the 0 of an
    unrefined element. *)
Definition Refinement_X : Z := 1.
Definition Refinement_XY : Z := 3.

(** [std::numeric_limits<int>::max()]. *)
Definition INT_MAX : Z := 2147483647.

(** Modelled from the spec: [NCMesh::Element] is declared in ncmesh.hpp,
    which is not among the sources.  Section 3 lists its attributes; node
    references are valid only on a leaf and child references only on an
    internal element, the two arrays sharing their storage (field [node],
    [MaxElemChildren] entries, read as [child] on internal elements).  A new
    element has no refinement, rank 0, no parent and every slot [-1]. *)
Record Element := mkElement {
  geom : Geometry_Type;
  ref_type : Z;
  rank : Z;
  attribute : Z;
  node : list Z;
  parent : Z;
  index : Z
}.

Definition child (e : Element) : list Z := node e.

Definition new_Element (g : Geometry_Type) (attr : Z) : Element :=
  mkElement g 0 0 attr (replicate MaxElemChildren (-1)) (-1) (-1).

#[global] Instance Element_inhabited : Inhabited Element := populate (new_Element POINT 0).

Definition IsLeaf (e : Element) : bool := ref_type e =? 0.

Definition set_ref_type (v : Z) (e : Element) : Element :=
  mkElement (geom e) v (rank e) (attribute e) (node e) (parent e) (index e).
Definition set_rank (v : Z) (e : Element) : Element :=
  mkElement (geom e) (ref_type e) v (attribute e) (node e) (parent e) (index e).
Definition set_node (v : list Z) (e : Element) : Element :=
  mkElement (geom e) (ref_type e) (rank e) (attribute e) v (parent e) (index e).
Definition set_parent (v : Z) (e : Element) : Element :=
  mkElement (geom e) (ref_type e) (rank e) (attribute e) (node e) v (index e).
Definition set_index (v : Z) (e : Element) : Element :=
  mkElement (geom e) (ref_type e) (rank e) (attribute e) (node e) (parent e) v.

(** [elements[i].f = v]. *)
Definition upd (i : Z) (f : Element → Element) (els : list Element) : list Element :=
  alter f (Z.to_nat i) els.

(** Modelled from the spec: [AddElement] is a member of the mesh base class
    (ncmesh.hpp): the element is appended to the element array and its index
    returned. *)
Definition AddElement (e : Element) (els : list Element) : Z * list Element :=
  (Z.of_nat (length els), els ++ [e]).

(** A face record of the parent mesh; [unused] is the result of
    [face.Unused()]. *)
Record Face := mkFace {
  unused : bool;
  f_attribute : Z;
  f_index : Z;
  elem0 : Z;
  elem1 : Z
}.

Inductive MeshIdType := UNRECOGNIZED | CONFORMING | MASTER | SLAVE.

#[global] Instance MeshIdType_eq_dec : EqDecision MeshIdType.
Proof. solve_decision. Defined.

(** An entry of the geometry table [GI]: the vertex count and the edges as
    pairs of local vertex indices ([ne] is the number of pairs). *)
Record GeomInfo := mkGeomInfo { nv : nat; edges : list (Z * Z) }.

(** The parent mesh as the constructor consumes it (section 6 of the
    specification): its element and face tables and the look-ups it answers.
    [p_faces] are the slots of the face table in index order and
    [faces_Size] is [faces.Size()], the number of faces in use.
    [ParentFaceNodes] returns the child slot ([-1] for a root face) together
    with the node tuple it leaves in its by-reference argument. *)
Record ParNCMesh := mkParNCMesh {
  p_elements : list Element;
  p_faces : list Face;
  faces_Size : Z;
  FindFaceNodes : Face → list Z;
  ParentFaceNodes : list Z → Z * list Z;
  faces_FindId : Z → Z → Z → Z → Z;
  nodes_FindId : Z → Z → Z;
  GetMeshIdType : Z → MeshIdType;
  GI : Geometry_Type → GeomInfo;
  vertex_nodeId : list Z
}.

(** Modelled from the spec: [HasAttribute] (submesh_utils.hpp) tells whether
    the attribute of an element or face is in the requested set. *)
Definition HasAttribute (attr : Z) (attributes : list Z) : bool :=
  bool_decide (attr ∈ attributes).

(** ** The map from parent face nodes to new elements *)

(** [FaceNodes::operator<]: both tuples are sorted, then compared
    lexicographically. *)
Definition FaceNodes_lt (t1 t2 : list Z) : bool :=
  lexicographical_compare (sort_ints t1) (sort_ints t2).

(** Two keys of the [std::map] are the same key when neither is less. *)
Definition FaceNodes_equiv (t1 t2 : list Z) : bool :=
  negb (FaceNodes_lt t1 t2) && negb (FaceNodes_lt t2 t1).

(** [pnodes_new_elem.find(fn)]: the stored key and the element id. *)
Definition map_find (fn : list Z) (m : list (list Z * Z)) : option (list Z * Z) :=
  List.find (fun kv => FaceNodes_equiv fn kv.1) m.

(** [pnodes_new_elem.emplace(fn, id)]: nothing is stored when the key is
    already present. *)
Definition map_emplace (fn : list Z) (id : Z) (m : list (list Z * Z)) : list (list Z * Z) :=
  match map_find fn m with
  | Some _ => m
  | None => m ++ [(fn, id)]
  end.

(** [pnodes_new_elem.erase(key)]. *)
Definition map_erase (fn : list Z) (m : list (list Z * Z)) : list (list Z * Z) :=
  List.filter (fun kv => negb (FaceNodes_equiv fn kv.1)) m.

(** [pnodes_new_elem[fn] = id]. *)
Definition map_assign (fn : list Z) (id : Z) (m : list (list Z * Z)) : list (list Z * Z) :=
  match map_find fn m with
  | Some _ => List.map (fun kv => if FaceNodes_equiv fn kv.1 then (kv.1, id) else kv) m
  | None => m ++ [(fn, id)]
  end.

(** ** State of the construction *)

(** The members of the object under construction that the modelled passes
    touch, with the locals of the boundary branch that outlive its loops
    ([pnodes_new_elem], [new_nodes], [new_elem_to_parent_face_nodes],
    [node_ids]).  [asserts] records every [MFEM_ASSERT] reached, as the
    source line and the value of its condition. *)
Record NCState := mkState {
  elements : list Element;
  parent_element_ids_ : list Z;
  parent_to_submesh_element_ids_ : gmap Z Z;
  parent_node_ids_ : list Z;
  parent_to_submesh_node_ids_ : gmap Z Z;
  pnodes_new_elem : list (list Z * Z);
  new_nodes : list Z;
  new_elem_to_parent_face_nodes : list (list Z);
  node_ids : UniqueIndexGenerator;
  asserts : list (Z * bool)
}.

Definition init_state : NCState :=
  mkState [] [] ∅ [] ∅ [] [] [] empty_generator [].

Definition set_elements (v : list Element) (s : NCState) : NCState :=
  mkState v (parent_element_ids_ s) (parent_to_submesh_element_ids_ s)
    (parent_node_ids_ s) (parent_to_submesh_node_ids_ s) (pnodes_new_elem s)
    (new_nodes s) (new_elem_to_parent_face_nodes s) (node_ids s) (asserts s).
Definition set_parent_element_ids (v : list Z) (s : NCState) : NCState :=
  mkState (elements s) v (parent_to_submesh_element_ids_ s)
    (parent_node_ids_ s) (parent_to_submesh_node_ids_ s) (pnodes_new_elem s)
    (new_nodes s) (new_elem_to_parent_face_nodes s) (node_ids s) (asserts s).
Definition set_parent_to_submesh_element_ids (v : gmap Z Z) (s : NCState) : NCState :=
  mkState (elements s) (parent_element_ids_ s) v
    (parent_node_ids_ s) (parent_to_submesh_node_ids_ s) (pnodes_new_elem s)
    (new_nodes s) (new_elem_to_parent_face_nodes s) (node_ids s) (asserts s).
Definition set_parent_node_ids (v : list Z) (s : NCState) : NCState :=
  mkState (elements s) (parent_element_ids_ s) (parent_to_submesh_element_ids_ s)
    v (parent_to_submesh_node_ids_ s) (pnodes_new_elem s)
    (new_nodes s) (new_elem_to_parent_face_nodes s) (node_ids s) (asserts s).
Definition set_parent_to_submesh_node_ids (v : gmap Z Z) (s : NCState) : NCState :=
  mkState (elements s) (parent_element_ids_ s) (parent_to_submesh_element_ids_ s)
    (parent_node_ids_ s) v (pnodes_new_elem s)
    (new_nodes s) (new_elem_to_parent_face_nodes s) (node_ids s) (asserts s).
Definition set_pnodes_new_elem (v : list (list Z * Z)) (s : NCState) : NCState :=
  mkState (elements s) (parent_element_ids_ s) (parent_to_submesh_element_ids_ s)
    (parent_node_ids_ s) (parent_to_submesh_node_ids_ s) v
    (new_nodes s) (new_elem_to_parent_face_nodes s) (node_ids s) (asserts s).
Definition set_new_nodes (v : list Z) (s : NCState) : NCState :=
  mkState (elements s) (parent_element_ids_ s) (parent_to_submesh_element_ids_ s)
    (parent_node_ids_ s) (parent_to_submesh_node_ids_ s) (pnodes_new_elem s)
    v (new_elem_to_parent_face_nodes s) (node_ids s) (asserts s).
Definition set_face_nodes_table (v : list (list Z)) (s : NCState) : NCState :=
  mkState (elements s) (parent_element_ids_ s) (parent_to_submesh_element_ids_ s)
    (parent_node_ids_ s) (parent_to_submesh_node_ids_ s) (pnodes_new_elem s)
    (new_nodes s) v (node_ids s) (asserts s).
Definition set_node_ids (v : UniqueIndexGenerator) (s : NCState) : NCState :=
  mkState (elements s) (parent_element_ids_ s) (parent_to_submesh_element_ids_ s)
    (parent_node_ids_ s) (parent_to_submesh_node_ids_ s) (pnodes_new_elem s)
    (new_nodes s) (new_elem_to_parent_face_nodes s) v (asserts s).
Definition MFEM_ASSERT (line : Z) (cond : bool) (s : NCState) : NCState :=
  mkState (elements s) (parent_element_ids_ s) (parent_to_submesh_element_ids_ s)
    (parent_node_ids_ s) (parent_to_submesh_node_ids_ s) (pnodes_new_elem s)
    (new_nodes s) (new_elem_to_parent_face_nodes s) (node_ids s)
    (asserts s ++ [(line, cond)]).

(** ** Boundary extraction: discovery (pncsubmesh.cpp:191-348) *)

(** The reordering of the child slots of an already wired parent
    (pncsubmesh.cpp:320-327).  [fn] is the newly found node order, [key] the
    stored one, [old_child] the parent's child array and [local] the
    indeterminate initial content of the local array [child].  For every
    [i1] the first [i2] with [fn[i1] == key[i2]] receives
    [old_child[i1]]; the first [MaxFaceNodes] slots are then copied back. *)
Definition reorder_child_local (fn key old_child local : list Z) : list Z :=
  foldl (fun child i1 =>
           match List.find (fun i2 => rd fn (Z.of_nat i1) =? rd key (Z.of_nat i2))
                           (seq 0 MaxFaceNodes) with
           | Some i2 => <[i2 := rd old_child (Z.of_nat i1)]> child
           | None => child
           end) local (seq 0 MaxFaceNodes).

Definition reorder_children (fn key old_child local : list Z) : list Z :=
  take MaxFaceNodes (reorder_child_local fn key old_child local)
  ++ drop MaxFaceNodes old_child.

Section Boundary.

Variable parent_mesh : ParNCMesh.
Variable Dim : Z.
Variable attributes : list Z.
(** What the uninitialised local array [child] of line 320 holds
    ([MaxFaceNodes] entries). *)
Variable indeterminate : list Z.

(** Lines 334-338: mark the parent as refined and connect parent and child. *)
Definition wire (pelem_id child_slot new_elem_id : Z) (els : list Element) : list Element :=
  let els := upd pelem_id (set_ref_type (if Dim =? 2 then Refinement_XY else Refinement_X)) els in
  let els := upd pelem_id (fun e => set_node (wr (child e) child_slot new_elem_id) e) els in
  upd new_elem_id (set_parent pelem_id) els.

(** Lines 303-331: the stored parent disagrees with the node order found. *)
Definition fix_parent_elem (fn key : list Z) (pelem_id : Z) (s : NCState) : NCState :=
  let parent_elem := rd (elements s) pelem_id in
  let els :=
    if IsLeaf parent_elem then
      upd pelem_id (fun e => set_node (replicate MaxElemNodes (-1) ++ drop MaxElemNodes (node e)) e)
          (elements s)
    else
      upd pelem_id (fun e => set_node (reorder_children fn key (child e) indeterminate) e)
          (elements s) in
  set_pnodes_new_elem (map_emplace fn pelem_id (map_erase key (pnodes_new_elem s)))
    (set_elements els s).

(** The [while (true)] loop of lines 269-344.  The boolean tells whether the
    loop was left through one of its [break]s within [fuel] iterations. *)
Fixpoint ascend (fuel : nat) (face_attr : Z) (elem_geom : Geometry_Type)
    (face_type : MeshIdType) (fn : list Z) (new_elem_id : Z) (s : NCState)
    : NCState * bool :=
  match fuel with
  | O => (s, false)
  | S fuel' =>
      let '(child_slot, fn) := ParentFaceNodes parent_mesh fn in
      if child_slot =? -1 then
        (set_elements (upd new_elem_id (set_parent (-1)) (elements s)) s, true)
      else
        match map_find fn (pnodes_new_elem s) with
        | None =>
            let '(pelem_id, els) :=
              AddElement (new_Element (face_geom_from_nodes fn) face_attr) (elements s) in
            let s := set_elements els s in
            let s := set_pnodes_new_elem (map_emplace fn pelem_id (pnodes_new_elem s)) s in
            let parent_face_id :=
              faces_FindId parent_mesh (rd fn 0) (rd fn 1) (rd fn 2) (rd fn 3) in
            let s := set_parent_element_ids (parent_element_ids_ s ++ [parent_face_id]) s in
            let s := set_elements (wire pelem_id child_slot new_elem_id (elements s)) s in
            ascend fuel' face_attr elem_geom face_type fn pelem_id s
        | Some (key, pelem_id) =>
            if ((bool_decide (elem_geom = TRIANGLE) && negb (child_slot =? 3))
                || negb (bool_decide (face_type = UNRECOGNIZED)))
               && negb (bool_decide (fn = key))
            then
              let s := fix_parent_elem fn key pelem_id s in
              let s := set_elements (wire pelem_id child_slot new_elem_id (elements s)) s in
              ascend fuel' face_attr elem_geom face_type fn pelem_id s
            else
              (set_elements (wire pelem_id child_slot new_elem_id (elements s)) s, true)
        end
  end.

(** Lines 225-236: the rank of a new face element. *)
Definition face_rank (face : Face) : Z :=
  let rank0 := if 0 <=? elem0 face then rank (rd (p_elements parent_mesh) (elem0 face)) else -1 in
  let rank1 := if 0 <=? elem1 face then rank (rd (p_elements parent_mesh) (elem1 face)) else -1 in
  if rank0 <? 0 then rank1
  else if rank1 <? 0 then rank0
  else if rank0 <? rank1 then rank0 else rank1.

(** Lines 206-344: the body of the face loop for the used face in slot
    [i]. *)
Definition visit_face (fuel : nat) (i : Z) (face : Face) (s : NCState) : NCState * bool :=
  let elem := rd (p_elements parent_mesh)
                 (if 0 <=? elem0 face then elem0 face else elem1 face) in
  if negb (HasAttribute (f_attribute face) attributes)
     || bool_decide (GetMeshIdType parent_mesh (f_index face) = MASTER)
  then (s, true)
  else
    let face_type := GetMeshIdType parent_mesh (f_index face) in
    let fn := FindFaceNodes parent_mesh face in
    match map_find fn (pnodes_new_elem s) with
    | Some _ => (s, true)
    | None =>
        let s := MFEM_ASSERT 218 ((elem0 face <? 0) || (elem1 face <? 0)) s in
        let face_geom := face_geom_from_nodes fn in
        let '(new_elem_id, els) :=
          AddElement (new_Element face_geom (f_attribute face)) (elements s) in
        let s := set_elements (upd new_elem_id (set_rank (face_rank face)) els) s in
        let s := set_pnodes_new_elem (map_assign fn new_elem_id (pnodes_new_elem s)) s in
        let s := set_parent_element_ids (parent_element_ids_ s ++ [i]) s in
        let s := set_parent_to_submesh_element_ids
                   (<[i := new_elem_id]> (parent_to_submesh_element_ids_ s)) s in
        let s := set_elements
                   (upd new_elem_id
                        (fun e => set_node (take MaxFaceNodes fn ++ drop MaxFaceNodes (node e)) e)
                        (elements s)) s in
        let s := set_new_nodes
                   (foldl (fun ns x => if x =? -1 then ns else set_insert x ns)
                          (new_nodes s) (take MaxFaceNodes fn)) s in
        let gi := GI parent_mesh face_geom in
        let s := set_new_nodes
                   (foldl (fun ns e => set_insert
                                         (nodes_FindId parent_mesh (rd fn e.1) (rd fn e.2)) ns)
                          (new_nodes s) (edges gi)) s in
        ascend fuel (f_attribute face) (geom elem) face_type fn new_elem_id s
    end.

(** The face loop of lines 201-345: [i] runs over the slots of the face
    table, [ipe] counts the used ones, and the loop ends once
    [parent.faces.Size()] used faces were seen ([slots] are the slots from
    [i] on).  The boolean is false when some ascent did not finish within
    [fuel] iterations. *)
Fixpoint face_loop (fuel : nat) (slots : list Face) (i ipe : Z)
    (s : NCState) : NCState * bool :=
  match slots with
  | [] => (s, true)
  | face :: slots' =>
      if ipe <? faces_Size parent_mesh then
        if unused face then face_loop fuel slots' (i + 1) ipe s
        else
          let '(s, ok) := visit_face fuel i face s in
          let '(s, ok') := face_loop fuel slots' (i + 1) (ipe + 1) s in
          (s, ok && ok')
      else (s, true)
  end.

(** Lines 191-349: discovery, the size assertion, and the side table of
    parent face nodes, which is created value-initialised with one entry per
    key of [pnodes_new_elem] and not written afterwards. *)
Definition discover (fuel : nat) : NCState * bool :=
  let '(s, ok) := face_loop fuel (p_faces parent_mesh) 0 0 init_state in
  let s := MFEM_ASSERT 348
             (bool_decide (length (parent_element_ids_ s) = length (elements s))) s in
  (set_face_nodes_table
     (replicate (length (pnodes_new_elem s)) (replicate MaxFaceNodes 0)) s, ok).

End Boundary.

(** Lines 86-95 and 364-372: the collected nodes are registered in ascending
    order; [line] is the line of the assertion of the loop at hand. *)
Definition register_node (line : Z) (s : NCState) (n : Z) : NCState :=
  let '(new_node_id, new_node, g) := Get n (node_ids s) in
  let s := set_node_ids g s in
  let s := MFEM_ASSERT line new_node s in
  let s := set_parent_node_ids (parent_node_ids_ s ++ [n]) s in
  set_parent_to_submesh_node_ids (<[n := new_node_id]> (parent_to_submesh_node_ids_ s)) s.

Definition register_new_nodes (line : Z) (s : NCState) : NCState :=
  foldl (register_node line) s (new_nodes s).

(** ** Boundary extraction: reordering (pncsubmesh.cpp:376-479) *)

(** The comparator [comp_elements] of lines 378-392, on the element array
    and the side table it captures by reference.  The table is read with
    [at()], which throws out of range; it has one entry per element
    throughout (lemmas [discover_table_size] and [reorder_step_table_size]),
    so the read is modelled as a plain look-up. *)
Definition comp_elements (els : list Element) (tbl : list (list Z)) (l r : nat) : bool :=
  let elem_l := els !!! l in
  let elem_r := els !!! r in
  if parent elem_l =? parent elem_r then
    lexicographical_compare (tbl !!! l) (tbl !!! r)
  else parent elem_l <? parent elem_r.

(** [parental_sorted] of lines 394-400. *)
Definition parental_sorted (s : NCState) : bool :=
  is_sorted (comp_elements (elements s) (new_elem_to_parent_face_nodes s))
            (iota (length (elements s))).

(** Modelled from the spec: [Permute] (submesh_utils.hpp) applies the
    permutation [new_to_old] to an array: entry [i] of the result is entry
    [new_to_old[i]] of the argument. *)
Definition Permute {A} `{Inhabited A} (new_to_old : list nat) (a : list A) : list A :=
  (fun i => a !!! i) <$> new_to_old.

(** Lines 449-452: [old_to_new[new_to_old[i]] = i].  The array is created
    without initial values; every entry is written when [new_to_old] is a
    permutation, as the sort leaves it. *)
Definition invert (new_to_old : list nat) : list Z :=
  foldl (fun otn i => <[new_to_old !!! i := Z.of_nat i]> otn)
        (replicate (length new_to_old) 0) (seq 0 (length new_to_old)).

(** Lines 457-462: the inverse index map is rebuilt from
    [parent_element_ids_], entries [-1] being skipped. *)
Definition rebuild_entry (pe : list Z) (m : gmap Z Z) (i : nat) : gmap Z Z :=
  if rd pe (Z.of_nat i) =? -1 then m
  else <[rd pe (Z.of_nat i) := Z.of_nat i]> m.

Definition rebuild_parent_to_submesh (pe : list Z) : gmap Z Z :=
  foldl (rebuild_entry pe) ∅ (seq 0 (length pe)).

(** Lines 471-475: the child loop of the internal element [i], which stops
    at the first negative child.  [cs] are the slots still to visit. *)
Fixpoint remap_children (old_to_new : list Z) (i : nat) (cs : list nat)
    (els : list Element) : list Element :=
  match cs with
  | [] => els
  | c :: cs' =>
      if 0 <=? child (els !!! i) !!! c then
        let els := alter (fun e => set_node (<[c := rd old_to_new (child e !!! c)]> (child e)) e)
                         i els in
        let els := alter (fun e => set_rank
                                     (Z.min (rank e) (rank (rd els (child (els !!! i) !!! c)))) e)
                         i els in
        remap_children old_to_new i cs' els
      else els
  end.

(** Lines 467-477: the body of the loop over the elements, for element
    [i]. *)
Definition relink_element (old_to_new : list Z) (els : list Element) (i : nat)
    : list Element :=
  let els :=
    if negb (IsLeaf (els !!! i)) then
      remap_children old_to_new i (seq 0 MaxElemChildren)
                     (alter (set_rank INT_MAX) i els)
    else els in
  alter (fun e => set_parent (if parent e =? -1 then -1 else rd old_to_new (parent e)) e) i els.

(** Lines 444-446: the permutation computed by an iteration of the loop. *)
Definition sorted_new_to_old (s : NCState) : list nat :=
  stable_sort (comp_elements (elements s) (new_elem_to_parent_face_nodes s))
              (iota (length (elements s))).

(** Lines 444-478: one iteration of the reordering loop. *)
Definition reorder_step (s : NCState) : NCState :=
  let new_to_old := sorted_new_to_old s in
  let old_to_new := invert new_to_old in
  let els := Permute new_to_old (elements s) in
  let pe := Permute new_to_old (parent_element_ids_ s) in
  let tbl := Permute new_to_old (new_elem_to_parent_face_nodes s) in
  let m := rebuild_parent_to_submesh pe in
  let els := foldl (relink_element old_to_new) els (seq 0 (length els)) in
  set_elements els
    (set_parent_element_ids pe
       (set_face_nodes_table tbl
          (set_parent_to_submesh_element_ids m s))).

(** Lines 440-479: [while (!parental_sorted(elements)) { ... }].  The result
    is the final state and the number of sorts, or [None] when the loop is
    still running after [fuel] iterations. *)
Fixpoint reorder_loop (fuel : nat) (s : NCState) : option (NCState * nat) :=
  if parental_sorted s then Some (s, O)
  else match fuel with
       | O => None
       | S fuel' =>
           match reorder_loop fuel' (reorder_step s) with
           | Some (s', sorts) => Some (s', S sorts)
           | None => None
           end
       end.

(** The permutations applied by the iterations of the loop, first to last
    (as far as [fuel] iterations go). *)
Fixpoint reorder_permutations (fuel : nat) (s : NCState) : list (list nat) :=
  if parental_sorted s then []
  else match fuel with
       | O => []
       | S fuel' => sorted_new_to_old s :: reorder_permutations fuel' (reorder_step s)
       end.

(** The boundary branch up to line 479: discovery, node registration and
    reordering. *)
Definition boundary_pass (parent_mesh : ParNCMesh) (Dim : Z) (attributes indeterminate : list Z)
    (fuel : nat) : option (NCState * nat) :=
  let '(s, ok) := discover parent_mesh Dim attributes indeterminate fuel in
  if ok then reorder_loop fuel (set_new_nodes [] (register_new_nodes 368 s)) else None.

(** ** Domain extraction (pncsubmesh.cpp:52-166) *)

(** The node and face tables of the submesh ([nodes.Alloc], the reference
    counts, [faces.GetId]) are written by this pass and never read by it;
    they are not part of the state, and the face loop of lines 141-154, which
    only fills the face table, is left out. *)

Section Domain.

Variable parent_mesh : ParNCMesh.
Variable attributes : list Z.
(** Services of the owning submesh object. *)
Variable GetSubMeshElementFromParent : Z → Z.
Variable ParentVertexIDMap : list Z.
(** The table [ref_type_num_children] of ncmesh_tables.hpp. *)
Variable ref_type_num_children : Z → nat.

(** Lines 62-81: the body of the first walk for the parent element [ipe]. *)
Definition copy_element (s : NCState) (ipe : nat) : NCState :=
  let pe := p_elements parent_mesh !!! ipe in
  if negb (HasAttribute (attribute pe) attributes) then s
  else
    let '(elem_id, els) := AddElement pe (elements s) in
    let s := set_elements els s in
    let s := set_parent_element_ids (parent_element_ids_ s ++ [Z.of_nat ipe]) s in
    let s := set_parent_to_submesh_element_ids
               (<[Z.of_nat ipe := elem_id]> (parent_to_submesh_element_ids_ s)) s in
    let s := set_elements
               (upd elem_id (fun el => set_index (GetSubMeshElementFromParent (index el)) el)
                    (elements s)) s in
    if negb (IsLeaf pe) then s
    else
      let gi := GI parent_mesh (geom pe) in
      let el := rd (elements s) elem_id in
      let s := set_new_nodes
                 (foldl (fun ns n => set_insert (node el !!! n) ns)
                        (new_nodes s) (seq 0 (nv gi))) s in
      set_new_nodes
        (foldl (fun ns e => set_insert
                              (nodes_FindId parent_mesh (rd (node el) e.1) (rd (node el) e.2)) ns)
               (new_nodes s) (edges gi)) s.

(** Lines 60-82. *)
Definition first_walk (s : NCState) : NCState :=
  foldl copy_element s (seq 0 (length (p_elements parent_mesh))).

(** Lines 101-109: every submesh vertex is bound to its node. *)
Definition bind_vertex (s : NCState) (iv : nat) : NCState :=
  let parent_vertex_id := ParentVertexIDMap !!! iv in
  let parent_node_id := rd (vertex_nodeId parent_mesh) parent_vertex_id in
  let '(new_node_id, new_node, g) := Get parent_node_id (node_ids s) in
  MFEM_ASSERT 107 (negb new_node) (set_node_ids g s).

(** Lines 119-125: the vertex slot [n] of the leaf [k] is relabelled. *)
Definition relabel_vertex (k : nat) (s : NCState) (n : nat) : NCState :=
  let el := elements s !!! k in
  let '(id, new_id, g) := Get (node el !!! n) (node_ids s) in
  let s := set_node_ids g s in
  let s := set_elements (alter (fun el => set_node (<[n := id]> (node el)) el) k (elements s)) s in
  MFEM_ASSERT 123 (negb new_id) s.

(** Lines 126-140: the edge [e] of the leaf [k] is referenced, its node
    being created on first encounter. *)
Definition reference_edge (k : nat) (s : NCState) (e : Z * Z) : NCState :=
  let el := elements s !!! k in
  let pid := nodes_FindId parent_mesh
               (rd (parent_node_ids_ s) (rd (node el) e.1))
               (rd (parent_node_ids_ s) (rd (node el) e.2)) in
  let s := MFEM_ASSERT 131 (0 <=? pid) s in
  let '(submesh_node_id, new_id, g) := Get pid (node_ids s) in
  let s := set_node_ids g s in
  if new_id then
    set_parent_to_submesh_node_ids
      (<[pid := submesh_node_id]> (parent_to_submesh_node_ids_ s))
      (set_parent_node_ids (parent_node_ids_ s ++ [pid]) s)
  else s.

(** Lines 159-162: the child slot [i] of the internal element [k] is
    remapped; the look-up inserts a missing key. *)
Definition remap_child (k : nat) (s : NCState) (i : nat) : NCState :=
  let el := elements s !!! k in
  let '(v, m) := umap_index (parent_to_submesh_element_ids_ s) (child el !!! i) in
  set_elements (alter (fun el => set_node (<[i := v]> (child el)) el) k (elements s))
    (set_parent_to_submesh_element_ids m s).

(** Lines 114-164: the body of the second walk for the element [k].  The
    boolean is false when [parent_to_submesh_element_ids_.at] throws. *)
Definition relabel_element (k : nat) (s : NCState) : NCState * bool :=
  let el := elements s !!! k in
  let s :=
    if IsLeaf el then
      let gi := GI parent_mesh (geom el) in
      let s := foldl (relabel_vertex k) s (seq 0 (nv gi)) in
      foldl (reference_edge k) s (edges gi)
    else
      foldl (remap_child k) s (seq 0 (ref_type_num_children (ref_type el))) in
  let el := elements s !!! k in
  if parent el <? 0 then (s, true)
  else
    match parent_to_submesh_element_ids_ s !! parent el with
    | Some v => (set_elements (alter (set_parent v) k (elements s)) s, true)
    | None => (s, false)
    end.

(** Lines 112-165: the walk over the elements [ks] still to visit. *)
Fixpoint second_walk (ks : list nat) (s : NCState) : NCState * bool :=
  match ks with
  | [] => (s, true)
  | k :: ks' =>
      let '(s, ok) := relabel_element k s in
      if ok then second_walk ks' s else (s, false)
  end.

(** Lines 57-166: the domain branch. *)
Definition domain_pass : NCState * bool :=
  let s := first_walk init_state in
  let s := register_new_nodes 90 s in
  let s := foldl bind_vertex s (seq 0 (length ParentVertexIDMap)) in
  second_walk (seq 0 (length (elements s))) s.

End Domain.
(** ** Boundary extraction: signing in the leaves (pncsubmesh.cpp:481-516) *)

(** As in the domain pass, the node and face tables of the submesh (the
    reference counts of lines 496 and 502, the faces of lines 505-514) are
    written and never read; they are not part of the state. *)

Section BoundaryLeaves.

Variable parent_mesh : ParNCMesh.

(** Lines 489-497: the edge [e] of the leaf [k] is signed in.  The nodes of
    the leaf are still those of the parent mesh. *)
Definition sign_in_edge (k : nat) (s : NCState) (e : Z * Z) : NCState :=
  let elem := elements s !!! k in
  let pid := nodes_FindId parent_mesh (rd (node elem) e.1) (rd (node elem) e.2) in
  let s := MFEM_ASSERT 493 (0 <=? pid) s in
  let '(submesh_node_id, new_id, g) := Get pid (node_ids s) in
  let s := set_node_ids g s in
  MFEM_ASSERT 495 (negb new_id) s.

(** Lines 498-503: the vertex slot [n] of the leaf [k] is relabelled; the
    look-up of line 501 inserts a missing key. *)
Definition relabel_leaf_vertex (k : nat) (s : NCState) (n : nat) : NCState :=
  let elem := elements s !!! k in
  let s := MFEM_ASSERT 500
             (bool_decide (is_Some (parent_to_submesh_node_ids_ s !! (node elem !!! n)))) s in
  let '(v, m) := umap_index (parent_to_submesh_node_ids_ s) (node elem !!! n) in
  set_elements (alter (fun el => set_node (<[n := v]> (node el)) el) k (elements s))
    (set_parent_to_submesh_node_ids m s).

(** Lines 484-515: the body of the loop for the element [k]. *)
Definition sign_in_leaf (s : NCState) (k : nat) : NCState :=
  let elem := elements s !!! k in
  if IsLeaf elem then
    let gi := GI parent_mesh (geom elem) in
    let s := foldl (sign_in_edge k) s (edges gi) in
    foldl (relabel_leaf_vertex k) s (seq 0 (nv gi))
  else s.

(** Lines 482-516. *)
Definition sign_in_leaves (s : NCState) : NCState :=
  foldl sign_in_leaf s (seq 0 (length (elements s))).

End BoundaryLeaves.

(** The boundary branch (lines 167-517). *)
Definition boundary_branch (parent_mesh : ParNCMesh) (Dim : Z)
    (attributes indeterminate : list Z) (fuel : nat) : option (NCState * nat) :=
  match boundary_pass parent_mesh Dim attributes indeterminate fuel with
  | Some (s, sorts) => Some (sign_in_leaves parent_mesh s, sorts)
  | None => None
  end.

(** ** After the branches (pncsubmesh.cpp:519-567) *)

Section Finish.

(** [parent.nodes[id]]: the two parents [(p1, p2)] of a node of the parent
    mesh. *)
Variable parent_nodes : Z → Z * Z.

(** Lines 522-525 for the submesh node [i]: the submesh ids of the two
    parents are looked up with [operator[]], which inserts a missing key.
    The result is the state and the arguments of [nodes.Reparent]. *)
Definition reparent_node (s : NCState) (i : nat) : NCState * (Z * Z * Z) :=
  let '(p1, p2) := parent_nodes (rd (parent_node_ids_ s) (Z.of_nat i)) in
  let '(submesh_p1, m) := umap_index (parent_to_submesh_node_ids_ s) p1 in
  let '(submesh_p2, m) := umap_index m p2 in
  (set_parent_to_submesh_node_ids m s, (Z.of_nat i, submesh_p1, submesh_p2)).

(** Lines 520-526: the state after the loop and the calls of
    [nodes.Reparent] it made. *)
Definition reparent_nodes (s : NCState) : NCState * list (Z * Z * Z) :=
  foldl (fun '(s, calls) i => let '(s, call) := reparent_node s i in (s, calls ++ [call]))
        (s, []) (seq 0 (length (parent_node_ids_ s))).

(** The position of a node: the three consecutive entries of a coordinate
    array that [CalcVertexPos] returns and line 565 copies. *)
Variable Pos : Type.
Variable CalcVertexPos : Z → Pos.

(** Line 563-565 for the parent node [pn]; [coordinates] holds one position
    per submesh node, and a copy to an index beyond its end is dropped. *)
Definition copy_position (sc : NCState * list Pos) (pn : Z) : NCState * list Pos :=
  let '(s, coordinates) := sc in
  let '(n, new_node, g) := Get pn (node_ids s) in
  let s := MFEM_ASSERT 564 (negb new_node) (set_node_ids g s) in
  (s, <[Z.to_nat n := CalcVertexPos pn]> coordinates).

(** Lines 558-566, [initial] being the content of [coordinates] after
    [SetSize]. *)
Definition copy_coordinates (s : NCState) (initial : list Pos) : NCState * list Pos :=
  foldl copy_position (s, initial) (parent_node_ids_ s).

(** Lines 519-567 as far as the identity maps go: the reparenting loop and,
    when the parent has coordinates, the copy loop.  The calls of lines
    527-552 ([UpdateUnused], [RegisterFaces], [InitRootElements],
    [InitRootState], [InitGeomFlags], [Update]) are members of the mesh base
    class, which has no access to the four maps; lines 569-622 write the
    maps of the owning submesh object, not these. *)
Definition finish (has_coordinates : bool) (initial : list Pos) (s : NCState) : NCState :=
  let s := (reparent_nodes s).1 in
  if has_coordinates then (copy_coordinates s initial).1 else s.

End Finish.

(** The constructor on the boundary branch: the state of the four maps and
    of the element array when it returns, with the number of sorts; [None]
    when a loop of the model is still running after [fuel] iterations. *)
Definition construct_boundary (parent_mesh : ParNCMesh) (Dim : Z)
    (attributes indeterminate : list Z) (fuel : nat) (parent_nodes : Z → Z * Z)
    (Pos : Type) (CalcVertexPos : Z → Pos) (has_coordinates : bool) (initial : list Pos)
    : option (NCState * nat) :=
  match boundary_branch parent_mesh Dim attributes indeterminate fuel with
  | Some (s, sorts) =>
      Some (finish parent_nodes Pos CalcVertexPos has_coordinates initial s, sorts)
  | None => None
  end.

(** The constructor on the domain branch; [None] when the [at()] of line
    164 throws. *)
Definition construct_domain (parent_mesh : ParNCMesh) (attributes : list Z)
    (GetSubMeshElementFromParent : Z → Z) (ParentVertexIDMap : list Z)
    (ref_type_num_children : Z → nat) (parent_nodes : Z → Z * Z)
    (Pos : Type) (CalcVertexPos : Z → Pos) (has_coordinates : bool) (initial : list Pos)
    : option NCState :=
  let '(s, completed) :=
    domain_pass parent_mesh attributes GetSubMeshElementFromParent ParentVertexIDMap
                ref_type_num_children in
  if completed then Some (finish parent_nodes Pos CalcVertexPos has_coordinates initial s)
  else None.

(** ** A refined boundary edge of a two-dimensional mesh *)

(** The coarse boundary edge [(0,1)] was refined with midpoint 2; its
    halves [(0,2)] and [(2,1)] with midpoints 3 and 4; the quarter [(2,4)]
    with midpoint 5.  The face table holds the five leaf edges, each on the
    boundary of its own leaf element, all owned by rank 1.  Edges are stored
    as the node tuples [(a,a,b,b)]. *)
Definition edge_tree_leaf_element : Element :=
  mkElement SQUARE 0 1 1 (replicate MaxElemChildren (-1)) (-1) 0.

Definition edge_tree_faces : list (list Z) :=
  [ [0;0;3;3]; [2;2;5;5]; [3;3;2;2]; [5;5;4;4]; [4;4;1;1] ].

Definition edge_tree_parent (fn : list Z) : Z * list Z :=
  if bool_decide (fn = [0;0;3;3]) then (0, [0;0;2;2])
  else if bool_decide (fn = [3;3;2;2]) then (1, [0;0;2;2])
  else if bool_decide (fn = [2;2;5;5]) then (0, [2;2;4;4])
  else if bool_decide (fn = [5;5;4;4]) then (1, [2;2;4;4])
  else if bool_decide (fn = [2;2;4;4]) then (0, [2;2;1;1])
  else if bool_decide (fn = [4;4;1;1]) then (1, [2;2;1;1])
  else if bool_decide (fn = [0;0;2;2]) then (0, [0;0;1;1])
  else if bool_decide (fn = [2;2;1;1]) then (1, [0;0;1;1])
  else (-1, fn).

Definition edge_tree_mesh : ParNCMesh :=
  mkParNCMesh
    (replicate 5 edge_tree_leaf_element)
    ((fun i => mkFace false 1 (Z.of_nat i) (Z.of_nat i) (-1)) <$> seq 0 5)
    5
    (fun face => rd edge_tree_faces (f_index face))
    edge_tree_parent
    (fun a b c d =>
       match list_find (fun fn => fn = [a;b;c;d]) edge_tree_faces with
       | Some (i, _) => Z.of_nat i
       | None => -1
       end)
    (fun a b => if (a =? b) && (a <=? 1) then a else -1)
    (fun _ => UNRECOGNIZED)
    (fun g => match g with
              | SEGMENT => mkGeomInfo 2 [(0, 1)]
              | TRIANGLE => mkGeomInfo 3 [(0, 1); (1, 2); (2, 0)]
              | SQUARE => mkGeomInfo 4 [(0, 1); (1, 2); (2, 3); (3, 0)]
              | _ => mkGeomInfo 0 []
              end)
    [0; 1].

(** A root with two leaf children, already in tree order. *)
Definition small_sorted_state : NCState :=
  set_face_nodes_table (replicate 3 (replicate MaxFaceNodes 0))
    (set_parent_element_ids [-1; 0; 1]
       (set_elements
          [ set_node ([1; 2] ++ replicate 8 (-1)) (set_ref_type Refinement_X (new_Element SEGMENT 1));
            set_parent 0 (set_rank 2 (new_Element SEGMENT 1));
            set_parent 0 (set_rank 1 (new_Element SEGMENT 1)) ]
          init_state)).

(** The boundary branch on the refined edge: the state when the reordering
    loop is entered and the final state. *)
Definition edge_tree_discovered : NCState :=
  set_new_nodes [] (register_new_nodes 368 (discover edge_tree_mesh 1 [1] [0; 0; 0; 0] 10).1).

Definition edge_tree_result : NCState :=
  default init_state (fst <$> boundary_pass edge_tree_mesh 1 [1] [0; 0; 0; 0] 10).

(** A quadrilateral parent face with its four children wired, stored under
    the node order [(1,2,3,4)]: the elements 0..3 are the children at the
    corners 1, 2, 3 and 4, the element 4 is the parent. *)
Definition quad_family_state : NCState :=
  set_pnodes_new_elem [([1; 2; 3; 4], 4)]
    (set_parent_element_ids [0; 1; 2; 3; 4]
       (set_elements
          ((set_parent 4 <$> replicate 4 (new_Element SQUARE 1))
           ++ [set_node ([0; 1; 2; 3] ++ replicate 6 (-1))
                        (set_ref_type Refinement_XY (new_Element SQUARE 1))])
          init_state)).

(** ** A quadrilateral refined once, extracted as a domain *)

(** The root element 0 has the children 1..4; the corners are the nodes
    0..3, the edge midpoints 4..7 and the centre 8.  Every element carries
    attribute 1.  The node of the edge between [a] and [b] is looked up
    under an id of its own above the vertex nodes. *)
Definition quad_leaf (n0 n1 n2 n3 : Z) : Element :=
  mkElement SQUARE 0 0 1 ([n0; n1; n2; n3] ++ replicate 6 (-1)) 0 (-1).

Definition quad_domain_mesh : ParNCMesh :=
  mkParNCMesh
    [ mkElement SQUARE Refinement_XY 0 1 ([1; 2; 3; 4] ++ replicate 6 (-1)) (-1) (-1);
      quad_leaf 0 4 8 7; quad_leaf 4 1 5 8; quad_leaf 8 5 2 6; quad_leaf 7 8 6 3 ]
    []
    0
    (fun _ => [])
    (fun fn => (-1, fn))
    (fun _ _ _ _ => -1)
    (fun a b => 100 + 10 * Z.min a b + Z.max a b)
    (fun _ => UNRECOGNIZED)
    (fun g => match g with
              | SEGMENT => mkGeomInfo 2 [(0, 1)]
              | TRIANGLE => mkGeomInfo 3 [(0, 1); (1, 2); (2, 0)]
              | SQUARE => mkGeomInfo 4 [(0, 1); (1, 2); (2, 3); (3, 0)]
              | _ => mkGeomInfo 0 []
              end)
    [0; 1; 2; 3; 4; 5; 6; 7; 8].

Definition quad_domain_result : NCState * bool :=
  domain_pass quad_domain_mesh [1] (fun i => i) [0; 1; 2; 3; 4; 5; 6; 7; 8]
              (fun r => if r =? Refinement_XY then 4%nat else 2%nat).

Definition quad_domain_state : NCState := quad_domain_result.1.

Definition edge_tree_discovery : NCState := (discover edge_tree_mesh 1 [1] [0; 0; 0; 0] 10).1.

(** ** A master face whose fourth slave is stored from another vertex *)

(** The quadrilateral master face [(1,2,3,4)] (face 4) has the edge midpoints
    5..8 and the centre 9; its four slave faces (faces 0..3) touch the
    corners 1, 2, 3 and 4.  The first three are stored starting at the same
    vertex as the master, so the ascent finds the master as [(1,2,3,4)]; the
    fourth is stored as [(9,7,4,8)], its corner 4 in position 2, and the
    ascent finds the master as [(2,3,4,1)]. *)
Definition rotated_quad_faces : list (list Z) :=
  [ [1; 5; 9; 8]; [5; 2; 6; 9]; [9; 6; 3; 7]; [9; 7; 4; 8]; [1; 2; 3; 4] ].

Definition rotated_quad_parent (fn : list Z) : Z * list Z :=
  if bool_decide (fn = [1; 5; 9; 8]) then (0, [1; 2; 3; 4])
  else if bool_decide (fn = [5; 2; 6; 9]) then (1, [1; 2; 3; 4])
  else if bool_decide (fn = [9; 6; 3; 7]) then (2, [1; 2; 3; 4])
  else if bool_decide (fn = [9; 7; 4; 8]) then (2, [2; 3; 4; 1])
  else (-1, fn).

Definition rotated_quad_mesh : ParNCMesh :=
  mkParNCMesh
    (replicate 5 (mkElement CUBE 0 1 1 (replicate MaxElemChildren (-1)) (-1) 0))
    ((fun i => mkFace false 1 (Z.of_nat i) (Z.of_nat i) (-1)) <$> seq 0 5)
    5
    (fun face => rd rotated_quad_faces (f_index face))
    rotated_quad_parent
    (fun a b c d =>
       match list_find (fun fn => sort_ints fn = sort_ints [a; b; c; d]) rotated_quad_faces with
       | Some (i, _) => Z.of_nat i
       | None => -1
       end)
    (fun a b => 100 + 10 * Z.min a b + Z.max a b)
    (fun i => if i =? 4 then MASTER else SLAVE)
    (fun g => match g with
              | SEGMENT => mkGeomInfo 2 [(0, 1)]
              | TRIANGLE => mkGeomInfo 3 [(0, 1); (1, 2); (2, 0)]
              | SQUARE => mkGeomInfo 4 [(0, 1); (1, 2); (2, 3); (3, 0)]
              | _ => mkGeomInfo 0 []
              end)
    [].
(** ** The refined boundary edge, signed in *)

(** The state of the boundary branch on the refined edge after the final
    walk over the leaves. *)
Definition edge_tree_signed : NCState :=
  default init_state (fst <$> boundary_branch edge_tree_mesh 1 [1] [0; 0; 0; 0] 10).

(** ** The two constructions, to their end *)

(** The boundary submesh of the refined edge and the domain submesh of the
    refined quadrilateral when the constructor returns: every node of the
    parent is its own parent except one, and
    the position of node [n] is [10 * n]. *)
Definition edge_tree_constructed : NCState :=
  default init_state
    (fst <$> construct_boundary edge_tree_mesh 1 [1] [0; 0; 0; 0] 10
               (fun n => if n =? 5 then (2, 9) else (n, n)) Z (fun n => 10 * n) true
               (replicate 7 0)).

Definition quad_domain_constructed : NCState :=
  default init_state
    (construct_domain quad_domain_mesh [1] (fun i => i) [0; 1; 2; 3; 4; 5; 6; 7; 8]
       (fun r => if r =? Refinement_XY then 4%nat else 2%nat)
       (fun n => if n =? 104 then (0, 50) else (n, n)) Z (fun n => 10 * n) true
       (replicate 21 0)).

(** ** Invariants used in the proofs *)

(** The registry reached by a sequence of calls: its counter is the number
    of parent ids touched, and the dictionary sends each of them to its
    position in first-touch order. *)
Definition registry_inv (g : UniqueIndexGenerator) (acc : list Z) : Prop :=
  counter g = Z.of_nat (length acc) ∧ NoDup acc ∧
  ∀ p k, idx g !! p = Some k ↔ 0 ≤ k ∧ acc !! Z.to_nat k = Some p.

Definition parents_wf (els : list Element) : Prop := Forall (λ e, -1 ≤ parent e) els.

(** The node maps mirror the registry. *)
Definition node_maps_inv (s : NCState) : Prop :=
  registry_inv (node_ids s) (parent_node_ids_ s) ∧
  idx (node_ids s) = parent_to_submesh_node_ids_ s.

(** The keys of [pnodes_new_elem] as its comparator sees them. *)
Definition map_keys (m : list (list Z * Z)) : list (list Z) :=
  (λ kv, sort_ints kv.1) <$> m.

(** What holds between two iterations of the face loop, [i] being the next
    slot of the face table. *)
Record discover_inv (i : Z) (s : NCState) : Prop := mk_discover_inv {
  inv_len : length (parent_element_ids_ s) = length (elements s);
  inv_parents : parents_wf (elements s);
  inv_map : Forall (λ kv : list Z * Z, 0 ≤ kv.2) (pnodes_new_elem s);
  inv_keys : NoDup (map_keys (pnodes_new_elem s));
  inv_map_len : length (pnodes_new_elem s) = length (elements s);
  inv_nodes : parent_node_ids_ s = [] ∧ parent_to_submesh_node_ids_ s = ∅ ∧
              node_ids s = empty_generator;
  inv_new_nodes : StronglySorted Z.lt (new_nodes s);
  inv_emap : ∀ p v, parent_to_submesh_element_ids_ s !! p = Some v →
                    0 ≤ p < i ∧ 0 ≤ v ∧ parent_element_ids_ s !! Z.to_nat v = Some p
}.

(** What the comparator of the reordering pass reads, with the array of
    parent ids that is permuted along: the parent links, the side table of
    parent face nodes and [parent_element_ids_]. *)
Definition order_key (s : NCState) : list Z * list (list Z) * list Z :=
  (parent <$> elements s, new_elem_to_parent_face_nodes s, parent_element_ids_ s).

(** Every recorded evaluation of the assertion of [line] gave true. *)
Definition asserts_hold (line : Z) (s : NCState) : Prop :=
  ∀ b, (line, b) ∈ asserts s → b = true.

(** What holds between two iterations of the first walk of the domain pass,
    [ipe] being the next parent element. *)
Record first_walk_inv (parent_mesh : ParNCMesh) (ipe : nat) (s : NCState) : Prop :=
  mk_first_walk_inv {
  fw_len : length (parent_element_ids_ s) = length (elements s);
  fw_emap : ∀ i p, parent_element_ids_ s !! i = Some p →
                   parent_to_submesh_element_ids_ s !! p = Some (Z.of_nat i);
  fw_fresh : ∀ i p, parent_element_ids_ s !! i = Some p → p < Z.of_nat ipe;
  fw_nodes : parent_node_ids_ s = [] ∧ parent_to_submesh_node_ids_ s = ∅ ∧
             node_ids s = empty_generator;
  fw_asserts : asserts s = [];
  fw_new_nodes : StronglySorted Z.lt (new_nodes s);
  fw_vertices : ∀ k el n, elements s !! k = Some el → IsLeaf el = true →
                          (n < nv (GI parent_mesh (geom el)))%nat →
                          node el !!! n ∈ new_nodes s
}.

(** What holds between two iterations of the second walk, [k] being the
    next element: the element maps agree, the vertex nodes of the leaves
    still to visit are registered, no relabelling found a new node, and the
    node maps mirror the registry unless a vertex was missed (line 107). *)
Record second_walk_inv (parent_mesh : ParNCMesh) (k : nat) (s : NCState) : Prop :=
  mk_second_walk_inv {
  sw_emap : ∀ i p, parent_element_ids_ s !! i = Some p →
                   parent_to_submesh_element_ids_ s !! p = Some (Z.of_nat i);
  sw_vertices : ∀ k' el n, (k ≤ k')%nat → elements s !! k' = Some el → IsLeaf el = true →
                           (n < nv (GI parent_mesh (geom el)))%nat →
                           is_Some (idx (node_ids s) !! (node el !!! n));
  sw_123 : asserts_hold 123 s;
  sw_nodes : asserts_hold 107 s → node_maps_inv s
}.

(** How the state [s'] reached while the second walk visits the element [k]
    relates to the state [s] in which the visit began. *)
Record walk_step (k : nat) (s s' : NCState) : Prop := mk_walk_step {
  ws_pe : parent_element_ids_ s' = parent_element_ids_ s;
  ws_emap : ∀ p v, parent_to_submesh_element_ids_ s !! p = Some v →
                   parent_to_submesh_element_ids_ s' !! p = Some v;
  ws_registry : ∀ q v, idx (node_ids s) !! q = Some v → idx (node_ids s') !! q = Some v;
  ws_others : ∀ k', k' ≠ k → elements s' !! k' = elements s !! k';
  ws_length : length (elements s') = length (elements s);
  ws_shape : ∀ el, elements s !! k = Some el →
                   ∃ el', elements s' !! k = Some el' ∧ geom el' = geom el ∧
                          ref_type el' = ref_type el;
  ws_123 : asserts_hold 123 s → asserts_hold 123 s';
  ws_107 : asserts_hold 107 s' → asserts_hold 107 s;
  ws_nodes : node_maps_inv s → node_maps_inv s'
}.

(** The number of recorded evaluations of the assertion of [line]. *)
Definition count_asserts (line : Z) (s : NCState) : nat :=
  length (List.filter (λ a : Z * bool, a.1 =? line) (asserts s)).

(** The number of vertex slots of an element: [gi.nv] for a leaf, none for
    an internal element. *)
Definition vertex_slots (parent_mesh : ParNCMesh) (el : Element) : nat :=
  if IsLeaf el then nv (GI parent_mesh (geom el)) else 0%nat.

(** What decides the vertex slots of the elements. *)
Definition shapes (els : list Element) : list (Geometry_Type * Z) :=
  (λ el, (geom el, ref_type el)) <$> els.
(** ** Relations used in the proofs about the reordering loop *)

(** How an element [e'] left by the relinking loop of lines 465-478
    relates to the element [e] it was before, [old_to_new] being the
    relabelling: everything but the rank of an internal element, the
    children and the parent is kept; the parent and the children that the
    child loop reaches are relabelled. *)
Definition relinked (old_to_new : list Z) (e e' : Element) : Prop :=
  geom e' = geom e ∧ attribute e' = attribute e ∧ ref_type e' = ref_type e ∧
  index e' = index e ∧
  parent e' = (if parent e =? -1 then -1 else rd old_to_new (parent e)) ∧
  length (node e') = length (node e) ∧
  (IsLeaf e = true → node e' = node e ∧ rank e' = rank e) ∧
  (IsLeaf e = false →
   ∀ c, (c < MaxElemChildren)%nat → (c < length (child e))%nat →
        (∀ c', (c' ≤ c)%nat → 0 ≤ child e !!! c') →
        child e' !!! c = rd old_to_new (child e !!! c)).

(** ** Invariants of the discovery loop used for the tree it builds *)

(** The leaf [e] is the element created for the parent face [face]: the
    face was selected, [e] carries its nodes, its attribute, the geometry
    of its node tuple and the rank of the adjacent element, and the nodes of
    the face and of its edges are among [ns]. *)
Definition leaf_of_face (parent_mesh : ParNCMesh) (attributes : list Z) (ns : list Z)
    (face : Face) (e : Element) : Prop :=
  let fn := FindFaceNodes parent_mesh face in
  unused face = false ∧ HasAttribute (f_attribute face) attributes = true ∧
  GetMeshIdType parent_mesh (f_index face) ≠ MASTER ∧
  geom e = face_geom_from_nodes fn ∧ attribute e = f_attribute face ∧
  rank e = face_rank parent_mesh face ∧
  node e = take MaxFaceNodes fn ++ replicate 6 (-1) ∧ index e = -1 ∧
  (∀ x, x ∈ take MaxFaceNodes fn → x ≠ -1 → x ∈ ns) ∧
  (∀ ed, ed ∈ edges (GI parent_mesh (face_geom_from_nodes fn)) →
         nodes_FindId parent_mesh (rd fn ed.1) (rd fn ed.2) ∈ ns).

(** The parent link of [e] is [-1] or the index of an internal element. *)
Definition parent_ok (els : list Element) (e : Element) : Prop :=
  parent e = -1 ∨
  (0 ≤ parent e ∧ ∃ p, els !! Z.to_nat (parent e) = Some p ∧ IsLeaf p = false).

(** What holds of the tree between two steps of the discovery loop, [i]
    being the next slot of the face table. *)
Record tree_inv (parent_mesh : ParNCMesh) (attributes : list Z) (i : Z) (s : NCState)
    : Prop := mk_tree_inv {
  ti_len : length (parent_element_ids_ s) = length (elements s);
  ti_map : ∀ kv, kv ∈ pnodes_new_elem s → 0 ≤ kv.2 < Z.of_nat (length (elements s));
  ti_parent : ∀ k e, elements s !! k = Some e → parent_ok (elements s) e;
  ti_leaf : ∀ k e, elements s !! k = Some e → IsLeaf e = true →
            ∃ j face, parent_element_ids_ s !! k = Some (Z.of_nat j) ∧ Z.of_nat j < i ∧
                      p_faces parent_mesh !! j = Some face ∧
                      leaf_of_face parent_mesh attributes (new_nodes s) face e;
  ti_leaf_mono : ∀ k k' e e' j j',
      (k < k')%nat → elements s !! k = Some e → elements s !! k' = Some e' →
      IsLeaf e = true → IsLeaf e' = true →
      parent_element_ids_ s !! k = Some j → parent_element_ids_ s !! k' = Some j' → j < j'
}.

(** The element at index [k] after [wire Dim p c n]. *)
Definition wired (Dim p c n : Z) (k : nat) (e : Element) : Element :=
  let e1 := if decide (k = Z.to_nat p)
            then set_node (wr (child e) c n)
                   (set_ref_type (if Dim =? 2 then Refinement_XY else Refinement_X) e)
            else e in
  if decide (k = Z.to_nat n) then set_parent p e1 else e1.

(** What holds of the tree once the nodes are registered: as [tree_inv],
    with the nodes of the leaves among [parent_node_ids_] and the order of
    the leaves forgotten. *)
Record tree_ok (parent_mesh : ParNCMesh) (attributes : list Z) (s : NCState)
    : Prop := mk_tree_ok {
  to_len : length (parent_element_ids_ s) = length (elements s);
  to_parent : ∀ k e, elements s !! k = Some e → parent_ok (elements s) e;
  to_leaf : ∀ k e, elements s !! k = Some e → IsLeaf e = true →
            ∃ j face, parent_element_ids_ s !! k = Some (Z.of_nat j) ∧
                      p_faces parent_mesh !! j = Some face ∧
                      leaf_of_face parent_mesh attributes (parent_node_ids_ s) face e;
  to_leaf_inj : ∀ k k' e e' j,
      elements s !! k = Some e → elements s !! k' = Some e' →
      IsLeaf e = true → IsLeaf e' = true →
      parent_element_ids_ s !! k = Some j → parent_element_ids_ s !! k' = Some j → k = k'
}.

(** The evaluations of assertions recorded between [s] and [s'] all
    satisfy [Q]. *)
Definition asserts_added (Q : Z * bool → Prop) (s s' : NCState) : Prop :=
  ∃ ext, asserts s' = asserts s ++ ext ∧ Forall Q ext.

(** How a leaf [e'] signed in by the final walk of the boundary branch
    relates to the element [e] before the walk, [m] being the map from
    parent to submesh nodes: only the vertex slots change, each to the
    submesh id of the node it held. *)
Definition signed_in (parent_mesh : ParNCMesh) (m : gmap Z Z) (e e' : Element) : Prop :=
  geom e' = geom e ∧ ref_type e' = ref_type e ∧ rank e' = rank e ∧
  attribute e' = attribute e ∧ parent e' = parent e ∧ index e' = index e ∧
  length (node e') = length (node e) ∧
  (IsLeaf e = false → node e' = node e) ∧
  (IsLeaf e = true →
   ∀ n, ((n < nv (GI parent_mesh (geom e)))%nat → m !! (node e !!! n) = Some (node e' !!! n)) ∧
        ((nv (GI parent_mesh (geom e)) ≤ n)%nat → node e' !! n = node e !! n)).

(** The nodes of the edges, and of the vertex slots, of every leaf are
    known to the registry, respectively to the map from parent to submesh
    nodes. *)
Definition edges_known (parent_mesh : ParNCMesh) (s : NCState) : Prop :=
  ∀ k e ed, elements s !! k = Some e → IsLeaf e = true →
            ed ∈ edges (GI parent_mesh (geom e)) →
            is_Some (idx (node_ids s)
                       !! nodes_FindId parent_mesh (rd (node e) ed.1) (rd (node e) ed.2)).

Definition vertices_known (parent_mesh : ParNCMesh) (s : NCState) : Prop :=
  ∀ k e n, elements s !! k = Some e → IsLeaf e = true →
           (n < nv (GI parent_mesh (geom e)))%nat →
           (n < length (node e))%nat ∧
           is_Some (parent_to_submesh_node_ids_ s !! (node e !!! n)).

(** ** Relations used in the proofs about the domain pass *)

(** What the second walk of the domain pass never changes of an element. *)
Definition profile (e : Element) : Geometry_Type * Z * Z * Z * Z :=
  (geom e, ref_type e, rank e, attribute e, index e).

(** The parent elements the domain pass selects, in the order of the first
    walk. *)
Definition selected (parent_mesh : ParNCMesh) (attributes : list Z) (n : nat) : list nat :=
  List.filter (λ ipe, HasAttribute (attribute (p_elements parent_mesh !!! ipe)) attributes)
              (seq 0 n).

(** The submesh id [v] stands for the parent element [C]: it is the
    position of [C] in [pe], or 0 when [C] was not selected. *)
Definition linked_id (pe : list Z) (C v : Z) : Prop :=
  (C ∈ pe → 0 ≤ v ∧ pe !! Z.to_nat v = Some C) ∧ (C ∉ pe → v = 0).

(** The map from parent to submesh elements during the second walk: every
    selected element is mapped to its position, and any other key was
    inserted by a look-up, is mapped to 0 and satisfies [W]. *)
Definition emap_ok (W : Z → Prop) (s : NCState) : Prop :=
  (∀ i p, parent_element_ids_ s !! i = Some p →
          parent_to_submesh_element_ids_ s !! p = Some (Z.of_nat i)) ∧
  (∀ p v, parent_to_submesh_element_ids_ s !! p = Some v →
          (0 ≤ v ∧ parent_element_ids_ s !! Z.to_nat v = Some p) ∨
          ((p ∉ parent_element_ids_ s) ∧ v = 0 ∧ W p)).

(** The element [e'] left by the visit of the second walk relates to the
    copy [e0] made by the first walk: the links to selected elements are
    translated, the others are 0. *)
Definition links_translated (R : Z → nat) (pe : list Z) (e0 e' : Element) : Prop :=
  (parent e0 < 0 → parent e' = parent e0) ∧
  (0 ≤ parent e0 → linked_id pe (parent e0) (parent e')) ∧
  (IsLeaf e0 = false →
   ∀ c, (c < R (ref_type e0))%nat → (c < length (child e0))%nat →
        linked_id pe (child e0 !!! c) (child e' !!! c)).

(** The parent [p] is a child slot of an internal element of [els]. *)
Definition is_child_of (R : Z → nat) (els : list Element) (p : Z) : Prop :=
  ∃ j e0 c, els !! j = Some e0 ∧ IsLeaf e0 = false ∧ (c < R (ref_type e0))%nat ∧
            child e0 !!! c = p.

(** What the reordering loop moves along with an element: its entry of
    [parent_element_ids_] and everything of the element that the relinking
    keeps. *)
Definition element_rows (s : NCState) : list (Z * (Geometry_Type * Z * Z * Z)) :=
  zip (parent_element_ids_ s)
      ((λ e, (geom e, attribute e, ref_type e, index e)) <$> elements s).

(** ** Relations used in the proofs about the nodes of the domain pass *)

(** The parent node [x] belongs to the leaf [pe]: it is the node of one of
    its vertex slots or the node of one of its edges (lines 71-80). *)
Definition node_of_leaf (parent_mesh : ParNCMesh) (pe : Element) (x : Z) : Prop :=
  (∃ n, (n < nv (GI parent_mesh (geom pe)))%nat ∧ x = node pe !!! n) ∨
  (∃ e, e ∈ edges (GI parent_mesh (geom pe)) ∧
        x = nodes_FindId parent_mesh (rd (node pe) e.1) (rd (node pe) e.2)).

(** The geometry table fits the element: its vertex slots are slots of
    [node], and its edges join two vertex slots. *)
Definition slots_fit (parent_mesh : ParNCMesh) (pe : Element) : Prop :=
  (nv (GI parent_mesh (geom pe)) ≤ length (node pe))%nat ∧
  ∀ e, e ∈ edges (GI parent_mesh (geom pe)) →
       0 ≤ e.1 < Z.of_nat (nv (GI parent_mesh (geom pe))) ∧
       0 ≤ e.2 < Z.of_nat (nv (GI parent_mesh (geom pe))).

(** The registry sends every entry of [parent_node_ids_] to its position. *)
Definition registry_covers (s : NCState) : Prop :=
  ∀ j p, parent_node_ids_ s !! j = Some p → idx (node_ids s) !! p = Some (Z.of_nat j).

(** What a visit of the element [k] keeps when it creates no node. *)
Definition node_frame (k : nat) (s s' : NCState) : Prop :=
  node_ids s' = node_ids s ∧ parent_node_ids_ s' = parent_node_ids_ s ∧
  parent_to_submesh_node_ids_ s' = parent_to_submesh_node_ids_ s ∧
  length (elements s') = length (elements s) ∧
  ∀ j, j ≠ k → elements s' !! j = elements s !! j.

(** The vertex slots of [e'] hold the submesh ids of the nodes that the
    vertex slots of [e0] hold, [N] being [parent_node_ids_]. *)
Definition relabelled (parent_mesh : ParNCMesh) (N : list Z) (e0 e' : Element) : Prop :=
  ∀ n, (n < nv (GI parent_mesh (geom e0)))%nat →
       0 ≤ node e' !!! n ∧ N !! Z.to_nat (node e' !!! n) = Some (node e0 !!! n).

(** The parent node [x] belongs to the face [face] of the parent mesh: it is
    one of its face nodes, or the node of one of the edges of its geometry
    (lines 243-256). *)
Definition node_of_face (parent_mesh : ParNCMesh) (face : Face) (x : Z) : Prop :=
  let fn := FindFaceNodes parent_mesh face in
  (x ≠ -1 ∧ x ∈ take MaxFaceNodes fn) ∨
  (∃ e, e ∈ edges (GI parent_mesh (face_geom_from_nodes fn)) ∧
        x = nodes_FindId parent_mesh (rd fn e.1) (rd fn e.2)).

(** ** Relations used in the proofs about two runs of the boundary branch *)

(** What two runs can disagree on when they differ in the content of the
    uninitialised array of line 320 only: the arrays [node] (alias [child])
    of the elements. *)
Definition same_but_nodes (s1 s2 : NCState) : Prop :=
  set_node [] <$> elements s1 = set_node [] <$> elements s2 ∧
  set_elements [] s1 = set_elements [] s2.

(** Two states so related, taken apart into their members. *)
Ltac split_runs H :=
  match type of H with
  | same_but_nodes ?s1 ?s2 =>
      let HE := fresh "HE" in
      let Hs := fresh "Hs" in
      destruct s1 as [els1 pe1 m1 pn1 mn1 pm1 nn1 tb1 g1 as1];
      destruct s2 as [els2 pe2 m2 pn2 mn2 pm2 nn2 tb2 g2 as2];
      destruct H as [HE Hs]; cbn in HE, Hs;
      injection Hs as <- <- <- <- <- <- <- <- <-
  end.

(** ** Relations used in the proofs about the recorded parent ids *)

(** The element registered under [key] was created for a selected face
    (line 222) and [p] is the slot of that face (line 239). *)
Definition born_of_face (parent_mesh : ParNCMesh) (attributes : list Z)
    (key : list Z) (p : Z) : Prop :=
  0 ≤ p ∧
  ∃ face, p_faces parent_mesh !! Z.to_nat p = Some face ∧ unused face = false ∧
          HasAttribute (f_attribute face) attributes = true ∧
          GetMeshIdType parent_mesh (f_index face) ≠ MASTER ∧
          sort_ints key = sort_ints (FindFaceNodes parent_mesh face).

(** The element registered under [key] was created for a parent tuple that
    an ascent reached (line 284) and [p] is what the face table of the
    parent answers for that tuple (lines 286-287). *)
Definition born_of_ascent (parent_mesh : ParNCMesh) (key : list Z) (p : Z) : Prop :=
  ∃ fn0 slot fn, ParentFaceNodes parent_mesh fn0 = (slot, fn) ∧ slot ≠ -1 ∧
                 sort_ints key = sort_ints fn ∧
                 p = faces_FindId parent_mesh (rd fn 0) (rd fn 1) (rd fn 2) (rd fn 3).

(** Every element is registered in [pnodes_new_elem], and the entry of
    [parent_element_ids_] stored with a registered element is the id of the
    face or of the parent tuple it was created for; an element created for
    a face is the value of that face's slot in the inverse map, one created
    by an ascent is internal. *)
Definition ids_ok (parent_mesh : ParNCMesh) (attributes : list Z) (els : list Element)
    (pe : list Z) (m : list (list Z * Z)) (p2s : gmap Z Z) : Prop :=
  (∀ k, (k < length els)%nat → ∃ key, (key, Z.of_nat k) ∈ m) ∧
  (∀ key v, (key, v) ∈ m →
     0 ≤ v ∧
     ∃ p e, pe !! Z.to_nat v = Some p ∧ els !! Z.to_nat v = Some e ∧
            ((born_of_face parent_mesh attributes key p ∧ p2s !! p = Some v) ∨
             (born_of_ascent parent_mesh key p ∧ IsLeaf e = false))).

Definition ids_inv (parent_mesh : ParNCMesh) (attributes : list Z) (s : NCState) : Prop :=
  ids_ok parent_mesh attributes (elements s) (parent_element_ids_ s) (pnodes_new_elem s)
         (parent_to_submesh_element_ids_ s).

(** ** Relations used in the proofs about the identity maps *)

(** What [parent.faces.FindId] is to the face table (the hash table of
    ncmesh.hpp): an answer other than [-1] is the slot of a face with the
    nodes asked for. *)
Definition face_table_consistent (parent_mesh : ParNCMesh) : Prop :=
  ∀ a b c d, faces_FindId parent_mesh a b c d ≠ -1 →
             0 ≤ faces_FindId parent_mesh a b c d ∧
             ∃ face, p_faces parent_mesh !! Z.to_nat (faces_FindId parent_mesh a b c d)
                     = Some face ∧
                     FindFaceNodes parent_mesh face ≡ₚ [a; b; c; d].

(** A parent tuple is a [std::array<int, MaxFaceNodes>]. *)
Definition parent_tuples_sized (parent_mesh : ParNCMesh) : Prop :=
  ∀ fn0 slot fn, ParentFaceNodes parent_mesh fn0 = (slot, fn) → slot ≠ -1 →
                 length fn = MaxFaceNodes.

(** No parent id other than [-1] is recorded twice. *)
Definition ids_distinct (pe : list Z) : Prop :=
  ∀ i j p, pe !! i = Some p → pe !! j = Some p → p ≠ -1 → i = j.

(** The map [m] is [m0] with keys added by look-ups with [operator[]]:
    each new key holds 0. *)
Definition extends_by_zero (m0 m : gmap Z Z) : Prop :=
  ∀ n, m !! n = m0 !! n ∨ (m0 !! n = None ∧ m !! n = Some 0).

(** * Properties *)

(** ** Face geometry (C7) *)

(** C7.  A face node tuple holds [-1] in its fourth position only (a
    triangle); on every such tuple the lambda assigns the geometry that the
    stated rule assigns: a segment when [nodes[0] == nodes[1]] and
    [nodes[2] == nodes[3]], else a triangle when the fourth node is [-1],
    else a quadrilateral.  No such tuple satisfies the first two conditions
    together. *)
Theorem C7_face_geom_from_nodes (n0 n1 n2 n3 : Z) :
  n2 ≠ -1 →
  face_geom_from_nodes [n0; n1; n2; n3] = face_geom_rule_as_specified [n0; n1; n2; n3] ∧
  (n0 = n1 ∧ n2 = n3 → face_geom_from_nodes [n0; n1; n2; n3] = SEGMENT) ∧
  (¬ (n0 = n1 ∧ n2 = n3) → n3 = -1 → face_geom_from_nodes [n0; n1; n2; n3] = TRIANGLE) ∧
  (¬ (n0 = n1 ∧ n2 = n3) → n3 ≠ -1 → face_geom_from_nodes [n0; n1; n2; n3] = SQUARE) ∧
  ¬ ((n0 = n1 ∧ n2 = n3) ∧ n3 = -1).
Proof.
  intros H2. unfold face_geom_from_nodes, face_geom_rule_as_specified.
  change (rd [n0; n1; n2; n3] 0) with n0. change (rd [n0; n1; n2; n3] 1) with n1.
  change (rd [n0; n1; n2; n3] 2) with n2. change (rd [n0; n1; n2; n3] 3) with n3.
  destruct (Z.eqb_spec n3 (-1)) as [E3|E3], (Z.eqb_spec n0 n1) as [E01|E01],
    (Z.eqb_spec n2 n3) as [E23|E23]; cbn; repeat split; intros; try congruence; try tauto;
    try lia.
Qed.

Lemma C7_face_geom_from_nodes_witness :
  face_geom_from_nodes [7; 8; 9; -1] = TRIANGLE ∧
  face_geom_from_nodes [4; 4; 6; 6] = SEGMENT ∧
  face_geom_from_nodes [1; 2; 3; 4] = SQUARE ∧
  face_geom_from_nodes [4; 4; 6; 6] = face_geom_rule_as_specified [4; 4; 6; 6].
Proof.
  destruct (C7_face_geom_from_nodes 7 8 9 (-1) ltac:(lia)) as (_ & _ & Ht & _ & _).
  destruct (C7_face_geom_from_nodes 4 4 6 6 ltac:(lia)) as (He & Hs & _ & _ & _).
  destruct (C7_face_geom_from_nodes 1 2 3 4 ltac:(lia)) as (_ & _ & _ & Hq & _).
  split; [|split; [|split]].
  - apply Ht; [lia | reflexivity].
  - apply Hs. split; reflexivity.
  - apply Hq; lia.
  - exact He.
Defined.

(** The order of the tests shows only on a tuple whose third node is [-1],
    which is no face node tuple: there the lambda answers triangle where
    the stated order answers segment. *)
Lemma face_geom_third_node_absent :
  face_geom_rule_as_specified [5; 5; -1; -1] = SEGMENT ∧
  face_geom_from_nodes [5; 5; -1; -1] = TRIANGLE.
Proof. by split. Qed.

(** ** Identity registry (C8) *)

Lemma registry_inv_empty : registry_inv empty_generator [].
Proof.
  split; [done|]. split; [constructor|].
  intros p k. cbn. rewrite lookup_empty. split; [done|]. by intros [_ ?].
Qed.

Lemma registry_inv_lookup g acc p :
  registry_inv g acc → (idx g !! p = None ↔ p ∉ acc).
Proof.
  intros (Hc & Hnd & Hi). split.
  - intros Hn [k Hk]%list_elem_of_lookup.
    assert (idx g !! p = Some (Z.of_nat k)) as E.
    { apply Hi. split; [lia|]. by rewrite Nat2Z.id. }
    congruence.
  - intros Hn. destruct (idx g !! p) as [k|] eqn:E; [|done].
    apply Hi in E as [_ E]. exfalso. apply Hn. by eapply list_elem_of_lookup_2.
Qed.

Lemma registry_inv_Get g acc p :
  registry_inv g acc →
  registry_inv (Get p g).2 (if decide (p ∈ acc) then acc else acc ++ [p]).
Proof.
  intros Hinv. pose proof (registry_inv_lookup g acc p Hinv) as Hl.
  destruct Hinv as (Hc & Hnd & Hi). unfold Get.
  destruct (idx g !! p) as [v|] eqn:E.
  - rewrite decide_True; [done|].
    destruct (decide (p ∈ acc)); [done|]. by apply Hl in n.
  - rewrite decide_False by (by apply Hl). cbn. split; [|split].
    + rewrite length_app. cbn. lia.
    + apply NoDup_app. split; [done|]. split; [|apply NoDup_singleton].
      intros x Hx ->%list_elem_of_singleton. by apply Hl.
    + intros q k. cbn. destruct (decide (p = q)) as [->|Hne].
      * rewrite lookup_insert_eq. split.
        -- intros [= <-]. split; [lia|]. rewrite Hc, Nat2Z.id.
           by rewrite lookup_app_r, Nat.sub_diag.
        -- intros [Hk Hlk]. f_equal.
           destruct (decide (Z.to_nat k < length acc)%nat) as [Hlt|Hge].
           ++ rewrite lookup_app_l in Hlk by done. exfalso.
              apply Hl; [done|]. by eapply list_elem_of_lookup_2.
           ++ apply lookup_lt_Some in Hlk. rewrite length_app in Hlk. cbn in Hlk. lia.
      * rewrite lookup_insert_ne by done. rewrite Hi. split.
        -- intros [Hk Hlk]. split; [done|].
           by rewrite lookup_app_l by (by eapply lookup_lt_Some).
        -- intros [Hk Hlk]. split; [done|].
           destruct (decide (Z.to_nat k < length acc)%nat) as [Hlt|Hge].
           ++ by rewrite lookup_app_l in Hlk.
           ++ rewrite lookup_app_r in Hlk by lia.
              destruct (Z.to_nat k - length acc)%nat as [|m] eqn:Em; [|done].
              cbn in Hlk. congruence.
Qed.

Lemma registry_inv_get_all ps g acc :
  registry_inv g acc → registry_inv (get_all ps g) (first_touch_from acc ps).
Proof.
  revert g acc. induction ps as [|p ps IH]; intros g acc Hinv; [done|].
  cbn. apply IH. by apply registry_inv_Get.
Qed.

Lemma first_touch_from_elem acc ps p :
  p ∈ first_touch_from acc ps ↔ p ∈ acc ∨ p ∈ ps.
Proof.
  revert acc. induction ps as [|q ps IH]; intros acc; cbn.
  - set_solver.
  - rewrite IH. destruct (decide (q ∈ acc)); set_solver.
Qed.

(** [Get] never removes or changes a registered id. *)
Lemma Get_preserves p g q v :
  idx g !! q = Some v → idx (Get p g).2 !! q = Some v.
Proof.
  intros Hq. unfold Get. destruct (idx g !! p) eqn:E; [done|]. cbn.
  rewrite lookup_insert_ne; [done|]. intros ->. congruence.
Qed.

Lemma get_all_preserves ps g q v :
  idx g !! q = Some v → idx (get_all ps g) !! q = Some v.
Proof.
  revert g. induction ps as [|p ps IH]; intros g Hq; [done|].
  cbn. apply IH. by apply Get_preserves.
Qed.

(** C8.  Let [g] be the registry after any sequence [ps] of calls on a fresh
    registry.  A call [Get p] for an id not touched before returns the next
    unused id, which is the number of ids touched so far, with the flag set;
    for an id touched before it returns, with the flag clear and the
    registry unchanged, the position of [p] in first-touch order; a call
    repeated at once returns the same id with the flag clear; no registered
    id is removed or changed; and the ids handed out are exactly
    [0 .. counter-1]. *)
Theorem C8_registry_contract (ps : list Z) (p : Z) :
  let g := get_all ps empty_generator in
  let id := (Get p g).1.1 in
  let is_new := (Get p g).1.2 in
  let g' := (Get p g).2 in
  (p ∉ ps → is_new = true ∧ id = Z.of_nat (length (first_touch ps)) ∧
            id = counter g ∧ counter g' = id + 1) ∧
  (p ∈ ps → is_new = false ∧ g' = g ∧ 0 ≤ id ∧
            first_touch ps !! Z.to_nat id = Some p) ∧
  Get p g' = (id, false, g') ∧
  (∀ q v, idx g !! q = Some v → idx g' !! q = Some v) ∧
  (∀ v, (∃ q, idx g' !! q = Some v) ↔ 0 ≤ v < counter g').
Proof.
  intros g id is_new g'.
  pose proof (registry_inv_get_all ps _ _ registry_inv_empty) as Hinv.
  fold g in Hinv. fold (first_touch ps) in Hinv.
  pose proof (registry_inv_lookup _ _ p Hinv) as Hl.
  pose proof (registry_inv_Get _ _ p Hinv) as Hinv'. fold g' in Hinv'.
  assert (p ∈ first_touch ps ↔ p ∈ ps) as Hft.
  { unfold first_touch. rewrite first_touch_from_elem. set_solver. }
  destruct Hinv as (Hc & Hnd & Hi). destruct Hinv' as (Hc' & _ & Hi').
  assert (∀ v, (∃ q, idx g' !! q = Some v) ↔ 0 ≤ v < counter g') as Hrange.
  { intros v. split.
    - intros [q Hq]. apply Hi' in Hq as [? Hq%lookup_lt_Some]. lia.
    - intros [H0 Hlt].
      destruct (lookup_lt_is_Some_2 (if decide (p ∈ first_touch ps) then first_touch ps
                                     else first_touch ps ++ [p]) (Z.to_nat v)) as [q Hq]; [lia|].
      exists q. by apply Hi'. }
  assert (∀ q v, idx g !! q = Some v → idx g' !! q = Some v) as Hkeep.
  { intros q v. apply Get_preserves. }
  subst id is_new g'. unfold Get in *. destruct (idx g !! p) as [v|] eqn:E; cbn in *.
  - assert (p ∈ ps) as Hin.
    { apply Hft. destruct (decide (p ∈ first_touch ps)) as [|Hn]; [done|].
      apply Hl in Hn. congruence. }
    split; [done|]. split.
    { intros _. apply Hi in E as [? ?]. done. }
    split; [by rewrite E|]. done.
  - assert (p ∉ ps) as Hnin.
    { rewrite <- Hft. by apply Hl. }
    split.
    { intros _. repeat split; try done. }
    split; [done|]. split; [by rewrite lookup_insert_eq|]. done.
Qed.

Lemma C8_registry_contract_witness :
  (Get 7 (get_all [4; 9; 4] empty_generator)).1 = (2, true) ∧
  (Get 9 (get_all [4; 9; 4] empty_generator)).1 = (1, false).
Proof.
  pose proof (C8_registry_contract [4; 9; 4] 7) as H7.
  pose proof (C8_registry_contract [4; 9; 4] 9) as H9.
  cbv zeta in H7, H9.
  destruct H7 as (H7 & _). destruct H9 as (_ & H9 & _).
  split.
  - destruct H7 as (Hn & Hid & _).
    + apply (bool_decide_unpack _). vm_compute. exact I.
    + rewrite (surjective_pairing (Get _ _).1). by rewrite Hn, Hid.
  - destruct H9 as (Hn & _ & _ & Hid).
    + apply (bool_decide_unpack _). vm_compute. exact I.
    + rewrite (surjective_pairing (Get _ _).1). rewrite Hn. reflexivity.
Defined.

(** ** Sorting *)

Section Sorting.

Context {A : Type} (comp : A → A → bool).

Lemma stable_insert_sorted_head x l :
  is_sorted comp (x :: l) = true → stable_insert comp x l = x :: l.
Proof.
  destruct l as [|y l]; [done|]. cbn.
  intros [Hyx _]%andb_prop. apply negb_true_iff in Hyx. by rewrite Hyx.
Qed.

Lemma is_sorted_tail x l : is_sorted comp (x :: l) = true → is_sorted comp l = true.
Proof. destruct l as [|y l]; [done|]. cbn. by intros [_ ?]%andb_prop. Qed.

(** A stable sort leaves a sorted range as it is. *)
Lemma stable_sort_sorted l : is_sorted comp l = true → stable_sort comp l = l.
Proof.
  induction l as [|x l IH]; [done|]. intros Hs. cbn.
  change (foldr (stable_insert comp) [] l) with (stable_sort comp l).
  rewrite IH by (by eapply is_sorted_tail). by apply stable_insert_sorted_head.
Qed.

Hypothesis comp_asym : ∀ a b, comp a b = true → comp b a = false.

Lemma stable_insert_is_sorted x l :
  is_sorted comp l = true → is_sorted comp (stable_insert comp x l) = true.
Proof.
  induction l as [|y l IH]; [done|]. intros Hs. cbn [stable_insert].
  destruct (comp y x) eqn:Hyx.
  - specialize (IH (is_sorted_tail _ _ Hs)).
    destruct l as [|z l]; cbn [stable_insert] in *.
    + cbn. by rewrite (comp_asym _ _ Hyx).
    + destruct (comp z x) eqn:Hzx.
      * cbn in Hs. apply andb_prop in Hs as [Hzy _].
        change (negb (comp z y) && is_sorted comp (z :: stable_insert comp x l) = true).
        by rewrite Hzy, IH.
      * change (negb (comp x y) && is_sorted comp (x :: z :: l) = true).
        by rewrite (comp_asym _ _ Hyx), IH.
  - change (negb (comp y x) && is_sorted comp (y :: l) = true). by rewrite Hyx, Hs.
Qed.

Lemma stable_sort_is_sorted l : is_sorted comp (stable_sort comp l) = true.
Proof.
  induction l as [|x l IH]; [done|]. cbn. by apply stable_insert_is_sorted.
Qed.

(** The sort is the identity exactly on sorted ranges. *)
Lemma stable_sort_fixed_point l : stable_sort comp l = l ↔ is_sorted comp l = true.
Proof.
  split; [|apply stable_sort_sorted].
  intros <-. apply stable_sort_is_sorted.
Qed.

End Sorting.

Lemma stable_insert_ext {A} (c1 c2 : A → A → bool) x l :
  (∀ y, y ∈ l → c1 y x = c2 y x) → stable_insert c1 x l = stable_insert c2 x l.
Proof.
  induction l as [|y l IH]; [done|]. intros H. cbn.
  rewrite (H y) by set_solver. destruct (c2 y x); [|done].
  f_equal. apply IH. intros. apply H. set_solver.
Qed.

Lemma stable_insert_elem {A} (c : A → A → bool) x l y :
  y ∈ stable_insert c x l ↔ y = x ∨ y ∈ l.
Proof.
  induction l as [|z l IH]; cbn; [set_solver|].
  destruct (c z x); [|set_solver]. rewrite elem_of_cons, IH. set_solver.
Qed.

Lemma stable_sort_elem {A} (c : A → A → bool) l y :
  y ∈ stable_sort c l ↔ y ∈ l.
Proof.
  induction l as [|x l IH]; [done|]. cbn.
  change (foldr (stable_insert c) [] l) with (stable_sort c l).
  rewrite stable_insert_elem, IH. set_solver.
Qed.

Lemma stable_insert_length {A} (c : A → A → bool) x l :
  length (stable_insert c x l) = S (length l).
Proof. induction l as [|z l IH]; cbn; [done|]. destruct (c z x); cbn; lia. Qed.

Lemma stable_sort_length {A} (c : A → A → bool) l :
  length (stable_sort c l) = length l.
Proof.
  induction l as [|x l IH]; [done|]. cbn.
  change (foldr (stable_insert c) [] l) with (stable_sort c l).
  by rewrite stable_insert_length, IH.
Qed.

(** Two comparators that agree on the elements of a range sort it alike. *)
Lemma stable_sort_ext {A} (c1 c2 : A → A → bool) l :
  (∀ x y, x ∈ l → y ∈ l → c1 x y = c2 x y) → stable_sort c1 l = stable_sort c2 l.
Proof.
  induction l as [|x l IH]; [done|]. intros H. cbn.
  change (foldr (stable_insert ?c) [] l) with (stable_sort c l).
  rewrite IH by (intros; apply H; set_solver).
  apply stable_insert_ext. intros y Hy%stable_sort_elem. apply H; set_solver.
Qed.

Lemma is_sorted_ext {A} (c1 c2 : A → A → bool) l :
  (∀ x y, x ∈ l → y ∈ l → c1 x y = c2 x y) → is_sorted c1 l = is_sorted c2 l.
Proof.
  induction l as [|x l IH]; [done|]. intros H.
  destruct l as [|y l]; [done|].
  change (negb (c1 y x) && is_sorted c1 (y :: l) = negb (c2 y x) && is_sorted c2 (y :: l)).
  rewrite IH by (intros; apply H; set_solver).
  rewrite (H y x) by set_solver. done.
Qed.

(** [is_sorted] on consecutive indices, read pointwise. *)
Lemma is_sorted_seq (c : nat → nat → bool) a n :
  is_sorted c (seq a n) = true ↔ ∀ i, (a ≤ i)%nat → (S i < a + n)%nat → c (S i) i = false.
Proof.
  revert a. induction n as [|n IH]; intros a.
  - cbn. split; [intros; lia|done].
  - destruct n as [|n].
    + cbn. split; [intros; lia|done].
    + change (seq a (S (S n))) with (a :: seq (S a) (S n)).
      change (is_sorted c (a :: seq (S a) (S n)))
        with (negb (c (S a) a) && is_sorted c (seq (S a) (S n))).
      rewrite andb_true_iff, negb_true_iff, IH. split.
      * intros [Ha H] i Hi1 Hi2. destruct (decide (i = a)) as [->|]; [done|].
        apply H; lia.
      * intros H. split; [apply H; lia|]. intros. apply H; lia.
Qed.

Lemma lexicographical_compare_asym a b :
  lexicographical_compare a b = true → lexicographical_compare b a = false.
Proof.
  revert b. induction a as [|x a IH]; intros [|y b]; cbn; try done.
  destruct (Z.ltb_spec x y), (Z.ltb_spec y x); try done; try lia. apply IH.
Qed.

Lemma lexicographical_compare_irrefl a : lexicographical_compare a a = false.
Proof. induction a as [|x a IH]; cbn; [done|]. by rewrite Z.ltb_irrefl. Qed.

Lemma comp_elements_asym els tbl l r :
  comp_elements els tbl l r = true → comp_elements els tbl r l = false.
Proof.
  unfold comp_elements.
  destruct (Z.eqb_spec (parent (els !!! l)) (parent (els !!! r))) as [E|E].
  - rewrite E, Z.eqb_refl. apply lexicographical_compare_asym.
  - destruct (Z.eqb_spec (parent (els !!! r)) (parent (els !!! l))); [congruence|]. lia.
Qed.

(** ** The reordering pass: ordering of parents (C2, C4) *)

Lemma parental_sorted_adjacent s :
  parental_sorted s = true →
  ∀ i e e', elements s !! i = Some e → elements s !! S i = Some e' → parent e ≤ parent e'.
Proof.
  unfold parental_sorted, iota. rewrite is_sorted_seq. intros H i e e' Hi HSi.
  specialize (H i). apply lookup_lt_Some in HSi as Hlt.
  specialize (H ltac:(lia) ltac:(lia)). unfold comp_elements in H.
  rewrite (list_lookup_total_correct _ _ _ Hi), (list_lookup_total_correct _ _ _ HSi) in H.
  destruct (Z.eqb_spec (parent e') (parent e)); lia.
Qed.

Lemma adjacent_monotone (els : list Element) :
  (∀ i e e', els !! i = Some e → els !! S i = Some e' → parent e ≤ parent e') →
  ∀ i j e e', (i ≤ j)%nat → els !! i = Some e → els !! j = Some e' → parent e ≤ parent e'.
Proof.
  intros Hadj i j. induction j as [|j IH]; intros e e' Hij Hi Hj.
  - assert (i = 0)%nat as -> by lia. assert (e = e') as -> by congruence. lia.
  - destruct (decide (i = S j)) as [->|Hne].
    + assert (e = e') as -> by congruence. lia.
    + destruct (lookup_lt_is_Some_2 els j) as [ej Hej].
      { apply lookup_lt_Some in Hj. lia. }
      etrans; [apply (IH e ej); [lia|done..]|]. by eapply Hadj.
Qed.

Lemma reorder_loop_sorted fuel s s' k :
  reorder_loop fuel s = Some (s', k) → parental_sorted s' = true.
Proof.
  revert s k. induction fuel as [|fuel IH]; intros s k; cbn.
  - destruct (parental_sorted s) eqn:E; [|done]. by intros [= <- _].
  - destruct (parental_sorted s) eqn:E; [by intros [= <- _]|].
    destruct (reorder_loop fuel (reorder_step s)) as [[s1 k1]|] eqn:E1; [|done].
    intros [= <- _]. by eapply IH.
Qed.

Lemma reorder_loop_zero_sorts fuel s s' k :
  reorder_loop fuel s = Some (s', k) → (k = 0%nat ↔ parental_sorted s = true).
Proof.
  destruct fuel; cbn; destruct (parental_sorted s) eqn:E.
  - intros [= _ <-]. done.
  - done.
  - intros [= _ <-]. done.
  - destruct (reorder_loop fuel (reorder_step s)) as [[s1 k1]|]; [|done].
    intros [= _ <-]. done.
Qed.

Lemma Permute_iota {A} `{Inhabited A} (a : list A) : Permute (iota (length a)) a = a.
Proof.
  unfold Permute, iota. apply list_eq. intros i. rewrite list_lookup_fmap.
  destruct (decide (i < length a)%nat) as [Hlt|Hge].
  - rewrite lookup_seq_lt by done. cbn.
    destruct (lookup_lt_is_Some_2 a i Hlt) as [x Hx].
    by rewrite (list_lookup_total_correct _ _ _ Hx).
  - rewrite lookup_seq_ge by lia. cbn. symmetry. apply lookup_ge_None. lia.
Qed.

(** C4.  The stable sort by [comp_elements] returns the identity
    permutation exactly when the element array is sorted by that key;
    applying that permutation leaves the element array unchanged; the loop
    leaves a sorted array at once, without sorting and without changing the
    state; and whenever the loop exits, it exits in a state on which the
    sort is the identity, having sorted zero times exactly when it started
    in such a state. *)
Theorem C4_reorder_fixed_point (s : NCState) :
  let comp := comp_elements (elements s) (new_elem_to_parent_face_nodes s) in
  let n := length (elements s) in
  (parental_sorted s = true ↔ stable_sort comp (iota n) = iota n) ∧
  (parental_sorted s = true →
     Permute (stable_sort comp (iota n)) (elements s) = elements s ∧
     ∀ fuel, reorder_loop fuel s = Some (s, 0%nat)) ∧
  (∀ fuel s' k, reorder_loop fuel s = Some (s', k) →
     stable_sort (comp_elements (elements s') (new_elem_to_parent_face_nodes s'))
                 (iota (length (elements s'))) = iota (length (elements s')) ∧
     (k = 0%nat ↔ parental_sorted s = true)).
Proof.
  intros comp n. split; [|split].
  - unfold parental_sorted. fold comp n. symmetry.
    apply stable_sort_fixed_point. apply comp_elements_asym.
  - intros Hs. split.
    + unfold parental_sorted in Hs. fold comp n in Hs.
      rewrite (stable_sort_sorted _ _ Hs). apply Permute_iota.
    + intros [|fuel]; cbn; by rewrite Hs.
  - intros fuel s' k Hl. split.
    + apply stable_sort_sorted. by eapply reorder_loop_sorted.
    + by eapply reorder_loop_zero_sorts.
Qed.

Lemma C4_reorder_fixed_point_witness :
  Permute (stable_sort (comp_elements (elements small_sorted_state)
                          (new_elem_to_parent_face_nodes small_sorted_state))
                       (iota (length (elements small_sorted_state))))
          (elements small_sorted_state) = elements small_sorted_state ∧
  reorder_loop 3 small_sorted_state = Some (small_sorted_state, 0%nat).
Proof.
  destruct (C4_reorder_fixed_point small_sorted_state) as (_ & H & _).
  destruct H as [H1 H2]; [vm_compute; reflexivity|].
  split; [exact H1 | exact (H2 3%nat)].
Defined.

(** ** Invariants of the discovery loop *)

Lemma set_insert_elem x s y : y ∈ set_insert x s ↔ y = x ∨ y ∈ s.
Proof.
  induction s as [|z s IH]; cbn; [set_solver|].
  destruct (Z.ltb_spec x z); [set_solver|].
  destruct (Z.eqb_spec x z); [set_solver|].
  rewrite elem_of_cons, IH. set_solver.
Qed.

Lemma set_insert_sorted x s : StronglySorted Z.lt s → StronglySorted Z.lt (set_insert x s).
Proof.
  induction 1 as [|z s Hs IH Hz]; cbn; [repeat constructor|].
  destruct (Z.ltb_spec x z).
  - constructor; [by constructor|]. constructor; [done|].
    eapply Forall_impl; [exact Hz|]. cbn. lia.
  - destruct (Z.eqb_spec x z); [by constructor|].
    constructor; [done|]. apply Forall_forall. intros y [->|Hy]%set_insert_elem; [lia|].
    by eapply Forall_forall in Hz.
Qed.

Lemma foldl_set_insert_sorted {B} (f : list Z → B → list Z) (l : list B) s :
  (∀ s b, StronglySorted Z.lt s → StronglySorted Z.lt (f s b)) →
  StronglySorted Z.lt s → StronglySorted Z.lt (foldl f s l).
Proof. intros Hf. revert s. induction l as [|b l IH]; cbn; auto. Qed.

Lemma StronglySorted_lt_NoDup (s : list Z) : StronglySorted Z.lt s → NoDup s.
Proof.
  induction 1 as [|z s Hs IH Hz]; constructor; [|done].
  intros Hin. eapply Forall_forall in Hz; [|done]. lia.
Qed.

Lemma map_find_Some fn m key v :
  map_find fn m = Some (key, v) → (key, v) ∈ m.
Proof. unfold map_find. intros H%find_some. apply list_elem_of_In. tauto. Qed.

Lemma map_wf_find fn m key v :
  Forall (λ kv : list Z * Z, 0 ≤ kv.2) m → map_find fn m = Some (key, v) → 0 ≤ v.
Proof.
  intros Hm Hf%map_find_Some. eapply Forall_forall in Hm; [|done]. done.
Qed.

Lemma map_wf_emplace fn v m :
  0 ≤ v → Forall (λ kv : list Z * Z, 0 ≤ kv.2) m →
  Forall (λ kv : list Z * Z, 0 ≤ kv.2) (map_emplace fn v m).
Proof.
  intros Hv Hm. unfold map_emplace. destruct (map_find fn m); [done|].
  apply Forall_app. split; [done|]. by constructor.
Qed.

Lemma map_wf_erase fn m :
  Forall (λ kv : list Z * Z, 0 ≤ kv.2) m →
  Forall (λ kv : list Z * Z, 0 ≤ kv.2) (map_erase fn m).
Proof.
  intros Hm. unfold map_erase. apply Forall_forall. intros kv Hkv%list_elem_of_In.
  apply filter_In in Hkv as [Hkv%list_elem_of_In _]. by eapply Forall_forall in Hm.
Qed.

Lemma map_wf_assign fn v m :
  0 ≤ v → Forall (λ kv : list Z * Z, 0 ≤ kv.2) m →
  Forall (λ kv : list Z * Z, 0 ≤ kv.2) (map_assign fn v m).
Proof.
  intros Hv Hm. unfold map_assign. destruct (map_find fn m).
  - apply Forall_fmap. eapply Forall_impl; [exact Hm|]. intros kv Hkv. cbn.
    by destruct (FaceNodes_equiv fn kv.1).
  - apply Forall_app. split; [done|]. by constructor.
Qed.

Lemma lexicographical_compare_total a b :
  lexicographical_compare a b = false → lexicographical_compare b a = false → a = b.
Proof.
  revert b. induction a as [|x a IH]; intros [|y b]; cbn; try done.
  destruct (Z.ltb_spec x y), (Z.ltb_spec y x); try done; try lia.
  intros Hab Hba. assert (x = y) as -> by lia. f_equal. by apply IH.
Qed.

(** Two node tuples are the same key exactly when they hold the same nodes
    up to order. *)
Lemma FaceNodes_equiv_spec a b :
  FaceNodes_equiv a b = true ↔ sort_ints a = sort_ints b.
Proof.
  unfold FaceNodes_equiv, FaceNodes_lt. rewrite andb_true_iff, !negb_true_iff. split.
  - intros [H1 H2]. by apply lexicographical_compare_total.
  - intros ->. by rewrite lexicographical_compare_irrefl.
Qed.

Lemma map_find_None fn m :
  map_find fn m = None ↔ sort_ints fn ∉ map_keys m.
Proof.
  unfold map_find, map_keys. induction m as [|[k v] m IH]; cbn.
  - split; [intros _; apply not_elem_of_nil|done].
  - destruct (FaceNodes_equiv fn k) eqn:E.
    + apply FaceNodes_equiv_spec in E. split; [done|]. intros H. exfalso. apply H.
      rewrite E. apply elem_of_cons. by left.
    + rewrite IH, not_elem_of_cons. split; [|tauto]. intros H. split; [|done].
      intros Heq. apply FaceNodes_equiv_spec in Heq. congruence.
Qed.

Lemma map_find_key fn m key v :
  map_find fn m = Some (key, v) → sort_ints key = sort_ints fn ∧ (key, v) ∈ m.
Proof.
  intros H. split; [|by eapply map_find_Some].
  unfold map_find in H. apply find_some in H as [_ H]. cbn in H.
  by apply FaceNodes_equiv_spec in H.
Qed.

Lemma map_emplace_fresh fn v m :
  NoDup (map_keys m) → sort_ints fn ∉ map_keys m →
  NoDup (map_keys (map_emplace fn v m)) ∧
  length (map_emplace fn v m) = S (length m).
Proof.
  intros Hnd Hn. unfold map_emplace. rewrite (proj2 (map_find_None fn m) Hn).
  unfold map_keys. rewrite fmap_app, length_app. cbn. split; [|lia].
  apply NoDup_app. split; [done|]. split; [|apply NoDup_singleton].
  intros x Hx ->%list_elem_of_singleton. done.
Qed.

Lemma map_assign_fresh fn v m :
  NoDup (map_keys m) → map_find fn m = None →
  NoDup (map_keys (map_assign fn v m)) ∧
  length (map_assign fn v m) = S (length m).
Proof.
  intros Hnd Hn. unfold map_assign. rewrite Hn. apply map_find_None in Hn.
  unfold map_keys. rewrite fmap_app, length_app. cbn. split; [|lia].
  apply NoDup_app. split; [done|]. split; [|apply NoDup_singleton].
  intros x Hx ->%list_elem_of_singleton. done.
Qed.

Lemma map_erase_present key v m :
  NoDup (map_keys m) → (key, v) ∈ m →
  NoDup (map_keys (map_erase key m)) ∧ (sort_ints key ∉ map_keys (map_erase key m)) ∧
  S (length (map_erase key m)) = length m.
Proof.
  unfold map_erase, map_keys. induction m as [|[k w] m IH]; intros Hnd Hin.
  { by apply elem_of_nil in Hin. }
  cbn in Hnd. apply NoDup_cons in Hnd as [Hk Hnd]. cbn.
  destruct (FaceNodes_equiv key k) eqn:E; cbn.
  - apply FaceNodes_equiv_spec in E.
    assert (List.filter (λ kv : list Z * Z, negb (FaceNodes_equiv key kv.1)) m = m) as ->.
    { clear IH Hin Hnd. induction m as [|[k' w'] m IH]; [done|]. cbn.
      destruct (FaceNodes_equiv key k') eqn:E'.
      - apply FaceNodes_equiv_spec in E'. exfalso. apply Hk. cbn.
        apply elem_of_cons. left. change (sort_ints k = sort_ints k'). congruence.
      - cbn. f_equal. apply IH. intros H. apply Hk. cbn. apply elem_of_cons. by right. }
    split; [done|]. split; [by rewrite E|done].
  - apply elem_of_cons in Hin as [Hin|Hin].
    { injection Hin as Hkk Hvw. exfalso. rewrite <- Hkk in E.
      assert (FaceNodes_equiv key key = true) by (by apply FaceNodes_equiv_spec). congruence. }
    destruct (IH Hnd Hin) as (IH1 & IH2 & IH3). split; [|split].
    + apply NoDup_cons. split; [|done]. intros H. apply Hk.
      apply list_elem_of_fmap in H as [kv [-> Hkv]]. apply list_elem_of_fmap.
      exists kv. split; [done|]. apply list_elem_of_In in Hkv.
      apply filter_In in Hkv as [Hkv _]. by apply list_elem_of_In.
    + apply not_elem_of_cons. split; [|done]. intros Heq.
      apply FaceNodes_equiv_spec in Heq. congruence.
    + lia.
Qed.

Lemma upd_length i f els : length (upd i f els) = length els.
Proof. apply length_alter. Qed.

Lemma parents_wf_upd i f els :
  (∀ e, -1 ≤ parent e → -1 ≤ parent (f e)) → parents_wf els → parents_wf (upd i f els).
Proof. intros Hf Hw. apply Forall_alter; [done|]. intros; by apply Hf. Qed.

Lemma wire_length Dim p c n els : length (wire Dim p c n els) = length els.
Proof. unfold wire. by rewrite !upd_length. Qed.

Lemma parents_wf_wire Dim p c n els :
  0 ≤ p → parents_wf els → parents_wf (wire Dim p c n els).
Proof.
  intros Hp Hw. unfold wire. repeat apply parents_wf_upd; try done.
  intros e _. cbn. lia.
Qed.

Lemma parents_wf_AddElement g attr els :
  parents_wf els → parents_wf (AddElement (new_Element g attr) els).2.
Proof. intros Hw. cbn. apply Forall_app. split; [done|]. constructor; [cbn; lia|done]. Qed.

Section DiscoverInvariants.

Variable parent_mesh : ParNCMesh.
Variable Dim : Z.
Variable attributes : list Z.
Variable indeterminate : list Z.

Lemma discover_inv_root i s new_elem_id :
  discover_inv i s →
  discover_inv i (set_elements (upd new_elem_id (set_parent (-1)) (elements s)) s).
Proof.
  intros [H1 H2 H3 Hk Hl H4 H5 H6]. constructor; cbn; try done.
  - by rewrite upd_length.
  - apply parents_wf_upd; [|done]. intros e _. cbn. lia.
  - by rewrite upd_length.
Qed.

Lemma discover_inv_wire i s pelem_id child_slot new_elem_id :
  0 ≤ pelem_id → discover_inv i s →
  discover_inv i (set_elements (wire Dim pelem_id child_slot new_elem_id (elements s)) s).
Proof.
  intros Hp [H1 H2 H3 Hk Hl H4 H5 H6]. constructor; cbn; try done.
  - by rewrite wire_length.
  - by apply parents_wf_wire.
  - by rewrite wire_length.
Qed.

Lemma discover_inv_fix i s fn key pelem_id :
  map_find fn (pnodes_new_elem s) = Some (key, pelem_id) →
  0 ≤ pelem_id → discover_inv i s →
  discover_inv i (fix_parent_elem indeterminate fn key pelem_id s).
Proof.
  intros Hfind Hp [H1 H2 H3 Hk Hl H4 H5 H6]. unfold fix_parent_elem.
  destruct (map_find_key _ _ _ _ Hfind) as [Hsort Hin].
  destruct (map_erase_present key pelem_id _ Hk Hin) as (E1 & E2 & E3).
  rewrite Hsort in E2.
  destruct (map_emplace_fresh fn pelem_id _ E1 E2) as [F1 F2].
  constructor; cbn; try done.
  - destruct (IsLeaf _); by rewrite upd_length.
  - destruct (IsLeaf _); by apply parents_wf_upd.
  - apply map_wf_emplace; [done|]. by apply map_wf_erase.
  - rewrite F2, E3. destruct (IsLeaf _); by rewrite upd_length.
Qed.

Lemma discover_inv_new_parent i s fn attr parent_face_id :
  map_find fn (pnodes_new_elem s) = None →
  discover_inv i s →
  discover_inv i
    (set_parent_element_ids (parent_element_ids_ s ++ [parent_face_id])
       (set_pnodes_new_elem
          (map_emplace fn (Z.of_nat (length (elements s))) (pnodes_new_elem s))
          (set_elements (elements s ++ [new_Element (face_geom_from_nodes fn) attr]) s))).
Proof.
  intros Hfind [H1 H2 H3 Hk Hl H4 H5 H6].
  destruct (map_emplace_fresh fn (Z.of_nat (length (elements s))) _ Hk
              (proj1 (map_find_None _ _) Hfind)) as [F1 F2].
  constructor; cbn; try done.
  - rewrite !length_app. cbn. lia.
  - apply Forall_app. split; [done|]. constructor; [cbn; lia|done].
  - apply map_wf_emplace; [lia|done].
  - rewrite F2, length_app. cbn. lia.
  - intros p v Hpv. destruct (H6 p v Hpv) as (? & ? & Hl').
    split; [done|]. split; [done|].
    rewrite lookup_app_l; [done|]. by eapply lookup_lt_Some.
Qed.

Lemma ascend_inv fuel attr g ft fn new_elem_id i s :
  discover_inv i s →
  discover_inv i (ascend parent_mesh Dim indeterminate fuel attr g ft fn new_elem_id s).1.
Proof.
  revert fn new_elem_id s. induction fuel as [|fuel IH]; intros fn new_elem_id s Hinv; [done|].
  cbn [ascend]. destruct (ParentFaceNodes parent_mesh fn) as [child_slot fn'].
  destruct (child_slot =? -1); [by apply discover_inv_root|].
  destruct (map_find fn' (pnodes_new_elem s)) as [[key pelem_id]|] eqn:Hfind.
  - assert (0 ≤ pelem_id) as Hp by (eapply map_wf_find; [apply Hinv|done]).
    match goal with |- context [if ?c then _ else _] => destruct c end.
    + apply IH. apply discover_inv_wire; [done|]. by apply discover_inv_fix.
    + by apply discover_inv_wire.
  - cbn [AddElement]. apply IH. apply discover_inv_wire; [lia|].
    exact (discover_inv_new_parent i s fn' attr _ Hfind Hinv).
Qed.

Lemma visit_face_inv fuel i face s :
  0 ≤ i → discover_inv i s →
  discover_inv (i + 1) (visit_face parent_mesh Dim attributes indeterminate fuel i face s).1.
Proof.
  intros Hi Hinv.
  assert (discover_inv (i + 1) s) as Hinv1.
  { destruct Hinv as [H1 H2 H3 Hk Hl H4 H5 H6]. constructor; try done.
    intros p v Hpv. destruct (H6 p v Hpv) as (? & ? & ?).
    split; [lia|]. by split. }
  unfold visit_face.
  match goal with |- context [if ?c then _ else _] => destruct c end; [done|].
  destruct (map_find _ (pnodes_new_elem s)) eqn:Hfind; [done|].
  cbn [AddElement]. apply ascend_inv.
  destruct Hinv as [H1 H2 H3 Hk Hl H4 H5 H6].
  destruct (map_assign_fresh (FindFaceNodes parent_mesh face)
              (Z.of_nat (length (elements s))) _ Hk Hfind) as [F1 F2].
  constructor; cbn.
  - rewrite !upd_length, !length_app. cbn. lia.
  - repeat apply parents_wf_upd; try done. apply Forall_app. split; [done|].
    constructor; [cbn; lia|done].
  - apply map_wf_assign; [lia|done].
  - done.
  - rewrite F2, !upd_length, length_app. cbn. lia.
  - done.
  - apply foldl_set_insert_sorted; [intros; by apply set_insert_sorted|].
    apply foldl_set_insert_sorted; [|done].
    intros ns x Hs. destruct (x =? -1); [done|]. by apply set_insert_sorted.
  - intros p v. destruct (decide (i = p)) as [<-|Hne].
    + rewrite lookup_insert_eq. intros [= <-]. split; [lia|]. split; [lia|].
      by rewrite Nat2Z.id, <- H1, lookup_app_r, Nat.sub_diag.
    + rewrite lookup_insert_ne by done. intros Hpv.
      destruct (H6 p v Hpv) as (? & ? & Hl'). split; [lia|]. split; [done|].
      rewrite lookup_app_l; [done|]. by eapply lookup_lt_Some.
Qed.

Lemma face_loop_inv fuel slots i ipe s :
  0 ≤ i → discover_inv i s →
  ∃ j, discover_inv j
         (face_loop parent_mesh Dim attributes indeterminate fuel slots i ipe s).1.
Proof.
  revert i ipe s. induction slots as [|face slots IH]; intros i ipe s Hi Hinv; cbn.
  - by exists i.
  - destruct (ipe <? faces_Size parent_mesh); [|by exists i].
    destruct (unused face).
    + apply IH; [lia|]. destruct Hinv as [H1 H2 H3 Hk Hl H4 H5 H6]. constructor; try done.
      intros p v Hpv. destruct (H6 p v Hpv) as (? & ? & ?).
      split; [lia|]. by split.
    + pose proof (visit_face_inv fuel i face s Hi Hinv) as Hv.
      destruct (visit_face _ _ _ _ _ _ _ _) as [s1 ok1]. cbn in Hv.
      destruct (IH (i + 1) (ipe + 1) s1 ltac:(lia) Hv) as [j Hj].
      destruct (face_loop _ _ _ _ _ _ _ _ _) as [s2 ok2]. by exists j.
Qed.

Lemma discover_inv_init : discover_inv 0 init_state.
Proof. constructor; cbn; try done; try constructor. Qed.

Lemma discover_inv_discover fuel :
  ∃ j, discover_inv j (discover parent_mesh Dim attributes indeterminate fuel).1.
Proof.
  unfold discover.
  destruct (face_loop_inv fuel (p_faces parent_mesh) 0 0 init_state
              ltac:(lia) discover_inv_init) as [j Hj].
  destruct (face_loop _ _ _ _ _ _ _ _ _) as [s ok]. exists j. cbn.
  destruct Hj as [H1 H2 H3 Hk Hl H4 H5 H6]. by constructor.
Qed.

End DiscoverInvariants.

(** ** Pairing of elements and parent ids (C10) *)

(** Whatever the parent mesh answers and however far the ascents get, the
    discovery loop leaves [parent_element_ids_] with exactly one entry per
    submesh element: each [AddElement] (line 222 for a matching face, line
    284 for a synthesized ancestor) is followed by one [Append] (lines 239
    and 287), and nothing else changes either size.  The assertion of line
    348 is reached and holds. *)
Lemma discover_sizes (parent_mesh : ParNCMesh) (Dim : Z)
    (attributes indeterminate : list Z) (fuel : nat) (s : NCState) (finished : bool) :
  discover parent_mesh Dim attributes indeterminate fuel = (s, finished) →
  length (parent_element_ids_ s) = length (elements s) ∧
  (348, true) ∈ asserts s.
Proof.
  intros Hrun.
  destruct (discover_inv_discover parent_mesh Dim attributes indeterminate fuel)
    as [j Hj]. rewrite Hrun in Hj. cbn in Hj. split; [apply Hj|].
  revert Hrun. unfold discover.
  destruct (face_loop_inv parent_mesh Dim attributes indeterminate fuel
              (p_faces parent_mesh) 0 0 init_state
              ltac:(lia) discover_inv_init) as [j' Hj'].
  destruct (face_loop _ _ _ _ _ _ _ _ _) as [s0 ok]. intros [= <- _]. cbn.
  apply elem_of_app. right. apply list_elem_of_singleton. f_equal.
  symmetry. apply bool_decide_eq_true. apply Hj'.
Qed.

(** ** Parents after the reordering pass (C2) *)

Lemma rd_nonneg (l : list Z) i : Forall (λ x, 0 ≤ x) l → 0 ≤ rd l i.
Proof.
  intros Hl. unfold rd. rewrite list_lookup_total_alt.
  destruct (l !! Z.to_nat i) as [x|] eqn:E; cbn; [|done].
  eapply Forall_forall in Hl; [done|]. by eapply list_elem_of_lookup_2.
Qed.

Lemma foldl_preserves {A B} (P : A → Prop) (f : A → B → A) (l : list B) a :
  (∀ a b, P a → P (f a b)) → P a → P (foldl f a l).
Proof. intros Hf. revert a. induction l as [|b l IH]; cbn; auto. Qed.

Lemma invert_nonneg nto : Forall (λ x, 0 ≤ x) (invert nto).
Proof.
  unfold invert. apply foldl_preserves.
  - intros otn i Hotn. apply Forall_insert; [done|lia].
  - apply Forall_replicate. lia.
Qed.

Lemma remap_children_parents otn i cs els :
  parents_wf els → parents_wf (remap_children otn i cs els).
Proof.
  revert els. induction cs as [|c cs IH]; intros els Hw; cbn; [done|].
  destruct (0 <=? _); [|done]. apply IH.
  apply Forall_alter; [|done]. by apply Forall_alter.
Qed.

Lemma relink_element_parents otn els i :
  Forall (λ x, 0 ≤ x) otn → parents_wf els → parents_wf (relink_element otn els i).
Proof.
  intros Hotn Hw. unfold relink_element. apply Forall_alter.
  - destruct (negb _); [|done]. apply remap_children_parents. by apply Forall_alter.
  - intros e _ _. cbn. destruct (parent e =? -1); [lia|].
    pose proof (rd_nonneg otn (parent e) Hotn). lia.
Qed.

Lemma Permute_parents nto els : parents_wf els → parents_wf (Permute nto els).
Proof.
  intros Hw. unfold Permute. apply Forall_fmap, Forall_forall. intros i _. cbn.
  rewrite list_lookup_total_alt. destruct (els !! i) as [e|] eqn:E; cbn; [|lia].
  eapply Forall_forall in Hw; [done|]. by eapply list_elem_of_lookup_2.
Qed.

Lemma reorder_step_parents s :
  parents_wf (elements s) → parents_wf (elements (reorder_step s)).
Proof.
  intros Hw. unfold reorder_step. cbn. apply foldl_preserves.
  - intros els i. apply relink_element_parents, invert_nonneg.
  - by apply Permute_parents.
Qed.

Lemma reorder_loop_parents fuel s s' k :
  parents_wf (elements s) → reorder_loop fuel s = Some (s', k) → parents_wf (elements s').
Proof.
  revert s k. induction fuel as [|fuel IH]; intros s k Hw; cbn.
  - destruct (parental_sorted s); [|done]. by intros [= <- _].
  - destruct (parental_sorted s); [by intros [= <- _]|].
    destruct (reorder_loop fuel (reorder_step s)) as [[s1 k1]|] eqn:E1; [|done].
    intros [= <- _]. eapply IH; [|done]. by apply reorder_step_parents.
Qed.

Lemma register_node_elements line s n : elements (register_node line s n) = elements s.
Proof. unfold register_node. by destruct (Get n (node_ids s)) as [[? ?] ?]. Qed.

Lemma register_new_nodes_elements line s :
  elements (register_new_nodes line s) = elements s.
Proof.
  unfold register_new_nodes. generalize (new_nodes s) as ns. intros ns. revert s.
  induction ns as [|n ns IH]; intros s; cbn; [done|]. by rewrite IH, register_node_elements.
Qed.

(** Roots come first in any array whose parents are non-decreasing and at
    least [-1]. *)
Lemma roots_first (els : list Element) :
  parents_wf els →
  (∀ i e e', els !! i = Some e → els !! S i = Some e' → parent e ≤ parent e') →
  ∀ i j ei ej, els !! i = Some ei → els !! j = Some ej →
               parent ei = -1 → parent ej ≠ -1 → (i < j)%nat.
Proof.
  intros Hw Hadj i j ei ej Hi Hj Hroot Hnon.
  destruct (decide (i < j)%nat) as [|Hge]; [done|]. exfalso.
  pose proof (adjacent_monotone els Hadj j i ej ei ltac:(lia) Hj Hi) as Hle.
  eapply Forall_forall in Hw; [|by eapply list_elem_of_lookup_2]. cbn in Hw. lia.
Qed.

(** C2.  When the boundary branch gets through its reordering loop, the
    parents of adjacent elements are non-decreasing, and every root element
    stands before every element that has a parent. *)
Theorem C2_parents_monotone (parent_mesh : ParNCMesh) (Dim : Z)
    (attributes indeterminate : list Z) (fuel : nat) (s : NCState) (sorts : nat) :
  boundary_pass parent_mesh Dim attributes indeterminate fuel = Some (s, sorts) →
  (∀ i e e', elements s !! i = Some e → elements s !! S i = Some e' →
             parent e ≤ parent e') ∧
  (∀ i j ei ej, elements s !! i = Some ei → elements s !! j = Some ej →
                parent ei = -1 → parent ej ≠ -1 → (i < j)%nat).
Proof.
  unfold boundary_pass. intros Hpass.
  destruct (discover_inv_discover parent_mesh Dim attributes indeterminate fuel) as [j Hj].
  destruct (discover _ _ _ _ _) as [s0 ok]. destruct ok; [|done]. cbn in Hj.
  pose proof (reorder_loop_sorted _ _ _ _ Hpass) as Hsorted.
  pose proof (parental_sorted_adjacent _ Hsorted) as Hadj.
  split; [done|]. apply roots_first; [|done].
  eapply reorder_loop_parents; [|done]. cbn.
  rewrite register_new_nodes_elements. apply Hj.
Qed.

Lemma C2_parents_monotone_witness :
  (∀ i e e', elements edge_tree_result !! i = Some e →
             elements edge_tree_result !! S i = Some e' → parent e ≤ parent e') ∧
  (∀ i j ei ej, elements edge_tree_result !! i = Some ei →
                elements edge_tree_result !! j = Some ej →
                parent ei = -1 → parent ej ≠ -1 → (i < j)%nat).
Proof.
  assert (boundary_pass edge_tree_mesh 1 [1] [0; 0; 0; 0] 10 = Some (edge_tree_result, 2%nat)) as Hrun
    by (vm_compute; reflexivity).
  exact (C2_parents_monotone edge_tree_mesh 1 [1] [0; 0; 0; 0] 10 edge_tree_result 2 Hrun).
Defined.

(** ** The ordering depends on the parent links only *)

Lemma parent_lookup_eq (els1 els2 : list Element) l :
  parent <$> els1 = parent <$> els2 → parent (els1 !!! l) = parent (els2 !!! l).
Proof.
  intros Heq. rewrite !list_lookup_total_alt.
  assert ((parent <$> els1) !! l = (parent <$> els2) !! l) as H by by rewrite Heq.
  rewrite !list_lookup_fmap in H.
  destruct (els1 !! l), (els2 !! l); cbn in *; congruence.
Qed.

Lemma comp_elements_key els1 els2 tbl l r :
  parent <$> els1 = parent <$> els2 →
  comp_elements els1 tbl l r = comp_elements els2 tbl l r.
Proof.
  intros Heq. unfold comp_elements.
  by rewrite (parent_lookup_eq els1 els2 l Heq), (parent_lookup_eq els1 els2 r Heq).
Qed.

Lemma order_key_length s1 s2 :
  order_key s1 = order_key s2 → length (elements s1) = length (elements s2).
Proof. intros [= H _ _]. by rewrite <- (length_fmap parent), H, length_fmap. Qed.

Lemma sorted_new_to_old_key s1 s2 :
  order_key s1 = order_key s2 → sorted_new_to_old s1 = sorted_new_to_old s2.
Proof.
  intros Hk. pose proof (order_key_length _ _ Hk) as Hlen.
  injection Hk as Hp Ht He. unfold sorted_new_to_old. rewrite Hlen, Ht.
  apply stable_sort_ext. intros. by apply comp_elements_key.
Qed.

Lemma parental_sorted_key s1 s2 :
  order_key s1 = order_key s2 → parental_sorted s1 = parental_sorted s2.
Proof.
  intros Hk. pose proof (order_key_length _ _ Hk) as Hlen.
  injection Hk as Hp Ht He. unfold parental_sorted. rewrite Hlen, Ht.
  apply is_sorted_ext. intros. by apply comp_elements_key.
Qed.

Lemma alter_id_list {A} (l : list A) i : alter id i l = l.
Proof.
  apply list_eq. intros j. rewrite list_lookup_alter.
  destruct (decide (i = j)); [|done]. subst. by destruct (l !! j).
Qed.

Lemma remap_children_parent_list otn i cs els :
  parent <$> remap_children otn i cs els = parent <$> els.
Proof.
  revert els. induction cs as [|c cs IH]; intros els; cbn; [done|].
  destruct (0 <=? _); [|done]. rewrite IH.
  rewrite !(list_fmap_alter parent _ id); try by apply Forall_true.
  by rewrite !alter_id_list.
Qed.

Lemma relink_element_parent_list otn els i :
  parent <$> relink_element otn els i =
  alter (λ p, if p =? -1 then -1 else rd otn p) i (parent <$> els).
Proof.
  unfold relink_element.
  rewrite (list_fmap_alter parent _ (λ p, if p =? -1 then -1 else rd otn p));
    [|by apply Forall_true].
  f_equal. destruct (negb _); [|done].
  rewrite remap_children_parent_list.
  rewrite (list_fmap_alter parent _ id); [|by apply Forall_true].
  apply alter_id_list.
Qed.

Lemma relink_all_parent_list otn is_ els1 els2 :
  parent <$> els1 = parent <$> els2 →
  parent <$> foldl (relink_element otn) els1 is_ =
  parent <$> foldl (relink_element otn) els2 is_.
Proof.
  revert els1 els2. induction is_ as [|i is_ IH]; intros els1 els2 Heq; cbn; [done|].
  apply IH. by rewrite !relink_element_parent_list, Heq.
Qed.

Lemma Permute_parent_list nto els1 els2 :
  parent <$> els1 = parent <$> els2 →
  parent <$> Permute nto els1 = parent <$> Permute nto els2.
Proof.
  intros Heq. unfold Permute. rewrite <- !list_fmap_compose.
  apply list_fmap_ext. intros _ i _. cbn. by apply parent_lookup_eq.
Qed.

Lemma Permute_length {A} `{Inhabited A} nto (a : list A) : length (Permute nto a) = length nto.
Proof. unfold Permute. by rewrite length_fmap. Qed.

Lemma reorder_step_key s1 s2 :
  order_key s1 = order_key s2 → order_key (reorder_step s1) = order_key (reorder_step s2).
Proof.
  intros Hk. pose proof (sorted_new_to_old_key _ _ Hk) as Hnto.
  injection Hk as Hp Ht He. unfold order_key, reorder_step. cbn.
  rewrite Hnto, Ht, He. f_equal. f_equal.
  rewrite !Permute_length. apply relink_all_parent_list. by apply Permute_parent_list.
Qed.

(** The side table read by [comp_elements] through [at()] has one entry
    per element when the reordering loop is entered and after each of its
    iterations, so the accesses are in range. *)
Lemma discover_table_size parent_mesh Dim attributes indeterminate fuel :
  let s := (discover parent_mesh Dim attributes indeterminate fuel).1 in
  length (new_elem_to_parent_face_nodes s) = length (elements s).
Proof.
  intros s. subst s. unfold discover.
  destruct (face_loop_inv parent_mesh Dim attributes indeterminate fuel
              (p_faces parent_mesh) 0 0 init_state
              ltac:(lia) discover_inv_init) as [j Hj].
  destruct (face_loop _ _ _ _ _ _ _ _ _) as [s ok]. cbn.
  rewrite length_replicate. apply Hj.
Qed.

Lemma reorder_step_table_size s :
  length (new_elem_to_parent_face_nodes (reorder_step s)) = length (elements (reorder_step s)).
Proof.
  unfold reorder_step. cbn. rewrite Permute_length.
  rewrite <- (length_fmap parent (foldl _ _ _)).
  assert (∀ otn is_ els, length (parent <$> foldl (relink_element otn) els is_) = length els)
    as Hlen.
  { intros otn is_. induction is_ as [|i is_ IH]; intros els; cbn; [by rewrite length_fmap|].
    rewrite IH. rewrite <- (length_fmap parent), relink_element_parent_list.
    by rewrite length_alter, length_fmap. }
  by rewrite Hlen, Permute_length.
Qed.

(** The outcome of the reordering loop is a function of the parent links of
    the elements, of the side table of parent face nodes and of the parent
    ids alone: two states that agree on these go through the same
    permutations, leave the loop after the same number of sorts (or both do
    not leave it within the given number of iterations), and end with the
    same parent links, side table and parent ids in the same order. *)
Lemma reorder_loop_order_key (s1 s2 : NCState) (fuel : nat) :
  order_key s1 = order_key s2 →
  reorder_permutations fuel s1 = reorder_permutations fuel s2 ∧
  match reorder_loop fuel s1, reorder_loop fuel s2 with
  | Some (s1', k1), Some (s2', k2) => k1 = k2 ∧ order_key s1' = order_key s2'
  | None, None => True
  | _, _ => False
  end.
Proof.
  revert s1 s2. induction fuel as [|fuel IH]; intros s1 s2 Hk; cbn;
    rewrite (parental_sorted_key _ _ Hk); destruct (parental_sorted s2); try done.
  destruct (IH _ _ (reorder_step_key _ _ Hk)) as [IH1 IH2].
  rewrite (sorted_new_to_old_key _ _ Hk), IH1. split; [done|].
  destruct (reorder_loop fuel (reorder_step s1)) as [[s1' k1]|],
           (reorder_loop fuel (reorder_step s2)) as [[s2' k2]|]; try done.
  destruct IH2 as [-> ?]. done.
Qed.

(** ** Rank of internal elements (C6) *)

(** C6 on the refined boundary edge.  The boundary branch completes after
    two sorts.  Its root (element 0) is internal with the children 1 and 2,
    both of rank 1, yet its own rank is 0: in the first sweep child 2 took
    the rank 0 from its own internal child, a synthesized element not yet
    recomputed; in the second sweep the root was visited before child 2 and
    read that 0.  The array is sorted then and the loop stops; one more
    sweep would have set the root's rank to 1. *)
Theorem C6_stale_rank_on_refined_edge :
  boundary_pass edge_tree_mesh 1 [1] [0; 0; 0; 0] 10 = Some (edge_tree_result, 2%nat) ∧
  IsLeaf (elements edge_tree_result !!! 0%nat) = false ∧
  take 3 (child (elements edge_tree_result !!! 0%nat)) = [1; 2; -1] ∧
  rank (elements edge_tree_result !!! 0%nat) = 0 ∧
  rank (elements edge_tree_result !!! 1%nat) = 1 ∧
  rank (elements edge_tree_result !!! 2%nat) = 1 ∧
  rank (elements (reorder_step edge_tree_result) !!! 0%nat) = 1.
Proof. vm_compute. repeat split; reflexivity. Qed.

(** ** Reordering of the children of a re-oriented parent (C5) *)

Lemma foldl_scatter_untouched {A} (f : nat → option nat) (g : nat → A) l (c : list A) j :
  (∀ i, i ∈ l → f i ≠ Some j) →
  foldl (λ c i, match f i with Some k => <[k := g i]> c | None => c end) c l !! j = c !! j.
Proof.
  revert c. induction l as [|a l IH]; intros c Hf; cbn; [done|].
  rewrite IH by (intros; apply Hf; set_solver).
  destruct (f a) as [k|] eqn:E; [|done].
  apply list_lookup_insert_ne. intros ->. by apply (Hf a); [set_solver|].
Qed.

Lemma foldl_scatter_length {A} (f : nat → option nat) (g : nat → A) l (c : list A) :
  length (foldl (λ c i, match f i with Some k => <[k := g i]> c | None => c end) c l)
  = length c.
Proof.
  revert c. induction l as [|a l IH]; intros c; cbn; [done|].
  rewrite IH. destruct (f a); [apply length_insert|done].
Qed.

Lemma foldl_scatter_written {A} (f : nat → option nat) (g : nat → A) l (c : list A) j i :
  NoDup l → i ∈ l → f i = Some j → (∀ i', i' ∈ l → f i' = Some j → i' = i) →
  (j < length c)%nat →
  foldl (λ c i, match f i with Some k => <[k := g i]> c | None => c end) c l !! j
  = Some (g i).
Proof.
  revert c. induction l as [|a l IH]; intros c Hnd Hi Hfi Huniq Hj; cbn.
  { by apply elem_of_nil in Hi. }
  apply NoDup_cons in Hnd as [Ha Hnd].
  destruct (decide (a = i)) as [->|Hne].
  - rewrite Hfi. rewrite foldl_scatter_untouched.
    + by apply list_lookup_insert_eq.
    + intros i' Hi' Hfi'. assert (i' = i) as -> by (apply Huniq; [set_solver|done]). done.
  - apply IH; try done.
    + set_solver.
    + intros. apply Huniq; [set_solver|done].
    + destruct (f a); [by rewrite length_insert|done].
Qed.

(** What the loop of lines 321-327 does in general, for two tuples without
    repeated nodes: the child that stood at position [i1], the position of a
    node in the NEW order, is stored at [i2], the position of that node in
    the OLD order. *)
Lemma reorder_children_spec (fn key old_child local : list Z) (i1 i2 : nat) :
  (∀ a b, (a < 4)%nat → (b < 4)%nat → rd fn (Z.of_nat a) = rd fn (Z.of_nat b) → a = b) →
  (∀ a b, (a < 4)%nat → (b < 4)%nat → rd key (Z.of_nat a) = rd key (Z.of_nat b) → a = b) →
  length local = MaxFaceNodes → (i1 < 4)%nat → (i2 < 4)%nat →
  rd fn (Z.of_nat i1) = rd key (Z.of_nat i2) →
  reorder_children fn key old_child local !! i2 = Some (rd old_child (Z.of_nat i1)).
Proof.
  intros Hfn Hkey Hlen H1 H2 Heq. unfold reorder_children, reorder_child_local.
  set (f := λ i1 : nat, List.find (λ i2 : nat, rd fn (Z.of_nat i1) =? rd key (Z.of_nat i2))
                                  (seq 0 MaxFaceNodes)).
  set (g := λ i1 : nat, rd old_child (Z.of_nat i1)).
  change (foldl _ local (seq 0 MaxFaceNodes))
    with (foldl (λ c i, match f i with Some k => <[k := g i]> c | None => c end)
                local (seq 0 MaxFaceNodes)).
  assert (∀ a j, f a = Some j → (j < 4)%nat ∧ rd fn (Z.of_nat a) = rd key (Z.of_nat j)) as Hf.
  { intros a j Hj. unfold f in Hj. apply find_some in Hj as [Hin Hj].
    apply list_elem_of_In, elem_of_seq in Hin. split; [unfold MaxFaceNodes in Hin; lia|].
    by apply Z.eqb_eq. }
  assert (f i1 = Some i2) as Hfi.
  { destruct (f i1) as [j|] eqn:E.
    - destruct (Hf _ _ E) as [Hj Hj']. f_equal. apply Hkey; try done. congruence.
    - unfold f in E. eapply find_none in E.
      + apply Z.eqb_neq in E. done.
      + apply list_elem_of_In, elem_of_seq. unfold MaxFaceNodes. lia. }
  rewrite lookup_app_l.
  2:{ rewrite length_take, foldl_scatter_length, Hlen. unfold MaxFaceNodes. lia. }
  rewrite lookup_take_lt by (unfold MaxFaceNodes; lia).
  change (rd old_child (Z.of_nat i1)) with (g i1).
  apply foldl_scatter_written; try done.
  - apply NoDup_seq.
  - apply elem_of_seq. unfold MaxFaceNodes. lia.
  - intros i' Hi' Hfi'. apply elem_of_seq in Hi'. unfold MaxFaceNodes in Hi'.
    destruct (Hf _ _ Hfi') as [_ Hv]. apply Hfn; first [lia | congruence].
  - rewrite Hlen. unfold MaxFaceNodes. lia.
Qed.

(** C5 on a quadrilateral parent found again in the rotated node order
    [(2,3,4,1)].  The map is re-keyed to the new tuple.  With all four
    children wired, the children that stood at the corners [1,2,3,4] as
    [0,1,2,3] are stored as [3,0,1,2]: the child of corner 2 (element 1, old
    slot 1) is not at the new slot of node 2 (slot 0), which holds element
    3.  The loop of lines 321-326 moves each child from the new position of
    a node to its old position, where it has to go from the old to the new.
    In a whole discovery, on the master face whose fourth slave is stored
    from another vertex: the parent (element 1) has the children [0,2,3] of
    the corners 1, 2, 3 wired when the fourth slave arrives; the fix stores
    them as [-1,0,2,3], and line 337 then wires the fourth slave into slot 2,
    over element 2, which keeps its parent link but is no child any more. *)
Theorem C5_children_moved_by_inverse (local : list Z) :
  length local = MaxFaceNodes →
  let s := fix_parent_elem local [2; 3; 4; 1] [1; 2; 3; 4] 4 quad_family_state in
  let d := discover rotated_quad_mesh 2 [1] local 10 in
  pnodes_new_elem s = [([2; 3; 4; 1], 4)] ∧
  take 4 (child (elements quad_family_state !!! 4%nat)) = [0; 1; 2; 3] ∧
  take 4 (child (elements s !!! 4%nat)) = [3; 0; 1; 2] ∧
  rd (child (elements s !!! 4%nat)) 0 ≠ rd (child (elements quad_family_state !!! 4%nat)) 1 ∧
  d.2 = true ∧
  take 4 (child (elements d.1 !!! 1%nat)) = [-1; 0; 4; 3] ∧
  parent (elements d.1 !!! 2%nat) = 1.
Proof.
  intros Hlen. destruct local as [|j0 [|j1 [|j2 [|j3 [|]]]]]; try discriminate Hlen.
  vm_compute. repeat split; congruence.
Qed.

Lemma C5_children_moved_by_inverse_witness :
  take 4 (child (elements (fix_parent_elem [0; 0; 0; 0] [2; 3; 4; 1] [1; 2; 3; 4] 4
                             quad_family_state) !!! 4%nat)) = [3; 0; 1; 2] ∧
  take 4 (child (elements (discover rotated_quad_mesh 2 [1] [0; 0; 0; 0] 10).1 !!! 1%nat))
    = [-1; 0; 4; 3].
Proof.
  pose proof (C5_children_moved_by_inverse [0; 0; 0; 0] eq_refl) as H.
  cbv zeta in H. destruct H as (_ & _ & H1 & _ & _ & H2 & _). split; [exact H1 | exact H2].
Defined.

(** ** Identity maps (C1) *)

(** C1 as stated fails on the refined boundary edge: the submesh element 1
    is a synthesized ancestor whose face is not in the parent's face table,
    its parent id is [-1], and the inverse map has no entry for [-1]; a
    look-up yields 0, not 1. *)
Lemma C1_counterexample :
  boundary_pass edge_tree_mesh 1 [1] [0; 0; 0; 0] 10 = Some (edge_tree_result, 2%nat) ∧
  (1 < length (elements edge_tree_result))%nat ∧
  rd (parent_element_ids_ edge_tree_result) 1 = -1 ∧
  parent_to_submesh_element_ids_ edge_tree_result !! (-1) = None ∧
  (umap_index (parent_to_submesh_element_ids_ edge_tree_result)
              (rd (parent_element_ids_ edge_tree_result) 1)).1 ≠ 1.
Proof. vm_compute. repeat split; (reflexivity || lia || congruence). Qed.

Lemma rebuild_prefix_sound (pe : list Z) n p v :
  foldl (rebuild_entry pe) ∅ (seq 0 n) !! p = Some v →
  (n ≤ length pe)%nat →
  p ≠ -1 ∧ 0 ≤ v < Z.of_nat n ∧ pe !! Z.to_nat v = Some p.
Proof.
  induction n as [|n IH]; [cbn; by rewrite lookup_empty|].
  rewrite seq_S, foldl_app. cbn. intros Hl Hn. unfold rebuild_entry at 1, rd in Hl.
  rewrite Nat2Z.id in Hl.
  destruct (lookup_lt_is_Some_2 pe n ltac:(lia)) as [x Hx].
  rewrite (list_lookup_total_correct _ _ _ Hx) in Hl.
  destruct (Z.eqb_spec x (-1)) as [E|Hne].
  - destruct (IH Hl ltac:(lia)) as (? & ? & ?). split; [done|]. split; [lia|done].
  - destruct (decide (x = p)) as [->|Hxp].
    + rewrite lookup_insert_eq in Hl. injection Hl as <-. split; [done|]. split; [lia|].
      by rewrite Nat2Z.id.
    + rewrite lookup_insert_ne in Hl by done.
      destruct (IH Hl ltac:(lia)) as (? & ? & ?). split; [done|]. split; [lia|done].
Qed.

Lemma rebuild_prefix_complete (pe : list Z) n i p :
  (i < n)%nat → (n ≤ length pe)%nat → pe !! i = Some p → p ≠ -1 →
  (∀ j, (i < j < n)%nat → pe !! j ≠ Some p) →
  foldl (rebuild_entry pe) ∅ (seq 0 n) !! p = Some (Z.of_nat i).
Proof.
  induction n as [|n IH]; [lia|]. intros Hi Hn Hp Hne Hlast.
  rewrite seq_S, foldl_app. cbn. unfold rebuild_entry at 1, rd. rewrite Nat2Z.id.
  destruct (lookup_lt_is_Some_2 pe n ltac:(lia)) as [x Hx].
  rewrite (list_lookup_total_correct _ _ _ Hx).
  destruct (decide (i = n)) as [->|Hin].
  - assert (x = p) as -> by congruence.
    destruct (Z.eqb_spec p (-1)); [done|]. by rewrite lookup_insert_eq.
  - assert (x ≠ p) as Hxp.
    { intros ->. apply (Hlast n); [lia|done]. }
    assert (foldl (rebuild_entry pe) ∅ (seq 0 n) !! p = Some (Z.of_nat i)) as IH'.
    { apply IH; try done; try lia. intros j Hj. apply Hlast. lia. }
    destruct (Z.eqb_spec x (-1)); [done|]. by rewrite lookup_insert_ne.
Qed.

(** The map rebuilt in lines 457-462 holds exactly the pairs
    [(parent_element_ids_[i], i)] with a parent id other than [-1], the last
    [i] winning for a parent id recorded more than once. *)
Lemma rebuild_parent_to_submesh_spec (pe : list Z) :
  (∀ p v, rebuild_parent_to_submesh pe !! p = Some v →
          p ≠ -1 ∧ 0 ≤ v ∧ pe !! Z.to_nat v = Some p) ∧
  (∀ i p, pe !! i = Some p → p ≠ -1 → (∀ j, j ≠ i → pe !! j ≠ Some p) →
          rebuild_parent_to_submesh pe !! p = Some (Z.of_nat i)).
Proof.
  split.
  - intros p v Hl. destruct (rebuild_prefix_sound pe (length pe) p v Hl ltac:(lia))
      as (? & ? & ?). split; [done|]. split; [lia|done].
  - intros i p Hi Hne Huniq. apply rebuild_prefix_complete; try done.
    + by eapply lookup_lt_Some.
    + intros j Hj. apply Huniq. lia.
Qed.

Lemma reorder_loop_last_step fuel s s' k :
  reorder_loop fuel s = Some (s', k) →
  (k = 0%nat ∧ s' = s) ∨ (k ≠ 0%nat ∧ ∃ s0, s' = reorder_step s0).
Proof.
  revert s k. induction fuel as [|fuel IH]; intros s k; cbn.
  - destruct (parental_sorted s); [|done]. intros [= <- <-]. by left.
  - destruct (parental_sorted s); [intros [= <- <-]; by left|].
    destruct (reorder_loop fuel (reorder_step s)) as [[s1 k1]|] eqn:E1; [|done].
    intros [= <- <-]. right. split; [done|].
    destruct (IH _ _ E1) as [[_ ->]|[_ [s0 ->]]]; eauto.
Qed.

Lemma reorder_loop_node_maps fuel s s' k :
  reorder_loop fuel s = Some (s', k) →
  parent_node_ids_ s' = parent_node_ids_ s ∧
  parent_to_submesh_node_ids_ s' = parent_to_submesh_node_ids_ s ∧
  node_ids s' = node_ids s.
Proof.
  revert s k. induction fuel as [|fuel IH]; intros s k; cbn.
  - destruct (parental_sorted s); [|done]. by intros [= <- _].
  - destruct (parental_sorted s); [by intros [= <- _]|].
    destruct (reorder_loop fuel (reorder_step s)) as [[s1 k1]|] eqn:E1; [|done].
    intros [= <- _]. by destruct (IH _ _ E1) as (-> & -> & ->).
Qed.

(** Registration of nodes that are pairwise distinct and not yet known keeps
    the node maps in step with the registry. *)
Lemma register_node_inv line s n :
  node_maps_inv s → n ∉ parent_node_ids_ s →
  node_maps_inv (register_node line s n) ∧
  parent_node_ids_ (register_node line s n) = parent_node_ids_ s ++ [n].
Proof.
  intros [Hreg Hidx] Hn. unfold register_node.
  pose proof (registry_inv_Get _ _ n Hreg) as Hreg'.
  rewrite decide_False in Hreg' by done.
  pose proof (proj2 (registry_inv_lookup _ _ n Hreg) Hn) as Hnone.
  unfold Get in *. rewrite Hnone in *. cbn in *. split; [|done].
  split; [done|]. cbn. by rewrite Hidx.
Qed.

Lemma register_nodes_inv line ns s :
  node_maps_inv s → NoDup ns → (∀ n, n ∈ ns → n ∉ parent_node_ids_ s) →
  node_maps_inv (foldl (register_node line) s ns) ∧
  parent_node_ids_ (foldl (register_node line) s ns) = parent_node_ids_ s ++ ns.
Proof.
  revert s. induction ns as [|n ns IH]; intros s Hinv Hnd Hfresh; cbn.
  - by rewrite app_nil_r.
  - apply NoDup_cons in Hnd as [Hn Hnd].
    destruct (register_node_inv line s n Hinv) as [Hinv' Hpni]; [apply Hfresh; set_solver|].
    destruct (IH _ Hinv' Hnd) as [Hinv'' Hpni'].
    + intros m Hm. rewrite Hpni. intros [?| ->%list_elem_of_singleton]%elem_of_app.
      * eapply Hfresh; [|done]. set_solver.
      * done.
    + split; [done|]. by rewrite Hpni', Hpni, <- app_assoc.
Qed.

Lemma node_maps_inv_bijection s :
  node_maps_inv s →
  ∀ j n, parent_node_ids_ s !! j = Some n ↔
         parent_to_submesh_node_ids_ s !! n = Some (Z.of_nat j).
Proof.
  intros [(Hc & Hnd & Hi) Hidx] j n. rewrite <- Hidx, Hi, Nat2Z.id. split; [|tauto].
  intros. split; [lia|done].
Qed.

Lemma node_maps_inv_empty s :
  parent_node_ids_ s = [] → parent_to_submesh_node_ids_ s = ∅ → node_ids s = empty_generator →
  node_maps_inv s.
Proof.
  intros H1 H2 H3. unfold node_maps_inv. rewrite H1, H2, H3. split; [|done].
  apply registry_inv_empty.
Qed.

(** ** Invariants of the domain pass *)

Lemma alter_app_last {A} (f : A → A) (l : list A) x :
  alter f (length l) (l ++ [x]) = l ++ [f x].
Proof.
  apply list_eq. intros j. rewrite list_lookup_alter.
  destruct (decide (length l = j)) as [<-|Hne].
  - by rewrite !lookup_app_r, Nat.sub_diag.
  - destruct (decide (j < length l)%nat).
    + by rewrite !lookup_app_l.
    + rewrite !lookup_app_r by lia. destruct (j - length l)%nat eqn:E; [lia|done].
Qed.

Lemma asserts_hold_MFEM_ASSERT l line b s :
  asserts_hold l s → (line = l → b = true) → asserts_hold l (MFEM_ASSERT line b s).
Proof.
  intros Hh Hb b' Hin. cbn in Hin. apply elem_of_app in Hin as [Hin|Hin]; [by apply Hh|].
  apply list_elem_of_singleton in Hin. injection Hin as -> ->. by apply Hb.
Qed.

Lemma asserts_hold_MFEM_ASSERT_inv l line b s :
  asserts_hold l (MFEM_ASSERT line b s) → asserts_hold l s ∧ (line = l → b = true).
Proof.
  intros Hh. split.
  - intros b' Hin. apply Hh. cbn. apply elem_of_app. by left.
  - intros ->. apply Hh. cbn. apply elem_of_app. right. by apply list_elem_of_singleton.
Qed.

Lemma foldl_set_insert_mono {B} (g : B → Z) (l : list B) ns x :
  x ∈ ns → x ∈ foldl (λ ns b, set_insert (g b) ns) ns l.
Proof.
  revert ns. induction l as [|b l IH]; intros ns Hx; [done|].
  cbn. apply IH. apply set_insert_elem. by right.
Qed.

Lemma foldl_set_insert_in {B} (g : B → Z) (l : list B) ns b :
  b ∈ l → g b ∈ foldl (λ ns b, set_insert (g b) ns) ns l.
Proof.
  revert ns. induction l as [|c l IH]; intros ns Hb; [by apply elem_of_nil in Hb|].
  cbn. apply elem_of_cons in Hb as [->|Hb]; [|by apply IH].
  apply foldl_set_insert_mono. apply set_insert_elem. by left.
Qed.

Section DomainInvariants.

Variable parent_mesh : ParNCMesh.
Variable attributes : list Z.
Variable GetSubMeshElementFromParent : Z → Z.
Variable ParentVertexIDMap : list Z.
Variable ref_type_num_children : Z → nat.

Lemma copy_element_inv s ipe :
  first_walk_inv parent_mesh ipe s →
  first_walk_inv parent_mesh (S ipe)
    (copy_element parent_mesh attributes GetSubMeshElementFromParent s ipe).
Proof.
  intros [H1 H2 H3 H4 H5 H6 H7]. unfold copy_element.
  set (pe := p_elements parent_mesh !!! ipe).
  destruct (negb (HasAttribute (attribute pe) attributes)).
  { constructor; try done. intros i p Hi. specialize (H3 i p Hi). lia. }
  cbn [AddElement]. unfold upd. rewrite Nat2Z.id. cbn [elements set_elements
    set_parent_element_ids set_parent_to_submesh_element_ids]. rewrite alter_app_last.
  set (el := set_index (GetSubMeshElementFromParent (index pe)) pe).
  assert (∀ s', parent_element_ids_ s' = parent_element_ids_ s ++ [Z.of_nat ipe] →
                parent_to_submesh_element_ids_ s' =
                  <[Z.of_nat ipe := Z.of_nat (length (elements s))]>
                    (parent_to_submesh_element_ids_ s) →
                ∀ i p, parent_element_ids_ s' !! i = Some p →
                       parent_to_submesh_element_ids_ s' !! p = Some (Z.of_nat i) ∧
                       p < Z.of_nat (S ipe)) as Hmaps.
  { intros s' -> -> i p Hi. destruct (decide (i < length (parent_element_ids_ s))%nat).
    - rewrite lookup_app_l in Hi by done. specialize (H3 i p Hi).
      rewrite lookup_insert_ne by lia. split; [by apply H2|lia].
    - rewrite lookup_app_r in Hi by lia.
      destruct (i - length (parent_element_ids_ s))%nat eqn:E; [|done].
      injection Hi as <-. rewrite lookup_insert_eq. split; [|lia].
      do 2 f_equal. lia. }
  assert (∀ ns k e n, StronglySorted Z.lt ns →
            (∀ k e n, elements s !! k = Some e → IsLeaf e = true →
                      (n < nv (GI parent_mesh (geom e)))%nat → node e !!! n ∈ ns) →
            (IsLeaf el = true → ∀ n, (n < nv (GI parent_mesh (geom el)))%nat →
                                     node el !!! n ∈ ns) →
            (elements s ++ [el]) !! k = Some e → IsLeaf e = true →
            (n < nv (GI parent_mesh (geom e)))%nat → node e !!! n ∈ ns) as Hvert.
  { intros ns k e n _ Hold Hnew Hk Hleaf Hn.
    destruct (decide (k < length (elements s))%nat).
    - rewrite lookup_app_l in Hk by done. by eapply Hold.
    - rewrite lookup_app_r in Hk by lia.
      destruct (k - length (elements s))%nat eqn:E; [|done].
      injection Hk as <-. by apply Hnew. }
  destruct (negb (IsLeaf pe)) eqn:Hleaf.
  - constructor; cbn; try done.
    + rewrite !length_app. cbn. lia.
    + intros i p Hi. by eapply (Hmaps (set_parent_to_submesh_element_ids _
        (set_parent_element_ids _ s))).
    + intros i p Hi. by eapply (Hmaps (set_parent_to_submesh_element_ids _
        (set_parent_element_ids _ s))).
    + intros k e n. apply Hvert; [done|done|].
      intros Hl. subst el. unfold IsLeaf in *. cbn in Hl. by rewrite Hl in Hleaf.
  - unfold rd. rewrite Nat2Z.id. cbn [elements set_elements set_new_nodes new_nodes
      set_parent_element_ids set_parent_to_submesh_element_ids].
    rewrite (list_lookup_total_middle (elements s) [] el) by done.
    set (ns1 := foldl _ (new_nodes s) (seq 0 _)).
    set (ns2 := foldl _ ns1 (edges _)).
    assert (StronglySorted Z.lt ns1) as Hs1.
    { apply foldl_set_insert_sorted; [|done]. intros; by apply set_insert_sorted. }
    assert (StronglySorted Z.lt ns2) as Hs2.
    { apply foldl_set_insert_sorted; [|done]. intros; by apply set_insert_sorted. }
    assert (∀ x, x ∈ ns1 → x ∈ ns2) as Hsub2.
    { intros x Hx. subst ns2.
      by apply (foldl_set_insert_mono
                  (λ e : Z * Z, nodes_FindId parent_mesh (rd (node el) e.1) (rd (node el) e.2))). }
    assert (∀ x, x ∈ new_nodes s → x ∈ ns1) as Hsub1.
    { intros x Hx. subst ns1. by apply (foldl_set_insert_mono (λ n : nat, node el !!! n)). }
    assert (∀ n, (n < nv (GI parent_mesh (geom pe)))%nat → node el !!! n ∈ ns1) as Hnew.
    { intros n Hn. subst ns1. apply (foldl_set_insert_in (λ n : nat, node el !!! n)).
      apply elem_of_seq. lia. }
    constructor; cbn; try done.
    + rewrite !length_app. cbn. lia.
    + intros i p Hi. by eapply (Hmaps (set_parent_to_submesh_element_ids _
        (set_parent_element_ids _ s))).
    + intros i p Hi. by eapply (Hmaps (set_parent_to_submesh_element_ids _
        (set_parent_element_ids _ s))).
    + intros k e n. apply Hvert; [done| |].
      * intros k' e' n' ? ? ?. apply Hsub2, Hsub1. by eapply H7.
      * intros _ n' Hn'. apply Hsub2, Hnew. done.
Qed.

Lemma foldl_seq_inv {A} (I : nat → A → Prop) (f : A → nat → A) n a :
  I 0%nat a → (∀ i a, (i < n)%nat → I i a → I (S i) (f a i)) → I n (foldl f a (seq 0 n)).
Proof.
  intros H0 Hstep. induction n as [|n IH]; [done|].
  rewrite seq_S, foldl_app. cbn. apply Hstep; [lia|]. apply IH. intros. apply Hstep; [lia|done].
Qed.

Lemma first_walk_inv_init : first_walk_inv parent_mesh 0 init_state.
Proof. constructor; cbn; try done. constructor. Qed.

Lemma first_walk_inv_first_walk :
  first_walk_inv parent_mesh (length (p_elements parent_mesh))
    (first_walk parent_mesh attributes GetSubMeshElementFromParent init_state).
Proof.
  unfold first_walk. apply (foldl_seq_inv (first_walk_inv parent_mesh)).
  - apply first_walk_inv_init.
  - intros i a _. apply copy_element_inv.
Qed.

(** Registration touches the registry, the node maps and the log only. *)
Lemma register_node_frame line s n :
  let s' := register_node line s n in
  elements s' = elements s ∧ parent_element_ids_ s' = parent_element_ids_ s ∧
  parent_to_submesh_element_ids_ s' = parent_to_submesh_element_ids_ s ∧
  ∀ l, l ≠ line → asserts_hold l s → asserts_hold l s'.
Proof.
  unfold register_node. destruct (Get n (node_ids s)) as [[id new] g]. cbn.
  repeat split. intros l Hl Hh b Hb. cbn in Hb.
  apply elem_of_app in Hb as [Hb|Hb]; [by apply Hh|].
  apply list_elem_of_singleton in Hb. congruence.
Qed.

Lemma register_nodes_frame line ns s :
  let s' := foldl (register_node line) s ns in
  elements s' = elements s ∧ parent_element_ids_ s' = parent_element_ids_ s ∧
  parent_to_submesh_element_ids_ s' = parent_to_submesh_element_ids_ s ∧
  ∀ l, l ≠ line → asserts_hold l s → asserts_hold l s'.
Proof.
  revert s. induction ns as [|n ns IH]; intros s; cbn; [done|].
  destruct (IH (register_node line s n)) as (-> & -> & -> & Ha).
  destruct (register_node_frame line s n) as (-> & -> & -> & Ha').
  repeat split. intros l Hl Hh. apply Ha; [done|]. by apply Ha'.
Qed.

Lemma second_walk_inv_registered :
  second_walk_inv parent_mesh 0
    (register_new_nodes 90
       (first_walk parent_mesh attributes GetSubMeshElementFromParent init_state)).
Proof.
  pose proof first_walk_inv_first_walk as [H1 H2 H3 (H4a & H4b & H4c) H5 H6 H7].
  set (s0 := first_walk _ _ _ _) in *. unfold register_new_nodes.
  destruct (register_nodes_frame 90 (new_nodes s0) s0) as (He & Hpe & Hm & Ha).
  destruct (register_nodes_inv 90 (new_nodes s0) s0) as [Hinv Hpni].
  { by apply node_maps_inv_empty. }
  { by apply StronglySorted_lt_NoDup. }
  { intros n _. rewrite H4a. apply not_elem_of_nil. }
  assert (∀ l, asserts_hold l s0) as Hempty.
  { intros l b Hb. rewrite H5 in Hb. by apply elem_of_nil in Hb. }
  constructor.
  - rewrite Hpe, Hm. done.
  - intros k el n _ Hk Hleaf Hn. rewrite He in Hk.
    specialize (H7 k el n Hk Hleaf Hn).
    destruct Hinv as [(_ & _ & Hi) _]. rewrite Hpni, H4a in Hi. cbn in Hi.
    apply list_elem_of_lookup in H7 as [j Hj].
    exists (Z.of_nat j). apply Hi. split; [lia|]. by rewrite Nat2Z.id.
  - apply Ha; [done|apply Hempty].
  - intros _. done.
Qed.

Lemma Get_cases p g :
  (∃ v, idx g !! p = Some v ∧ Get p g = (v, false, g)) ∨
  (idx g !! p = None ∧
   Get p g = (counter g, true, mkGen (counter g + 1) (<[p := counter g]> (idx g)))).
Proof. unfold Get. destruct (idx g !! p) as [v|]; [left; eauto|by right]. Qed.

Lemma bind_vertex_inv s iv :
  second_walk_inv parent_mesh 0 s →
  second_walk_inv parent_mesh 0 (bind_vertex parent_mesh ParentVertexIDMap s iv).
Proof.
  intros [H1 H2 H3 H4]. unfold bind_vertex.
  set (p := rd (vertex_nodeId parent_mesh) _).
  destruct (Get_cases p (node_ids s)) as [(v & Hv & ->)|(Hn & ->)].
  - constructor; cbn; try done.
    + by apply asserts_hold_MFEM_ASSERT.
    + intros [Hh _]%asserts_hold_MFEM_ASSERT_inv. destruct s; by apply H4.
  - constructor; cbn; try done.
    + intros k' el n Hk Hel Hleaf Hn'. destruct (H2 k' el n Hk Hel Hleaf Hn') as [v Hv].
      exists v. rewrite lookup_insert_ne; [done|]. intros ->. congruence.
    + by apply asserts_hold_MFEM_ASSERT.
    + intros [_ Hf]%asserts_hold_MFEM_ASSERT_inv. by specialize (Hf eq_refl).
Qed.

Lemma walk_step_refl k s : walk_step k s s.
Proof. constructor; try done. intros el Hel. by exists el. Qed.

Lemma walk_step_trans k s1 s2 s3 : walk_step k s1 s2 → walk_step k s2 s3 → walk_step k s1 s3.
Proof.
  intros [A1 A2 A3 A4 A5 A6 A7 A8 A9] [B1 B2 B3 B4 B5 B6 B7 B8 B9]. constructor; auto.
  - congruence.
  - intros k' Hk. rewrite B4, A4; done.
  - congruence.
  - intros el Hel. destruct (A6 el Hel) as (el1 & H1 & Hg1 & Hr1).
    destruct (B6 el1 H1) as (el2 & H2 & Hg2 & Hr2). exists el2. split; [done|].
    split; congruence.
Qed.

Lemma alter_lookup_insert {A} (f : A → A) (l : list A) k x :
  l !! k = Some x → alter f k l = <[k := f x]> l.
Proof.
  intros Hk. apply list_eq. intros j. rewrite list_lookup_alter.
  destruct (decide (k = j)) as [<-|Hne].
  - rewrite Hk. cbn. rewrite list_lookup_insert_eq; [done|]. by eapply lookup_lt_Some.
  - by rewrite list_lookup_insert_ne.
Qed.

Lemma set_node_ids_same s : set_node_ids (node_ids s) s = s.
Proof. by destruct s. Qed.

Lemma asserts_hold_true l line s :
  asserts_hold l (MFEM_ASSERT line true s) ↔ asserts_hold l s.
Proof.
  split.
  - by intros [? _]%asserts_hold_MFEM_ASSERT_inv.
  - intros. by apply asserts_hold_MFEM_ASSERT.
Qed.

Lemma node_maps_inv_frame s s' :
  node_ids s' = node_ids s → parent_node_ids_ s' = parent_node_ids_ s →
  parent_to_submesh_node_ids_ s' = parent_to_submesh_node_ids_ s →
  node_maps_inv s → node_maps_inv s'.
Proof. unfold node_maps_inv. by intros -> -> ->. Qed.

Lemma walk_step_assert k s line b :
  (line = 123 → b = true) → walk_step k s (MFEM_ASSERT line b s).
Proof.
  intros Hb. constructor; try done.
  - intros el Hel. by exists el.
  - intros. by apply asserts_hold_MFEM_ASSERT.
  - by intros [? _]%asserts_hold_MFEM_ASSERT_inv.
Qed.

Lemma walk_step_alter k s (f : Element → Element) :
  (∀ e, geom (f e) = geom e ∧ ref_type (f e) = ref_type e) →
  walk_step k s (set_elements (alter f k (elements s)) s).
Proof.
  intros Hf. constructor; try done.
  - intros k' Hk'. cbn. by rewrite list_lookup_alter_ne.
  - cbn. by rewrite length_alter.
  - intros el Hel. cbn. rewrite list_lookup_alter_eq, Hel. cbn.
    exists (f el). split; [done|]. apply Hf.
Qed.

(** Relabelling a vertex slot whose node is registered changes that slot
    only and records a passed check. *)
Lemma relabel_vertex_spec k s n el :
  elements s !! k = Some el → is_Some (idx (node_ids s) !! (node el !!! n)) →
  ∃ v, relabel_vertex k s n =
       MFEM_ASSERT 123 true
         (set_elements (alter (fun el => set_node (<[n := v]> (node el)) el) k (elements s)) s).
Proof.
  intros Hk [v Hv]. exists v. unfold relabel_vertex.
  rewrite (list_lookup_total_correct _ _ _ Hk).
  destruct (Get_cases (node el !!! n) (node_ids s)) as [(v' & Hv' & ->)|(Hn & _)];
    [|congruence].
  assert (v' = v) as -> by congruence. cbn [negb].
  by rewrite set_node_ids_same.
Qed.

Lemma relabel_vertices_spec k ns s el :
  elements s !! k = Some el → NoDup ns →
  (∀ n, n ∈ ns → is_Some (idx (node_ids s) !! (node el !!! n))) →
  walk_step k s (foldl (relabel_vertex k) s ns).
Proof.
  revert s el. induction ns as [|n ns IH]; intros s el Hk Hnd Hreg; cbn.
  { apply walk_step_refl. }
  apply NoDup_cons in Hnd as [Hn Hnd].
  destruct (relabel_vertex_spec k s n el Hk) as [v Hv]; [apply Hreg; set_solver|].
  rewrite Hv. set (s0 := set_elements _ s). set (s1 := MFEM_ASSERT 123 true s0).
  assert (walk_step k s s1) as Hws1.
  { eapply walk_step_trans; [|by apply walk_step_assert]. by apply walk_step_alter. }
  eapply walk_step_trans; [exact Hws1|].
  apply (IH s1 (set_node (<[n := v]> (node el)) el)); [|done|].
  - cbn. by rewrite list_lookup_alter_eq, Hk.
  - intros n' Hn'. cbn. rewrite list_lookup_total_insert_ne by (intros ->; done).
    apply Hreg. set_solver.
Qed.

Lemma reference_edge_spec k s e :
  walk_step k s (reference_edge parent_mesh k s e).
Proof.
  unfold reference_edge. set (pid := nodes_FindId parent_mesh _ _).
  set (s0 := MFEM_ASSERT 131 (0 <=? pid) s).
  assert (walk_step k s s0) as Hws0 by (by apply walk_step_assert).
  eapply walk_step_trans; [exact Hws0|].
  destruct (Get_cases pid (node_ids s0)) as [(v & Hv & ->)|(Hn & ->)].
  - rewrite set_node_ids_same. apply walk_step_refl.
  - constructor; try done.
    + intros q v Hq. cbn in *. rewrite lookup_insert_ne; [done|]. intros ->. congruence.
    + intros el Hel. by exists el.
    + intros [Hr Hi]. pose proof (registry_inv_Get _ _ pid Hr) as Hr'.
      pose proof (proj1 (registry_inv_lookup _ _ pid Hr) Hn) as Hnin.
      rewrite decide_False in Hr' by done. unfold Get in Hr'. rewrite Hn in Hr'.
      split; cbn; [done|]. cbn in Hi. by rewrite Hi.
Qed.

Lemma reference_edges_spec k es s :
  walk_step k s (foldl (reference_edge parent_mesh k) s es).
Proof.
  revert s. induction es as [|e es IH]; intros s; cbn; [apply walk_step_refl|].
  eapply walk_step_trans; [apply reference_edge_spec|apply IH].
Qed.

Lemma remap_child_spec k s i :
  walk_step k s (remap_child k s i).
Proof.
  unfold remap_child. unfold umap_index.
  destruct (parent_to_submesh_element_ids_ s !! (child (elements s !!! k) !!! i)) as [v|] eqn:E.
  - replace (set_parent_to_submesh_element_ids (parent_to_submesh_element_ids_ s) s) with s
      by (by destruct s). by apply walk_step_alter.
  - eapply walk_step_trans;
      [|by apply (walk_step_alter k (set_parent_to_submesh_element_ids _ s))].
    constructor; try done.
    + intros p v Hp. cbn. rewrite lookup_insert_ne; [done|].
      intros Heq. rewrite Heq in E. congruence.
    + intros el Hel. by exists el.
Qed.

Lemma remap_child_all_spec k is_ s :
  walk_step k s (foldl (remap_child k) s is_).
Proof.
  revert s. induction is_ as [|i is_ IH]; intros s; cbn; [apply walk_step_refl|].
  eapply walk_step_trans; [apply remap_child_spec|apply IH].
Qed.

Lemma relabel_element_step k s :
  (k < length (elements s))%nat → second_walk_inv parent_mesh k s →
  walk_step k s (relabel_element parent_mesh ref_type_num_children k s).1.
Proof.
  intros Hk [H1 H2 H3 H4]. unfold relabel_element.
  destruct (lookup_lt_is_Some_2 _ _ Hk) as [el Hel].
  rewrite (list_lookup_total_correct _ _ _ Hel).
  set (s1 := if IsLeaf el then _ else _).
  assert (walk_step k s s1) as Hws.
  { subst s1. destruct (IsLeaf el) eqn:Hleaf.
    - eapply walk_step_trans; [|apply reference_edges_spec].
      apply (relabel_vertices_spec k _ s el Hel).
      + apply NoDup_seq.
      + intros n Hn%elem_of_seq. apply (H2 k el n); try done. lia.
    - apply remap_child_all_spec. }
  destruct (parent (elements s1 !!! k) <? 0); [done|].
  destruct (parent_to_submesh_element_ids_ s1 !! parent (elements s1 !!! k)) as [v|];
    [|done].
  eapply walk_step_trans; [exact Hws|]. by apply walk_step_alter.
Qed.

Lemma second_walk_inv_step k s s' :
  second_walk_inv parent_mesh k s → walk_step k s s' → second_walk_inv parent_mesh (S k) s'.
Proof.
  intros [H1 H2 H3 H4] [A1 A2 A3 A4 A5 A6 A7 A8 A9]. constructor.
  - intros i p Hi. rewrite A1 in Hi. by apply A2, H1.
  - intros k' el n Hk' Hel Hleaf Hn. rewrite A4 in Hel by lia.
    destruct (H2 k' el n ltac:(lia) Hel Hleaf Hn) as [v Hv]. exists v. by apply A3.
  - by apply A7.
  - intros H107. by apply A9, H4, A8.
Qed.

Lemma second_walk_inv_second_walk m k s :
  (k + m = length (elements s))%nat → second_walk_inv parent_mesh k s →
  ∃ k', second_walk_inv parent_mesh k'
          (second_walk parent_mesh ref_type_num_children (seq k m) s).1.
Proof.
  revert k s. induction m as [|m IH]; intros k s Hlen Hinv; cbn; [by exists k|].
  pose proof (relabel_element_step k s ltac:(lia) Hinv) as Hws.
  pose proof (second_walk_inv_step k s _ Hinv Hws) as Hinv'.
  destruct (relabel_element parent_mesh ref_type_num_children k s) as [s1 ok] eqn:E.
  cbn in *. destruct ok; [|by exists (S k)].
  apply IH; [|done]. rewrite (ws_length _ _ _ Hws). lia.
Qed.

Lemma second_walk_inv_domain_pass :
  ∃ k, second_walk_inv parent_mesh k
         (domain_pass parent_mesh attributes GetSubMeshElementFromParent
                      ParentVertexIDMap ref_type_num_children).1.
Proof.
  unfold domain_pass.
  set (s := foldl _ (register_new_nodes 90 _) _).
  apply (second_walk_inv_second_walk (length (elements s)) 0 s); [done|].
  subst s. apply foldl_preserves; [intros; by apply bind_vertex_inv|].
  apply second_walk_inv_registered.
Qed.

End DomainInvariants.

(** ** The number of relabelling checks *)

Lemma count_asserts_MFEM_ASSERT l line b s :
  count_asserts l (MFEM_ASSERT line b s) =
  (count_asserts l s + if (line =? l)%Z then 1 else 0)%nat.
Proof.
  unfold count_asserts. cbn. rewrite List.filter_app, length_app. cbn.
  by destruct (line =? l).
Qed.

Lemma vertex_slots_shape parent_mesh el el' :
  geom el' = geom el → ref_type el' = ref_type el →
  vertex_slots parent_mesh el' = vertex_slots parent_mesh el.
Proof. unfold vertex_slots, IsLeaf. by intros -> ->. Qed.

Lemma shapes_alter (f : Element → Element) k els :
  (∀ e, geom (f e) = geom e ∧ ref_type (f e) = ref_type e) →
  shapes (alter f k els) = shapes els.
Proof.
  intros Hf. unfold shapes. rewrite (list_fmap_alter _ _ id).
  - apply alter_id_list.
  - apply Forall_forall. intros e _. cbn. by destruct (Hf e) as [-> ->].
Qed.

Lemma shapes_lookup els1 els2 k :
  shapes els1 = shapes els2 →
  geom (els1 !!! k) = geom (els2 !!! k) ∧ ref_type (els1 !!! k) = ref_type (els2 !!! k).
Proof.
  intros Heq. rewrite !list_lookup_total_alt.
  assert (shapes els1 !! k = shapes els2 !! k) as H by by rewrite Heq.
  unfold shapes in H. rewrite !list_lookup_fmap in H.
  destruct (els1 !! k), (els2 !! k); cbn in *; try done. by injection H as -> ->.
Qed.

Section DomainCount.

Variable parent_mesh : ParNCMesh.
Variable attributes : list Z.
Variable GetSubMeshElementFromParent : Z → Z.
Variable ParentVertexIDMap : list Z.
Variable ref_type_num_children : Z → nat.

Lemma register_nodes_count l line ns s :
  l ≠ line →
  count_asserts l (foldl (register_node line) s ns) = count_asserts l s.
Proof.
  intros Hne. revert s. induction ns as [|n ns IH]; intros s; cbn; [done|].
  rewrite IH. unfold register_node. destruct (Get n (node_ids s)) as [[id new] g].
  change (count_asserts l (MFEM_ASSERT line new (set_node_ids g s)) = count_asserts l s).
  rewrite count_asserts_MFEM_ASSERT. destruct (Z.eqb_spec line l); [congruence|].
  unfold count_asserts. cbn. lia.
Qed.

Lemma bind_vertex_count s iv :
  count_asserts 123 (bind_vertex parent_mesh ParentVertexIDMap s iv) = count_asserts 123 s ∧
  elements (bind_vertex parent_mesh ParentVertexIDMap s iv) = elements s.
Proof.
  unfold bind_vertex. destruct (Get _ (node_ids s)) as [[id new] g].
  rewrite count_asserts_MFEM_ASSERT. cbn. split; [|done]. unfold count_asserts. cbn. lia.
Qed.

Lemma relabel_vertices_count k ns s :
  count_asserts 123 (foldl (relabel_vertex k) s ns) = (count_asserts 123 s + length ns)%nat ∧
  shapes (elements (foldl (relabel_vertex k) s ns)) = shapes (elements s).
Proof.
  revert s. induction ns as [|n ns IH]; intros s; cbn; [split; [lia|done]|].
  destruct (IH (relabel_vertex k s n)) as [-> ->]. unfold relabel_vertex.
  destruct (Get _ (node_ids s)) as [[id new] g].
  rewrite count_asserts_MFEM_ASSERT. cbn. split.
  - unfold count_asserts. cbn. lia.
  - by apply shapes_alter.
Qed.

Lemma reference_edges_count k es s :
  count_asserts 123 (foldl (reference_edge parent_mesh k) s es) = count_asserts 123 s ∧
  elements (foldl (reference_edge parent_mesh k) s es) = elements s.
Proof.
  revert s. induction es as [|e es IH]; intros s; cbn; [done|].
  destruct (IH (reference_edge parent_mesh k s e)) as [-> ->]. unfold reference_edge.
  set (pid := nodes_FindId parent_mesh _ _).
  destruct (Get pid (node_ids (MFEM_ASSERT 131 (0 <=? pid) s))) as [[id new] g].
  destruct new; cbn; split; try done; unfold count_asserts; cbn;
    rewrite List.filter_app, length_app; cbn; lia.
Qed.

Lemma remap_child_all_count k is_ s :
  count_asserts 123 (foldl (remap_child k) s is_) = count_asserts 123 s ∧
  shapes (elements (foldl (remap_child k) s is_)) = shapes (elements s).
Proof.
  revert s. induction is_ as [|i is_ IH]; intros s; cbn; [done|].
  destruct (IH (remap_child k s i)) as [-> ->]. unfold remap_child.
  destruct (umap_index _ _) as [v m]. cbn. split; [done|]. by apply shapes_alter.
Qed.

Lemma relabel_element_count k s :
  count_asserts 123 (relabel_element parent_mesh ref_type_num_children k s).1 =
    (count_asserts 123 s + vertex_slots parent_mesh (elements s !!! k))%nat ∧
  shapes (elements (relabel_element parent_mesh ref_type_num_children k s).1)
    = shapes (elements s).
Proof.
  unfold relabel_element. set (el := elements s !!! k).
  set (s1 := if IsLeaf el then _ else _).
  assert (count_asserts 123 s1 = (count_asserts 123 s + vertex_slots parent_mesh el)%nat ∧
          shapes (elements s1) = shapes (elements s)) as [Hc Hs].
  { subst s1. unfold vertex_slots. destruct (IsLeaf el).
    - destruct (reference_edges_count k (edges (GI parent_mesh (geom el)))
                  (foldl (relabel_vertex k) s (seq 0 (nv (GI parent_mesh (geom el))))))
        as [-> ->].
      destruct (relabel_vertices_count k (seq 0 (nv (GI parent_mesh (geom el)))) s)
        as [-> ->]. by rewrite length_seq.
    - destruct (remap_child_all_count k (seq 0 (ref_type_num_children (ref_type el))) s)
        as [-> ->]. split; [lia|done]. }
  destruct (parent (elements s1 !!! k) <? 0); [done|].
  destruct (parent_to_submesh_element_ids_ s1 !! parent (elements s1 !!! k)); [|done].
  cbn. split; [done|]. rewrite <- Hs. by apply shapes_alter.
Qed.

Lemma second_walk_count ks s :
  (second_walk parent_mesh ref_type_num_children ks s).2 = true →
  count_asserts 123 (second_walk parent_mesh ref_type_num_children ks s).1 =
    (count_asserts 123 s + sum_list ((λ k, vertex_slots parent_mesh (elements s !!! k)) <$> ks))%nat ∧
  shapes (elements (second_walk parent_mesh ref_type_num_children ks s).1)
    = shapes (elements s).
Proof.
  revert s. induction ks as [|k ks IH]; intros s; cbn; [intros _; split; [lia|done]|].
  destruct (relabel_element_count k s) as [Hc Hs].
  destruct (relabel_element parent_mesh ref_type_num_children k s) as [s1 ok]. cbn in *.
  destruct ok; [|done]. intros Hok. destruct (IH s1 Hok) as [-> ->].
  rewrite Hc, Hs. split; [|done].
  assert ((λ k0, vertex_slots parent_mesh (elements s1 !!! k0)) <$> ks =
          (λ k0, vertex_slots parent_mesh (elements s !!! k0)) <$> ks) as ->; [|lia].
  apply list_fmap_ext. intros _ k0 _. cbn.
  destruct (shapes_lookup _ _ k0 Hs). by apply vertex_slots_shape.
Qed.

Lemma sum_vertex_slots (els : list Element) :
  sum_list ((λ k, vertex_slots parent_mesh (els !!! k)) <$> seq 0 (length els)) =
  sum_list (vertex_slots parent_mesh <$> els).
Proof.
  f_equal. apply list_eq. intros i. rewrite !list_lookup_fmap.
  destruct (decide (i < length els)%nat) as [Hlt|Hge].
  - rewrite lookup_seq_lt by done. cbn.
    destruct (lookup_lt_is_Some_2 els i Hlt) as [x Hx].
    by rewrite Hx, (list_lookup_total_correct _ _ _ Hx).
  - rewrite lookup_seq_ge by lia. cbn. by rewrite (proj2 (lookup_ge_None els i)) by lia.
Qed.

Lemma sum_vertex_slots_shapes (els1 els2 : list Element) :
  shapes els1 = shapes els2 →
  sum_list (vertex_slots parent_mesh <$> els1) = sum_list (vertex_slots parent_mesh <$> els2).
Proof.
  revert els2. induction els1 as [|e1 els1 IH]; intros [|e2 els2]; cbn; try done.
  intros [= Hg Hr Hs]. rewrite (IH els2 Hs). f_equal. by apply vertex_slots_shape.
Qed.

(** When the second walk gets through, it has recorded one check of line
    123 for every vertex slot of every leaf, and no other. *)
Lemma domain_pass_count :
  let r := domain_pass parent_mesh attributes GetSubMeshElementFromParent
                       ParentVertexIDMap ref_type_num_children in
  r.2 = true →
  count_asserts 123 r.1 = sum_list (vertex_slots parent_mesh <$> elements r.1).
Proof.
  unfold domain_pass. set (s0 := first_walk _ _ _ _).
  set (s1 := register_new_nodes 90 s0). set (s2 := foldl _ s1 _).
  intros Hok. destruct (second_walk_count _ _ Hok) as [Hc Hs]. rewrite Hc.
  rewrite sum_vertex_slots, (sum_vertex_slots_shapes _ _ Hs).
  assert (count_asserts 123 s2 = 0%nat) as ->; [|done].
  assert (count_asserts 123 s2 = count_asserts 123 s1) as ->.
  { subst s2. generalize (seq 0 (length ParentVertexIDMap)) as ivs. intros ivs.
    generalize s1. induction ivs as [|iv ivs IH]; intros s; cbn; [done|].
    rewrite IH. apply bind_vertex_count. }
  subst s1. unfold register_new_nodes. rewrite register_nodes_count by done.
  pose proof (first_walk_inv_first_walk parent_mesh attributes GetSubMeshElementFromParent)
    as Hfw. fold s0 in Hfw. unfold count_asserts. by rewrite (fw_asserts _ _ _ Hfw).
Qed.

End DomainCount.

(** ** Relabelling in the second walk of the domain pass (C9) *)

(** C9.  In the domain pass, every evaluation of the assertion of line 123
    recorded by the second walk found [new_id == false]: the first walk put
    the node of each vertex slot of each leaf into [new_nodes], lines 86-95
    registered all of [new_nodes], and nothing removes a registered id or
    touches the slots of a leaf before its visit.  When the walk gets
    through, the checks recorded are one for every vertex slot of every
    leaf of the submesh. *)
Theorem C9_relabel_never_new (parent_mesh : ParNCMesh) (attributes : list Z)
    (GetSubMeshElementFromParent : Z → Z) (ParentVertexIDMap : list Z)
    (ref_type_num_children : Z → nat) (s : NCState) (completed : bool) :
  domain_pass parent_mesh attributes GetSubMeshElementFromParent
              ParentVertexIDMap ref_type_num_children = (s, completed) →
  (∀ b, (123, b) ∈ asserts s → b = true) ∧
  (completed = true →
   count_asserts 123 s = sum_list (vertex_slots parent_mesh <$> elements s)).
Proof.
  intros Hrun. split.
  - destruct (second_walk_inv_domain_pass parent_mesh attributes GetSubMeshElementFromParent
                ParentVertexIDMap ref_type_num_children) as [k Hk].
    rewrite Hrun in Hk. apply Hk.
  - intros ->.
    pose proof (domain_pass_count parent_mesh attributes GetSubMeshElementFromParent
                  ParentVertexIDMap ref_type_num_children) as Hc.
    cbv zeta in Hc. rewrite Hrun in Hc. by apply Hc.
Qed.

Lemma quad_domain_run :
  domain_pass quad_domain_mesh [1] (fun i => i) [0; 1; 2; 3; 4; 5; 6; 7; 8]
              (fun r => if r =? Refinement_XY then 4%nat else 2%nat)
  = (quad_domain_state, true).
Proof. vm_compute. reflexivity. Qed.

Lemma C9_relabel_never_new_witness :
  (∀ b, (123, b) ∈ asserts quad_domain_state → b = true) ∧
  count_asserts 123 quad_domain_state = 16%nat.
Proof.
  destruct (C9_relabel_never_new _ _ _ _ _ _ _ quad_domain_run) as [H1 H2].
  split; [exact H1|]. rewrite (H2 eq_refl). vm_compute. reflexivity.
Defined.

(** ** Identity maps, continued *)

(** The identity maps where the branches leave their loops.  Boundary
    branch, whenever it gets through the reordering loop: every key/value
    pair [(p, v)] of [parent_to_submesh_element_ids_] has [p ≠ -1] and
    [parent_element_ids_[v] == p]; if the loop sorted at least once, then
    for every submesh element [i] whose parent id is not [-1] and is
    recorded for no other element,
    [parent_to_submesh_element_ids_[parent_element_ids_[i]] == i]; and the
    node maps are inverse to each other.  Domain branch: for every submesh
    element [i], [parent_to_submesh_element_ids_[parent_element_ids_[i]] ==
    i]; and the node maps are inverse to each other unless the assertion of
    line 107 failed. *)
Lemma identity_maps_after_pass :
  (∀ parent_mesh Dim attributes indeterminate fuel s sorts,
     boundary_pass parent_mesh Dim attributes indeterminate fuel = Some (s, sorts) →
     (∀ p v, parent_to_submesh_element_ids_ s !! p = Some v →
             p ≠ -1 ∧ 0 ≤ v ∧ parent_element_ids_ s !! Z.to_nat v = Some p) ∧
     (sorts ≠ 0%nat →
      ∀ i p, parent_element_ids_ s !! i = Some p → p ≠ -1 →
             (∀ j, j ≠ i → parent_element_ids_ s !! j ≠ Some p) →
             parent_to_submesh_element_ids_ s !! p = Some (Z.of_nat i)) ∧
     (∀ j n, parent_node_ids_ s !! j = Some n ↔
             parent_to_submesh_node_ids_ s !! n = Some (Z.of_nat j))) ∧
  (∀ parent_mesh attributes GetSubMeshElementFromParent ParentVertexIDMap
     ref_type_num_children s completed,
     domain_pass parent_mesh attributes GetSubMeshElementFromParent
                 ParentVertexIDMap ref_type_num_children = (s, completed) →
     (∀ i p, parent_element_ids_ s !! i = Some p →
             parent_to_submesh_element_ids_ s !! p = Some (Z.of_nat i)) ∧
     (asserts_hold 107 s →
      ∀ j n, parent_node_ids_ s !! j = Some n ↔
             parent_to_submesh_node_ids_ s !! n = Some (Z.of_nat j))).
Proof.
  split.
  - intros parent_mesh Dim attributes indeterminate fuel s sorts. unfold boundary_pass.
    destruct (discover_inv_discover parent_mesh Dim attributes indeterminate fuel) as [j Hj].
    destruct (discover _ _ _ _ _) as [s0 ok]. destruct ok; [|done]. cbn in Hj.
    intros Hloop. set (s1 := set_new_nodes [] (register_new_nodes 368 s0)) in Hloop.
    destruct Hj as [H1 H2 H3 Hk Hl (H4a & H4b & H4c) H5 H6].
    destruct (register_nodes_frame 368 (new_nodes s0) s0) as (He & Hpe & Hm & _).
    destruct (register_nodes_inv 368 (new_nodes s0) s0) as [Hinv _].
    { by apply node_maps_inv_empty. }
    { by apply StronglySorted_lt_NoDup. }
    { intros n _. rewrite H4a. apply not_elem_of_nil. }
    destruct (reorder_loop_node_maps _ _ _ _ Hloop) as (Hn1 & Hn2 & Hn3).
    assert (node_maps_inv s) as Hinv'.
    { eapply (node_maps_inv_frame (register_new_nodes 368 s0)); try done. }
    split; [|split].
    + destruct (reorder_loop_last_step _ _ _ _ Hloop) as [[_ ->]|[_ [s' ->]]].
      * intros p v Hpv. cbn in Hpv. unfold register_new_nodes in Hpv. rewrite Hm in Hpv.
        destruct (H6 p v Hpv) as (Hp & Hv & Hlk). split; [lia|]. split; [done|].
        cbn. unfold register_new_nodes. by rewrite Hpe.
      * intros p v Hpv. by apply (proj1 (rebuild_parent_to_submesh_spec _)).
    + intros Hsorts. destruct (reorder_loop_last_step _ _ _ _ Hloop) as [[? _]|[_ [s' ->]]];
        [done|].
      intros i p Hi Hne Huniq. by apply (proj2 (rebuild_parent_to_submesh_spec _)).
    + by apply node_maps_inv_bijection.
  - intros parent_mesh attributes G V R s completed Hrun.
    destruct (second_walk_inv_domain_pass parent_mesh attributes G V R) as [k Hk].
    rewrite Hrun in Hk. destruct Hk as [H1 H2 H3 H4]. cbn in *. split; [done|].
    intros H107. by apply node_maps_inv_bijection, H4.
Qed.

Lemma quad_domain_asserts_hold line : asserts_hold line quad_domain_state.
Proof.
  intros b Hb.
  assert (Forall (λ a : Z * bool, a.2 = true) (asserts quad_domain_state)) as HF
    by (vm_compute; repeat constructor).
  eapply Forall_forall in HF; [|exact Hb]. done.
Qed.

Lemma edge_tree_run :
  boundary_pass edge_tree_mesh 1 [1] [0; 0; 0; 0] 10 = Some (edge_tree_result, 2%nat).
Proof. vm_compute. reflexivity. Qed.

(** ** The key of the face map does not depend on the order of the nodes *)

Lemma sort_insert_perm x l : sort_insert x l ≡ₚ x :: l.
Proof.
  induction l as [|y l IH]; cbn; [done|].
  destruct (x <=? y); [done|]. rewrite IH. apply Permutation_swap.
Qed.

Lemma sort_ints_perm l : sort_ints l ≡ₚ l.
Proof.
  induction l as [|x l IH]; cbn; [done|].
  fold (sort_ints l). by rewrite sort_insert_perm, IH.
Qed.

Lemma sort_insert_sorted x l :
  StronglySorted Z.le l → StronglySorted Z.le (sort_insert x l).
Proof.
  induction 1 as [|y l Hs IH Hall]; cbn; [repeat constructor|].
  destruct (Z.leb_spec x y).
  - constructor; [by constructor|]. constructor; [done|].
    eapply Forall_impl; [done|]. cbn. lia.
  - constructor; [done|]. rewrite sort_insert_perm. constructor; [lia|done].
Qed.

Lemma sort_ints_sorted l : StronglySorted Z.le (sort_ints l).
Proof.
  induction l as [|x l IH]; cbn; [constructor|]. by apply sort_insert_sorted.
Qed.

Lemma sorted_perm_eq (l1 l2 : list Z) :
  StronglySorted Z.le l1 → StronglySorted Z.le l2 → l1 ≡ₚ l2 → l1 = l2.
Proof.
  intros H1. revert l2. induction H1 as [|x l1 Hs IH Hall]; intros l2 H2 Hp.
  - by apply Permutation_nil_l in Hp.
  - destruct H2 as [|y l2 Hs2 Hall2].
    { by apply Permutation_nil_r in Hp. }
    assert (x = y) as ->.
    { assert (x ∈ y :: l2) as Hx by (rewrite <- Hp; left).
      assert (y ∈ x :: l1) as Hy by (rewrite Hp; left).
      apply elem_of_cons in Hx as [->|Hx]; [done|].
      apply elem_of_cons in Hy as [->|Hy]; [done|].
      rewrite Forall_forall in Hall, Hall2.
      specialize (Hall _ Hy). specialize (Hall2 _ Hx). lia. }
    f_equal. apply IH; [done|]. by apply (inj (cons y)).
Qed.

Lemma sort_ints_perm_eq a b : sort_ints a = sort_ints b ↔ a ≡ₚ b.
Proof.
  split.
  - intros Heq. by rewrite <- (sort_ints_perm a), Heq, sort_ints_perm.
  - intros Hp. apply sorted_perm_eq; [apply sort_ints_sorted..|].
    by rewrite !sort_ints_perm.
Qed.

(** X1.  [FaceNodes::operator<] (lines 181-188) sorts both tuples before it
    compares them, so two node tuples are the same key of
    [pnodes_new_elem] exactly when one is a rearrangement of the other; a
    look-up with a rearranged tuple gives the same entry, and an insertion
    under a rearranged tuple stores nothing. *)
Theorem X1_face_key_unordered (a b : list Z) (id : Z) (m : list (list Z * Z)) :
  (FaceNodes_equiv a b = true ↔ a ≡ₚ b) ∧
  (a ≡ₚ b → FaceNodes_lt a b = false ∧ map_find a m = map_find b m) ∧
  (a ≡ₚ b → map_find a m ≠ None → map_emplace b id m = m).
Proof.
  assert (FaceNodes_equiv a b = true ↔ a ≡ₚ b) as Hiff.
  { by rewrite FaceNodes_equiv_spec, sort_ints_perm_eq. }
  split; [done|]. split.
  - intros Hp. split.
    + apply Hiff in Hp. unfold FaceNodes_equiv in Hp.
      apply andb_true_iff in Hp as [Hp _]. by apply negb_true_iff in Hp.
    + unfold map_find. apply sort_ints_perm_eq in Hp.
      unfold FaceNodes_equiv, FaceNodes_lt. by rewrite Hp.
  - intros Hp Hfind. unfold map_emplace.
    assert (map_find b m = map_find a m) as ->.
    { unfold map_find. apply sort_ints_perm_eq in Hp.
      unfold FaceNodes_equiv, FaceNodes_lt. by rewrite Hp. }
    by destruct (map_find a m).
Qed.

Lemma X1_face_key_unordered_witness :
  FaceNodes_equiv [4; 1; 3; 2] [1; 2; 3; 4] = true ∧
  map_find [4; 1; 3; 2] [([1; 2; 3; 4], 7)] = map_find [1; 2; 3; 4] [([1; 2; 3; 4], 7)] ∧
  map_emplace [1; 2; 3; 4] 9 [([1; 2; 3; 4], 7)] = [([1; 2; 3; 4], 7)].
Proof.
  assert ([4; 1; 3; 2] ≡ₚ [1; 2; 3; 4]) as Hp.
  { apply sort_ints_perm_eq. vm_compute. reflexivity. }
  pose proof (X1_face_key_unordered [4; 1; 3; 2] [1; 2; 3; 4] 9 [([1; 2; 3; 4], 7)])
    as (H1 & H2 & H3).
  split; [by apply H1|]. split; [by apply H2|].
  apply H3; [done|]. vm_compute. discriminate.
Defined.

(** ** The permutation of an iteration of the reordering loop *)

Lemma stable_insert_perm {A} (c : A → A → bool) x l : stable_insert c x l ≡ₚ x :: l.
Proof.
  induction l as [|y l IH]; cbn; [done|].
  destruct (c y x); [|done]. rewrite IH. apply Permutation_swap.
Qed.

Lemma stable_sort_perm {A} (c : A → A → bool) l : stable_sort c l ≡ₚ l.
Proof.
  induction l as [|x l IH]; cbn; [done|].
  fold (stable_sort c l). by rewrite stable_insert_perm, IH.
Qed.

Lemma sorted_new_to_old_perm s : sorted_new_to_old s ≡ₚ seq 0 (length (elements s)).
Proof. apply stable_sort_perm. Qed.

Lemma perm_seq_lookup (nto : list nat) n i c :
  nto ≡ₚ seq 0 n → nto !! i = Some c → (c < n)%nat.
Proof.
  intros Hp Hi. apply list_elem_of_lookup_2 in Hi. rewrite Hp in Hi.
  apply elem_of_seq in Hi. lia.
Qed.

Lemma perm_seq_length (nto : list nat) n : nto ≡ₚ seq 0 n → length nto = n.
Proof. intros Hp. by rewrite Hp, length_seq. Qed.

Lemma perm_seq_NoDup (nto : list nat) n : nto ≡ₚ seq 0 n → NoDup nto.
Proof. intros Hp. rewrite Hp. apply NoDup_seq. Qed.

Lemma invert_length nto : length (invert nto) = length nto.
Proof.
  unfold invert.
  rewrite (foldl_scatter_length (λ i, Some (nto !!! i)) (λ i, Z.of_nat i)).
  apply length_replicate.
Qed.

(** [old_to_new[new_to_old[i]] == i]. *)
Lemma invert_lookup (nto : list nat) n i c :
  nto ≡ₚ seq 0 n → nto !! i = Some c → invert nto !! c = Some (Z.of_nat i).
Proof.
  intros Hp Hi. unfold invert.
  pose proof (perm_seq_length _ _ Hp) as Hlen.
  assert (i < length nto)%nat as Hlt by (by eapply lookup_lt_Some).
  apply (foldl_scatter_written (λ i, Some (nto !!! i)) (λ i, Z.of_nat i) _ _ c i).
  - apply NoDup_seq.
  - apply elem_of_seq. lia.
  - f_equal. by apply list_lookup_total_correct.
  - intros i' Hi' [= Heq]. apply elem_of_seq in Hi'.
    eapply NoDup_lookup; [by eapply perm_seq_NoDup| |done].
    rewrite <- Heq. apply list_lookup_lookup_total_lt. lia.
  - rewrite length_replicate, Hlen. by eapply perm_seq_lookup.
Qed.

(** [new_to_old[old_to_new[c]] == c]. *)
Lemma invert_lookup_inv (nto : list nat) n c :
  nto ≡ₚ seq 0 n → (c < n)%nat →
  ∃ i, invert nto !! c = Some (Z.of_nat i) ∧ nto !! i = Some c ∧ (i < n)%nat.
Proof.
  intros Hp Hc.
  assert (c ∈ nto) as Hin by (rewrite Hp; apply elem_of_seq; lia).
  apply list_elem_of_lookup in Hin as [i Hi]. exists i.
  split; [by eapply invert_lookup|]. split; [done|].
  rewrite <- (perm_seq_length _ _ Hp). by eapply lookup_lt_Some.
Qed.

(** X2.  In every iteration of the reordering loop, [new_to_old] (lines
    444-446) is a permutation of the element indices and [old_to_new] (lines
    449-452) is its inverse on both sides: every entry of [old_to_new] is
    written, [old_to_new[new_to_old[i]] == i] and
    [new_to_old[old_to_new[c]] == c]. *)
Theorem X2_old_to_new_inverse (s : NCState) :
  let new_to_old := sorted_new_to_old s in
  let old_to_new := invert new_to_old in
  let n := length (elements s) in
  new_to_old ≡ₚ seq 0 n ∧
  length old_to_new = n ∧
  (∀ i, (i < n)%nat →
        (new_to_old !!! i < n)%nat ∧
        rd old_to_new (Z.of_nat (new_to_old !!! i)) = Z.of_nat i) ∧
  (∀ c, (c < n)%nat →
        0 ≤ rd old_to_new (Z.of_nat c) < Z.of_nat n ∧
        new_to_old !!! Z.to_nat (rd old_to_new (Z.of_nat c)) = c).
Proof.
  intros nto otn n. pose proof (sorted_new_to_old_perm s) as Hp.
  fold nto n in Hp. pose proof (perm_seq_length _ _ Hp) as Hlen.
  split; [done|]. split; [by unfold otn; rewrite invert_length|]. split.
  - intros i Hi.
    assert (nto !! i = Some (nto !!! i)) as Hi'.
    { apply list_lookup_lookup_total_lt. lia. }
    split; [by eapply perm_seq_lookup|].
    unfold rd, otn. rewrite Nat2Z.id. apply list_lookup_total_correct.
    by eapply invert_lookup.
  - intros c Hc. destruct (invert_lookup_inv nto n c Hp Hc) as (i & Hi & Hc' & Hlt).
    unfold rd, otn. rewrite Nat2Z.id. rewrite (list_lookup_total_correct _ _ _ Hi).
    rewrite Nat2Z.id. split; [lia|]. by apply list_lookup_total_correct.
Qed.

Lemma X2_old_to_new_inverse_witness :
  rd (invert (sorted_new_to_old edge_tree_discovered))
     (Z.of_nat (sorted_new_to_old edge_tree_discovered !!! 3%nat)) = 3.
Proof.
  assert (3 < length (elements edge_tree_discovered))%nat as Hlt.
  { vm_compute. lia. }
  pose proof (X2_old_to_new_inverse edge_tree_discovered) as (_ & _ & H & _).
  destruct (H 3%nat Hlt) as [_ H3]. exact H3.
Defined.

(** ** What an iteration of the reordering loop does to the elements *)

Lemma remap_children_spec otn i cs els e :
  NoDup cs → els !! i = Some e →
  ∃ e', remap_children otn i cs els = <[i := e']> els ∧
        geom e' = geom e ∧ attribute e' = attribute e ∧ ref_type e' = ref_type e ∧
        index e' = index e ∧ parent e' = parent e ∧
        length (node e') = length (node e) ∧
        (∀ c, c ∉ cs → node e' !! c = node e !! c) ∧
        (∀ pre c post, cs = pre ++ c :: post →
                       (∀ c', c' ∈ pre ++ [c] → 0 ≤ child e !!! c') →
                       (c < length (node e))%nat →
                       node e' !!! c = rd otn (node e !!! c)).
Proof.
  intros Hnd. revert els e. induction cs as [|c0 cs IH]; intros els e Hi; cbn.
  - exists e. rewrite list_insert_id by done.
    repeat split; try done. intros [|??] ???; discriminate.
  - apply NoDup_cons in Hnd as [Hc0 Hnd].
    rewrite (list_lookup_total_correct _ _ _ Hi).
    destruct (Z.leb_spec 0 (child e !!! c0)) as [Hpos|Hneg].
    + set (e1 := set_node (<[c0 := rd otn (child e !!! c0)]> (child e)) e).
      set (els1 := alter _ i els).
      assert (els1 !! i = Some e1) as Hi1.
      { unfold els1. rewrite list_lookup_alter_eq, Hi. done. }
      set (els2 := alter _ i els1).
      assert (∃ r, els2 = <[i := set_rank r e1]> els) as [r Hels2].
      { eexists. unfold els2. rewrite (alter_lookup_insert _ _ _ _ Hi1).
        unfold els1. rewrite (alter_lookup_insert _ _ _ _ Hi).
        by rewrite list_insert_insert_eq. }
      assert (els2 !! i = Some (set_rank r e1)) as Hi2.
      { rewrite Hels2. apply list_lookup_insert_eq. by eapply lookup_lt_Some. }
      destruct (IH Hnd els2 _ Hi2) as (e' & Heq & Hg & Ha & Hr & Hx & Hp & Hl & Hout & Hin).
      exists e'. split.
      { rewrite Heq, Hels2. by rewrite list_insert_insert_eq. }
      cbn in *. rewrite length_insert in Hl.
      repeat split; try done.
      * intros c Hc. apply not_elem_of_cons in Hc as [Hne Hc].
        rewrite (Hout c Hc). by rewrite list_lookup_insert_ne.
      * intros pre c post Hcs Hall Hlt. destruct pre as [|p pre]; cbn in Hcs.
        -- injection Hcs as <- <-.
           apply list_lookup_total_correct. rewrite (Hout _ Hc0).
           rewrite list_lookup_insert_eq by done. done.
        -- injection Hcs as <- ->.
           assert (c ≠ c0) as Hne.
           { intros ->. apply Hc0. apply elem_of_app. right. left. }
           rewrite (Hin pre c post eq_refl).
           ++ f_equal. unfold child. by rewrite list_lookup_total_insert_ne.
           ++ intros c' Hc'. unfold child.
              assert (c' ≠ c0) as Hne'.
              { intros ->. apply Hc0. rewrite elem_of_app in Hc'.
                rewrite list_elem_of_singleton in Hc'.
                apply elem_of_app. destruct Hc' as [?| ->]; [by left|right; left]. }
              rewrite list_lookup_total_insert_ne by done. apply Hall.
              by right.
           ++ by rewrite length_insert.
    + exists e. rewrite list_insert_id by done. repeat split; try done.
      intros pre c post Hcs Hall. exfalso.
      assert (c0 ∈ pre ++ [c]) as Hin.
      { destruct pre; injection Hcs as <- ?; [|by left].
        apply list_elem_of_singleton. done. }
      specialize (Hall _ Hin). lia.
Qed.

Lemma relink_element_spec otn els i e :
  els !! i = Some e →
  ∃ e', relink_element otn els i = <[i := e']> els ∧ relinked otn e e'.
Proof.
  intros Hi. unfold relink_element.
  rewrite (list_lookup_total_correct _ _ _ Hi).
  destruct (IsLeaf e) eqn:Hleaf; cbn [negb].
  - eexists. split; [by apply alter_lookup_insert|].
    unfold relinked. cbn. rewrite Hleaf. repeat split; try done.
  - assert (alter (set_rank INT_MAX) i els !! i = Some (set_rank INT_MAX e)) as Hi1.
    { by rewrite list_lookup_alter_eq, Hi. }
    destruct (remap_children_spec otn i (seq 0 MaxElemChildren) _ _
                (NoDup_seq _ _) Hi1)
      as (e' & Heq & Hg & Ha & Hr & Hx & Hp & Hl & Hout & Hin).
    rewrite Heq. rewrite (alter_lookup_insert _ _ _ _ Hi), list_insert_insert_eq.
    rewrite (alter_lookup_insert _ _ _ e'), list_insert_insert_eq;
      [|apply list_lookup_insert_eq; by eapply lookup_lt_Some].
    eexists. split; [done|].
    unfold relinked.
    cbn [geom attribute ref_type index parent node rank set_rank set_parent child] in *.
    rewrite Hleaf, Hp.
    repeat split; try done.
    intros _ c Hc Hlt Hall. unfold child.
    assert (seq 0 MaxElemChildren = seq 0 c ++ c :: seq (S c) (MaxElemChildren - S c))
      as Hsplit.
    { replace MaxElemChildren with (c + S (MaxElemChildren - S c))%nat at 1 by lia.
      by rewrite seq_app. }
    apply (Hin _ _ _ Hsplit); [|done].
    intros c' Hc'. apply Hall. rewrite elem_of_app, elem_of_seq in Hc'.
    rewrite list_elem_of_singleton in Hc'. lia.
Qed.

Lemma relink_all_spec otn els i e :
  els !! i = Some e →
  ∃ e', foldl (relink_element otn) els (seq 0 (length els)) !! i = Some e' ∧
        relinked otn e e'.
Proof.
  intros Hi.
  pose (I := λ (k : nat) (cur : list Element),
          length cur = length els ∧
          (∀ j, (k ≤ j)%nat → cur !! j = els !! j) ∧
          (∀ j e, (j < k)%nat → els !! j = Some e →
                  ∃ e', cur !! j = Some e' ∧ relinked otn e e')).
  assert (I (length els) (foldl (relink_element otn) els (seq 0 (length els)))) as HI.
  { apply (foldl_seq_inv I).
    - split; [done|]. split; [done|]. intros; lia.
    - intros k cur Hk (Hlen & Hrest & Hdone).
      assert (∃ ek, els !! k = Some ek) as [ek Hek] by (by apply lookup_lt_is_Some).
      assert (cur !! k = Some ek) as Hck by (by rewrite Hrest).
      destruct (relink_element_spec otn cur k ek Hck) as (e' & Heq & Hrel).
      rewrite Heq. split; [by rewrite length_insert|]. split.
      + intros j Hj. rewrite list_lookup_insert_ne by lia. apply Hrest. lia.
      + intros j ej Hj Hej. destruct (decide (j = k)) as [->|Hne].
        * exists e'. rewrite list_lookup_insert_eq by lia.
          split; [done|]. by simplify_eq.
        * rewrite list_lookup_insert_ne by done. apply Hdone; [lia|done]. }
  destruct HI as (_ & _ & Hdone). apply Hdone; [|done]. by eapply lookup_lt_Some.
Qed.

Lemma Permute_lookup {A} `{Inhabited A} (nto : list nat) (a : list A) i c :
  nto !! i = Some c → Permute nto a !! i = Some (a !!! c).
Proof. intros Hi. unfold Permute. by rewrite list_lookup_fmap, Hi. Qed.

(** The element at the old index [c] after an iteration, and where to find
    it. *)
Lemma reorder_step_element s c :
  (c < length (elements s))%nat →
  ∃ j e', invert (sorted_new_to_old s) !! c = Some (Z.of_nat j) ∧
          sorted_new_to_old s !! j = Some c ∧
          elements (reorder_step s) !! j = Some e' ∧
          relinked (invert (sorted_new_to_old s)) (elements s !!! c) e' ∧
          parent_element_ids_ (reorder_step s) !! j
            = Some (parent_element_ids_ s !!! c).
Proof.
  intros Hc.
  destruct (invert_lookup_inv _ _ c (sorted_new_to_old_perm s) Hc) as (j & Hj & Hnto & Hlt).
  exists j. unfold reorder_step. cbn.
  pose proof (Permute_lookup _ (elements s) _ _ Hnto) as Hel.
  destruct (relink_all_spec (invert (sorted_new_to_old s)) _ _ _ Hel) as (e' & He' & Hrel).
  exists e'. split; [done|]. split; [done|]. split; [done|]. split; [done|].
  by apply Permute_lookup.
Qed.

(** X3.  One iteration of the reordering loop (lines 444-478) moves the
    element at index [c] to index [old_to_new[c]] together with its parent
    id, keeps its geometry, attribute, refinement type and index, keeps the
    nodes and the rank of a leaf, and relabels its parent link and, on an
    internal element, every child slot before the first negative one by
    [old_to_new]. *)
Theorem X3_reorder_step_relabels (s : NCState) (c : nat) :
  (c < length (elements s))%nat →
  let old_to_new := invert (sorted_new_to_old s) in
  let e := elements s !!! c in
  let j := Z.to_nat (rd old_to_new (Z.of_nat c)) in
  ∃ e', elements (reorder_step s) !! j = Some e' ∧
        parent_element_ids_ (reorder_step s) !! j = Some (parent_element_ids_ s !!! c) ∧
        geom e' = geom e ∧ attribute e' = attribute e ∧ ref_type e' = ref_type e ∧
        index e' = index e ∧
        parent e' = (if parent e =? -1 then -1 else rd old_to_new (parent e)) ∧
        (IsLeaf e = true → node e' = node e ∧ rank e' = rank e) ∧
        (IsLeaf e = false →
         ∀ k, (k < MaxElemChildren)%nat → (k < length (child e))%nat →
              (∀ k', (k' ≤ k)%nat → 0 ≤ child e !!! k') →
              child e' !!! k = rd old_to_new (child e !!! k)).
Proof.
  intros Hc otn e j.
  destruct (reorder_step_element s c Hc) as (j' & e' & Hj & _ & He' & Hrel & Hpe).
  assert (j = j') as ->.
  { unfold j, rd, otn. rewrite Nat2Z.id, (list_lookup_total_correct _ _ _ Hj).
    apply Nat2Z.id. }
  exists e'. destruct Hrel as (? & ? & ? & ? & ? & ? & ? & ?). repeat split; try done.
  - by apply H5.
  - by apply H5.
Qed.

Lemma X3_reorder_step_relabels_witness :
  ∃ e', elements (reorder_step edge_tree_discovered) !! 1%nat = Some e' ∧
        parent e' = 3 ∧ node e' = node (elements edge_tree_discovered !!! 0%nat).
Proof.
  assert (0 < length (elements edge_tree_discovered))%nat as Hlt.
  { vm_compute. lia. }
  destruct (X3_reorder_step_relabels edge_tree_discovered 0 Hlt)
    as (e' & He' & _ & _ & _ & _ & _ & Hp & Hleaf & _).
  assert (Z.to_nat (rd (invert (sorted_new_to_old edge_tree_discovered)) (Z.of_nat 0)) = 1%nat)
    as Hj by (vm_compute; reflexivity).
  rewrite Hj in He'. exists e'. split; [exact He'|]. split.
  - rewrite Hp. vm_compute. reflexivity.
  - apply Hleaf. vm_compute. reflexivity.
Defined.

(** ** The tree built by the discovery loop *)

Lemma leaf_of_face_ext parent_mesh attributes ns ns' face e e' :
  geom e' = geom e → attribute e' = attribute e → rank e' = rank e →
  node e' = node e → index e' = index e → (∀ x, x ∈ ns → x ∈ ns') →
  leaf_of_face parent_mesh attributes ns face e →
  leaf_of_face parent_mesh attributes ns' face e'.
Proof.
  intros Hg Ha Hr Hn Hx Hsub (H1 & H2 & H3 & H4 & H5 & H6 & H7 & H8 & H9 & H10).
  unfold leaf_of_face. rewrite Hg, Ha, Hr, Hn, Hx.
  repeat split; try done.
  - intros x Hin Hne. by apply Hsub, H9.
  - intros ed Hed. by apply Hsub, H10.
Qed.

Section TreeInvariant.

Variable parent_mesh : ParNCMesh.
Variable Dim : Z.
Variable attributes : list Z.
Variable indeterminate : list Z.

Lemma wire_lookup p c n els k :
  wire Dim p c n els !! k = wired Dim p c n k <$> els !! k.
Proof.
  unfold wire, upd, wired. generalize (Z.to_nat p) (Z.to_nat n). intros a b.
  rewrite !list_lookup_alter.
  repeat case_decide; subst; try done; destruct (els !! _); done.
Qed.

Lemma wired_parent_refined p c n e : IsLeaf (wired Dim p c n (Z.to_nat p) e) = false.
Proof.
  unfold wired, IsLeaf. destruct (decide (Z.to_nat p = Z.to_nat p)); [|done].
  case_decide; cbn; destruct (Dim =? 2); done.
Qed.

Lemma wired_keeps_internal p c n k e : IsLeaf e = false → IsLeaf (wired Dim p c n k e) = false.
Proof.
  unfold wired, IsLeaf. intros Hl.
  repeat case_decide; cbn; try done; destruct (Dim =? 2); done.
Qed.

Lemma wired_other p c n k e :
  k ≠ Z.to_nat p →
  let e' := wired Dim p c n k e in
  geom e' = geom e ∧ attribute e' = attribute e ∧ rank e' = rank e ∧
  node e' = node e ∧ index e' = index e ∧ ref_type e' = ref_type e.
Proof.
  intros Hne. unfold wired. destruct (decide (k = Z.to_nat p)); [done|].
  by case_decide.
Qed.

Lemma wired_parent p c n k e :
  parent (wired Dim p c n k e) = if decide (k = Z.to_nat n) then p else parent e.
Proof. unfold wired. by repeat case_decide. Qed.

Lemma wire_refined p c n els ep :
  els !! Z.to_nat p = Some ep →
  ∃ e', wire Dim p c n els !! Z.to_nat p = Some e' ∧ IsLeaf e' = false.
Proof.
  intros Hp. rewrite wire_lookup, Hp. eexists. split; [done|].
  apply wired_parent_refined.
Qed.

Lemma wire_keeps_internal p c n els q eq :
  els !! q = Some eq → IsLeaf eq = false →
  ∃ e', wire Dim p c n els !! q = Some e' ∧ IsLeaf e' = false.
Proof.
  intros Hq Hleaf. rewrite wire_lookup, Hq. eexists. split; [done|].
  by apply wired_keeps_internal.
Qed.

(** A parent is wired: [els1] is the element array in which the parent [p]
    may have been appended or had its nodes rewritten. *)
Lemma tree_inv_wire i s s' p c n els1 ext :
  tree_inv parent_mesh attributes i s →
  0 ≤ p → (Z.to_nat p < length els1)%nat → 0 ≤ n → (Z.to_nat n < length els1)%nat →
  (∀ k, k ≠ Z.to_nat p → els1 !! k = elements s !! k) →
  (∀ e1, els1 !! Z.to_nat p = Some e1 →
         parent e1 = -1 ∨ ∃ e, elements s !! Z.to_nat p = Some e ∧ parent e1 = parent e) →
  elements s' = wire Dim p c n els1 →
  parent_element_ids_ s' = parent_element_ids_ s ++ ext →
  length (parent_element_ids_ s ++ ext) = length els1 →
  new_nodes s' = new_nodes s →
  (∀ kv, kv ∈ pnodes_new_elem s' → 0 ≤ kv.2 < Z.of_nat (length els1)) →
  tree_inv parent_mesh attributes i s'.
Proof.
  intros [Hlen Hmap Hpar Hleaf Hmono] Hp Hplt Hn Hnlt Hels1 Hpp Hels Hpe Hpelen Hnn Hmap'.
  assert (∃ ep, els1 !! Z.to_nat p = Some ep) as [ep Hep] by (by apply lookup_lt_is_Some).
  assert (∀ q eq, elements s !! q = Some eq → IsLeaf eq = false →
                  ∃ e', elements s' !! q = Some e' ∧ IsLeaf e' = false) as Hkeep.
  { intros q eq Hq Hl. rewrite Hels. destruct (decide (q = Z.to_nat p)) as [->|Hne].
    - by eapply wire_refined.
    - eapply wire_keeps_internal; [|done]. by rewrite Hels1. }
  assert (∀ e, parent_ok (elements s) e → parent_ok (elements s') e) as Hok.
  { intros e [Hm|(H0 & q & Hq & Hl)]; [by left|]. right. split; [done|].
    by apply (Hkeep _ q). }
  assert (∀ k e', elements s' !! k = Some e' → IsLeaf e' = true →
            k ≠ Z.to_nat p ∧ ∃ e, elements s !! k = Some e ∧ IsLeaf e = true ∧
            geom e' = geom e ∧ attribute e' = attribute e ∧ rank e' = rank e ∧
            node e' = node e ∧ index e' = index e) as Hsame.
  { intros k e' Hk Hl. rewrite Hels, wire_lookup in Hk.
    destruct (els1 !! k) as [e1|] eqn:H1; [|done]. injection Hk as <-.
    destruct (decide (k = Z.to_nat p)) as [->|Hne].
    { exfalso. by rewrite wired_parent_refined in Hl. }
    split; [done|]. rewrite Hels1 in H1 by done. exists e1. split; [done|].
    destruct (wired_other p c n k e1 Hne) as (? & ? & ? & ? & ? & Hrt).
    split; [|done]. unfold IsLeaf in *. by rewrite <- Hrt. }
  constructor.
  - rewrite Hpe, Hels, wire_length. done.
  - intros kv Hkv. rewrite Hels, wire_length. by apply Hmap'.
  - intros k e' Hk. rewrite Hels, wire_lookup in Hk.
    destruct (els1 !! k) as [e1|] eqn:H1; [|done]. injection Hk as <-.
    unfold parent_ok. rewrite wired_parent.
    destruct (decide (k = Z.to_nat n)) as [->|Hnen].
    { right. split; [done|]. rewrite Hels. by eapply wire_refined. }
    assert (parent_ok (elements s') e1) as Hok1.
    { destruct (decide (k = Z.to_nat p)) as [->|Hnep].
      - destruct (Hpp _ H1) as [Hm|(e & He & Heq)]; [by left|].
        apply Hok. destruct (Hpar _ _ He) as [?|?]; [left|right]; by rewrite Heq.
      - rewrite Hels1 in H1 by done. apply Hok. by eapply Hpar. }
    exact Hok1.
  - intros k e' Hk Hl. destruct (Hsame _ _ Hk Hl) as (Hne & e & He & Hle & Hg & Ha & Hr & Hnd & Hx).
    destruct (Hleaf _ _ He Hle) as (j & face & Hj & Hji & Hface & Hlf).
    exists j, face. split.
    { rewrite Hpe, lookup_app_l; [done|]. by eapply lookup_lt_Some. }
    split; [done|]. split; [done|].
    eapply leaf_of_face_ext; try done. by rewrite Hnn.
  - intros k k' e e' j j' Hkk Hk Hk' Hl Hl' Hj Hj'.
    destruct (Hsame _ _ Hk Hl) as (_ & e0 & He0 & Hle0 & _).
    destruct (Hsame _ _ Hk' Hl') as (_ & e0' & He0' & Hle0' & _).
    rewrite Hpe in Hj, Hj'.
    rewrite lookup_app_l in Hj by (rewrite Hlen; by eapply lookup_lt_Some).
    rewrite lookup_app_l in Hj' by (rewrite Hlen; by eapply lookup_lt_Some).
    by eapply (Hmono k k').
Qed.


Lemma map_emplace_elem fn v m kv :
  kv ∈ map_emplace fn v m → kv ∈ m ∨ kv = (fn, v).
Proof.
  unfold map_emplace. destruct (map_find fn m); [by left|].
  rewrite elem_of_app, list_elem_of_singleton. done.
Qed.

Lemma map_erase_elem fn m kv : kv ∈ map_erase fn m → kv ∈ m.
Proof.
  unfold map_erase. intros Hin. apply list_elem_of_In in Hin.
  apply filter_In in Hin as [Hin _]. by apply list_elem_of_In.
Qed.

Lemma map_assign_elem fn v m kv :
  kv ∈ map_assign fn v m → kv ∈ m ∨ kv.2 = v.
Proof.
  unfold map_assign. destruct (map_find fn m).
  - intros Hin. apply list_elem_of_In, in_map_iff in Hin as (kv0 & Heq & Hin).
    apply list_elem_of_In in Hin. destruct (FaceNodes_equiv fn kv0.1).
    + right. by subst.
    + left. by subst.
  - rewrite elem_of_app, list_elem_of_singleton. intros [?| ->]; [by left|by right].
Qed.

Lemma upd_lookup i f els k :
  upd i f els !! k = (if decide (k = Z.to_nat i) then f else id) <$> els !! k.
Proof.
  unfold upd. rewrite list_lookup_alter. case_decide; subst.
  - by rewrite decide_True.
  - rewrite decide_False by done. by destruct (els !! k).
Qed.

Lemma tree_inv_next i s :
  tree_inv parent_mesh attributes i s → tree_inv parent_mesh attributes (i + 1) s.
Proof.
  intros [Hlen Hmap Hpar Hleaf Hmono]. constructor; try done.
  intros k e Hk Hl. destruct (Hleaf _ _ Hk Hl) as (j & face & ? & ? & ? & ?).
  exists j, face. split; [done|]. split; [lia|]. by split.
Qed.

Lemma tree_inv_root i s n :
  tree_inv parent_mesh attributes i s →
  tree_inv parent_mesh attributes i
    (set_elements (upd n (set_parent (-1)) (elements s)) s).
Proof.
  intros [Hlen Hmap Hpar Hleaf Hmono].
  assert (∀ k e', upd n (set_parent (-1)) (elements s) !! k = Some e' →
            ∃ e, elements s !! k = Some e ∧ IsLeaf e' = IsLeaf e ∧
                 geom e' = geom e ∧ attribute e' = attribute e ∧ rank e' = rank e ∧
                 node e' = node e ∧ index e' = index e ∧
                 (parent e' = -1 ∨ parent e' = parent e)) as Hsame.
  { intros k e' Hk. rewrite upd_lookup in Hk.
    destruct (elements s !! k) as [e|]; [|done]. injection Hk as <-.
    exists e. split; [done|]. case_decide; cbn; repeat split; auto. }
  assert (∀ q eq, elements s !! q = Some eq → IsLeaf eq = false →
            ∃ e', upd n (set_parent (-1)) (elements s) !! q = Some e' ∧ IsLeaf e' = false)
    as Hkeep.
  { intros q eq Hq Hl. rewrite upd_lookup, Hq. eexists. split; [done|].
    by case_decide. }
  constructor; cbn.
  - by rewrite upd_length.
  - intros kv Hkv. rewrite upd_length. by apply Hmap.
  - intros k e' Hk. destruct (Hsame _ _ Hk) as (e & He & _ & _ & _ & _ & _ & _ & [Hp|Hp]).
    { by left. }
    destruct (Hpar _ _ He) as [Hm|(H0 & q & Hq & Hl)]; [left; congruence|].
    right. rewrite Hp. split; [done|]. by eapply Hkeep.
  - intros k e' Hk Hl. destruct (Hsame _ _ Hk) as (e & He & Hle & ? & ? & ? & ? & ? & _).
    rewrite Hle in Hl. destruct (Hleaf _ _ He Hl) as (j & face & ? & ? & ? & ?).
    exists j, face. split; [done|]. split; [done|]. split; [done|].
    by eapply leaf_of_face_ext.
  - intros k k' e e' j j' Hkk Hk Hk' Hl Hl' Hj Hj'.
    destruct (Hsame _ _ Hk) as (e0 & He0 & Hle0 & _).
    destruct (Hsame _ _ Hk') as (e0' & He0' & Hle0' & _).
    rewrite Hle0 in Hl. rewrite Hle0' in Hl'. by eapply (Hmono k k').
Qed.

Lemma ascend_tree_inv fuel attr g ft fn n i s :
  tree_inv parent_mesh attributes i s →
  0 ≤ n → (Z.to_nat n < length (elements s))%nat →
  tree_inv parent_mesh attributes i
    (ascend parent_mesh Dim indeterminate fuel attr g ft fn n s).1.
Proof.
  revert fn n s. induction fuel as [|fuel IH]; intros fn n s Hinv Hn Hnlt; [done|].
  cbn [ascend]. destruct (ParentFaceNodes parent_mesh fn) as [child_slot fn'].
  destruct (child_slot =? -1); [by apply tree_inv_root|].
  destruct (map_find fn' (pnodes_new_elem s)) as [[key p]|] eqn:Hfind.
  - assert (0 ≤ p < Z.of_nat (length (elements s))) as Hp.
    { apply (ti_map _ _ _ _ Hinv (key, p)). by eapply map_find_Some. }
    match goal with |- context [if ?c then _ else _] => destruct c end.
    + set (s1 := fix_parent_elem indeterminate fn' key p s).
      assert (∃ f, elements s1 = upd p (λ e, set_node (f e) e) (elements s)) as [f Hs1].
      { unfold s1, fix_parent_elem. destruct (IsLeaf _); cbn; by eexists. }
      assert (length (elements s1) = length (elements s)) as Hlen1.
      { by rewrite Hs1, upd_length. }
      assert (tree_inv parent_mesh attributes i
                (set_elements (wire Dim p child_slot n (elements s1)) s1)) as Hinv'.
      { apply (tree_inv_wire i s _ p child_slot n (elements s1) [] Hinv).
        - lia.
        - lia.
        - lia.
        - lia.
        - intros k Hk. rewrite Hs1, upd_lookup, decide_False by done.
          by destruct (elements s !! k).
        - intros e1 He1. right. rewrite Hs1, upd_lookup, decide_True in He1 by done.
          destruct (elements s !! Z.to_nat p) as [e|]; [|done].
          injection He1 as <-. by exists e.
        - done.
        - cbn. unfold s1, fix_parent_elem. cbn. by rewrite app_nil_r.
        - rewrite app_nil_r, Hlen1. apply Hinv.
        - done.
        - intros kv Hkv. rewrite Hlen1. cbn in Hkv.
          apply map_emplace_elem in Hkv as [Hkv| ->]; [|done].
          apply map_erase_elem in Hkv. by apply Hinv. }
      apply IH; [done|lia|]. cbn [elements set_elements].
      rewrite wire_length, Hlen1. lia.
    + apply (tree_inv_wire i s _ p child_slot n (elements s) [] Hinv).
      * lia.
      * lia.
      * lia.
      * lia.
      * done.
      * intros e1 He1. right. by exists e1.
      * done.
      * cbn. by rewrite app_nil_r.
      * rewrite app_nil_r. apply Hinv.
      * done.
      * intros kv Hkv. by apply Hinv.
  - cbn [AddElement].
    set (p := Z.of_nat (length (elements s))).
    set (els1 := elements s ++ [new_Element (face_geom_from_nodes fn') attr]).
    assert (length els1 = S (length (elements s))) as Hlen1.
    { unfold els1. rewrite length_app. cbn. lia. }
    apply IH; [|lia|cbn; rewrite wire_length; unfold p; lia].
    apply (tree_inv_wire i s _ p child_slot n els1
             [faces_FindId parent_mesh (rd fn' 0) (rd fn' 1) (rd fn' 2) (rd fn' 3)] Hinv).
    + lia.
    + unfold p. lia.
    + lia.
    + lia.
    + intros k Hk. unfold els1. unfold p in Hk. rewrite Nat2Z.id in Hk.
      destruct (decide (k < length (elements s))%nat).
      * by rewrite lookup_app_l.
      * rewrite lookup_app_r by lia.
        rewrite (lookup_ge_None_2 (elements s)) by lia.
        destruct (k - length (elements s))%nat as [|m] eqn:E; [lia|done].
    + intros e1 He1. left. unfold els1, p in He1. rewrite Nat2Z.id in He1.
      rewrite lookup_app_r, Nat.sub_diag in He1 by lia. by injection He1 as <-.
    + done.
    + done.
    + rewrite length_app, Hlen1. cbn. rewrite (ti_len _ _ _ _ Hinv). lia.
    + done.
    + intros kv Hkv. cbn in Hkv. rewrite Hlen1.
      apply map_emplace_elem in Hkv as [Hkv| ->].
      * pose proof (ti_map _ _ _ _ Hinv _ Hkv). lia.
      * cbn. unfold p. lia.
Qed.


Lemma foldl_insert_nodes_mono (l ns : list Z) x :
  x ∈ ns → x ∈ foldl (λ ns x, if x =? -1 then ns else set_insert x ns) ns l.
Proof.
  revert ns. induction l as [|y l IH]; intros ns Hx; cbn; [done|].
  apply IH. destruct (y =? -1); [done|]. apply set_insert_elem. by right.
Qed.

Lemma foldl_insert_nodes_in (l ns : list Z) x :
  x ∈ l → x ≠ -1 → x ∈ foldl (λ ns x, if x =? -1 then ns else set_insert x ns) ns l.
Proof.
  revert ns. induction l as [|y l IH]; intros ns Hx Hne; cbn.
  { by apply elem_of_nil in Hx. }
  apply elem_of_cons in Hx as [->|Hx]; [|by apply IH].
  apply foldl_insert_nodes_mono. destruct (Z.eqb_spec y (-1)); [done|].
  apply set_insert_elem. by left.
Qed.

Lemma visit_face_tree_inv fuel i face s :
  0 ≤ i → p_faces parent_mesh !! Z.to_nat i = Some face → unused face = false →
  tree_inv parent_mesh attributes i s →
  tree_inv parent_mesh attributes (i + 1)
    (visit_face parent_mesh Dim attributes indeterminate fuel i face s).1.
Proof.
  intros Hi Hface Hused Hinv. unfold visit_face.
  destruct (negb (HasAttribute (f_attribute face) attributes)
            || bool_decide (GetMeshIdType parent_mesh (f_index face) = MASTER)) eqn:Hsel;
    [by apply tree_inv_next|].
  apply orb_false_iff in Hsel as [Hattr Hmaster].
  apply negb_false_iff in Hattr. apply bool_decide_eq_false in Hmaster.
  destruct (map_find _ (pnodes_new_elem s)) eqn:Hfind; [by apply tree_inv_next|].
  cbn [AddElement].
  set (fn := FindFaceNodes parent_mesh face) in *.
  set (n := Z.of_nat (length (elements s))).
  set (leaf := mkElement (face_geom_from_nodes fn) 0 (face_rank parent_mesh face)
                 (f_attribute face) (take MaxFaceNodes fn ++ replicate 6 (-1)) (-1) (-1)).
  match goal with |- tree_inv _ _ _ (ascend _ _ _ _ _ _ _ _ _ ?x).1 => set (s5 := x) end.
  assert (elements s5 = elements s ++ [leaf]) as Hels.
  { unfold s5. cbn. unfold upd, n. rewrite Nat2Z.id, !alter_app_last. done. }
  assert (parent_element_ids_ s5 = parent_element_ids_ s ++ [i]) as Hpe by done.
  assert (pnodes_new_elem s5 = map_assign fn n (pnodes_new_elem s)) as Hmap5 by done.
  assert (∀ x, x ∈ new_nodes s → x ∈ new_nodes s5) as Hmono5.
  { intros x Hx. unfold s5. cbn. apply foldl_set_insert_mono.
    by apply foldl_insert_nodes_mono. }
  destruct Hinv as [Hlen Hmap Hpar Hleaf Hmono].
  apply ascend_tree_inv; [|lia|rewrite Hels, length_app; cbn; unfold n; lia].
  constructor.
  - rewrite Hpe, Hels, !length_app. cbn. lia.
  - intros kv Hkv. rewrite Hmap5 in Hkv. rewrite Hels, length_app. cbn.
    apply map_assign_elem in Hkv as [Hkv|Hkv].
    + pose proof (Hmap _ Hkv). lia.
    + rewrite Hkv. unfold n. lia.
  - intros k e Hk. rewrite Hels in Hk. rewrite Hels.
    apply lookup_app_Some in Hk as [Hk|[_ Hk]].
    + destruct (Hpar _ _ Hk) as [?|(H0 & q & Hq & Hl)]; [by left|].
      right. split; [done|]. exists q. split; [|done]. by apply lookup_app_l_Some.
    + apply list_lookup_singleton_Some in Hk as [_ <-]. by left.
  - intros k e Hk Hl. rewrite Hels in Hk. rewrite Hpe.
    apply lookup_app_Some in Hk as [Hk|[Hge Hk]].
    + destruct (Hleaf _ _ Hk Hl) as (j & face' & Hj & Hji & Hf & Hlf).
      exists j, face'. split; [by apply lookup_app_l_Some|]. split; [lia|].
      split; [done|]. by eapply leaf_of_face_ext.
    + apply list_lookup_singleton_Some in Hk as [Hk <-].
      exists (Z.to_nat i), face. split.
      { rewrite lookup_app_r by lia. rewrite Hlen.
        replace (k - length (elements s))%nat with 0%nat by lia. cbn.
        by rewrite Z2Nat.id. }
      split; [lia|]. split; [done|].
      unfold leaf_of_face. fold fn. cbn.
      repeat split; try done.
      * intros x Hx Hne. unfold s5. cbn. apply foldl_set_insert_mono.
        by apply foldl_insert_nodes_in.
      * intros ed Hed. unfold s5. cbn.
        by apply (foldl_set_insert_in
                    (λ e : Z * Z, nodes_FindId parent_mesh (rd fn e.1) (rd fn e.2))).
  - intros k k' e e' j j' Hkk Hk Hk' Hl Hl' Hj Hj'.
    rewrite Hels in Hk, Hk'. rewrite Hpe in Hj, Hj'.
    apply lookup_app_Some in Hk as [Hk|[Hge Hk]].
    2:{ apply list_lookup_singleton_Some in Hk as [Hk _].
        apply lookup_lt_Some in Hk'. rewrite length_app in Hk'. cbn in Hk'. lia. }
    rewrite lookup_app_l in Hj by (rewrite Hlen; by eapply lookup_lt_Some).
    apply lookup_app_Some in Hk' as [Hk'|[Hge Hk']].
    + rewrite lookup_app_l in Hj' by (rewrite Hlen; by eapply lookup_lt_Some).
      by eapply (Hmono k k').
    + apply list_lookup_singleton_Some in Hk' as [Hk' _].
      rewrite lookup_app_r in Hj' by lia.
      replace (k' - length (parent_element_ids_ s))%nat with 0%nat in Hj' by lia.
      injection Hj' as <-.
      destruct (Hleaf _ _ Hk Hl) as (j0 & _ & Hj0 & Hlt & _).
      rewrite Hj in Hj0. injection Hj0 as ->. done.
Qed.

Lemma face_loop_tree_inv fuel pre slots ipe s :
  p_faces parent_mesh = pre ++ slots →
  tree_inv parent_mesh attributes (Z.of_nat (length pre)) s →
  ∃ j, tree_inv parent_mesh attributes j
         (face_loop parent_mesh Dim attributes indeterminate fuel slots
                    (Z.of_nat (length pre)) ipe s).1.
Proof.
  revert pre ipe s. induction slots as [|face slots IH]; intros pre ipe s Hsplit Hinv; cbn.
  - by eexists.
  - destruct (ipe <? faces_Size parent_mesh); [|by eexists].
    assert (p_faces parent_mesh = (pre ++ [face]) ++ slots) as Hsplit'.
    { by rewrite <- app_assoc. }
    assert (Z.of_nat (length pre) + 1 = Z.of_nat (length (pre ++ [face]))) as Hnext.
    { rewrite length_app. cbn. lia. }
    destruct (unused face) eqn:Hused.
    + rewrite Hnext. apply IH; [done|]. rewrite <- Hnext. by apply tree_inv_next.
    + pose proof (visit_face_tree_inv fuel (Z.of_nat (length pre)) face s) as Hv.
      destruct (visit_face _ _ _ _ _ _ _ _) as [s1 ok1]. cbn in Hv.
      rewrite Hnext in *.
      destruct (IH (pre ++ [face]) (ipe + 1) s1 Hsplit') as [j Hj].
      { apply Hv; [lia| |done|done].
        rewrite Nat2Z.id, Hsplit. by rewrite lookup_app_r, Nat.sub_diag by lia. }
      destruct (face_loop _ _ _ _ _ _ _ _ _) as [s2 ok2]. by exists j.
Qed.

Lemma tree_inv_init : tree_inv parent_mesh attributes 0 init_state.
Proof. constructor; cbn; try done. intros kv Hkv. by apply elem_of_nil in Hkv. Qed.

Lemma discover_tree_inv fuel :
  ∃ j, tree_inv parent_mesh attributes j
         (discover parent_mesh Dim attributes indeterminate fuel).1.
Proof.
  unfold discover.
  destruct (face_loop_tree_inv fuel [] (p_faces parent_mesh) 0 init_state eq_refl
              tree_inv_init) as [j Hj].
  cbn [length Z.of_nat] in Hj.
  destruct (face_loop _ _ _ _ _ _ _ _ _) as [s ok]. exists j. cbn.
  destruct Hj as [Hlen Hmap Hpar Hleaf Hmono]. by constructor.
Qed.

End TreeInvariant.

(** ** The tree through the reordering loop *)

Lemma remap_children_length otn i cs els :
  length (remap_children otn i cs els) = length els.
Proof.
  revert els. induction cs as [|c cs IH]; intros els; cbn; [done|].
  destruct (0 <=? _); [|done]. by rewrite IH, !length_alter.
Qed.

Lemma relink_element_length otn els i : length (relink_element otn els i) = length els.
Proof.
  unfold relink_element. rewrite length_alter.
  destruct (negb _); [|done]. by rewrite remap_children_length, length_alter.
Qed.

Lemma relink_all_length otn els is_ :
  length (foldl (relink_element otn) els is_) = length els.
Proof.
  revert els. induction is_ as [|i is_ IH]; intros els; cbn; [done|].
  by rewrite IH, relink_element_length.
Qed.

Lemma reorder_step_length s : length (elements (reorder_step s)) = length (elements s).
Proof.
  unfold reorder_step. cbn. rewrite relink_all_length, Permute_length.
  apply perm_seq_length, sorted_new_to_old_perm.
Qed.

(** The element at the new index [j] after an iteration, and where it was. *)
Lemma reorder_step_element_new s j e' :
  elements (reorder_step s) !! j = Some e' →
  ∃ c e, sorted_new_to_old s !! j = Some c ∧ elements s !! c = Some e ∧
         invert (sorted_new_to_old s) !! c = Some (Z.of_nat j) ∧
         relinked (invert (sorted_new_to_old s)) e e' ∧
         parent_element_ids_ (reorder_step s) !! j = Some (parent_element_ids_ s !!! c).
Proof.
  intros Hj. pose proof (sorted_new_to_old_perm s) as Hp.
  assert (j < length (elements s))%nat as Hlt.
  { rewrite <- reorder_step_length. by eapply lookup_lt_Some. }
  assert (∃ c, sorted_new_to_old s !! j = Some c) as [c Hc].
  { apply lookup_lt_is_Some. by rewrite (perm_seq_length _ _ Hp). }
  pose proof (perm_seq_lookup _ _ _ _ Hp Hc) as Hclt.
  assert (elements s !! c = Some (elements s !!! c)) as Hec.
  { by apply list_lookup_lookup_total_lt. }
  exists c, (elements s !!! c). split; [done|]. split; [done|].
  split; [by eapply invert_lookup|].
  pose proof (Permute_lookup _ (elements s) _ _ Hc) as Hel.
  destruct (relink_all_spec (invert (sorted_new_to_old s)) _ _ _ Hel) as (e'' & He'' & Hrel).
  unfold reorder_step in Hj. cbn in Hj. rewrite He'' in Hj. injection Hj as <-.
  split; [done|]. unfold reorder_step. cbn. by apply Permute_lookup.
Qed.

Lemma relinked_leaf otn e e' : relinked otn e e' → IsLeaf e' = IsLeaf e.
Proof. intros (_ & _ & Hr & _). unfold IsLeaf. by rewrite Hr. Qed.

Lemma reorder_step_tree_ok parent_mesh attributes s :
  tree_ok parent_mesh attributes s → tree_ok parent_mesh attributes (reorder_step s).
Proof.
  intros [Hlen Hpar Hleaf Hinj].
  pose proof (sorted_new_to_old_perm s) as Hp.
  constructor.
  - rewrite reorder_step_length. unfold reorder_step. cbn.
    rewrite Permute_length. by apply perm_seq_length.
  - intros j e' Hj.
    destruct (reorder_step_element_new s j e' Hj) as (c & e & Hc & He & _ & Hrel & _).
    destruct Hrel as (_ & _ & _ & _ & Hpe & _).
    destruct (Hpar _ _ He) as [Hm|(H0 & q & Hq & Hl)].
    { left. rewrite Hpe, Hm. done. }
    right. assert (Z.to_nat (parent e) < length (elements s))%nat as Hqlt.
    { by eapply lookup_lt_Some. }
    destruct (reorder_step_element s _ Hqlt) as (jq & eq' & Hjq & _ & Heq' & Hrelq & _).
    rewrite (list_lookup_total_correct _ _ _ Hq) in Hrelq.
    assert (parent e' = Z.of_nat jq) as ->.
    { rewrite Hpe. destruct (Z.eqb_spec (parent e) (-1)); [lia|].
      unfold rd. by apply list_lookup_total_correct. }
    split; [lia|]. exists eq'. rewrite Nat2Z.id. split; [done|].
    by rewrite (relinked_leaf _ _ _ Hrelq).
  - intros j e' Hj Hl.
    destruct (reorder_step_element_new s j e' Hj) as (c & e & Hc & He & _ & Hrel & Hpe).
    rewrite (relinked_leaf _ _ _ Hrel) in Hl.
    destruct (Hleaf _ _ He Hl) as (j0 & face & Hj0 & Hface & Hlf).
    exists j0, face. rewrite Hpe, (list_lookup_total_correct _ _ _ Hj0).
    split; [done|]. split; [done|].
    destruct Hrel as (Hg & Ha & _ & Hx & _ & _ & Hleaf' & _).
    destruct (Hleaf' Hl) as [Hn Hr].
    by eapply leaf_of_face_ext.
  - intros k k' e1' e2' j Hk Hk' Hl Hl' Hj Hj'.
    destruct (reorder_step_element_new s k e1' Hk) as (c & e1 & Hc & He1 & _ & Hrel1 & Hpe1).
    destruct (reorder_step_element_new s k' e2' Hk') as (c' & e2 & Hc' & He2 & _ & Hrel2 & Hpe2).
    rewrite (relinked_leaf _ _ _ Hrel1) in Hl. rewrite (relinked_leaf _ _ _ Hrel2) in Hl'.
    rewrite Hpe1 in Hj. rewrite Hpe2 in Hj'. injection Hj as Hj. injection Hj' as Hj'.
    assert (c = c') as <-.
    { apply (Hinj c c' e1 e2 j); try done.
      - rewrite <- Hj. apply list_lookup_lookup_total_lt. rewrite Hlen.
        by eapply lookup_lt_Some.
      - rewrite <- Hj'. apply list_lookup_lookup_total_lt. rewrite Hlen.
        by eapply lookup_lt_Some. }
    eapply NoDup_lookup; [by eapply perm_seq_NoDup|done..].
Qed.

Lemma reorder_loop_tree_ok parent_mesh attributes fuel s s' k :
  tree_ok parent_mesh attributes s → reorder_loop fuel s = Some (s', k) →
  tree_ok parent_mesh attributes s'.
Proof.
  revert s s' k. induction fuel as [|fuel IH]; intros s s' k Hok; cbn.
  - destruct (parental_sorted s); [|done]. by intros [= <- _].
  - destruct (parental_sorted s); [by intros [= <- _]|].
    destruct (reorder_loop fuel (reorder_step s)) as [[s1 k1]|] eqn:E; [|done].
    intros [= <- _]. eapply IH; [|done]. by apply reorder_step_tree_ok.
Qed.

(** The state in which the reordering loop is entered. *)
Lemma registered_tree_ok parent_mesh Dim attributes indeterminate fuel :
  tree_ok parent_mesh attributes
    (set_new_nodes []
       (register_new_nodes 368 (discover parent_mesh Dim attributes indeterminate fuel).1)).
Proof.
  destruct (discover_tree_inv parent_mesh Dim attributes indeterminate fuel) as [j Hj].
  destruct (discover_inv_discover parent_mesh Dim attributes indeterminate fuel) as [j' Hj'].
  set (s0 := (discover parent_mesh Dim attributes indeterminate fuel).1) in *.
  destruct Hj as [Hlen Hmap Hpar Hleaf Hmono].
  destruct Hj' as [_ _ _ _ _ (Hn1 & Hn2 & Hn3) Hsorted _].
  destruct (register_nodes_frame 368 (new_nodes s0) s0) as (He & Hpe & _ & _).
  destruct (register_nodes_inv 368 (new_nodes s0) s0) as [_ Hids].
  { by apply node_maps_inv_empty. }
  { by apply StronglySorted_lt_NoDup. }
  { intros n _. rewrite Hn1. apply not_elem_of_nil. }
  rewrite Hn1 in Hids. cbn in Hids.
  unfold register_new_nodes. constructor; cbn; rewrite ?He, ?Hpe, ?Hids.
  - done.
  - done.
  - intros k e Hk Hl. destruct (Hleaf _ _ Hk Hl) as (j0 & face & ? & ? & ? & ?).
    by exists j0, face.
  - intros k k' e e' j0 Hk Hk' Hl Hl' Hj0 Hj0'.
    destruct (decide (k = k')) as [|Hne]; [done|]. exfalso.
    destruct (decide (k < k')%nat).
    + pose proof (Hmono k k' e e' j0 j0 ltac:(lia) Hk Hk' Hl Hl' Hj0 Hj0'). lia.
    + pose proof (Hmono k' k e' e j0 j0 ltac:(lia) Hk' Hk Hl' Hl Hj0' Hj0). lia.
Qed.

Lemma boundary_pass_tree_ok parent_mesh Dim attributes indeterminate fuel s sorts :
  boundary_pass parent_mesh Dim attributes indeterminate fuel = Some (s, sorts) →
  tree_ok parent_mesh attributes s.
Proof.
  unfold boundary_pass. intros Hpass.
  pose proof (registered_tree_ok parent_mesh Dim attributes indeterminate fuel) as Hok.
  destruct (discover _ _ _ _ _) as [s0 ok]. destruct ok; [|done].
  by eapply reorder_loop_tree_ok.
Qed.

(** X4.  The parent links of the boundary tree are well formed: after the
    discovery loop (however far the ascents got) and again after the
    reordering loop, the parent of every element is [-1] or the index of an
    existing element that is marked as refined. *)
Theorem X4_parent_links_wellformed (parent_mesh : ParNCMesh) (Dim : Z)
    (attributes indeterminate : list Z) (fuel : nat) :
  (∀ s finished k e,
     discover parent_mesh Dim attributes indeterminate fuel = (s, finished) →
     elements s !! k = Some e →
     parent e = -1 ∨
     (0 ≤ parent e ∧ ∃ p, elements s !! Z.to_nat (parent e) = Some p ∧ IsLeaf p = false)) ∧
  (∀ s sorts k e,
     boundary_pass parent_mesh Dim attributes indeterminate fuel = Some (s, sorts) →
     elements s !! k = Some e →
     parent e = -1 ∨
     (0 ≤ parent e ∧ ∃ p, elements s !! Z.to_nat (parent e) = Some p ∧ IsLeaf p = false)).
Proof.
  split.
  - intros s finished k e Hrun Hk.
    destruct (discover_tree_inv parent_mesh Dim attributes indeterminate fuel) as [j Hj].
    rewrite Hrun in Hj. exact (ti_parent _ _ _ _ Hj k e Hk).
  - intros s sorts k e Hrun Hk.
    exact (to_parent _ _ _ (boundary_pass_tree_ok _ _ _ _ _ _ _ Hrun) k e Hk).
Qed.

Lemma X4_parent_links_wellformed_witness :
  ∃ p, elements edge_tree_result !! Z.to_nat (parent (elements edge_tree_result !!! 8%nat))
       = Some p ∧ IsLeaf p = false.
Proof.
  assert (elements edge_tree_result !! 8%nat = Some (elements edge_tree_result !!! 8%nat)) as H8
    by (vm_compute; reflexivity).
  destruct (X4_parent_links_wellformed edge_tree_mesh 1 [1] [0; 0; 0; 0] 10) as [_ H].
  destruct (H edge_tree_result 2%nat 8%nat _ edge_tree_run H8) as [Hm|[_ Hp]].
  - exfalso. vm_compute in Hm. discriminate Hm.
  - exact Hp.
Defined.

(** X5.  When the boundary branch gets through its reordering loop, every
    leaf of the tree is the element of one parent face that was selected:
    its entry of [parent_element_ids_] is the slot of a used face with a
    requested attribute that is not a master, and the leaf carries the
    geometry of that face's node tuple (lines 221-222), the face's
    attribute, the rank computed by the lambda of lines 225-236 and the
    face's nodes (line 244).  Two different leaves never stand for the same
    face. *)
Theorem X5_leaves_are_selected_faces (parent_mesh : ParNCMesh) (Dim : Z)
    (attributes indeterminate : list Z) (fuel : nat) (s : NCState) (sorts : nat) :
  boundary_pass parent_mesh Dim attributes indeterminate fuel = Some (s, sorts) →
  (∀ k e, elements s !! k = Some e → IsLeaf e = true →
     ∃ j face,
       parent_element_ids_ s !! k = Some (Z.of_nat j) ∧
       p_faces parent_mesh !! j = Some face ∧
       unused face = false ∧
       HasAttribute (f_attribute face) attributes = true ∧
       GetMeshIdType parent_mesh (f_index face) ≠ MASTER ∧
       geom e = face_geom_from_nodes (FindFaceNodes parent_mesh face) ∧
       attribute e = f_attribute face ∧
       rank e = face_rank parent_mesh face ∧
       node e = take MaxFaceNodes (FindFaceNodes parent_mesh face) ++ replicate 6 (-1)) ∧
  (∀ k k' e e' j,
     elements s !! k = Some e → elements s !! k' = Some e' →
     IsLeaf e = true → IsLeaf e' = true →
     parent_element_ids_ s !! k = Some j → parent_element_ids_ s !! k' = Some j → k = k').
Proof.
  intros Hrun. pose proof (boundary_pass_tree_ok _ _ _ _ _ _ _ Hrun) as [Hlen Hpar Hleaf Hinj].
  split; [|done].
  intros k e Hk Hl. destruct (Hleaf k e Hk Hl) as (j & face & Hj & Hface & Hlf).
  exists j, face. destruct Hlf as (? & ? & ? & ? & ? & ? & ? & _).
  repeat split; done.
Qed.

Lemma X5_leaves_are_selected_faces_witness :
  ∃ j face,
    parent_element_ids_ edge_tree_result !! 8%nat = Some (Z.of_nat j) ∧
    p_faces edge_tree_mesh !! j = Some face ∧
    node (elements edge_tree_result !!! 8%nat)
      = take MaxFaceNodes (FindFaceNodes edge_tree_mesh face) ++ replicate 6 (-1).
Proof.
  assert (elements edge_tree_result !! 8%nat = Some (elements edge_tree_result !!! 8%nat)) as H8
    by (vm_compute; reflexivity).
  assert (IsLeaf (elements edge_tree_result !!! 8%nat) = true) as Hl
    by (vm_compute; reflexivity).
  destruct (X5_leaves_are_selected_faces edge_tree_mesh 1 [1] [0; 0; 0; 0] 10
              edge_tree_result 2%nat edge_tree_run) as [H _].
  destruct (H 8%nat _ H8 Hl) as (j & face & Hj & Hface & _ & _ & _ & _ & _ & _ & Hn).
  exists j, face. split; [exact Hj|]. split; [exact Hface|exact Hn].
Defined.

(** ** Every selected face is found in the map *)

Lemma map_keys_elem x m : x ∈ map_keys m ↔ ∃ kv, kv ∈ m ∧ sort_ints kv.1 = x.
Proof.
  unfold map_keys. rewrite list_elem_of_fmap. split; intros (kv & H1 & H2); exists kv; done.
Qed.

Lemma map_find_key_elem fn m : map_find fn m ≠ None → sort_ints fn ∈ map_keys m.
Proof.
  intros Hfind. destruct (decide (sort_ints fn ∈ map_keys m)) as [|Hn]; [done|].
  by apply map_find_None in Hn.
Qed.

Lemma map_emplace_keys fn v m x :
  x ∈ map_keys m ∨ x = sort_ints fn → x ∈ map_keys (map_emplace fn v m).
Proof.
  unfold map_emplace. destruct (map_find fn m) eqn:Hfind.
  - intros [?| ->]; [done|]. apply map_find_key_elem. by rewrite Hfind.
  - unfold map_keys. rewrite fmap_app, elem_of_app. cbn.
    rewrite list_elem_of_singleton. done.
Qed.

Lemma map_erase_keys key m x :
  x ∈ map_keys m → x ≠ sort_ints key → x ∈ map_keys (map_erase key m).
Proof.
  rewrite !map_keys_elem. intros (kv & Hin & Hx) Hne. exists kv. split; [|done].
  unfold map_erase. apply list_elem_of_In, filter_In. split; [by apply list_elem_of_In|].
  apply negb_true_iff. destruct (FaceNodes_equiv key kv.1) eqn:E; [|done].
  apply FaceNodes_equiv_spec in E. congruence.
Qed.

Lemma map_assign_keys fn v m x :
  x ∈ map_keys m ∨ x = sort_ints fn → x ∈ map_keys (map_assign fn v m).
Proof.
  unfold map_assign. destruct (map_find fn m) eqn:Hfind.
  - assert (map_keys (List.map (λ kv : list Z * Z,
                                  if FaceNodes_equiv fn kv.1 then (kv.1, v) else kv) m)
            = map_keys m) as ->.
    { unfold map_keys. clear Hfind. induction m as [|kv m IH]; [done|]. cbn.
      rewrite IH. by destruct (FaceNodes_equiv fn kv.1). }
    intros [?| ->]; [done|]. apply map_find_key_elem. by rewrite Hfind.
  - unfold map_keys. rewrite fmap_app, elem_of_app. cbn.
    rewrite list_elem_of_singleton. done.
Qed.

Section DiscoverKeys.

Variable parent_mesh : ParNCMesh.
Variable Dim : Z.
Variable attributes : list Z.
Variable indeterminate : list Z.

Lemma ascend_keys fuel attr g ft fn n s x :
  x ∈ map_keys (pnodes_new_elem s) →
  x ∈ map_keys (pnodes_new_elem
                  (ascend parent_mesh Dim indeterminate fuel attr g ft fn n s).1).
Proof.
  revert fn n s. induction fuel as [|fuel IH]; intros fn n s Hx; [done|].
  cbn [ascend]. destruct (ParentFaceNodes parent_mesh fn) as [child_slot fn'].
  destruct (child_slot =? -1); [done|].
  destruct (map_find fn' (pnodes_new_elem s)) as [[key p]|] eqn:Hfind.
  - match goal with |- context [if ?c then _ else _] => destruct c end; [|done].
    apply IH. cbn. destruct (map_find_key _ _ _ _ Hfind) as [Hsort _].
    apply map_emplace_keys. destruct (decide (x = sort_ints fn')) as [|Hne]; [by right|].
    left. apply map_erase_keys; [done|]. by rewrite Hsort.
  - cbn [AddElement]. apply IH. cbn. apply map_emplace_keys. by left.
Qed.

Lemma visit_face_keys fuel i face s :
  let s' := (visit_face parent_mesh Dim attributes indeterminate fuel i face s).1 in
  (∀ x, x ∈ map_keys (pnodes_new_elem s) → x ∈ map_keys (pnodes_new_elem s')) ∧
  (HasAttribute (f_attribute face) attributes = true →
   GetMeshIdType parent_mesh (f_index face) ≠ MASTER →
   sort_ints (FindFaceNodes parent_mesh face) ∈ map_keys (pnodes_new_elem s')).
Proof.
  unfold visit_face.
  destruct (negb (HasAttribute (f_attribute face) attributes)
            || bool_decide (GetMeshIdType parent_mesh (f_index face) = MASTER)) eqn:Hsel.
  { split; [done|]. intros Ha Hm. exfalso. rewrite Ha in Hsel. cbn in Hsel.
    by apply bool_decide_eq_true in Hsel. }
  destruct (map_find _ (pnodes_new_elem s)) eqn:Hfind.
  { split; [done|]. intros _ _. apply map_find_key_elem. cbn [fst]. by rewrite Hfind. }
  cbn [AddElement]. split.
  - intros x Hx. apply ascend_keys. cbn. apply map_assign_keys. by left.
  - intros _ _. apply ascend_keys. cbn. apply map_assign_keys. by right.
Qed.

Lemma face_loop_keys fuel slots i ipe s :
  ipe + Z.of_nat (length (List.filter (λ f, negb (unused f)) slots)) ≤ faces_Size parent_mesh →
  let s' := (face_loop parent_mesh Dim attributes indeterminate fuel slots i ipe s).1 in
  (∀ x, x ∈ map_keys (pnodes_new_elem s) → x ∈ map_keys (pnodes_new_elem s')) ∧
  (∀ face, face ∈ slots → unused face = false →
           HasAttribute (f_attribute face) attributes = true →
           GetMeshIdType parent_mesh (f_index face) ≠ MASTER →
           sort_ints (FindFaceNodes parent_mesh face) ∈ map_keys (pnodes_new_elem s')).
Proof.
  revert i ipe s. induction slots as [|face slots IH]; intros i ipe s Hcount; cbn.
  { split; [done|]. intros face Hin. by apply elem_of_nil in Hin. }
  cbn in Hcount. destruct (unused face) eqn:Hused; cbn in Hcount.
  - destruct (ipe <? faces_Size parent_mesh) eqn:Hlt.
    + destruct (IH (i + 1) ipe s Hcount) as [IH1 IH2]. split; [done|].
      intros f Hin Hu. apply elem_of_cons in Hin as [->|Hin]; [congruence|].
      by apply IH2.
    + split; [done|]. intros f Hin Hu. exfalso.
      apply elem_of_cons in Hin as [->|Hin]; [congruence|].
      apply Z.ltb_ge in Hlt.
      assert (0 < length (List.filter (λ f, negb (unused f)) slots))%nat; [|lia].
      assert (f ∈ List.filter (λ f, negb (unused f)) slots) as Hf.
      { apply list_elem_of_In, filter_In. split; [by apply list_elem_of_In|].
        by rewrite Hu. }
      destruct (List.filter _ slots); [by apply elem_of_nil in Hf|cbn; lia].
  - destruct (ipe <? faces_Size parent_mesh) eqn:Hlt; [|apply Z.ltb_ge in Hlt; lia].
    destruct (visit_face_keys fuel i face s) as [V1 V2].
    destruct (visit_face _ _ _ _ _ _ _ _) as [s1 ok1]. cbn in V1, V2.
    destruct (IH (i + 1) (ipe + 1) s1 ltac:(lia)) as [IH1 IH2].
    destruct (face_loop _ _ _ _ _ _ _ _ _) as [s2 ok2]. cbn in *.
    split; [by auto|].
    intros f Hin Hu Ha Hm. apply elem_of_cons in Hin as [->|Hin]; [|by apply IH2].
    apply IH1. by apply V2.
Qed.

End DiscoverKeys.

(** X6.  Let [faces.Size()] be the number of used slots of the parent's
    face table.  After the discovery loop, every used parent face with a
    requested attribute that is not a master is found in [pnodes_new_elem]:
    the look-up with its node tuple gives an entry whose key is a
    rearrangement of the tuple and whose value is the index of an existing
    element. *)
Theorem X6_selected_faces_have_elements (parent_mesh : ParNCMesh) (Dim : Z)
    (attributes indeterminate : list Z) (fuel : nat) (s : NCState) (finished : bool)
    (face : Face) :
  faces_Size parent_mesh
    = Z.of_nat (length (List.filter (λ f, negb (unused f)) (p_faces parent_mesh))) →
  discover parent_mesh Dim attributes indeterminate fuel = (s, finished) →
  face ∈ p_faces parent_mesh → unused face = false →
  HasAttribute (f_attribute face) attributes = true →
  GetMeshIdType parent_mesh (f_index face) ≠ MASTER →
  ∃ key v, map_find (FindFaceNodes parent_mesh face) (pnodes_new_elem s) = Some (key, v) ∧
           key ≡ₚ FindFaceNodes parent_mesh face ∧
           0 ≤ v < Z.of_nat (length (elements s)).
Proof.
  intros Hsize Hrun Hin Hu Ha Hm.
  destruct (discover_tree_inv parent_mesh Dim attributes indeterminate fuel) as [j Hj].
  rewrite Hrun in Hj. cbn in Hj.
  assert (sort_ints (FindFaceNodes parent_mesh face) ∈ map_keys (pnodes_new_elem s)) as Hkey.
  { revert Hrun. unfold discover.
    destruct (face_loop_keys parent_mesh Dim attributes indeterminate fuel
                (p_faces parent_mesh) 0 0 init_state ltac:(lia)) as [_ Hk].
    destruct (face_loop _ _ _ _ _ _ _ _ _) as [s0 ok]. intros [= <- _]. cbn in *.
    by apply Hk. }
  destruct (map_find (FindFaceNodes parent_mesh face) (pnodes_new_elem s))
    as [[key v]|] eqn:Hfind.
  2:{ apply map_find_None in Hfind. done. }
  exists key, v. split; [done|].
  destruct (map_find_key _ _ _ _ Hfind) as [Hsort Hkv].
  split; [by apply sort_ints_perm_eq|].
  exact (ti_map _ _ _ _ Hj _ Hkv).
Qed.

Lemma X6_selected_faces_have_elements_witness :
  ∃ key v, map_find [3; 3; 2; 2] (pnodes_new_elem edge_tree_discovery) = Some (key, v) ∧
           key ≡ₚ [3; 3; 2; 2] ∧ 0 ≤ v < Z.of_nat (length (elements edge_tree_discovery)).
Proof.
  assert (discover edge_tree_mesh 1 [1] [0; 0; 0; 0] 10 = (edge_tree_discovery, true)) as Hrun
    by (vm_compute; reflexivity).
  assert (faces_Size edge_tree_mesh
          = Z.of_nat (length (List.filter (λ f, negb (unused f)) (p_faces edge_tree_mesh))))
    as Hsize by (vm_compute; reflexivity).
  assert (mkFace false 1 2 2 (-1) ∈ p_faces edge_tree_mesh) as Hin.
  { apply (list_elem_of_lookup_2 _ 2%nat). vm_compute. reflexivity. }
  assert (GetMeshIdType edge_tree_mesh (f_index (mkFace false 1 2 2 (-1))) ≠ MASTER) as Hm.
  { vm_compute. discriminate. }
  assert (HasAttribute (f_attribute (mkFace false 1 2 2 (-1))) [1] = true) as Ha.
  { apply bool_decide_eq_true. cbn. left. }
  exact (X6_selected_faces_have_elements edge_tree_mesh 1 [1] [0; 0; 0; 0] 10
           edge_tree_discovery true (mkFace false 1 2 2 (-1)) Hsize Hrun Hin eq_refl Ha Hm).
Defined.

(** ** Nothing selected *)

Lemma face_loop_nothing_selected parent_mesh Dim attributes indeterminate fuel slots i ipe s :
  (∀ face, face ∈ slots → unused face = false →
           HasAttribute (f_attribute face) attributes = false ∨
           GetMeshIdType parent_mesh (f_index face) = MASTER) →
  face_loop parent_mesh Dim attributes indeterminate fuel slots i ipe s = (s, true).
Proof.
  revert i ipe. induction slots as [|face slots IH]; intros i ipe Hnone; cbn; [done|].
  destruct (ipe <? faces_Size parent_mesh); [|done].
  assert (∀ i ipe, face_loop parent_mesh Dim attributes indeterminate fuel slots i ipe s
                   = (s, true)) as IH'.
  { intros i' ipe'. apply IH. intros f Hf. apply Hnone. by right. }
  destruct (unused face) eqn:Hu; [apply IH'|].
  assert (visit_face parent_mesh Dim attributes indeterminate fuel i face s = (s, true)) as ->.
  { unfold visit_face. destruct (Hnone face ltac:(left) Hu) as [-> | ->]; [done|].
    rewrite bool_decide_eq_true_2 by done. by rewrite orb_true_r. }
  by rewrite IH'.
Qed.

Lemma first_walk_nothing_selected parent_mesh attributes G :
  (∀ pe, pe ∈ p_elements parent_mesh → HasAttribute (attribute pe) attributes = false) →
  first_walk parent_mesh attributes G init_state = init_state.
Proof.
  intros Hnone. unfold first_walk.
  apply (foldl_seq_inv (λ _ s, s = init_state)); [done|].
  intros ipe s Hlt ->. unfold copy_element.
  assert (p_elements parent_mesh !!! ipe ∈ p_elements parent_mesh) as Hpe.
  { apply list_elem_of_lookup_total_2. lia. }
  by rewrite (Hnone _ Hpe).
Qed.

Lemma bind_vertex_frame parent_mesh ParentVertexIDMap s iv :
  elements (bind_vertex parent_mesh ParentVertexIDMap s iv) = elements s ∧
  parent_element_ids_ (bind_vertex parent_mesh ParentVertexIDMap s iv)
    = parent_element_ids_ s.
Proof. unfold bind_vertex. by destruct (Get _ _) as [[??]?]. Qed.

(** X7.  When no used face of the parent carries a requested attribute
    without being a master, the boundary branch leaves the loops of lines
    201-479 with an empty submesh, without sorting and whatever the bound on
    the ascents; when no parent element carries a requested attribute, the
    domain branch completes with an empty submesh. *)
Theorem X7_nothing_selected (parent_mesh : ParNCMesh) (attributes : list Z) :
  ((∀ face, face ∈ p_faces parent_mesh → unused face = false →
            HasAttribute (f_attribute face) attributes = false ∨
            GetMeshIdType parent_mesh (f_index face) = MASTER) →
   ∀ Dim indeterminate fuel,
     boundary_pass parent_mesh Dim attributes indeterminate fuel
     = Some (MFEM_ASSERT 348 true init_state, 0%nat)) ∧
  ((∀ pe, pe ∈ p_elements parent_mesh → HasAttribute (attribute pe) attributes = false) →
   ∀ GetSubMeshElementFromParent ParentVertexIDMap ref_type_num_children s completed,
     domain_pass parent_mesh attributes GetSubMeshElementFromParent ParentVertexIDMap
                 ref_type_num_children = (s, completed) →
     completed = true ∧ elements s = [] ∧ parent_element_ids_ s = [] ∧
     parent_to_submesh_element_ids_ s = ∅).
Proof.
  split.
  - intros Hnone Dim indeterminate fuel. unfold boundary_pass, discover.
    rewrite face_loop_nothing_selected by done. cbn. by destruct fuel.
  - intros Hnone G V R s completed. unfold domain_pass.
    rewrite first_walk_nothing_selected by done.
    unfold register_new_nodes. cbn [new_nodes init_state foldl].
    set (s1 := foldl (bind_vertex parent_mesh V) init_state (seq 0 (length V))).
    assert (elements s1 = [] ∧ parent_element_ids_ s1 = [] ∧
            parent_to_submesh_element_ids_ s1 = ∅) as (He & Hpe & Hm).
    { unfold s1. apply (foldl_preserves
        (λ s, elements s = [] ∧ parent_element_ids_ s = [] ∧
              parent_to_submesh_element_ids_ s = ∅)); [|done].
      intros s0 iv (H1 & H2 & H3). unfold bind_vertex.
      by destruct (Get _ _) as [[??]?]. }
    rewrite He. cbn. intros [= <- <-]. done.
Qed.

Lemma X7_nothing_selected_witness :
  boundary_pass edge_tree_mesh 1 [2] [0; 0; 0; 0] 10
  = Some (MFEM_ASSERT 348 true init_state, 0%nat).
Proof.
  destruct (X7_nothing_selected edge_tree_mesh [2]) as [H _].
  apply H. intros face Hin _. left.
  apply list_elem_of_fmap in Hin as (i & -> & _). apply bool_decide_eq_false.
  cbn. intros Hin. apply elem_of_cons in Hin as [Hin|Hin]; [discriminate Hin|].
  by apply elem_of_nil in Hin.
Defined.

(** ** Slots the reordering of the children never writes *)

Lemma find_seq_first (p : nat → bool) a n i :
  List.find p (seq a n) = Some i →
  p i = true ∧ ∀ j, (a ≤ j < i)%nat → p j = false.
Proof.
  revert a. induction n as [|n IH]; intros a; cbn; [done|].
  destruct (p a) eqn:Hp.
  - intros [= <-]. split; [done|]. intros; lia.
  - intros Hfind. destruct (IH _ Hfind) as [H1 H2]. split; [done|].
    intros j Hj. destruct (decide (j = a)) as [->|]; [done|]. apply H2. lia.
Qed.

(** X8.  The reordering of the child slots of a wired parent (lines
    320-327) stops at the first position of the stored key that holds the
    node looked for, so a slot whose node repeats an earlier node of the
    stored key is never written: it is copied back with the content the
    uninitialised local array had.  On a segment face, stored as
    [(a,a,b,b)], these are the slots 1 and 3. *)
Theorem X8_reorder_children_unwritten (fn key old_child local : list Z) :
  length local = MaxFaceNodes →
  (∀ i2 i2', (i2' < i2 < MaxFaceNodes)%nat →
             rd key (Z.of_nat i2') = rd key (Z.of_nat i2) →
             reorder_children fn key old_child local !! i2 = local !! i2) ∧
  (face_geom_from_nodes key = SEGMENT →
   reorder_children fn key old_child local !! 1%nat = local !! 1%nat ∧
   reorder_children fn key old_child local !! 3%nat = local !! 3%nat).
Proof.
  intros Hlen.
  assert (∀ i2 i2', (i2' < i2 < MaxFaceNodes)%nat →
             rd key (Z.of_nat i2') = rd key (Z.of_nat i2) →
             reorder_children fn key old_child local !! i2 = local !! i2) as Hgen.
  { intros i2 i2' Hlt Hdup. unfold reorder_children, reorder_child_local.
    rewrite lookup_app_l.
    2:{ rewrite length_take.
        rewrite (foldl_scatter_length
                   (λ i1, List.find (λ i2, rd fn (Z.of_nat i1) =? rd key (Z.of_nat i2))
                                    (seq 0 MaxFaceNodes))
                   (λ i1, rd old_child (Z.of_nat i1))).
        rewrite Hlen. unfold MaxFaceNodes in *. lia. }
    rewrite lookup_take_lt by lia.
    apply (foldl_scatter_untouched
             (λ i1, List.find (λ i2, rd fn (Z.of_nat i1) =? rd key (Z.of_nat i2))
                              (seq 0 MaxFaceNodes))
             (λ i1, rd old_child (Z.of_nat i1))).
    intros i1 _ Hfind. apply find_seq_first in Hfind as [Hp Hfirst].
    specialize (Hfirst i2' ltac:(lia)). cbn in Hp, Hfirst.
    apply Z.eqb_eq in Hp. apply Z.eqb_neq in Hfirst. congruence. }
  split; [done|]. intros Hseg. unfold face_geom_from_nodes in Hseg.
  destruct (rd key 3 =? -1); [done|].
  destruct ((rd key 0 =? rd key 1) && (rd key 2 =? rd key 3)) eqn:E; [|done].
  apply andb_true_iff in E as [E1 E2]. apply Z.eqb_eq in E1, E2. split.
  - apply (Hgen 1%nat 0%nat); [unfold MaxFaceNodes; lia|done].
  - apply (Hgen 3%nat 2%nat); [unfold MaxFaceNodes; lia|done].
Qed.

Lemma X8_reorder_children_unwritten_witness :
  reorder_children [7; 7; 4; 4] [4; 4; 7; 7] [10; 11; -1; -1; -1; -1; -1; -1; -1; -1]
                   [90; 91; 92; 93] !! 1%nat = Some 91.
Proof.
  destruct (X8_reorder_children_unwritten [7; 7; 4; 4] [4; 4; 7; 7]
              [10; 11; -1; -1; -1; -1; -1; -1; -1; -1] [90; 91; 92; 93] eq_refl) as [_ H].
  destruct (H eq_refl) as [H1 _]. exact H1.
Defined.

(** ** The assertions recorded by the boundary branch *)

Lemma asserts_added_refl Q s s' : asserts s' = asserts s → asserts_added Q s s'.
Proof. intros Heq. exists []. by rewrite app_nil_r. Qed.

Lemma asserts_added_trans Q s1 s2 s3 :
  asserts_added Q s1 s2 → asserts_added Q s2 s3 → asserts_added Q s1 s3.
Proof.
  intros (e1 & H1 & F1) (e2 & H2 & F2). exists (e1 ++ e2).
  split; [by rewrite H2, H1, app_assoc|]. by apply Forall_app.
Qed.

Lemma asserts_added_one (Q : Z * bool → Prop) s s' line b :
  asserts s' = asserts s ++ [(line, b)] → Q (line, b) → asserts_added Q s s'.
Proof. intros Heq HQ. exists [(line, b)]. split; [done|]. by constructor. Qed.

Lemma asserts_added_impl (Q Q' : Z * bool → Prop) s s' :
  (∀ a, Q a → Q' a) → asserts_added Q s s' → asserts_added Q' s s'.
Proof. intros Himpl (e & H & F). exists e. split; [done|]. by eapply Forall_impl. Qed.

Lemma asserts_added_elem Q s s' a :
  asserts_added Q s s' → a ∈ asserts s' → a ∈ asserts s ∨ Q a.
Proof.
  intros (e & H & F) Ha. rewrite H in Ha. apply elem_of_app in Ha as [?|Ha]; [by left|].
  right. by eapply Forall_forall in F.
Qed.

Lemma asserts_added_foldl {B} Q (f : NCState → B → NCState) (l : list B) s :
  (∀ s b, asserts_added Q s (f s b)) → asserts_added Q s (foldl f s l).
Proof.
  intros Hf. revert s. induction l as [|b l IH]; intros s; cbn.
  - by apply asserts_added_refl.
  - eapply asserts_added_trans; [apply Hf|apply IH].
Qed.

Lemma ascend_asserts parent_mesh Dim indeterminate fuel attr g ft fn n s :
  asserts (ascend parent_mesh Dim indeterminate fuel attr g ft fn n s).1 = asserts s.
Proof.
  revert fn n s. induction fuel as [|fuel IH]; intros fn n s; [done|].
  cbn [ascend]. destruct (ParentFaceNodes parent_mesh fn) as [child_slot fn'].
  destruct (child_slot =? -1); [done|].
  destruct (map_find fn' (pnodes_new_elem s)) as [[key p]|].
  - match goal with |- context [if ?c then _ else _] => destruct c end; [|done].
    rewrite IH. unfold fix_parent_elem. done.
  - cbn [AddElement]. by rewrite IH.
Qed.

Lemma face_loop_asserts parent_mesh Dim attributes indeterminate fuel slots i ipe s :
  asserts_added (λ a, a.1 = 218) s
    (face_loop parent_mesh Dim attributes indeterminate fuel slots i ipe s).1.
Proof.
  revert i ipe s. induction slots as [|face slots IH]; intros i ipe s; cbn.
  { by apply asserts_added_refl. }
  destruct (ipe <? faces_Size parent_mesh); [|by apply asserts_added_refl].
  destruct (unused face); [apply IH|].
  assert (asserts_added (λ a, a.1 = 218) s
            (visit_face parent_mesh Dim attributes indeterminate fuel i face s).1) as Hv.
  { unfold visit_face.
    match goal with |- context [if ?c then _ else _] => destruct c end;
      [by apply asserts_added_refl|].
    destruct (map_find _ _); [by apply asserts_added_refl|].
    cbn [AddElement]. eapply asserts_added_one; [|done].
    by rewrite ascend_asserts. }
  destruct (visit_face _ _ _ _ _ _ _ _) as [s1 ok1]. cbn in Hv.
  specialize (IH (i + 1) (ipe + 1) s1).
  destruct (face_loop _ _ _ _ _ _ _ _ _) as [s2 ok2]. cbn in *.
  by eapply asserts_added_trans.
Qed.

Lemma reorder_loop_asserts fuel s s' k :
  reorder_loop fuel s = Some (s', k) → asserts s' = asserts s.
Proof.
  revert s k. induction fuel as [|fuel IH]; intros s k; cbn.
  - destruct (parental_sorted s); [|done]. by intros [= <- _].
  - destruct (parental_sorted s); [by intros [= <- _]|].
    destruct (reorder_loop fuel (reorder_step s)) as [[s1 k1]|] eqn:E1; [|done].
    intros [= <- _]. by rewrite (IH _ _ E1).
Qed.

(** Registration of nodes that are pairwise distinct and not yet known finds
    every one of them new. *)
Lemma register_nodes_asserts line ns s :
  node_maps_inv s → NoDup ns → (∀ n, n ∈ ns → n ∉ parent_node_ids_ s) →
  asserts (foldl (register_node line) s ns) = asserts s ++ replicate (length ns) (line, true).
Proof.
  revert s. induction ns as [|n ns IH]; intros s Hinv Hnd Hfresh; cbn.
  - by rewrite app_nil_r.
  - apply NoDup_cons in Hnd as [Hn Hnd].
    destruct (register_node_inv line s n Hinv) as [Hinv' Hpni]; [apply Hfresh; set_solver|].
    rewrite IH; [|done|done|].
    + assert (asserts (register_node line s n) = asserts s ++ [(line, true)]) as ->.
      { unfold register_node. destruct Hinv as [Hreg _].
        assert (idx (node_ids s) !! n = None) as Hnone.
        { apply (registry_inv_lookup _ _ n Hreg). apply Hfresh. set_solver. }
        unfold Get. by rewrite Hnone. }
      by rewrite <- app_assoc.
    + intros m Hm. rewrite Hpni. intros [?| ->%list_elem_of_singleton]%elem_of_app.
      * eapply Hfresh; [|done]. set_solver.
      * done.
Qed.

(** The state at the end of the reordering loop: the node maps, the order
    of the nodes and the assertions recorded so far. *)
Lemma boundary_pass_nodes parent_mesh Dim attributes indeterminate fuel s sorts :
  boundary_pass parent_mesh Dim attributes indeterminate fuel = Some (s, sorts) →
  node_maps_inv s ∧ StronglySorted Z.lt (parent_node_ids_ s) ∧
  asserts_added (λ a, a.1 = 218 ∨ a = (348, true) ∨ a = (368, true)) init_state s.
Proof.
  unfold boundary_pass. intros Hpass.
  destruct (discover_inv_discover parent_mesh Dim attributes indeterminate fuel) as [j Hj].
  assert (asserts_added (λ a, a.1 = 218 ∨ a = (348, true) ∨ a = (368, true)) init_state
            (discover parent_mesh Dim attributes indeterminate fuel).1) as Ha.
  { unfold discover.
    pose proof (face_loop_asserts parent_mesh Dim attributes indeterminate fuel
                  (p_faces parent_mesh) 0 0 init_state) as Hf.
    destruct (face_loop_inv parent_mesh Dim attributes indeterminate fuel
                (p_faces parent_mesh) 0 0 init_state ltac:(lia)
                (discover_inv_init)) as [j' Hj'].
    destruct (face_loop _ _ _ _ _ _ _ _ _) as [s0 ok]. cbn in *.
    eapply asserts_added_trans.
    - eapply asserts_added_impl; [|exact Hf]. intros a ?. by left.
    - eapply asserts_added_one; [done|]. right. left. f_equal.
      apply bool_decide_eq_true. apply Hj'. }
  destruct (discover _ _ _ _ _) as [s0 ok]. destruct ok; [|done]. cbn in Hj, Ha.
  destruct Hj as [H1 H2 H3 Hk Hl (H4a & H4b & H4c) H5 H6].
  destruct (register_nodes_frame 368 (new_nodes s0) s0) as (He & Hpe & Hm & _).
  assert (node_maps_inv s0) as Hinv0 by (by apply node_maps_inv_empty).
  assert (∀ n, n ∈ new_nodes s0 → n ∉ parent_node_ids_ s0) as Hfresh.
  { intros n _. rewrite H4a. apply not_elem_of_nil. }
  pose proof (StronglySorted_lt_NoDup _ H5) as Hnd.
  destruct (register_nodes_inv 368 (new_nodes s0) s0 Hinv0 Hnd Hfresh) as [Hinv Hids].
  pose proof (register_nodes_asserts 368 (new_nodes s0) s0 Hinv0 Hnd Hfresh) as Hasserts.
  destruct (reorder_loop_node_maps _ _ _ _ Hpass) as (Hn1 & Hn2 & Hn3).
  pose proof (reorder_loop_asserts _ _ _ _ Hpass) as Hn4. cbn in Hn1, Hn2, Hn3, Hn4.
  split; [|split].
  - eapply (node_maps_inv_frame (register_new_nodes 368 s0)); try done.
  - rewrite Hn1. unfold register_new_nodes. rewrite Hids, H4a. done.
  - eapply asserts_added_trans; [exact Ha|].
    exists (replicate (length (new_nodes s0)) (368, true)). split.
    + rewrite Hn4. unfold register_new_nodes. by rewrite Hasserts.
    + apply Forall_replicate. by right; right.
Qed.

Lemma StronglySorted_lookup_lt (l : list Z) j k n m :
  StronglySorted Z.lt l → (j < k)%nat → l !! j = Some n → l !! k = Some m → n < m.
Proof.
  intros Hs. revert j k. induction Hs as [|x l Hs IH Hall]; intros j k Hjk Hj Hk.
  { done. }
  destruct k as [|k]; [lia|]. cbn in Hk. destruct j as [|j].
  - injection Hj as <-. rewrite Forall_forall in Hall. apply Hall.
    by eapply list_elem_of_lookup_2.
  - cbn in Hj. apply (IH j k); [lia|done..].
Qed.

(** X9.  The boundary branch registers the collected nodes in ascending
    order of their parent ids (lines 361-372): when it gets through the
    reordering loop, [parent_node_ids_] is strictly increasing, so the
    submesh numbers the nodes in the order of the parent mesh; the registry
    has handed out one id per entry, and every assertion recorded so far
    was one of line 218 or held (those of lines 348 and 368). *)
Theorem X9_boundary_nodes_ascending (parent_mesh : ParNCMesh) (Dim : Z)
    (attributes indeterminate : list Z) (fuel : nat) (s : NCState) (sorts : nat) :
  boundary_pass parent_mesh Dim attributes indeterminate fuel = Some (s, sorts) →
  (∀ j k n m, (j < k)%nat → parent_node_ids_ s !! j = Some n →
              parent_node_ids_ s !! k = Some m → n < m) ∧
  counter (node_ids s) = Z.of_nat (length (parent_node_ids_ s)) ∧
  (∀ line b, (line, b) ∈ asserts s → line = 218 ∨ (line = 348 ∨ line = 368) ∧ b = true).
Proof.
  intros Hrun.
  destruct (boundary_pass_nodes _ _ _ _ _ _ _ Hrun) as ([(Hc & _) _] & Hsorted & Ha).
  split; [|split; [done|]].
  - intros j k n m Hjk Hj Hk. by eapply (StronglySorted_lookup_lt _ j k).
  - intros line b Hin. destruct (asserts_added_elem _ _ _ _ Ha Hin) as [Hi|[H|[H|H]]].
    + by apply elem_of_nil in Hi.
    + by left.
    + injection H as -> ->. right. split; [by left|done].
    + injection H as -> ->. right. split; [by right|done].
Qed.

Lemma X9_boundary_nodes_ascending_witness :
  counter (node_ids edge_tree_result) = Z.of_nat (length (parent_node_ids_ edge_tree_result)).
Proof.
  destruct (X9_boundary_nodes_ascending edge_tree_mesh 1 [1] [0; 0; 0; 0] 10
              edge_tree_result 2%nat edge_tree_run) as (_ & H & _).
  exact H.
Defined.

(** ** Signing in the leaves *)

Section SignIn.

Variable parent_mesh : ParNCMesh.

Lemma sign_in_edges_known k es s :
  (∀ ed, ed ∈ es →
         is_Some (idx (node_ids s)
                    !! nodes_FindId parent_mesh (rd (node (elements s !!! k)) ed.1)
                                    (rd (node (elements s !!! k)) ed.2))) →
  let s' := foldl (sign_in_edge parent_mesh k) s es in
  elements s' = elements s ∧ node_ids s' = node_ids s ∧
  parent_element_ids_ s' = parent_element_ids_ s ∧
  parent_node_ids_ s' = parent_node_ids_ s ∧
  parent_to_submesh_node_ids_ s' = parent_to_submesh_node_ids_ s ∧
  parent_to_submesh_element_ids_ s' = parent_to_submesh_element_ids_ s ∧
  asserts_added (λ a, a.1 = 493 ∨ a = (495, true)) s s'.
Proof.
  revert s. induction es as [|ed es IH]; intros s Hknown; cbn.
  { repeat split; try done. by apply asserts_added_refl. }
  set (pid := nodes_FindId parent_mesh (rd (node (elements s !!! k)) ed.1)
                (rd (node (elements s !!! k)) ed.2)).
  assert (sign_in_edge parent_mesh k s ed
          = MFEM_ASSERT 495 true (MFEM_ASSERT 493 (0 <=? pid) s)) as Hstep.
  { unfold sign_in_edge. fold pid. cbn [node_ids MFEM_ASSERT].
    destruct (Hknown ed ltac:(left)) as [v Hv]. fold pid in Hv.
    unfold Get. rewrite Hv. by destruct s. }
  rewrite Hstep. destruct (IH (MFEM_ASSERT 495 true (MFEM_ASSERT 493 (0 <=? pid) s)))
    as (H1 & H2 & H3 & H4 & H5 & H6 & H7).
  { intros ed' Hin. cbn. apply Hknown. by right. }
  rewrite H1, H2, H3, H4, H5, H6. repeat split; try done.
  eapply asserts_added_trans; [|exact H7].
  exists [(493, 0 <=? pid); (495, true)]. split.
  - cbn. by rewrite <- app_assoc.
  - constructor; [by left|]. constructor; [by right|done].
Qed.

(** What the edge loop does in any case. *)
Lemma sign_in_edges_frame k es s :
  let s' := foldl (sign_in_edge parent_mesh k) s es in
  elements s' = elements s ∧
  parent_element_ids_ s' = parent_element_ids_ s ∧
  parent_node_ids_ s' = parent_node_ids_ s ∧
  parent_to_submesh_node_ids_ s' = parent_to_submesh_node_ids_ s ∧
  parent_to_submesh_element_ids_ s' = parent_to_submesh_element_ids_ s.
Proof.
  apply (foldl_preserves
    (λ s', elements s' = elements s ∧
           parent_element_ids_ s' = parent_element_ids_ s ∧
           parent_node_ids_ s' = parent_node_ids_ s ∧
           parent_to_submesh_node_ids_ s' = parent_to_submesh_node_ids_ s ∧
           parent_to_submesh_element_ids_ s' = parent_to_submesh_element_ids_ s)); [|done].
  intros s0 ed (H1 & H2 & H3 & H4 & H5). unfold sign_in_edge.
  destruct (Get _ _) as [[??]?]. cbn. done.
Qed.

(** What the vertex loop does in any case. *)
Lemma relabel_leaf_vertices_frame k ns s :
  let s' := foldl (relabel_leaf_vertex k) s ns in
  node_ids s' = node_ids s ∧
  parent_element_ids_ s' = parent_element_ids_ s ∧
  parent_node_ids_ s' = parent_node_ids_ s ∧
  parent_to_submesh_element_ids_ s' = parent_to_submesh_element_ids_ s ∧
  length (elements s') = length (elements s) ∧
  (∀ j, j ≠ k → elements s' !! j = elements s !! j) ∧
  asserts_added (λ a, a.1 = 500) s s'.
Proof.
  apply (foldl_preserves
    (λ s', node_ids s' = node_ids s ∧
           parent_element_ids_ s' = parent_element_ids_ s ∧
           parent_node_ids_ s' = parent_node_ids_ s ∧
           parent_to_submesh_element_ids_ s' = parent_to_submesh_element_ids_ s ∧
           length (elements s') = length (elements s) ∧
           (∀ j, j ≠ k → elements s' !! j = elements s !! j) ∧
           asserts_added (λ a, a.1 = 500) s s')).
  2:{ repeat split; try done. by apply asserts_added_refl. }
  intros s0 n (H1 & H2 & H3 & H4 & H5 & H6 & H7). unfold relabel_leaf_vertex.
  destruct (umap_index _ _) as [v m]. cbn.
  rewrite length_alter. repeat split; try done.
  - intros j Hj. rewrite list_lookup_alter_ne by done. by apply H6.
  - eapply asserts_added_trans; [exact H7|]. by eapply asserts_added_one.
Qed.

Lemma relabel_leaf_vertices_known k ns s e :
  elements s !! k = Some e → NoDup ns →
  (∀ n, n ∈ ns → (n < length (node e))%nat ∧
                 is_Some (parent_to_submesh_node_ids_ s !! (node e !!! n))) →
  let s' := foldl (relabel_leaf_vertex k) s ns in
  parent_to_submesh_node_ids_ s' = parent_to_submesh_node_ids_ s ∧
  asserts_added (λ a, a = (500, true)) s s' ∧
  ∃ e', elements s' !! k = Some e' ∧
        geom e' = geom e ∧ ref_type e' = ref_type e ∧ rank e' = rank e ∧
        attribute e' = attribute e ∧ parent e' = parent e ∧ index e' = index e ∧
        length (node e') = length (node e) ∧
        (∀ n, n ∈ ns → parent_to_submesh_node_ids_ s !! (node e !!! n)
                       = Some (node e' !!! n)) ∧
        (∀ n, n ∉ ns → node e' !! n = node e !! n).
Proof.
  revert s e. induction ns as [|n ns IH]; intros s e Hk Hnd Hknown; cbn.
  { split; [done|]. split; [by apply asserts_added_refl|]. exists e.
    repeat split; try done. intros n Hn. by apply elem_of_nil in Hn. }
  apply NoDup_cons in Hnd as [Hn Hnd].
  destruct (Hknown n ltac:(left)) as [Hlt [v Hv]].
  set (e1 := set_node (<[n := v]> (node e)) e).
  assert (relabel_leaf_vertex k s n
          = set_elements (<[k := e1]> (elements s)) (MFEM_ASSERT 500 true s)) as Hstep.
  { unfold relabel_leaf_vertex. rewrite (list_lookup_total_correct _ _ _ Hk).
    cbn [parent_to_submesh_node_ids_ MFEM_ASSERT]. unfold umap_index. rewrite Hv.
    rewrite bool_decide_eq_true_2 by done.
    rewrite (alter_lookup_insert _ _ _ _ Hk). by destruct s. }
  rewrite Hstep.
  destruct (IH (set_elements (<[k := e1]> (elements s)) (MFEM_ASSERT 500 true s)) e1)
    as (H1 & H2 & e' & He' & Hg & Hr & Hrk & Ha & Hp & Hx & Hl & Hin & Hout).
  { cbn. apply list_lookup_insert_eq. by eapply lookup_lt_Some. }
  { done. }
  { intros n' Hn'. cbn. rewrite length_insert.
    destruct (Hknown n' ltac:(by right)) as [Hlt' Hs']. split; [done|].
    rewrite list_lookup_total_insert_ne; [done|]. intros ->. done. }
  cbn in *. split; [done|]. split.
  { eapply asserts_added_trans; [|exact H2]. by eapply asserts_added_one. }
  exists e'. rewrite length_insert in Hl. repeat split; try done.
  - intros n' Hn'. apply elem_of_cons in Hn' as [->|Hn'].
    + rewrite Hv. f_equal. symmetry. apply list_lookup_total_correct.
      rewrite (Hout _ Hn). by apply list_lookup_insert_eq.
    + rewrite <- (Hin _ Hn'). rewrite list_lookup_total_insert_ne; [done|].
      intros ->. done.
  - intros n' Hn'. apply not_elem_of_cons in Hn' as [Hne Hn'].
    rewrite (Hout _ Hn'). by apply list_lookup_insert_ne.
Qed.

Lemma signed_in_refl m e : IsLeaf e = false → signed_in parent_mesh m e e.
Proof. intros Hl. unfold signed_in. rewrite Hl. repeat split; done. Qed.

Lemma sign_in_leaves_spec s :
  edges_known parent_mesh s →
  let s' := sign_in_leaves parent_mesh s in
  node_ids s' = node_ids s ∧
  parent_element_ids_ s' = parent_element_ids_ s ∧
  parent_node_ids_ s' = parent_node_ids_ s ∧
  parent_to_submesh_element_ids_ s' = parent_to_submesh_element_ids_ s ∧
  length (elements s') = length (elements s) ∧
  asserts_added (λ a, a.1 = 493 ∨ a = (495, true) ∨ a.1 = 500) s s' ∧
  (vertices_known parent_mesh s →
   parent_to_submesh_node_ids_ s' = parent_to_submesh_node_ids_ s ∧
   asserts_added (λ a, a.1 = 493 ∨ a = (495, true) ∨ a = (500, true)) s s' ∧
   ∀ k e, elements s !! k = Some e →
          ∃ e', elements s' !! k = Some e' ∧
                signed_in parent_mesh (parent_to_submesh_node_ids_ s) e e').
Proof.
  intros Hedges.
  pose (I := λ (k : nat) (cur : NCState),
    node_ids cur = node_ids s ∧
    parent_element_ids_ cur = parent_element_ids_ s ∧
    parent_node_ids_ cur = parent_node_ids_ s ∧
    parent_to_submesh_element_ids_ cur = parent_to_submesh_element_ids_ s ∧
    length (elements cur) = length (elements s) ∧
    (∀ j, (k ≤ j)%nat → elements cur !! j = elements s !! j) ∧
    asserts_added (λ a, a.1 = 493 ∨ a = (495, true) ∨ a.1 = 500) s cur ∧
    (vertices_known parent_mesh s →
     parent_to_submesh_node_ids_ cur = parent_to_submesh_node_ids_ s ∧
     asserts_added (λ a, a.1 = 493 ∨ a = (495, true) ∨ a = (500, true)) s cur ∧
     ∀ j e, (j < k)%nat → elements s !! j = Some e →
            ∃ e', elements cur !! j = Some e' ∧
                  signed_in parent_mesh (parent_to_submesh_node_ids_ s) e e')).
  assert (I (length (elements s)) (sign_in_leaves parent_mesh s)) as HI.
  { unfold sign_in_leaves. apply (foldl_seq_inv I).
    { repeat split; try done; try (by apply asserts_added_refl). intros; lia. }
    intros k cur Hk (H1 & H2 & H3 & H4 & H5 & H6 & H7 & H8).
    assert (∃ e, elements s !! k = Some e) as [e He] by (by apply lookup_lt_is_Some).
    assert (elements cur !! k = Some e) as Hcur by (by rewrite H6).
    unfold sign_in_leaf. rewrite (list_lookup_total_correct _ _ _ Hcur).
    destruct (IsLeaf e) eqn:Hleaf.
    2:{ repeat split; try done.
        - intros j Hj. apply H6. lia.
        - by apply H8.
        - by apply H8.
        - intros j ej Hj Hej. destruct (decide (j = k)) as [->|Hne].
          + exists e. split; [done|]. simplify_eq. by apply signed_in_refl.
          + apply H8; [done|lia|done]. }
    destruct (sign_in_edges_known k (edges (GI parent_mesh (geom e))) cur)
      as (E1 & E2 & E3 & E4 & E5 & E6 & E7).
    { intros ed Hed. rewrite (list_lookup_total_correct _ _ _ Hcur), H1.
      by eapply Hedges. }
    set (s1 := foldl (sign_in_edge parent_mesh k) cur (edges (GI parent_mesh (geom e)))) in *.
    destruct (relabel_leaf_vertices_frame k (seq 0 (nv (GI parent_mesh (geom e)))) s1)
      as (F1 & F2 & F3 & F4 & F5 & F6 & F7).
    set (s2 := foldl (relabel_leaf_vertex k) s1 (seq 0 (nv (GI parent_mesh (geom e))))) in *.
    split; [congruence|]. split; [congruence|]. split; [congruence|].
    split; [congruence|]. split; [congruence|]. split.
    { intros j Hj. rewrite F6 by lia. rewrite E1. apply H6. lia. }
    split.
    { eapply asserts_added_trans; [exact H7|].
      eapply asserts_added_trans.
      - eapply asserts_added_impl; [|exact E7]. intros a [?|?]; auto.
      - eapply asserts_added_impl; [|exact F7]. intros a ?; auto. }
    intros Hverts. destruct (H8 Hverts) as (V1 & V2 & V3).
    destruct (relabel_leaf_vertices_known k (seq 0 (nv (GI parent_mesh (geom e)))) s1 e)
      as (K1 & K2 & e' & Ke' & Kg & Kr & Krk & Ka & Kp & Kx & Kl & Kin & Kout).
    { by rewrite E1. }
    { apply NoDup_seq. }
    { intros n Hn. apply elem_of_seq in Hn. rewrite E5, V1.
      eapply Hverts; [done..|lia]. }
    fold s2 in K1, K2, Ke'.
    split; [congruence|]. split.
    { eapply asserts_added_trans; [exact V2|].
      eapply asserts_added_trans.
      - eapply asserts_added_impl; [|exact E7]. intros a [?|?]; auto.
      - eapply asserts_added_impl; [|exact K2]. intros a ?; auto. }
    intros j ej Hj Hej. destruct (decide (j = k)) as [->|Hne].
    - exists e'. split; [done|]. simplify_eq. unfold signed_in. rewrite Hleaf.
      repeat split; try done.
      + intros Hn. rewrite <- V1, <- E5. apply Kin. apply elem_of_seq. lia.
      + intros Hn. apply Kout. rewrite elem_of_seq. lia.
    - rewrite F6 by done. rewrite E1. apply V3; [lia|done]. }
  destruct HI as (H1 & H2 & H3 & H4 & H5 & H6 & H7 & H8).
  repeat split; try done.
  - by apply H8.
  - by apply H8.
  - intros k e Hk. apply H8; [done| |done]. by eapply lookup_lt_Some.
Qed.

End SignIn.

Lemma face_geom_cases fn :
  face_geom_from_nodes fn = SEGMENT ∨ face_geom_from_nodes fn = TRIANGLE ∨
  face_geom_from_nodes fn = SQUARE.
Proof.
  unfold face_geom_from_nodes. destruct (_ =? -1); [by right; left|].
  destruct (_ && _); [by left|by right; right].
Qed.

Lemma rd_face_nodes (fn tl : list Z) i :
  length fn = MaxFaceNodes → 0 ≤ i < 4 → rd (take MaxFaceNodes fn ++ tl) i = rd fn i.
Proof.
  intros Hlen Hi. rewrite take_ge by lia. unfold rd.
  apply lookup_total_app_l. rewrite Hlen. unfold MaxFaceNodes. lia.
Qed.

Lemma registry_known g acc p : registry_inv g acc → p ∈ acc → is_Some (idx g !! p).
Proof.
  intros Hreg Hin. destruct (idx g !! p) eqn:E; [done|].
  by apply (registry_inv_lookup _ _ _ Hreg) in E.
Qed.

Lemma tree_ok_edges_known parent_mesh attributes s :
  (∀ face, face ∈ p_faces parent_mesh →
           length (FindFaceNodes parent_mesh face) = MaxFaceNodes) →
  (∀ g ed, g = SEGMENT ∨ g = TRIANGLE ∨ g = SQUARE → ed ∈ edges (GI parent_mesh g) →
           0 ≤ ed.1 < 4 ∧ 0 ≤ ed.2 < 4) →
  tree_ok parent_mesh attributes s → node_maps_inv s → edges_known parent_mesh s.
Proof.
  intros Hfn Hgi [_ _ Hleaf _] [Hreg _] k e ed Hk Hl Hed.
  destruct (Hleaf _ _ Hk Hl) as (j & face & _ & Hface & Hlf).
  destruct Hlf as (_ & _ & _ & Hg & _ & _ & Hn & _ & _ & Hedges).
  apply list_elem_of_lookup_2 in Hface. specialize (Hfn _ Hface).
  rewrite Hg in Hed. destruct (Hgi _ _ (face_geom_cases _) Hed) as [H1 H2].
  rewrite Hn, !rd_face_nodes by done.
  eapply registry_known; [done|]. by apply Hedges.
Qed.

Lemma tree_ok_vertices_known parent_mesh attributes s :
  (∀ face, face ∈ p_faces parent_mesh →
           length (FindFaceNodes parent_mesh face) = MaxFaceNodes) →
  (∀ g, g = SEGMENT ∨ g = TRIANGLE ∨ g = SQUARE → (nv (GI parent_mesh g) ≤ 4)%nat) →
  (∀ face n, face ∈ p_faces parent_mesh → unused face = false →
             HasAttribute (f_attribute face) attributes = true →
             GetMeshIdType parent_mesh (f_index face) ≠ MASTER →
             (n < nv (GI parent_mesh
                        (face_geom_from_nodes (FindFaceNodes parent_mesh face))))%nat →
             rd (FindFaceNodes parent_mesh face) (Z.of_nat n) ≠ -1) →
  tree_ok parent_mesh attributes s → node_maps_inv s → vertices_known parent_mesh s.
Proof.
  intros Hfn Hgi Hv [_ _ Hleaf _] [Hreg Hidx] k e n Hk Hl Hn.
  destruct (Hleaf _ _ Hk Hl) as (j & face & _ & Hface & Hlf).
  destruct Hlf as (Hu & Ha & Hm & Hg & _ & _ & Hnode & _ & Hverts & _).
  apply list_elem_of_lookup_2 in Hface. pose proof (Hfn _ Hface) as Hlen.
  rewrite Hg in Hn.
  pose proof (Hgi _ (face_geom_cases (FindFaceNodes parent_mesh face))) as Hnv.
  assert (node e !!! n = rd (FindFaceNodes parent_mesh face) (Z.of_nat n)) as Hrd.
  { rewrite Hnode.
    rewrite <- (rd_face_nodes (FindFaceNodes parent_mesh face) (replicate 6 (-1)))
      by (done || lia).
    unfold rd. by rewrite Nat2Z.id. }
  split.
  { rewrite Hnode, length_app, length_take, Hlen. cbn. lia. }
  rewrite <- Hidx. eapply registry_known; [done|]. rewrite Hrd. apply Hverts.
  - rewrite take_ge by lia. unfold rd. rewrite Nat2Z.id.
    apply list_elem_of_lookup_total_2. rewrite Hlen. unfold MaxFaceNodes. lia.
  - by apply Hv.
Qed.

Lemma edge_tree_branch_run :
  boundary_branch edge_tree_mesh 1 [1] [0; 0; 0; 0] 10 = Some (edge_tree_signed, 2%nat).
Proof. vm_compute. reflexivity. Qed.

Lemma edge_tree_face_nodes face :
  face ∈ p_faces edge_tree_mesh → length (FindFaceNodes edge_tree_mesh face) = MaxFaceNodes.
Proof.
  intros Hin. apply list_elem_of_fmap in Hin as (i & -> & Hi). apply elem_of_seq in Hi.
  destruct i as [|[|[|[|[|i]]]]]; try done. lia.
Qed.

Lemma edge_tree_GI_edges g ed :
  g = SEGMENT ∨ g = TRIANGLE ∨ g = SQUARE → ed ∈ edges (GI edge_tree_mesh g) →
  0 ≤ ed.1 < 4 ∧ 0 ≤ ed.2 < 4.
Proof.
  intros [->|[->| ->]] Hin; cbn in Hin;
    repeat (apply elem_of_cons in Hin as [->|Hin]; [cbn; lia|]);
    by apply elem_of_nil in Hin.
Qed.

(** X10.  In the final walk of the boundary branch (lines 482-516), the
    node of every edge of every leaf is one the discovery loop collected
    (lines 252-256), so the assertion of line 495 never fails and signing in
    the edges creates no node: the registry still has one id per entry of
    [parent_node_ids_].  This holds for every parent mesh whose face node
    tuples have [MaxFaceNodes] entries and whose geometry table lists the
    edges of a segment, triangle or quadrilateral by vertex indices below
    [MaxFaceNodes]. *)
Theorem X10_edge_nodes_registered (parent_mesh : ParNCMesh) (Dim : Z)
    (attributes indeterminate : list Z) (fuel : nat) (s : NCState) (sorts : nat) :
  (∀ face, face ∈ p_faces parent_mesh →
           length (FindFaceNodes parent_mesh face) = MaxFaceNodes) →
  (∀ g ed, g = SEGMENT ∨ g = TRIANGLE ∨ g = SQUARE → ed ∈ edges (GI parent_mesh g) →
           0 ≤ ed.1 < 4 ∧ 0 ≤ ed.2 < 4) →
  boundary_branch parent_mesh Dim attributes indeterminate fuel = Some (s, sorts) →
  (∀ b, (495, b) ∈ asserts s → b = true) ∧
  counter (node_ids s) = Z.of_nat (length (parent_node_ids_ s)) ∧
  (∀ p, p ∈ parent_node_ids_ s ↔ is_Some (idx (node_ids s) !! p)).
Proof.
  intros Hfn Hgi. unfold boundary_branch.
  destruct (boundary_pass parent_mesh Dim attributes indeterminate fuel)
    as [[s0 sorts0]|] eqn:Hpass; [|done].
  intros [= <- <-].
  pose proof (boundary_pass_tree_ok _ _ _ _ _ _ _ Hpass) as Hok.
  destruct (boundary_pass_nodes _ _ _ _ _ _ _ Hpass) as (Hmaps & _ & Ha).
  destruct (sign_in_leaves_spec parent_mesh s0
              (tree_ok_edges_known _ _ _ Hfn Hgi Hok Hmaps))
    as (H1 & H2 & H3 & H4 & H5 & H6 & _).
  destruct Hmaps as [Hreg Hidx]. rewrite H1, H3. split; [|split].
  - intros b Hb. destruct (asserts_added_elem _ _ _ _ H6 Hb) as [Hin|[H|[H|H]]].
    + destruct (asserts_added_elem _ _ _ _ Ha Hin) as [Hi|[H|[H|H]]];
        [by apply elem_of_nil in Hi|done..].
    + done.
    + by injection H as ->.
    + done.
  - apply Hreg.
  - intros p. split; [by apply registry_known|].
    intros Hsome. destruct (decide (p ∈ parent_node_ids_ s0)) as [|Hn]; [done|].
    apply (registry_inv_lookup _ _ _ Hreg) in Hn. rewrite Hn in Hsome.
    by destruct Hsome.
Qed.

Lemma X10_edge_nodes_registered_witness :
  (∀ b, (495, b) ∈ asserts edge_tree_signed → b = true) ∧
  counter (node_ids edge_tree_signed) = Z.of_nat (length (parent_node_ids_ edge_tree_signed)).
Proof.
  destruct (X10_edge_nodes_registered edge_tree_mesh 1 [1] [0; 0; 0; 0] 10
              edge_tree_signed 2%nat edge_tree_face_nodes edge_tree_GI_edges
              edge_tree_branch_run) as (H1 & H2 & _).
  split; [exact H1|exact H2].
Defined.

Lemma edge_tree_GI_vertices g :
  g = SEGMENT ∨ g = TRIANGLE ∨ g = SQUARE → (nv (GI edge_tree_mesh g) ≤ 4)%nat.
Proof. intros [->|[->| ->]]; cbn; lia. Qed.

Lemma edge_tree_vertices face n :
  face ∈ p_faces edge_tree_mesh → unused face = false →
  HasAttribute (f_attribute face) [1] = true →
  GetMeshIdType edge_tree_mesh (f_index face) ≠ MASTER →
  (n < nv (GI edge_tree_mesh
             (face_geom_from_nodes (FindFaceNodes edge_tree_mesh face))))%nat →
  rd (FindFaceNodes edge_tree_mesh face) (Z.of_nat n) ≠ -1.
Proof.
  intros Hin _ _ _. apply list_elem_of_fmap in Hin as (i & -> & Hi). apply elem_of_seq in Hi.
  destruct i as [|[|[|[|[|i]]]]]; try lia; intros Hn; vm_compute in Hn;
    destruct n as [|[|n]]; try lia; vm_compute; discriminate.
Qed.

(** X11.  In the final walk of the boundary branch, let the face node
    tuples have [MaxFaceNodes] entries, let the geometry table give a
    segment, triangle or quadrilateral at most [MaxFaceNodes] vertices, and
    let no selected face have [-1] in one of the vertex positions of its
    geometry.  Then the assertion of line 500 never fails, the look-up of
    line 501 inserts nothing (the node maps stay inverse to each other), and
    afterwards every vertex slot of every leaf holds the submesh id of the
    node the parent face has in that position:
    [parent_node_ids_[elem.node[n]]] is node [n] of the face named by the
    leaf's entry of [parent_element_ids_]. *)
Theorem X11_leaf_vertices_relabelled (parent_mesh : ParNCMesh) (Dim : Z)
    (attributes indeterminate : list Z) (fuel : nat) (s : NCState) (sorts : nat) :
  (∀ face, face ∈ p_faces parent_mesh →
           length (FindFaceNodes parent_mesh face) = MaxFaceNodes) →
  (∀ g ed, g = SEGMENT ∨ g = TRIANGLE ∨ g = SQUARE → ed ∈ edges (GI parent_mesh g) →
           0 ≤ ed.1 < 4 ∧ 0 ≤ ed.2 < 4) →
  (∀ g, g = SEGMENT ∨ g = TRIANGLE ∨ g = SQUARE → (nv (GI parent_mesh g) ≤ 4)%nat) →
  (∀ face n, face ∈ p_faces parent_mesh → unused face = false →
             HasAttribute (f_attribute face) attributes = true →
             GetMeshIdType parent_mesh (f_index face) ≠ MASTER →
             (n < nv (GI parent_mesh
                        (face_geom_from_nodes (FindFaceNodes parent_mesh face))))%nat →
             rd (FindFaceNodes parent_mesh face) (Z.of_nat n) ≠ -1) →
  boundary_branch parent_mesh Dim attributes indeterminate fuel = Some (s, sorts) →
  (∀ b, (500, b) ∈ asserts s → b = true) ∧
  (∀ j n, parent_node_ids_ s !! j = Some n ↔
          parent_to_submesh_node_ids_ s !! n = Some (Z.of_nat j)) ∧
  (∀ k e, elements s !! k = Some e → IsLeaf e = true →
     ∃ j face,
       parent_element_ids_ s !! k = Some (Z.of_nat j) ∧
       p_faces parent_mesh !! j = Some face ∧
       ∀ n, (n < nv (GI parent_mesh (geom e)))%nat →
            0 ≤ node e !!! n ∧
            parent_node_ids_ s !! Z.to_nat (node e !!! n)
              = Some (rd (FindFaceNodes parent_mesh face) (Z.of_nat n))).
Proof.
  intros Hfn Hgi Hnv Hv. unfold boundary_branch.
  destruct (boundary_pass parent_mesh Dim attributes indeterminate fuel)
    as [[s0 sorts0]|] eqn:Hpass; [|done].
  intros [= <- <-].
  pose proof (boundary_pass_tree_ok _ _ _ _ _ _ _ Hpass) as Hok.
  destruct (boundary_pass_nodes _ _ _ _ _ _ _ Hpass) as (Hmaps & _ & Ha).
  destruct (sign_in_leaves_spec parent_mesh s0
              (tree_ok_edges_known _ _ _ Hfn Hgi Hok Hmaps))
    as (H1 & H2 & H3 & H4 & H5 & _ & H7).
  destruct (H7 (tree_ok_vertices_known _ _ _ Hfn Hnv Hv Hok Hmaps)) as (V1 & V2 & V3).
  rewrite H2, H3, V1. split; [|split].
  - intros b Hb. destruct (asserts_added_elem _ _ _ _ V2 Hb) as [Hin|[H|[H|H]]].
    + destruct (asserts_added_elem _ _ _ _ Ha Hin) as [Hi|[H|[H|H]]];
        [by apply elem_of_nil in Hi|done..].
    + done.
    + done.
    + by injection H as ->.
  - by apply node_maps_inv_bijection.
  - intros k e' Hk Hl.
    assert (∃ e, elements s0 !! k = Some e) as [e He].
    { apply lookup_lt_is_Some. rewrite <- H5. by eapply lookup_lt_Some. }
    destruct (V3 _ _ He) as (e'' & He'' & Hsig). rewrite Hk in He''. injection He'' as <-.
    destruct Hsig as (Hg & Hr & _ & _ & _ & _ & _ & _ & Hleafsig).
    assert (IsLeaf e = true) as Hl0 by (unfold IsLeaf in *; by rewrite <- Hr).
    destruct (to_leaf _ _ _ Hok _ _ He Hl0) as (j & face & Hj & Hface & Hlf).
    exists j, face. split; [done|]. split; [done|].
    intros n Hn. rewrite Hg in Hn. destruct (Hleafsig Hl0 n) as [Hin _].
    specialize (Hin Hn).
    destruct Hlf as (_ & _ & _ & Hgeom & _ & _ & Hnode & _).
    pose proof (Hfn _ (list_elem_of_lookup_2 _ _ _ Hface)) as Hlen.
    pose proof (Hnv _ (face_geom_cases (FindFaceNodes parent_mesh face))) as Hle.
    rewrite Hgeom in Hn.
    assert (node e !!! n = rd (FindFaceNodes parent_mesh face) (Z.of_nat n)) as Hrd.
    { rewrite Hnode.
      rewrite <- (rd_face_nodes (FindFaceNodes parent_mesh face) (replicate 6 (-1)))
        by (done || lia).
      unfold rd. by rewrite Nat2Z.id. }
    rewrite Hrd in Hin. destruct Hmaps as [(_ & _ & Hreg) Hidx].
    rewrite <- Hidx in Hin. by apply Hreg in Hin.
Qed.

Lemma X11_leaf_vertices_relabelled_witness :
  (∀ b, (500, b) ∈ asserts edge_tree_signed → b = true) ∧
  ∃ j face,
    parent_element_ids_ edge_tree_signed !! 8%nat = Some (Z.of_nat j) ∧
    p_faces edge_tree_mesh !! j = Some face ∧
    parent_node_ids_ edge_tree_signed
      !! Z.to_nat (node (elements edge_tree_signed !!! 8%nat) !!! 0%nat)
    = Some (rd (FindFaceNodes edge_tree_mesh face) (Z.of_nat 0)).
Proof.
  destruct (X11_leaf_vertices_relabelled edge_tree_mesh 1 [1] [0; 0; 0; 0] 10
              edge_tree_signed 2%nat edge_tree_face_nodes edge_tree_GI_edges
              edge_tree_GI_vertices edge_tree_vertices edge_tree_branch_run)
    as (H1 & _ & H3).
  split; [exact H1|].
  assert (elements edge_tree_signed !! 8%nat = Some (elements edge_tree_signed !!! 8%nat)) as H8
    by (vm_compute; reflexivity).
  assert (IsLeaf (elements edge_tree_signed !!! 8%nat) = true) as Hl
    by (vm_compute; reflexivity).
  destruct (H3 8%nat _ H8 Hl) as (j & face & Hj & Hface & Hn).
  exists j, face. split; [exact Hj|]. split; [exact Hface|].
  assert (0 < nv (GI edge_tree_mesh (geom (elements edge_tree_signed !!! 8%nat))))%nat as Hlt.
  { vm_compute. lia. }
  exact (proj2 (Hn 0%nat Hlt)).
Defined.

(** ** Reparenting the nodes *)

Lemma umap_index_default (m0 m : gmap Z Z) p :
  (∀ n, m !! n = m0 !! n ∨ (m0 !! n = None ∧ m !! n = Some 0)) →
  (umap_index m p).1 = default 0 (m0 !! p) ∧
  (∀ n, (umap_index m p).2 !! n = m0 !! n ∨
        (m0 !! n = None ∧ (umap_index m p).2 !! n = Some 0)) ∧
  (∀ n, (umap_index m p).2 !! n = m !! n ∨ n = p).
Proof.
  intros Hm. unfold umap_index. destruct (m !! p) as [v|] eqn:E; cbn.
  - split; [|split; [done|by left]].
    destruct (Hm p) as [H|[H1 H2]]; [by rewrite <- H, E|].
    rewrite H1. cbn. congruence.
  - split; [|split].
    + destruct (Hm p) as [H|[H1 H2]]; [by rewrite <- H, E|congruence].
    + intros n. destruct (decide (n = p)) as [->|Hne].
      * right. rewrite lookup_insert_eq. split; [|done].
        destruct (Hm p) as [H|[H1 H2]]; [by rewrite <- H|done].
      * rewrite lookup_insert_ne by done. apply Hm.
    + intros n. destruct (decide (n = p)) as [->|Hne]; [by right|].
      left. by rewrite lookup_insert_ne.
Qed.

Section Reparent.

Variable parent_nodes : Z → Z * Z.

Lemma reparent_nodes_spec s :
  let r := reparent_nodes parent_nodes s in
  r.2 = (λ i : nat, let '(p1, p2) := parent_nodes (rd (parent_node_ids_ s) (Z.of_nat i)) in
                    (Z.of_nat i,
                     default 0 (parent_to_submesh_node_ids_ s !! p1),
                     default 0 (parent_to_submesh_node_ids_ s !! p2)))
        <$> seq 0 (length (parent_node_ids_ s)) ∧
  (∀ n, parent_to_submesh_node_ids_ r.1 !! n = parent_to_submesh_node_ids_ s !! n ∨
        (parent_to_submesh_node_ids_ s !! n = None ∧
         parent_to_submesh_node_ids_ r.1 !! n = Some 0 ∧
         ∃ i, (i < length (parent_node_ids_ s))%nat ∧
              (n = (parent_nodes (rd (parent_node_ids_ s) (Z.of_nat i))).1 ∨
               n = (parent_nodes (rd (parent_node_ids_ s) (Z.of_nat i))).2))) ∧
  elements r.1 = elements s ∧ parent_element_ids_ r.1 = parent_element_ids_ s ∧
  parent_to_submesh_element_ids_ r.1 = parent_to_submesh_element_ids_ s ∧
  parent_node_ids_ r.1 = parent_node_ids_ s ∧ node_ids r.1 = node_ids s ∧
  asserts r.1 = asserts s.
Proof.
  unfold reparent_nodes.
  pose (I := λ (k : nat) (r : NCState * list (Z * Z * Z)),
    r.2 = (λ i : nat, let '(p1, p2) := parent_nodes (rd (parent_node_ids_ s) (Z.of_nat i)) in
                      (Z.of_nat i,
                       default 0 (parent_to_submesh_node_ids_ s !! p1),
                       default 0 (parent_to_submesh_node_ids_ s !! p2)))
          <$> seq 0 k ∧
    (∀ n, parent_to_submesh_node_ids_ r.1 !! n = parent_to_submesh_node_ids_ s !! n ∨
          (parent_to_submesh_node_ids_ s !! n = None ∧
           parent_to_submesh_node_ids_ r.1 !! n = Some 0 ∧
           ∃ i, (i < k)%nat ∧
                (n = (parent_nodes (rd (parent_node_ids_ s) (Z.of_nat i))).1 ∨
                 n = (parent_nodes (rd (parent_node_ids_ s) (Z.of_nat i))).2))) ∧
    elements r.1 = elements s ∧ parent_element_ids_ r.1 = parent_element_ids_ s ∧
    parent_to_submesh_element_ids_ r.1 = parent_to_submesh_element_ids_ s ∧
    parent_node_ids_ r.1 = parent_node_ids_ s ∧ node_ids r.1 = node_ids s ∧
    asserts r.1 = asserts s).
  apply (foldl_seq_inv I).
  { unfold I. cbn. repeat split; try done. intros n. by left. }
  intros k [cur calls] Hk (Hcalls & Hmap & H1 & H2 & H3 & H4 & H5 & H6). cbn in *.
  unfold reparent_node. rewrite H4.
  destruct (parent_nodes (rd (parent_node_ids_ s) (Z.of_nat k))) as [p1 p2] eqn:Hpn.
  assert (∀ n, parent_to_submesh_node_ids_ cur !! n = parent_to_submesh_node_ids_ s !! n ∨
               (parent_to_submesh_node_ids_ s !! n = None ∧
                parent_to_submesh_node_ids_ cur !! n = Some 0)) as Hweak.
  { intros n. destruct (Hmap n) as [?|(? & ? & _)]; auto. }
  destruct (umap_index_default _ _ p1 Hweak) as (U1 & U2 & U3).
  destruct (umap_index (parent_to_submesh_node_ids_ cur) p1) as [q1 m1]. cbn in U1, U2, U3.
  destruct (umap_index_default _ _ p2 U2) as (W1 & W2 & W3).
  destruct (umap_index m1 p2) as [q2 m2]. cbn in W1, W2, W3.
  unfold I. cbn [fst snd]. split.
  { rewrite seq_S, fmap_app. cbn. rewrite Hpn. by rewrite Hcalls, U1, W1. }
  cbn. repeat split; try done.
  intros n. destruct (W2 n) as [?|[Hnone Hzero]]; [by left|]. right.
  split; [done|]. split; [done|].
  destruct (W3 n) as [Heq| ->].
  - destruct (U3 n) as [Heq'| ->].
    + destruct (Hmap n) as [Hs|(_ & _ & i & Hi & Hor)].
      * rewrite Heq, Heq', Hs, Hnone in Hzero. done.
      * exists i. split; [lia|done].
    + exists k. split; [lia|]. rewrite Hpn. by left.
  - exists k. split; [lia|]. rewrite Hpn. by right.
Qed.

End Reparent.

(** X12.  The reparenting loop (lines 520-526) looks the parents of every
    submesh node up with [operator[]]: [nodes.Reparent] is called once per
    submesh node, in order, with the submesh ids of the two parents, and a
    parent that is not a node of the submesh is passed as submesh node 0 and
    entered into [parent_to_submesh_node_ids_] with the value 0.  No entry
    the map had is changed, and an entry is added only for such a parent;
    the other members are left as they were. *)
Theorem X12_reparent_missing_parent (parent_nodes : Z → Z * Z) (s s' : NCState)
    (calls : list (Z * Z * Z)) :
  reparent_nodes parent_nodes s = (s', calls) →
  length calls = length (parent_node_ids_ s) ∧
  (∀ i n p1 p2, parent_node_ids_ s !! i = Some n → parent_nodes n = (p1, p2) →
     calls !! i = Some (Z.of_nat i,
                        default 0 (parent_to_submesh_node_ids_ s !! p1),
                        default 0 (parent_to_submesh_node_ids_ s !! p2)) ∧
     is_Some (parent_to_submesh_node_ids_ s' !! p1) ∧
     is_Some (parent_to_submesh_node_ids_ s' !! p2)) ∧
  (∀ n v, parent_to_submesh_node_ids_ s !! n = Some v →
          parent_to_submesh_node_ids_ s' !! n = Some v) ∧
  (∀ n v, parent_to_submesh_node_ids_ s' !! n = Some v →
          parent_to_submesh_node_ids_ s !! n = Some v ∨
          (parent_to_submesh_node_ids_ s !! n = None ∧ v = 0 ∧
           ∃ i m, parent_node_ids_ s !! i = Some m ∧
                  (n = (parent_nodes m).1 ∨ n = (parent_nodes m).2))) ∧
  elements s' = elements s ∧ parent_element_ids_ s' = parent_element_ids_ s ∧
  parent_node_ids_ s' = parent_node_ids_ s ∧ node_ids s' = node_ids s.
Proof.
  intros Hrun. destruct (reparent_nodes_spec parent_nodes s)
    as (Hcalls & Hmap & H1 & H2 & H3 & H4 & H5 & H6).
  rewrite Hrun in *. cbn in *.
  assert (∀ n v, parent_to_submesh_node_ids_ s' !! n = Some v →
          parent_to_submesh_node_ids_ s !! n = Some v ∨
          (parent_to_submesh_node_ids_ s !! n = None ∧ v = 0 ∧
           ∃ i m, parent_node_ids_ s !! i = Some m ∧
                  (n = (parent_nodes m).1 ∨ n = (parent_nodes m).2))) as Hnew.
  { intros n v Hv. destruct (Hmap n) as [Heq|(Hnone & Hzero & i & Hi & Hor)].
    - left. by rewrite <- Heq.
    - right. split; [done|]. split; [congruence|].
      exists i, (rd (parent_node_ids_ s) (Z.of_nat i)). split; [|done].
      unfold rd. rewrite Nat2Z.id. by apply list_lookup_lookup_total_lt. }
  assert (∀ n v, parent_to_submesh_node_ids_ s !! n = Some v →
          parent_to_submesh_node_ids_ s' !! n = Some v) as Hkeep.
  { intros n v Hv. destruct (Hmap n) as [Heq|(Hnone & _)]; congruence. }
  split; [by rewrite Hcalls, length_fmap, length_seq|].
  split; [|by repeat split].
  intros i n p1 p2 Hi Hp.
  assert (i < length (parent_node_ids_ s))%nat as Hlt by (by eapply lookup_lt_Some).
  assert (rd (parent_node_ids_ s) (Z.of_nat i) = n) as Hrd.
  { unfold rd. rewrite Nat2Z.id. by apply list_lookup_total_correct. }
  split.
  { rewrite Hcalls, list_lookup_fmap, lookup_seq_lt by done. cbn. by rewrite Hrd, Hp. }
  (* both parents are keys afterwards *)
  assert (∀ p, (p = p1 ∨ p = p2) → is_Some (parent_to_submesh_node_ids_ s' !! p)) as Hkeys.
  { intros p Hor. destruct (parent_to_submesh_node_ids_ s !! p) as [v|] eqn:E.
    { exists v. by apply Hkeep. }
    clear Hnew Hkeep Hmap Hcalls.
    revert Hrun. unfold reparent_nodes.
    pose (J := λ (k : nat) (r : NCState * list (Z * Z * Z)),
      parent_node_ids_ r.1 = parent_node_ids_ s ∧
      ((i < k)%nat → is_Some (parent_to_submesh_node_ids_ r.1 !! p))).
    assert (J (length (parent_node_ids_ s))
              (foldl (λ '(s, calls) i, let '(s, call) := reparent_node parent_nodes s i in
                                      (s, calls ++ [call]))
                     (s, []) (seq 0 (length (parent_node_ids_ s))))) as HJ.
    { apply (foldl_seq_inv J).
      { split; [done|]. intros; lia. }
      intros k [cur cs] Hk [J1 J2]. cbn in *. unfold reparent_node. rewrite J1.
      destruct (parent_nodes (rd (parent_node_ids_ s) (Z.of_nat k))) as [a b] eqn:Hab.
      destruct (umap_index (parent_to_submesh_node_ids_ cur) a) as [q1 m1] eqn:U1.
      destruct (umap_index m1 b) as [q2 m2] eqn:U2.
      split; [done|]. cbn. intros Hik.
      assert (∀ (m : gmap Z Z) x y, is_Some (m !! y) ∨ y = x →
                is_Some ((umap_index m x).2 !! y)) as Humap.
      { intros m x y Hy. unfold umap_index. destruct (m !! x) eqn:Ex; cbn.
        - destruct Hy as [?| ->]; [done|]. by rewrite Ex.
        - destruct (decide (y = x)) as [->|Hne]; [by rewrite lookup_insert_eq|].
          rewrite lookup_insert_ne by done. by destruct Hy. }
      pose proof (Humap (parent_to_submesh_node_ids_ cur) a p) as Hm1. rewrite U1 in Hm1.
      pose proof (Humap m1 b p) as Hm2. rewrite U2 in Hm2. cbn in Hm1, Hm2.
      apply Hm2. destruct (decide (k = i)) as [->|Hne].
      - rewrite Hrd, Hp in Hab. injection Hab as <- <-.
        destruct Hor as [->| ->]; [left; apply Hm1; by right|by right].
      - left. apply Hm1. left. apply J2. lia. }
    intros Hrun. rewrite Hrun in HJ. destruct HJ as [_ HJ]. cbn in HJ. by apply HJ. }
  split; apply Hkeys; auto.
Qed.

Lemma X12_reparent_missing_parent_witness :
  (reparent_nodes (λ n, if n =? 104 then (0, 50) else (n, n)) quad_domain_state).2
    !! 9%nat = Some (9, 0, 0) ∧
  parent_to_submesh_node_ids_
    (reparent_nodes (λ n, if n =? 104 then (0, 50) else (n, n)) quad_domain_state).1 !! 50
  = Some 0.
Proof.
  assert (∃ s' calls, reparent_nodes (λ n, if n =? 104 then (0, 50) else (n, n))
                        quad_domain_state = (s', calls)) as (s' & calls & Hrun).
  { destruct (reparent_nodes _ quad_domain_state) as [s' calls]. by exists s', calls. }
  rewrite Hrun. cbn [fst snd].
  destruct (X12_reparent_missing_parent _ _ _ _ Hrun) as (_ & Hcalls & _ & Hnew & _).
  assert (parent_node_ids_ quad_domain_state !! 9%nat = Some 104) as H9
    by (vm_compute; reflexivity).
  destruct (Hcalls 9%nat 104 0 50 H9 eq_refl) as (Hc & _ & [v Hv]).
  assert (parent_to_submesh_node_ids_ quad_domain_state !! 0 = Some 0) as H0
    by (vm_compute; reflexivity).
  assert (parent_to_submesh_node_ids_ quad_domain_state !! 50 = None) as H50
    by (vm_compute; reflexivity).
  rewrite H0, H50 in Hc. split; [exact Hc|].
  destruct (Hnew 50 v Hv) as [Hold|(_ & -> & _)]; [congruence|exact Hv].
Defined.

(** ** Copying the coordinates *)

Lemma copy_positions_spec {Pos} (CalcVertexPos : Z → Pos) pre l cur co :
  (∀ j n, (pre ++ l) !! j = Some n → idx (node_ids cur) !! n = Some (Z.of_nat j)) →
  length co = length (pre ++ l) →
  let r := foldl (copy_position Pos CalcVertexPos) (cur, co) l in
  r.2 = take (length pre) co ++ (CalcVertexPos <$> l) ∧
  node_ids r.1 = node_ids cur ∧
  asserts r.1 = asserts cur ++ replicate (length l) (564, true) ∧
  elements r.1 = elements cur ∧ parent_node_ids_ r.1 = parent_node_ids_ cur ∧
  parent_element_ids_ r.1 = parent_element_ids_ cur.
Proof.
  revert pre cur co. induction l as [|n l IH]; intros pre cur co Hidx Hlen; cbn.
  { rewrite !app_nil_r in *. rewrite take_ge by lia. done. }
  assert (idx (node_ids cur) !! n = Some (Z.of_nat (length pre))) as Hn.
  { apply Hidx. by rewrite lookup_app_r, Nat.sub_diag by lia. }
  unfold Get. rewrite Hn. cbn [negb].
  rewrite Nat2Z.id.
  set (cur' := MFEM_ASSERT 564 true (set_node_ids (node_ids cur) cur)).
  set (co' := <[length pre := CalcVertexPos n]> co).
  destruct (IH (pre ++ [n]) cur' co') as (I1 & I2 & I3 & I4 & I5 & I6).
  { intros j m Hj. cbn. apply Hidx. by rewrite <- app_assoc in Hj. }
  { unfold co'. rewrite length_insert, Hlen, <- app_assoc. done. }
  rewrite I1, I2, I3, I4, I5, I6. cbn. repeat split; try done.
  - rewrite length_app. cbn. rewrite Nat.add_1_r.
    assert (co' !! length pre = Some (CalcVertexPos n)) as Hco'.
    { unfold co'. apply list_lookup_insert_eq. rewrite Hlen, length_app. cbn. lia. }
    rewrite (take_S_r _ _ _ Hco'). unfold co'. rewrite take_insert_ge by lia.
    by rewrite <- app_assoc.
  - by rewrite <- app_assoc.
Qed.

Lemma copy_coordinates_spec {Pos} (CalcVertexPos : Z → Pos) s initial :
  (∀ j n, parent_node_ids_ s !! j = Some n → idx (node_ids s) !! n = Some (Z.of_nat j)) →
  length initial = length (parent_node_ids_ s) →
  let r := copy_coordinates Pos CalcVertexPos s initial in
  r.2 = CalcVertexPos <$> parent_node_ids_ s ∧
  node_ids r.1 = node_ids s ∧
  asserts r.1 = asserts s ++ replicate (length (parent_node_ids_ s)) (564, true).
Proof.
  intros Hidx Hlen.
  destruct (copy_positions_spec CalcVertexPos [] (parent_node_ids_ s) s initial Hidx Hlen)
    as (H1 & H2 & H3 & _).
  done.
Qed.

Lemma sign_in_leaves_registry parent_mesh s :
  parent_node_ids_ (sign_in_leaves parent_mesh s) = parent_node_ids_ s ∧
  ∀ q v, idx (node_ids s) !! q = Some v →
         idx (node_ids (sign_in_leaves parent_mesh s)) !! q = Some v.
Proof.
  unfold sign_in_leaves.
  apply (foldl_preserves
    (λ s', parent_node_ids_ s' = parent_node_ids_ s ∧
           ∀ q v, idx (node_ids s) !! q = Some v → idx (node_ids s') !! q = Some v));
    [|done].
  intros s0 k [H1 H2]. unfold sign_in_leaf. destruct (IsLeaf _); [|done].
  destruct (relabel_leaf_vertices_frame k
              (seq 0 (nv (GI parent_mesh (geom (elements s0 !!! k)))))
              (foldl (sign_in_edge parent_mesh k) s0
                     (edges (GI parent_mesh (geom (elements s0 !!! k))))))
    as (F1 & _ & F3 & _).
  rewrite F1, F3. clear F1 F3.
  apply (foldl_preserves
    (λ s', parent_node_ids_ s' = parent_node_ids_ s ∧
           ∀ q v, idx (node_ids s) !! q = Some v → idx (node_ids s') !! q = Some v));
    [|done].
  intros s1 ed [G1 G2]. unfold sign_in_edge.
  pose proof (Get_preserves
                (nodes_FindId parent_mesh (rd (node (elements s1 !!! k)) ed.1)
                              (rd (node (elements s1 !!! k)) ed.2))
                (node_ids s1)) as Hget.
  cbn [node_ids MFEM_ASSERT elements] in *.
  destruct (Get _ _) as [[v new_id] g]. cbn in *. split; [done|].
  intros q w Hq. by apply Hget, G2.
Qed.

(** X13.  When the parent has coordinates, the loop of lines 560-566
    gives every submesh node the position of its parent node:
    [coordinates] ends as the positions of [parent_node_ids_[0]],
    [parent_node_ids_[1]], ..., and the assertion of line 564 holds at
    each node.  This is so at the end of the boundary branch for every
    parent mesh, and at the end of the domain branch when none of the
    assertions of line 107 failed. *)
Theorem X13_coordinates_follow_parent_nodes (Pos : Type) (CalcVertexPos : Z → Pos)
    (parent_nodes : Z → Z * Z) (initial : list Pos) :
  (∀ parent_mesh Dim attributes indeterminate fuel s sorts s' coordinates,
     boundary_branch parent_mesh Dim attributes indeterminate fuel = Some (s, sorts) →
     length initial = length (parent_node_ids_ s) →
     copy_coordinates Pos CalcVertexPos (reparent_nodes parent_nodes s).1 initial
       = (s', coordinates) →
     coordinates = CalcVertexPos <$> parent_node_ids_ s ∧
     asserts s' = asserts s ++ replicate (length (parent_node_ids_ s)) (564, true)) ∧
  (∀ parent_mesh attributes GetSubMeshElementFromParent ParentVertexIDMap
     ref_type_num_children s s' coordinates,
     domain_pass parent_mesh attributes GetSubMeshElementFromParent ParentVertexIDMap
                 ref_type_num_children = (s, true) →
     (∀ b, (107, b) ∈ asserts s → b = true) →
     length initial = length (parent_node_ids_ s) →
     copy_coordinates Pos CalcVertexPos (reparent_nodes parent_nodes s).1 initial
       = (s', coordinates) →
     coordinates = CalcVertexPos <$> parent_node_ids_ s ∧
     asserts s' = asserts s ++ replicate (length (parent_node_ids_ s)) (564, true)).
Proof.
  assert (∀ s s' coordinates,
    (∀ j n, parent_node_ids_ s !! j = Some n → idx (node_ids s) !! n = Some (Z.of_nat j)) →
    length initial = length (parent_node_ids_ s) →
    copy_coordinates Pos CalcVertexPos (reparent_nodes parent_nodes s).1 initial
      = (s', coordinates) →
    coordinates = CalcVertexPos <$> parent_node_ids_ s ∧
    asserts s' = asserts s ++ replicate (length (parent_node_ids_ s)) (564, true)) as Hgen.
  { intros s s' co Hidx Hlen Hrun.
    destruct (reparent_nodes_spec parent_nodes s) as (_ & _ & _ & _ & _ & R4 & R5 & R6).
    destruct (copy_coordinates_spec CalcVertexPos (reparent_nodes parent_nodes s).1 initial)
      as (C1 & _ & C3).
    { by rewrite R4, R5. }
    { by rewrite R4. }
    rewrite Hrun in C1, C3. cbn in C1, C3. by rewrite C1, C3, R4, R6. }
  split.
  - intros parent_mesh Dim attributes indeterminate fuel s sorts s' co Hrun.
    apply Hgen. revert Hrun. unfold boundary_branch.
    destruct (boundary_pass parent_mesh Dim attributes indeterminate fuel)
      as [[s0 sorts0]|] eqn:Hpass; [|done].
    intros [= <- <-].
    destruct (boundary_pass_nodes _ _ _ _ _ _ _ Hpass) as ([(_ & _ & Hreg) _] & _).
    destruct (sign_in_leaves_registry parent_mesh s0) as [S1 S2].
    intros j n Hj. rewrite S1 in Hj. apply S2, Hreg. by rewrite Nat2Z.id; split; [lia|].
  - intros parent_mesh attributes G V R s s' co Hrun H107.
    apply Hgen.
    destruct (second_walk_inv_domain_pass parent_mesh attributes G V R) as [k Hk].
    rewrite Hrun in Hk. destruct (sw_nodes _ _ _ Hk H107) as [(_ & _ & Hreg) _].
    intros j n Hj. apply Hreg. by rewrite Nat2Z.id; split; [lia|].
Qed.

Lemma X13_coordinates_follow_parent_nodes_witness :
  (copy_coordinates Z (λ n, 10 * n)
     (reparent_nodes (λ n, (n, n)) quad_domain_state).1
     (replicate (length (parent_node_ids_ quad_domain_state)) 0)).2
  = (λ n, 10 * n) <$> parent_node_ids_ quad_domain_state.
Proof.
  destruct (X13_coordinates_follow_parent_nodes Z (λ n, 10 * n) (λ n, (n, n))
              (replicate (length (parent_node_ids_ quad_domain_state)) 0)) as [_ H].
  destruct (copy_coordinates Z _ _ _) as [s' co] eqn:Hrun.
  destruct (H _ _ _ _ _ _ s' co quad_domain_run (quad_domain_asserts_hold 107)
              (length_replicate _ _) Hrun) as [Hco _].
  exact Hco.
Defined.

(** ** The elements the domain pass selects *)

Section DomainSelection.

Variable parent_mesh : ParNCMesh.
Variable attributes : list Z.
Variable GetSubMeshElementFromParent : Z → Z.
Variable ParentVertexIDMap : list Z.
Variable ref_type_num_children : Z → nat.

Lemma selected_S n :
  selected parent_mesh attributes (S n) =
  selected parent_mesh attributes n ++
  (if HasAttribute (attribute (p_elements parent_mesh !!! n)) attributes then [n] else []).
Proof. unfold selected. rewrite seq_S, List.filter_app. cbn. by destruct (HasAttribute _ _). Qed.

Lemma selected_elem n i :
  i ∈ selected parent_mesh attributes n ↔
  (i < n)%nat ∧ HasAttribute (attribute (p_elements parent_mesh !!! i)) attributes = true.
Proof.
  unfold selected. rewrite list_elem_of_In, filter_In, <- list_elem_of_In, elem_of_seq.
  intuition lia.
Qed.

Lemma first_walk_result :
  let s := first_walk parent_mesh attributes GetSubMeshElementFromParent init_state in
  let sel := selected parent_mesh attributes (length (p_elements parent_mesh)) in
  elements s = (λ ipe, set_index (GetSubMeshElementFromParent
                                    (index (p_elements parent_mesh !!! ipe)))
                                 (p_elements parent_mesh !!! ipe)) <$> sel ∧
  parent_element_ids_ s = Z.of_nat <$> sel ∧
  emap_ok (λ _, False) s.
Proof.
  unfold first_walk.
  pose (I := λ (k : nat) (s : NCState),
    elements s = (λ ipe, set_index (GetSubMeshElementFromParent
                                      (index (p_elements parent_mesh !!! ipe)))
                                   (p_elements parent_mesh !!! ipe))
                 <$> selected parent_mesh attributes k ∧
    parent_element_ids_ s = Z.of_nat <$> selected parent_mesh attributes k ∧
    emap_ok (λ _, False) s).
  apply (foldl_seq_inv I).
  { unfold I, emap_ok. cbn. repeat split; try done. }
  intros k s Hk (He & Hpe & Hmap1 & Hmap2). unfold I. rewrite selected_S.
  unfold copy_element.
  destruct (HasAttribute (attribute (p_elements parent_mesh !!! k)) attributes) eqn:Hsel;
    cbn [negb].
  2:{ rewrite app_nil_r. done. }
  cbn [AddElement].
  set (pel := p_elements parent_mesh !!! k).
  assert (length (elements s) = length (parent_element_ids_ s)) as Hlen.
  { by rewrite He, Hpe, !length_fmap. }
  assert (Z.of_nat k ∉ parent_element_ids_ s) as Hfresh.
  { rewrite Hpe. intros Hin. apply list_elem_of_fmap in Hin as (i & Heq & Hin).
    apply selected_elem in Hin. lia. }
  match goal with |- context [if ?c then ?a else ?b] => set (s' := if c then a else b) end.
  assert (elements s' = elements s ++ [set_index
            (GetSubMeshElementFromParent (index pel)) pel] ∧
          parent_element_ids_ s' = parent_element_ids_ s ++ [Z.of_nat k] ∧
          parent_to_submesh_element_ids_ s'
            = <[Z.of_nat k := Z.of_nat (length (elements s))]>
                (parent_to_submesh_element_ids_ s)) as (E1 & E2 & E3).
  { unfold s'. destruct (negb (IsLeaf pel)); cbn; unfold upd;
      rewrite Nat2Z.id, alter_app_last; done. }
  clearbody s'.
  rewrite E1, E2. rewrite !fmap_app. cbn [fmap list_fmap].
  rewrite He, Hpe. split; [done|]. split; [done|].
  unfold emap_ok. rewrite E2, E3. split.
  - intros i p Hi. apply lookup_app_Some in Hi as [Hi|[Hge Hi]].
    + rewrite lookup_insert_ne; [by apply Hmap1|].
      intros <-. apply Hfresh. by eapply list_elem_of_lookup_2.
    + apply list_lookup_singleton_Some in Hi as [Hi <-].
      rewrite lookup_insert_eq. f_equal. lia.
  - intros p v Hv. destruct (decide (p = Z.of_nat k)) as [->|Hne].
    + rewrite lookup_insert_eq in Hv. injection Hv as <-. left. split; [lia|].
      rewrite Nat2Z.id, Hlen. by rewrite lookup_app_r, Nat.sub_diag by lia.
    + rewrite lookup_insert_ne in Hv by done.
      destruct (Hmap2 p v Hv) as [[H0 Hl]|(_ & _ & [])].
      left. split; [done|]. by apply lookup_app_l_Some.
Qed.

End DomainSelection.

(** ** The links set by the second walk of the domain pass *)

Lemma profile_alter (f : Element → Element) (k : nat) (els : list Element) :
  (∀ e, profile (f e) = profile e) → profile <$> alter f k els = profile <$> els.
Proof.
  intros Hf. rewrite (list_fmap_alter _ _ id).
  - apply alter_id_list.
  - apply Forall_forall. intros e _. cbn. by rewrite Hf.
Qed.

Lemma linked_id_found W s C v :
  emap_ok W s → parent_to_submesh_element_ids_ s !! C = Some v →
  linked_id (parent_element_ids_ s) C v.
Proof.
  intros [_ HM] Hv. destruct (HM C v Hv) as [[H0 Hl]|(Hn & -> & _)]; split; try done.
  intros Hn. exfalso. apply Hn. by eapply list_elem_of_lookup_2.
Qed.

Lemma emap_ok_missing W s C :
  emap_ok W s → parent_to_submesh_element_ids_ s !! C = None → C ∉ parent_element_ids_ s.
Proof.
  intros [Hm _] Hnone Hin. apply list_elem_of_lookup in Hin as [i Hi].
  by rewrite (Hm _ _ Hi) in Hnone.
Qed.

Lemma emap_ok_frame W s s' :
  parent_element_ids_ s' = parent_element_ids_ s →
  parent_to_submesh_element_ids_ s' = parent_to_submesh_element_ids_ s →
  emap_ok W s → emap_ok W s'.
Proof. unfold emap_ok. by intros -> ->. Qed.

Section DomainLinks.

Variable parent_mesh : ParNCMesh.
Variable ref_type_num_children : Z → nat.

Lemma leaf_branch_frame k vs es s e0 :
  elements s !! k = Some e0 →
  let s' := foldl (reference_edge parent_mesh k) (foldl (relabel_vertex k) s vs) es in
  parent_element_ids_ s' = parent_element_ids_ s ∧
  parent_to_submesh_element_ids_ s' = parent_to_submesh_element_ids_ s ∧
  length (elements s') = length (elements s) ∧
  (∀ j, j ≠ k → elements s' !! j = elements s !! j) ∧
  ∃ e1, elements s' !! k = Some e1 ∧ profile e1 = profile e0 ∧ parent e1 = parent e0 ∧
        length (node e1) = length (node e0).
Proof.
  intros Hk.
  pose (P := λ s' : NCState,
    parent_element_ids_ s' = parent_element_ids_ s ∧
    parent_to_submesh_element_ids_ s' = parent_to_submesh_element_ids_ s ∧
    length (elements s') = length (elements s) ∧
    (∀ j, j ≠ k → elements s' !! j = elements s !! j) ∧
    ∃ e1, elements s' !! k = Some e1 ∧ profile e1 = profile e0 ∧ parent e1 = parent e0 ∧
          length (node e1) = length (node e0)).
  apply (foldl_preserves P).
  { intros s0 ed (H1 & H2 & H3 & H4 & H5). unfold reference_edge.
    set (pid := nodes_FindId parent_mesh _ _).
    destruct (Get pid (node_ids (MFEM_ASSERT 131 (0 <=? pid) s0))) as [[id new] g].
    destruct new; done. }
  apply (foldl_preserves P).
  2:{ unfold P. repeat split; try done. by exists e0. }
  intros s0 n (H1 & H2 & H3 & H4 & e1 & He1 & Hp & Hpar & Hlen). unfold relabel_vertex.
  destruct (Get _ (node_ids s0)) as [[id new] g]. unfold P. cbn.
  rewrite length_alter. repeat split; try done.
  - intros j Hj. rewrite list_lookup_alter_ne by done. by apply H4.
  - rewrite list_lookup_alter_eq, He1. cbn. eexists. split; [done|]. cbn.
    rewrite length_insert. done.
Qed.

Lemma remap_child_all_links W k cs s e0 :
  elements s !! k = Some e0 → NoDup cs → emap_ok W s →
  (∀ c, c ∈ cs → W (child e0 !!! c)) →
  let s' := foldl (remap_child k) s cs in
  parent_element_ids_ s' = parent_element_ids_ s ∧
  emap_ok W s' ∧
  length (elements s') = length (elements s) ∧
  (∀ j, j ≠ k → elements s' !! j = elements s !! j) ∧
  ∃ e1, elements s' !! k = Some e1 ∧ profile e1 = profile e0 ∧ parent e1 = parent e0 ∧
        length (node e1) = length (node e0) ∧
        (∀ c, c ∈ cs → (c < length (node e0))%nat →
              linked_id (parent_element_ids_ s) (child e0 !!! c) (child e1 !!! c)) ∧
        (∀ c, c ∉ cs → node e1 !! c = node e0 !! c).
Proof.
  revert s e0. induction cs as [|c cs IH]; intros s e0 Hk Hnd Hok HW; cbn.
  { split; [done|]. split; [done|]. split; [done|]. split; [done|].
    exists e0. split; [done|]. split; [done|]. split; [done|]. split; [done|].
    split; [|done]. intros c' Hc'. by apply elem_of_nil in Hc'. }
  apply NoDup_cons in Hnd as [Hc Hnd].
  set (C := child e0 !!! c).
  assert (∃ v m, umap_index (parent_to_submesh_element_ids_ s) C = (v, m) ∧
                 linked_id (parent_element_ids_ s) C v ∧
                 emap_ok W (set_parent_to_submesh_element_ids m s)) as (v & m & Hum & Hv & Hok1).
  { unfold umap_index.
    destruct (parent_to_submesh_element_ids_ s !! C) as [v|] eqn:E.
    - exists v, (parent_to_submesh_element_ids_ s). split; [done|].
      split; [by eapply linked_id_found|]. by destruct s.
    - pose proof (emap_ok_missing _ _ _ Hok E) as Hmiss.
      exists 0, (<[C := 0]> (parent_to_submesh_element_ids_ s)). split; [done|].
      split; [by split|]. destruct Hok as [Hm HM]. split; cbn.
      + intros i p Hi. rewrite lookup_insert_ne; [by apply Hm|].
        intros <-. apply Hmiss. by eapply list_elem_of_lookup_2.
      + intros p w Hw. destruct (decide (p = C)) as [->|Hne].
        * rewrite lookup_insert_eq in Hw. injection Hw as <-. right.
          split; [done|]. split; [done|]. apply HW. left.
        * rewrite lookup_insert_ne in Hw by done. by apply HM. }
  set (e1 := set_node (<[c := v]> (child e0)) e0).
  assert (remap_child k s c
          = set_elements (<[k := e1]> (elements s))
              (set_parent_to_submesh_element_ids m s)) as Hstep.
  { unfold remap_child. rewrite (list_lookup_total_correct _ _ _ Hk). fold C.
    rewrite Hum. by rewrite (alter_lookup_insert _ _ _ _ Hk). }
  rewrite Hstep.
  destruct (IH (set_elements (<[k := e1]> (elements s))
                  (set_parent_to_submesh_element_ids m s)) e1)
    as (I1 & I2 & I3 & I4 & e' & He' & Hp & Hpar & Hlen & Hin & Hout).
  { cbn. apply list_lookup_insert_eq. by eapply lookup_lt_Some. }
  { done. }
  { done. }
  { intros c' Hc'. unfold e1, child. cbn.
    rewrite list_lookup_total_insert_ne by (intros ->; done). apply HW. by right. }
  cbn in I1, I3, I4, Hin. rewrite length_insert in I3.
  split; [done|]. split; [done|]. split; [done|]. split.
  { intros j Hj. rewrite I4 by done. by apply list_lookup_insert_ne. }
  exists e'. unfold e1 in Hlen. cbn in Hlen. rewrite length_insert in Hlen.
  split; [done|]. split; [done|]. split; [done|]. split; [done|]. split.
  - intros c' Hc' Hlt. apply elem_of_cons in Hc' as [->|Hc'].
    + assert (child e' !!! c = v) as ->; [|done].
      apply list_lookup_total_correct. unfold child. rewrite (Hout _ Hc).
      unfold e1. cbn. by apply list_lookup_insert_eq.
    + assert (c' ≠ c) as Hne by (intros ->; done).
      specialize (Hin c' Hc'). unfold e1, child in Hin. cbn in Hin.
      rewrite length_insert, list_lookup_total_insert_ne in Hin by done.
      by apply Hin.
  - intros c' Hc'. apply not_elem_of_cons in Hc' as [Hne Hc'].
    rewrite (Hout _ Hc'). unfold e1. cbn. by apply list_lookup_insert_ne.
Qed.

Lemma relabel_element_links W k s e0 :
  elements s !! k = Some e0 → emap_ok W s →
  (IsLeaf e0 = false →
   ∀ c, (c < ref_type_num_children (ref_type e0))%nat → W (child e0 !!! c)) →
  let r := relabel_element parent_mesh ref_type_num_children k s in
  parent_element_ids_ r.1 = parent_element_ids_ s ∧
  emap_ok W r.1 ∧
  length (elements r.1) = length (elements s) ∧
  (∀ j, j ≠ k → elements r.1 !! j = elements s !! j) ∧
  ∃ e', elements r.1 !! k = Some e' ∧ profile e' = profile e0 ∧
        (r.2 = true → links_translated ref_type_num_children (parent_element_ids_ s) e0 e') ∧
        (r.2 = false → 0 ≤ parent e0 ∧
                       parent_to_submesh_element_ids_ r.1 !! parent e0 = None).
Proof.
  intros Hk Hok HW. unfold relabel_element.
  rewrite (list_lookup_total_correct _ _ _ Hk).
  match goal with |- context [elements ?x !!! k] => set (s1 := x) end.
  assert (parent_element_ids_ s1 = parent_element_ids_ s ∧
          emap_ok W s1 ∧
          length (elements s1) = length (elements s) ∧
          (∀ j, j ≠ k → elements s1 !! j = elements s !! j) ∧
          ∃ e1, elements s1 !! k = Some e1 ∧ profile e1 = profile e0 ∧
                parent e1 = parent e0 ∧
                (IsLeaf e0 = false →
                 ∀ c, (c < ref_type_num_children (ref_type e0))%nat →
                      (c < length (child e0))%nat →
                      linked_id (parent_element_ids_ s) (child e0 !!! c) (child e1 !!! c)))
    as (S1 & S2 & S3 & S4 & e1 & He1 & Hp1 & Hpar1 & Hch).
  { unfold s1. destruct (IsLeaf e0) eqn:Hleaf.
    - destruct (leaf_branch_frame k (seq 0 (nv (GI parent_mesh (geom e0))))
                  (edges (GI parent_mesh (geom e0))) s e0 Hk)
        as (F1 & F2 & F3 & F4 & e1 & He1 & Hp & Hpar & _).
      split; [done|]. split; [by eapply emap_ok_frame|]. split; [done|]. split; [done|].
      exists e1. split; [done|]. split; [done|]. split; [done|]. intros; done.
    - destruct (remap_child_all_links W k (seq 0 (ref_type_num_children (ref_type e0)))
                  s e0 Hk (NoDup_seq _ _) Hok)
        as (F1 & F2 & F3 & F4 & e1 & He1 & Hp & Hpar & _ & Hin & _).
      { intros c Hc. apply HW; [done|]. apply elem_of_seq in Hc. lia. }
      split; [done|]. split; [done|]. split; [done|]. split; [done|].
      exists e1. split; [done|]. split; [done|]. split; [done|]. intros _ c Hc Hlt.
      apply Hin; [|done]. apply elem_of_seq. lia. }
  clearbody s1. rewrite (list_lookup_total_correct _ _ _ He1), Hpar1.
  destruct (Z.ltb_spec (parent e0) 0) as [Hneg|Hpos]; cbn.
  { split; [done|]. split; [done|]. split; [done|]. split; [done|].
    exists e1. split; [done|]. split; [done|]. split; [|done].
    intros _. split; [congruence|]. split; [lia|done]. }
  destruct (parent_to_submesh_element_ids_ s1 !! parent e0) as [v|] eqn:Hv; cbn.
  - split; [done|]. split; [done|]. rewrite length_alter. split; [done|]. split.
    { intros j Hj. rewrite list_lookup_alter_ne by done. by apply S4. }
    rewrite list_lookup_alter_eq, He1. cbn. eexists. split; [done|]. split; [done|].
    split; [|done]. intros _. split; [cbn; lia|]. split; [|done].
    intros _. cbn. rewrite <- S1. by eapply linked_id_found.
  - split; [done|]. split; [done|]. split; [done|]. split; [done|].
    exists e1. split; [done|]. split; [done|]. split; [done|]. done.
Qed.

End DomainLinks.

Lemma emap_ok_weaken (W W' : Z → Prop) s :
  (∀ p, W p → W' p) → emap_ok W s → emap_ok W' s.
Proof.
  intros HW [Hm HM]. split; [done|]. intros p v Hv.
  destruct (HM p v Hv) as [?|(? & ? & ?)]; [by left|right; auto].
Qed.

Lemma umap_index_keys (m : gmap Z Z) x p :
  is_Some (m !! p) → is_Some ((umap_index m x).2 !! p).
Proof.
  intros Hp. unfold umap_index. destruct (m !! x) eqn:E; cbn; [done|].
  destruct (decide (p = x)) as [->|Hne]; [by rewrite lookup_insert_eq|].
  by rewrite lookup_insert_ne.
Qed.

Lemma relabel_element_keys parent_mesh R k s p :
  is_Some (parent_to_submesh_element_ids_ s !! p) →
  is_Some (parent_to_submesh_element_ids_ (relabel_element parent_mesh R k s).1 !! p).
Proof.
  intros Hp. unfold relabel_element.
  match goal with |- context [elements ?x !!! k] => set (s1 := x) end.
  assert (is_Some (parent_to_submesh_element_ids_ s1 !! p)) as H1.
  { unfold s1. destruct (IsLeaf _).
    - apply (foldl_preserves (λ s', is_Some (parent_to_submesh_element_ids_ s' !! p))).
      { intros s0 ed H0. unfold reference_edge. set (pid := nodes_FindId parent_mesh _ _).
        destruct (Get pid (node_ids (MFEM_ASSERT 131 (0 <=? pid) s0))) as [[id new] g].
        by destruct new. }
      apply (foldl_preserves (λ s', is_Some (parent_to_submesh_element_ids_ s' !! p)));
        [|done].
      intros s0 n H0. unfold relabel_vertex. by destruct (Get _ (node_ids s0)) as [[??]?].
    - apply (foldl_preserves (λ s', is_Some (parent_to_submesh_element_ids_ s' !! p)));
        [|done].
      intros s0 c H0. unfold remap_child.
      pose proof (umap_index_keys (parent_to_submesh_element_ids_ s0)
                    (child (elements s0 !!! k) !!! c) p H0) as Hu.
      by destruct (umap_index _ _) as [v m]. }
  clearbody s1. destruct (_ <? 0); [done|].
  by destruct (parent_to_submesh_element_ids_ s1 !! parent (elements s1 !!! k)).
Qed.

Lemma relabel_element_parent_key parent_mesh R W k s e0 :
  elements s !! k = Some e0 → emap_ok W s →
  (IsLeaf e0 = false → ∀ c, (c < R (ref_type e0))%nat → W (child e0 !!! c)) →
  (relabel_element parent_mesh R k s).2 = true → 0 ≤ parent e0 →
  is_Some (parent_to_submesh_element_ids_ (relabel_element parent_mesh R k s).1
             !! parent e0).
Proof.
  intros Hk Hok HW. unfold relabel_element.
  rewrite (list_lookup_total_correct _ _ _ Hk).
  match goal with |- context [elements ?x !!! k] => set (s1 := x) end.
  assert (∃ e1, elements s1 !! k = Some e1 ∧ parent e1 = parent e0) as (e1 & He1 & Hpar).
  { unfold s1. destruct (IsLeaf e0) eqn:Hleaf.
    - destruct (leaf_branch_frame parent_mesh k (seq 0 (nv (GI parent_mesh (geom e0))))
                  (edges (GI parent_mesh (geom e0))) s e0 Hk)
        as (_ & _ & _ & _ & e1 & He1 & _ & Hpar & _). by exists e1.
    - destruct (remap_child_all_links W k (seq 0 (R (ref_type e0))) s e0 Hk
                  (NoDup_seq _ _) Hok)
        as (_ & _ & _ & _ & e1 & He1 & _ & Hpar & _).
      { intros c Hc. apply HW; [done|]. apply elem_of_seq in Hc. lia. }
      by exists e1. }
  clearbody s1. rewrite (list_lookup_total_correct _ _ _ He1), Hpar.
  destruct (Z.ltb_spec (parent e0) 0); [intros _ ?; lia|].
  destruct (parent_to_submesh_element_ids_ s1 !! parent e0) eqn:E; [|done].
  intros _ _. cbn. by rewrite E.
Qed.

Section DomainWalk.

Variable parent_mesh : ParNCMesh.
Variable attributes : list Z.
Variable GetSubMeshElementFromParent : Z → Z.
Variable ParentVertexIDMap : list Z.
Variable ref_type_num_children : Z → nat.

Lemma second_walk_links s0 m k s :
  (k + m = length (elements s0))%nat →
  parent_element_ids_ s = parent_element_ids_ s0 →
  length (elements s) = length (elements s0) →
  emap_ok (is_child_of ref_type_num_children (elements s0)) s →
  (∀ j, (k ≤ j)%nat → elements s !! j = elements s0 !! j) →
  (∀ j e0, elements s0 !! j = Some e0 →
           ∃ e', elements s !! j = Some e' ∧ profile e' = profile e0) →
  (∀ j e0, (j < k)%nat → elements s0 !! j = Some e0 →
           ∃ e', elements s !! j = Some e' ∧
                 links_translated ref_type_num_children (parent_element_ids_ s0) e0 e') →
  (∀ j e0, (j < k)%nat → elements s0 !! j = Some e0 → 0 ≤ parent e0 →
           is_Some (parent_to_submesh_element_ids_ s !! parent e0)) →
  let r := second_walk parent_mesh ref_type_num_children (seq k m) s in
  parent_element_ids_ r.1 = parent_element_ids_ s0 ∧
  length (elements r.1) = length (elements s0) ∧
  emap_ok (is_child_of ref_type_num_children (elements s0)) r.1 ∧
  (∀ j e0, elements s0 !! j = Some e0 →
           ∃ e', elements r.1 !! j = Some e' ∧ profile e' = profile e0) ∧
  (r.2 = true →
   ∀ j e0, elements s0 !! j = Some e0 →
           ∃ e', elements r.1 !! j = Some e' ∧
                 links_translated ref_type_num_children (parent_element_ids_ s0) e0 e') ∧
  (r.2 = true →
   ∀ j e0, elements s0 !! j = Some e0 → 0 ≤ parent e0 →
           is_Some (parent_to_submesh_element_ids_ r.1 !! parent e0)) ∧
  (r.2 = false →
   ∃ j e0, elements s0 !! j = Some e0 ∧ 0 ≤ parent e0 ∧
           parent_to_submesh_element_ids_ r.1 !! parent e0 = None).
Proof.
  revert k s. induction m as [|m IH];
    intros k s Hkm Hpe Hlen Hok Hrest Hprof Hdone Hkeys; cbn.
  { split; [done|]. split; [done|]. split; [done|]. split; [done|]. split; [|split; [|done]].
    - intros _ j e0 Hj. apply Hdone; [|done]. apply lookup_lt_Some in Hj. lia.
    - intros _ j e0 Hj H0. apply (Hkeys j); [|done..]. apply lookup_lt_Some in Hj. lia. }
  assert (∃ e0, elements s0 !! k = Some e0) as [e0 He0].
  { apply lookup_lt_is_Some. lia. }
  assert (elements s !! k = Some e0) as Hk by (by rewrite Hrest).
  destruct (relabel_element_links parent_mesh ref_type_num_children
              (is_child_of ref_type_num_children (elements s0)) k s e0 Hk Hok)
    as (R1 & R2 & R3 & R4 & e' & He' & Hp' & Htrue & Hfalse).
  { intros Hl c Hc. by exists k, e0, c. }
  pose proof (relabel_element_parent_key parent_mesh ref_type_num_children
                (is_child_of ref_type_num_children (elements s0)) k s e0 Hk Hok) as Hkey.
  pose proof (relabel_element_keys parent_mesh ref_type_num_children k s) as Hmono.
  destruct (relabel_element parent_mesh ref_type_num_children k s) as [s1 ok].
  cbn in R1, R2, R3, R4, He', Htrue, Hfalse, Hkey, Hmono.
  assert (∀ j e0, elements s0 !! j = Some e0 →
                  ∃ e', elements s1 !! j = Some e' ∧ profile e' = profile e0) as Hprof1.
  { intros j ej Hj. destruct (decide (j = k)) as [->|Hne].
    - exists e'. split; [done|]. rewrite He0 in Hj. by injection Hj as <-.
    - rewrite R4 by done. by apply Hprof. }
  destruct ok.
  - apply IH; try done.
    + lia.
    + congruence.
    + congruence.
    + intros j Hj. rewrite R4 by lia. apply Hrest. lia.
    + intros j ej Hj Hej. destruct (decide (j = k)) as [->|Hne].
      * exists e'. split; [done|]. rewrite He0 in Hej. injection Hej as <-.
        rewrite <- Hpe. by apply Htrue.
      * rewrite R4 by done. apply Hdone; [lia|done].
    + intros j ej Hj Hej H0. destruct (decide (j = k)) as [->|Hne].
      * rewrite He0 in Hej. injection Hej as <-. apply Hkey; [|done..].
        intros Hl c Hc. by exists k, e0, c.
      * apply Hmono. apply (Hkeys j); [lia|done..].
  - cbn. split; [congruence|]. split; [congruence|]. split; [done|]. split; [done|].
    split; [done|]. split; [done|]. intros _. exists k, e0. split; [done|]. by apply Hfalse.
Qed.

(** The state in which the second walk starts. *)
Lemma second_walk_start :
  let s1 := first_walk parent_mesh attributes GetSubMeshElementFromParent init_state in
  let s0 := foldl (bind_vertex parent_mesh ParentVertexIDMap) (register_new_nodes 90 s1)
                  (seq 0 (length ParentVertexIDMap)) in
  elements s0 = elements s1 ∧ parent_element_ids_ s0 = parent_element_ids_ s1 ∧
  parent_to_submesh_element_ids_ s0 = parent_to_submesh_element_ids_ s1.
Proof.
  intros s1 s0.
  destruct (register_nodes_frame 90 (new_nodes s1) s1) as (He & Hpe & Hm & _).
  unfold s0, register_new_nodes.
  apply (foldl_preserves
    (λ s, elements s = elements s1 ∧ parent_element_ids_ s = parent_element_ids_ s1 ∧
          parent_to_submesh_element_ids_ s = parent_to_submesh_element_ids_ s1)); [|done].
  intros s iv (H1 & H2 & H3). unfold bind_vertex. by destruct (Get _ _) as [[??]?].
Qed.

Lemma domain_pass_links s completed :
  domain_pass parent_mesh attributes GetSubMeshElementFromParent ParentVertexIDMap
              ref_type_num_children = (s, completed) →
  let sel := selected parent_mesh attributes (length (p_elements parent_mesh)) in
  let copy := λ ipe, set_index (GetSubMeshElementFromParent
                                  (index (p_elements parent_mesh !!! ipe)))
                               (p_elements parent_mesh !!! ipe) in
  parent_element_ids_ s = Z.of_nat <$> sel ∧
  length (elements s) = length sel ∧
  emap_ok (is_child_of ref_type_num_children (copy <$> sel)) s ∧
  (∀ j ipe, sel !! j = Some ipe →
            ∃ e', elements s !! j = Some e' ∧ profile e' = profile (copy ipe)) ∧
  (completed = true →
   ∀ j ipe, sel !! j = Some ipe →
            ∃ e', elements s !! j = Some e' ∧
                  links_translated ref_type_num_children (Z.of_nat <$> sel) (copy ipe) e') ∧
  (completed = true →
   ∀ j ipe, sel !! j = Some ipe → 0 ≤ parent (copy ipe) →
            is_Some (parent_to_submesh_element_ids_ s !! parent (copy ipe))) ∧
  (completed = false →
   ∃ j ipe, sel !! j = Some ipe ∧ 0 ≤ parent (copy ipe) ∧
            parent_to_submesh_element_ids_ s !! parent (copy ipe) = None).
Proof.
  intros Hrun sel copy. revert Hrun. unfold domain_pass.
  destruct (first_walk_result parent_mesh attributes GetSubMeshElementFromParent)
    as (F1 & F2 & F3).
  destruct second_walk_start as (S1 & S2 & S3).
  set (s0 := foldl (bind_vertex parent_mesh ParentVertexIDMap) _ _) in *.
  fold sel in F1, F2. fold copy in F1.
  rewrite F1 in S1. rewrite F2 in S2.
  assert (emap_ok (is_child_of ref_type_num_children (elements s0)) s0) as Hok.
  { eapply emap_ok_weaken; [|eapply emap_ok_frame; [| |exact F3]]; try done.
    - by rewrite S2, F2.
  }
  destruct (second_walk_links s0 (length (elements s0)) 0 s0)
    as (W1 & W2 & W3 & W4 & W5 & W7 & W6); try done.
  { intros j e0 Hj. by exists e0. }
  { intros; lia. }
  { intros; lia. }
  intros Hrun. rewrite Hrun in *. cbn in *. rewrite S1 in *. rewrite S2 in *.
  split; [done|]. split; [by rewrite W2, length_fmap|]. split; [done|].
  split; [|split; [|split]].
  - intros j ipe Hj. apply W4. by rewrite list_lookup_fmap, Hj.
  - intros Hc j ipe Hj. apply (W5 Hc). by rewrite list_lookup_fmap, Hj.
  - intros Hc j ipe Hj H0. apply (W7 Hc j (copy ipe)); [|done].
    by rewrite list_lookup_fmap, Hj.
  - intros Hc. destruct (W6 Hc) as (j & e0 & Hj & H0 & Hnone).
    rewrite list_lookup_fmap in Hj. destruct (sel !! j) as [ipe|] eqn:E; [|done].
    injection Hj as <-. by exists j, ipe.
Qed.

End DomainWalk.

Lemma filter_seq_sorted (f : nat → bool) a n :
  StronglySorted Z.lt (Z.of_nat <$> List.filter f (seq a n)).
Proof.
  revert a. induction n as [|n IH]; intros a; cbn; [constructor|].
  assert (Forall (Z.lt (Z.of_nat a)) (Z.of_nat <$> List.filter f (seq (S a) n))) as Hall.
  { apply Forall_forall. intros x Hx. apply list_elem_of_fmap in Hx as (i & -> & Hi).
    apply list_elem_of_In, filter_In in Hi as [Hi _]. apply in_seq in Hi. lia. }
  destruct (f a); cbn; [|apply IH]. constructor; [apply IH|done].
Qed.

(** X14.  The first walk of the domain pass (lines 60-82) copies exactly
    the parent elements that carry a requested attribute, in the order of
    the parent mesh: [parent_element_ids_] is the increasing list of their
    indices, and the submesh element [i] keeps the geometry, the refinement
    type, the rank and the attribute of the parent element
    [parent_element_ids_[i]], its index being translated by
    [GetSubMeshElementFromParent].  The second walk changes none of this,
    whether it completes or not. *)
Theorem X14_domain_copies_selected (parent_mesh : ParNCMesh) (attributes : list Z)
    (GetSubMeshElementFromParent : Z → Z) (ParentVertexIDMap : list Z)
    (ref_type_num_children : Z → nat) (s : NCState) (completed : bool) :
  domain_pass parent_mesh attributes GetSubMeshElementFromParent ParentVertexIDMap
              ref_type_num_children = (s, completed) →
  parent_element_ids_ s
    = Z.of_nat <$> List.filter
        (λ ipe, HasAttribute (attribute (p_elements parent_mesh !!! ipe)) attributes)
        (seq 0 (length (p_elements parent_mesh))) ∧
  length (elements s) = length (parent_element_ids_ s) ∧
  (∀ i j p q, (i < j)%nat → parent_element_ids_ s !! i = Some p →
              parent_element_ids_ s !! j = Some q → p < q) ∧
  (∀ i p, parent_element_ids_ s !! i = Some p →
     ∃ e pel, elements s !! i = Some e ∧ 0 ≤ p ∧
              p_elements parent_mesh !! Z.to_nat p = Some pel ∧
              HasAttribute (attribute pel) attributes = true ∧
              geom e = geom pel ∧ ref_type e = ref_type pel ∧ rank e = rank pel ∧
              attribute e = attribute pel ∧
              index e = GetSubMeshElementFromParent (index pel)).
Proof.
  intros Hrun.
  destruct (domain_pass_links _ _ _ _ _ _ _ Hrun) as (Hpe & Hlen & _ & Hprof & _).
  unfold selected in *. split; [done|]. split; [by rewrite Hpe, length_fmap|]. split.
  - intros i j p q Hij Hi Hj. rewrite Hpe in Hi, Hj.
    eapply (StronglySorted_lookup_lt _ i j); [apply filter_seq_sorted|done..].
  - intros i p Hi. rewrite Hpe, list_lookup_fmap in Hi.
    destruct (List.filter _ _ !! i) as [ipe|] eqn:Hsel; [|done]. injection Hi as <-.
    destruct (Hprof i ipe Hsel) as (e & He & Hp).
    pose proof (list_elem_of_lookup_2 _ _ _ Hsel) as Hin.
    apply list_elem_of_In, filter_In in Hin as [Hin Hattr]. apply in_seq in Hin.
    exists e, (p_elements parent_mesh !!! ipe). split; [done|]. split; [lia|].
    rewrite Nat2Z.id. split; [apply list_lookup_lookup_total_lt; lia|]. split; [done|].
    unfold profile in Hp. cbn in Hp. by injection Hp as -> -> -> -> ->.
Qed.

Lemma X14_domain_copies_selected_witness :
  parent_element_ids_ quad_domain_state = [0; 1; 2; 3; 4] ∧
  length (elements quad_domain_state) = length (parent_element_ids_ quad_domain_state).
Proof.
  destruct (X14_domain_copies_selected _ _ _ _ _ _ _ quad_domain_run) as (H1 & H2 & _).
  split; [|exact H2]. rewrite H1. vm_compute. reflexivity.
Defined.

(** X15.  When the second walk of the domain pass completes, the links of
    every submesh element are those of its parent element translated to
    submesh ids: a negative parent link is kept; a parent link or a child
    link (one of the first [ref_type_num_children] slots of an internal
    element) to a selected parent element becomes the position of that
    element in [parent_element_ids_]; and a link to a parent element that
    was not selected becomes 0, the look-up of line 161 having inserted the
    missing key with the value 0. *)
Theorem X15_domain_links_translated (parent_mesh : ParNCMesh) (attributes : list Z)
    (GetSubMeshElementFromParent : Z → Z) (ParentVertexIDMap : list Z)
    (ref_type_num_children : Z → nat) (s : NCState) (i : nat) (p : Z) :
  domain_pass parent_mesh attributes GetSubMeshElementFromParent ParentVertexIDMap
              ref_type_num_children = (s, true) →
  parent_element_ids_ s !! i = Some p →
  ∃ e pel,
    elements s !! i = Some e ∧ p_elements parent_mesh !! Z.to_nat p = Some pel ∧
    (parent pel < 0 → parent e = parent pel) ∧
    (0 ≤ parent pel → parent pel ∈ parent_element_ids_ s →
     0 ≤ parent e ∧ parent_element_ids_ s !! Z.to_nat (parent e) = Some (parent pel)) ∧
    (0 ≤ parent pel → parent pel ∉ parent_element_ids_ s → parent e = 0) ∧
    (IsLeaf pel = false →
     ∀ c, (c < ref_type_num_children (ref_type pel))%nat → (c < length (child pel))%nat →
          (child pel !!! c ∈ parent_element_ids_ s →
           0 ≤ child e !!! c ∧
           parent_element_ids_ s !! Z.to_nat (child e !!! c) = Some (child pel !!! c)) ∧
          (child pel !!! c ∉ parent_element_ids_ s → child e !!! c = 0)).
Proof.
  intros Hrun Hi.
  destruct (domain_pass_links _ _ _ _ _ _ _ Hrun) as (Hpe & Hlen & _ & _ & Hlinks & _).
  rewrite Hpe, list_lookup_fmap in Hi.
  destruct (selected _ _ _ !! i) as [ipe|] eqn:Hsel; [|done]. injection Hi as <-.
  destruct (Hlinks eq_refl i ipe Hsel) as (e & He & Hpar1 & Hpar2 & Hch).
  pose proof (list_elem_of_lookup_2 _ _ _ Hsel) as Hin. apply selected_elem in Hin as [Hin _].
  exists e, (p_elements parent_mesh !!! ipe). rewrite Nat2Z.id, Hpe. cbn in *.
  split; [done|]. split; [apply list_lookup_lookup_total_lt; lia|].
  split; [done|]. split; [|split].
  - intros H0 Hsel'. by apply (Hpar2 H0).
  - intros H0 Hsel'. by apply (Hpar2 H0).
  - intros Hl c Hc Hlt. apply (Hch Hl c Hc Hlt).
Qed.

Lemma X15_domain_links_translated_witness :
  ∃ e pel,
    elements quad_domain_state !! 0%nat = Some e ∧
    p_elements quad_domain_mesh !! 0%nat = Some pel ∧
    parent e = -1 ∧
    parent_element_ids_ quad_domain_state !! Z.to_nat (child e !!! 2%nat)
      = Some (child pel !!! 2%nat).
Proof.
  assert (parent_element_ids_ quad_domain_state !! 0%nat = Some 0) as H0
    by (vm_compute; reflexivity).
  destruct (X15_domain_links_translated _ _ _ _ _ _ 0%nat 0 quad_domain_run H0)
    as (e & pel & He & Hpel & Hneg & _ & _ & Hch).
  exists e, pel. split; [exact He|]. split; [exact Hpel|].
  assert (pel = mkElement SQUARE Refinement_XY 0 1 ([1; 2; 3; 4] ++ replicate 6 (-1))
                          (-1) (-1)) as ->.
  { vm_compute in Hpel. by injection Hpel as <-. }
  split; [apply Hneg; cbn; lia|].
  destruct (Hch eq_refl 2%nat ltac:(cbn; lia) ltac:(cbn; lia)) as [Hsel _].
  apply Hsel. apply (list_elem_of_lookup_2 _ 3%nat). vm_compute. reflexivity.
Defined.

(** X16.  The second walk of the domain pass completes whenever the
    parent of every selected element is [-1] or selected itself: the
    look-up of line 164 then finds its key.  When, in addition to that, no
    selected internal element has a child that was not selected, the
    converse holds too: if the walk completes, every non-negative parent of
    a selected element is selected. *)
Theorem X16_domain_completion (parent_mesh : ParNCMesh) (attributes : list Z)
    (GetSubMeshElementFromParent : Z → Z) (ParentVertexIDMap : list Z)
    (ref_type_num_children : Z → nat) (s : NCState) (completed : bool) :
  domain_pass parent_mesh attributes GetSubMeshElementFromParent ParentVertexIDMap
              ref_type_num_children = (s, completed) →
  ((∀ p, p ∈ parent_element_ids_ s →
         0 ≤ parent (p_elements parent_mesh !!! Z.to_nat p) →
         parent (p_elements parent_mesh !!! Z.to_nat p) ∈ parent_element_ids_ s) →
   completed = true) ∧
  ((∀ p c, p ∈ parent_element_ids_ s →
           IsLeaf (p_elements parent_mesh !!! Z.to_nat p) = false →
           (c < ref_type_num_children (ref_type (p_elements parent_mesh !!! Z.to_nat p)))%nat →
           child (p_elements parent_mesh !!! Z.to_nat p) !!! c ∈ parent_element_ids_ s) →
   completed = true →
   ∀ p, p ∈ parent_element_ids_ s →
        0 ≤ parent (p_elements parent_mesh !!! Z.to_nat p) →
        parent (p_elements parent_mesh !!! Z.to_nat p) ∈ parent_element_ids_ s).
Proof.
  intros Hrun.
  destruct (domain_pass_links _ _ _ _ _ _ _ Hrun)
    as (Hpe & Hlen & [Hm HM] & _ & _ & Hkeys & Hfail).
  cbn in *. split.
  - intros Hclosed. destruct completed; [done|]. exfalso.
    destruct (Hfail eq_refl) as (j & ipe & Hj & H0 & Hnone).
    assert (Z.of_nat ipe ∈ parent_element_ids_ s) as Hin.
    { rewrite Hpe. apply list_elem_of_fmap. exists ipe. split; [done|].
      by eapply list_elem_of_lookup_2. }
    specialize (Hclosed _ Hin). rewrite Nat2Z.id in Hclosed. specialize (Hclosed H0).
    apply list_elem_of_lookup in Hclosed as [i Hi]. by rewrite (Hm _ _ Hi) in Hnone.
  - intros Hchildren -> p Hin H0.
    rewrite Hpe in Hin. apply list_elem_of_fmap in Hin as (ipe & -> & Hin).
    apply list_elem_of_lookup in Hin as [j Hj]. rewrite Nat2Z.id in *.
    destruct (Hkeys eq_refl j ipe Hj H0) as [v Hv].
    destruct (HM _ _ Hv) as [[_ Hl]|(Hn & _ & HW)]; [by eapply list_elem_of_lookup_2|].
    exfalso. apply Hn. destruct HW as (j' & e0 & c & Hj' & Hleaf & Hc & <-).
    rewrite list_lookup_fmap in Hj'.
    destruct (selected _ _ _ !! j') as [ipe'|] eqn:Hsel; [|done].
    injection Hj' as <-. cbn in *.
    specialize (Hchildren (Z.of_nat ipe') c). rewrite Nat2Z.id in Hchildren.
    apply Hchildren; [|done..].
    rewrite Hpe. apply list_elem_of_fmap. exists ipe'. split; [done|].
    by eapply list_elem_of_lookup_2.
Qed.

Lemma X16_domain_completion_witness :
  parent (p_elements quad_domain_mesh !!! Z.to_nat 1) ∈ parent_element_ids_ quad_domain_state.
Proof.
  destruct (X16_domain_completion _ _ _ _ _ _ _ quad_domain_run) as [_ H].
  assert (parent_element_ids_ quad_domain_state = [0; 1; 2; 3; 4]) as Hpe
    by (vm_compute; reflexivity).
  match type of H with ?A → _ => assert A as Hcl end.
  { clear H. rewrite Hpe. clear Hpe. intros p c Hp.
    repeat (apply elem_of_cons in Hp as [->|Hp]);
      [|intros Hl; vm_compute in Hl; discriminate Hl..|by apply elem_of_nil in Hp].
    intros _ Hc. vm_compute in Hc.
    destruct c as [|[|[|[|c]]]]; [| | | |lia].
    + apply (list_elem_of_lookup_2 _ 1%nat). vm_compute. reflexivity.
    + apply (list_elem_of_lookup_2 _ 2%nat). vm_compute. reflexivity.
    + apply (list_elem_of_lookup_2 _ 3%nat). vm_compute. reflexivity.
    + apply (list_elem_of_lookup_2 _ 4%nat). vm_compute. reflexivity. }
  assert (1 ∈ parent_element_ids_ quad_domain_state) as Hin.
  { rewrite Hpe. apply (list_elem_of_lookup_2 _ 1%nat). reflexivity. }
  assert (0 ≤ parent (p_elements quad_domain_mesh !!! Z.to_nat 1)) as H0.
  { vm_compute. discriminate. }
  exact (H Hcl eq_refl 1 Hin H0).
Defined.

(** ** The reordering loop loses no element *)

Lemma Permute_perm {A} `{Inhabited A} (nto : list nat) (a : list A) :
  nto ≡ₚ seq 0 (length a) → Permute nto a ≡ₚ a.
Proof.
  intros Hp. unfold Permute. rewrite Hp.
  pose proof (Permute_iota a) as Hi. unfold Permute, iota in Hi. by rewrite Hi.
Qed.

Lemma Permute_fmap {A B} `{Inhabited A} `{Inhabited B} (f : A → B) (nto : list nat)
    (a : list A) :
  Forall (λ i, (i < length a)%nat) nto → Permute nto (f <$> a) = f <$> Permute nto a.
Proof.
  intros Hall. unfold Permute. rewrite <- list_fmap_compose.
  apply Forall_fmap_ext. eapply Forall_impl; [done|]. intros i Hi. cbn in *.
  rewrite !list_lookup_total_alt, list_lookup_fmap.
  destruct (a !! i) eqn:E; [done|]. apply lookup_ge_None in E. lia.
Qed.

Lemma Permute_zip {A B} `{Inhabited A} `{Inhabited B} (nto : list nat)
    (a : list A) (b : list B) :
  length a = length b → Forall (λ i, (i < length a)%nat) nto →
  Permute nto (zip a b) = zip (Permute nto a) (Permute nto b).
Proof.
  intros Hlen Hall. unfold Permute. induction Hall as [|i nto Hi Hall IH]; [done|].
  cbn. rewrite IH. f_equal.
  assert (∃ x, a !! i = Some x) as [x Hx] by (by apply lookup_lt_is_Some).
  assert (∃ y, b !! i = Some y) as [y Hy] by (apply lookup_lt_is_Some; lia).
  rewrite (list_lookup_total_correct _ _ _ Hx), (list_lookup_total_correct _ _ _ Hy).
  apply list_lookup_total_correct. rewrite lookup_zip_with, Hx. cbn. by rewrite Hy.
Qed.

Lemma relink_all_rows otn els :
  (λ e, (geom e, attribute e, ref_type e, index e))
    <$> foldl (relink_element otn) els (seq 0 (length els))
  = (λ e, (geom e, attribute e, ref_type e, index e)) <$> els.
Proof.
  apply list_eq. intros i. rewrite !list_lookup_fmap.
  destruct (els !! i) as [e|] eqn:He.
  - destruct (relink_all_spec otn els i e He) as (e' & He' & Hg & Ha & Hr & Hx & _).
    rewrite He'. cbn. by rewrite Hg, Ha, Hr, Hx.
  - rewrite (lookup_ge_None_2 (foldl _ _ _)); [done|].
    rewrite relink_all_length. by apply lookup_ge_None.
Qed.

Lemma reorder_step_rows s :
  length (parent_element_ids_ s) = length (elements s) →
  element_rows (reorder_step s) ≡ₚ element_rows s ∧
  length (parent_element_ids_ (reorder_step s)) = length (elements (reorder_step s)).
Proof.
  intros Hlen. pose proof (sorted_new_to_old_perm s) as Hp.
  assert (Forall (λ i, (i < length (elements s))%nat) (sorted_new_to_old s)) as Hall.
  { apply Forall_forall. intros i Hi. rewrite Hp in Hi. apply elem_of_seq in Hi. lia. }
  split.
  - unfold element_rows, reorder_step. cbn [elements parent_element_ids_ set_elements
      set_parent_element_ids set_face_nodes_table set_parent_to_submesh_element_ids].
    rewrite relink_all_rows.
    rewrite <- Permute_fmap by done.
    rewrite <- Permute_zip.
    + apply Permute_perm. rewrite length_zip_with, length_fmap, Hlen.
      by rewrite Nat.min_id.
    + by rewrite length_fmap.
    + by rewrite Hlen.
  - rewrite reorder_step_length. unfold reorder_step. cbn.
    rewrite Permute_length. by apply perm_seq_length.
Qed.

Lemma reorder_loop_rows fuel s s' k :
  length (parent_element_ids_ s) = length (elements s) →
  reorder_loop fuel s = Some (s', k) →
  element_rows s' ≡ₚ element_rows s ∧
  length (parent_element_ids_ s') = length (elements s').
Proof.
  revert s s' k. induction fuel as [|fuel IH]; intros s s' k Hlen; cbn.
  - destruct (parental_sorted s); [|done]. by intros [= <- _].
  - destruct (parental_sorted s); [by intros [= <- _]|].
    destruct (reorder_loop fuel (reorder_step s)) as [[s1 k1]|] eqn:E; [|done].
    intros [= <- _]. destruct (reorder_step_rows s Hlen) as [Hr Hl].
    destruct (IH _ _ _ Hl E) as [Hr' Hl']. split; [|done]. by rewrite Hr'.
Qed.

(** X17.  The reordering loop of the boundary branch neither loses nor
    duplicates an element: when the branch gets through it, the elements
    with their entries of [parent_element_ids_] are a rearrangement of those
    the discovery loop left, as far as the parent id, the geometry, the
    attribute, the refinement type and the index of each element go; in
    particular the number of elements and the parent ids are the same. *)
Theorem X17_reordering_keeps_elements (parent_mesh : ParNCMesh) (Dim : Z)
    (attributes indeterminate : list Z) (fuel : nat) (s0 s : NCState) (sorts : nat) :
  discover parent_mesh Dim attributes indeterminate fuel = (s0, true) →
  boundary_pass parent_mesh Dim attributes indeterminate fuel = Some (s, sorts) →
  zip (parent_element_ids_ s)
      ((λ e, (geom e, attribute e, ref_type e, index e)) <$> elements s)
  ≡ₚ zip (parent_element_ids_ s0)
         ((λ e, (geom e, attribute e, ref_type e, index e)) <$> elements s0) ∧
  parent_element_ids_ s ≡ₚ parent_element_ids_ s0 ∧
  length (elements s) = length (elements s0).
Proof.
  intros Hdisc. unfold boundary_pass. rewrite Hdisc. intros Hloop.
  destruct (discover_inv_discover parent_mesh Dim attributes indeterminate fuel) as [j Hj].
  rewrite Hdisc in Hj. cbn in Hj. pose proof (inv_len _ _ Hj) as Hlen.
  destruct (register_nodes_frame 368 (new_nodes s0) s0) as (He & Hpe & _).
  set (s1 := set_new_nodes [] (register_new_nodes 368 s0)) in Hloop.
  assert (length (parent_element_ids_ s1) = length (elements s1)) as Hlen1.
  { unfold s1. cbn. unfold register_new_nodes. by rewrite He, Hpe. }
  destruct (reorder_loop_rows _ _ _ _ Hlen1 Hloop) as [Hrows Hlen'].
  unfold element_rows, s1 in Hrows. cbn in Hrows. unfold register_new_nodes in Hrows.
  rewrite He, Hpe in Hrows. split; [done|].
  assert (parent_element_ids_ s ≡ₚ parent_element_ids_ s0) as Hperm.
  { apply (fmap_Permutation fst) in Hrows.
    rewrite !fst_zip in Hrows; [done|rewrite length_fmap; lia..]. }
  split; [done|]. rewrite <- Hlen', <- Hlen. by rewrite Hperm.
Qed.

Lemma X17_reordering_keeps_elements_witness :
  parent_element_ids_ edge_tree_result ≡ₚ parent_element_ids_ edge_tree_discovery ∧
  length (elements edge_tree_result) = length (elements edge_tree_discovery).
Proof.
  assert (discover edge_tree_mesh 1 [1] [0; 0; 0; 0] 10 = (edge_tree_discovery, true)) as Hrun
    by (vm_compute; reflexivity).
  destruct (X17_reordering_keeps_elements edge_tree_mesh 1 [1] [0; 0; 0; 0] 10
              edge_tree_discovery edge_tree_result 2%nat Hrun edge_tree_run) as (_ & H2 & H3).
  split; [exact H2|exact H3].
Defined.

(** ** The nodes of the domain pass *)

Lemma foldl_set_insert_elem {B} (g : B → Z) (l : list B) ns x :
  x ∈ foldl (λ ns b, set_insert (g b) ns) ns l ↔ x ∈ ns ∨ ∃ b, b ∈ l ∧ x = g b.
Proof.
  revert ns. induction l as [|c l IH]; intros ns; cbn.
  - split; [by left|]. intros [?|(b & Hb & _)]; [done|]. by apply elem_of_nil in Hb.
  - rewrite IH, set_insert_elem. split.
    + intros [[->|?]|(b & Hb & ->)].
      * right. exists c. split; [apply elem_of_cons; by left|done].
      * by left.
      * right. exists b. split; [apply elem_of_cons; by right|done].
    + intros [?|(b & Hb & ->)]; [left; by right|].
      apply elem_of_cons in Hb as [->|Hb]; [left; by left|right; eauto].
Qed.

Section DomainNodes.

Variable parent_mesh : ParNCMesh.
Variable attributes : list Z.
Variable GetSubMeshElementFromParent : Z → Z.
Variable ParentVertexIDMap : list Z.
Variable ref_type_num_children : Z → nat.

(** The first walk collects the nodes of the selected leaves, and nothing
    else. *)
Lemma first_walk_nodes x :
  x ∈ new_nodes (first_walk parent_mesh attributes GetSubMeshElementFromParent init_state) ↔
  ∃ ipe, ipe ∈ selected parent_mesh attributes (length (p_elements parent_mesh)) ∧
         IsLeaf (p_elements parent_mesh !!! ipe) = true ∧
         node_of_leaf parent_mesh (p_elements parent_mesh !!! ipe) x.
Proof.
  revert x. unfold first_walk.
  apply (foldl_seq_inv (λ k s, ∀ x, x ∈ new_nodes s ↔
    ∃ ipe, ipe ∈ selected parent_mesh attributes k ∧
           IsLeaf (p_elements parent_mesh !!! ipe) = true ∧
           node_of_leaf parent_mesh (p_elements parent_mesh !!! ipe) x)).
  { intros x. cbn. split; [by intros ?%elem_of_nil|].
    intros (ipe & Hin & _). by apply elem_of_nil in Hin. }
  intros k s Hk IH x. rewrite selected_S. unfold copy_element.
  set (pe := p_elements parent_mesh !!! k).
  destruct (HasAttribute (attribute pe) attributes) eqn:Hsel; cbn [negb].
  2:{ rewrite app_nil_r. apply IH. }
  cbn [AddElement]. unfold upd. rewrite Nat2Z.id.
  cbn [elements set_elements set_parent_element_ids set_parent_to_submesh_element_ids].
  rewrite alter_app_last.
  set (el := set_index (GetSubMeshElementFromParent (index pe)) pe).
  assert (∀ P : nat → Prop,
            (∃ ipe, ipe ∈ selected parent_mesh attributes k ++ [k] ∧ P ipe) ↔
            (∃ ipe, ipe ∈ selected parent_mesh attributes k ∧ P ipe) ∨ P k) as Hsplit.
  { intros P. split.
    - intros (ipe & [Hin|Hin%list_elem_of_singleton]%elem_of_app & HP); [left; eauto|].
      right. by subst.
    - intros [(ipe & Hin & HP)|HP]; [exists ipe|exists k]; (split; [|done]);
        apply elem_of_app; [by left|right; by apply list_elem_of_singleton]. }
  rewrite Hsplit. fold pe. destruct (IsLeaf pe) eqn:Hleaf; cbn [negb].
  - assert (rd (elements s ++ [el]) (Z.of_nat (length (elements s))) = el) as Hel.
    { unfold rd. rewrite Nat2Z.id. by apply (list_lookup_total_middle (elements s) [] el). }
    cbn [elements set_elements set_new_nodes new_nodes
         set_parent_element_ids set_parent_to_submesh_element_ids].
    rewrite !Hel.
    rewrite (foldl_set_insert_elem
               (λ e : Z * Z, nodes_FindId parent_mesh (rd (node el) e.1) (rd (node el) e.2))).
    rewrite (foldl_set_insert_elem (λ n : nat, node el !!! n)).
    rewrite IH. unfold node_of_leaf. cbn [node el set_index]. split.
    + intros [[?|(n & Hn%elem_of_seq & ->)]|(e & He & ->)]; [by left|right..].
      * split; [done|]. left. exists n. split; [lia|done].
      * split; [done|]. right. by exists e.
    + intros [?|(_ & [(n & Hn & ->)|(e & He & ->)])]; [left; by left| |].
      * left. right. exists n. split; [apply elem_of_seq; lia|done].
      * right. by exists e.
  - cbn [new_nodes set_elements set_parent_element_ids set_parent_to_submesh_element_ids].
    rewrite IH. split; [by left|]. intros [?|(Hl & _)]; [done|congruence].
Qed.

(** Registration turns the collected set into [parent_node_ids_]. *)
Lemma registered_nodes :
  let s1 := first_walk parent_mesh attributes GetSubMeshElementFromParent init_state in
  let s2 := register_new_nodes 90 s1 in
  parent_node_ids_ s2 = new_nodes s1 ∧ node_maps_inv s2 ∧ StronglySorted Z.lt (new_nodes s1) ∧
  elements s2 = elements s1.
Proof.
  intros s1 s2.
  pose proof (first_walk_inv_first_walk parent_mesh attributes GetSubMeshElementFromParent)
    as [_ _ _ (H4a & H4b & H4c) _ H6 _].
  fold s1 in H4a, H4b, H4c, H6.
  destruct (register_nodes_frame 90 (new_nodes s1) s1) as (He & _).
  destruct (register_nodes_inv 90 (new_nodes s1) s1) as [Hinv Hpni].
  { by apply node_maps_inv_empty. }
  { by apply StronglySorted_lt_NoDup. }
  { intros n _. rewrite H4a. apply not_elem_of_nil. }
  rewrite H4a in Hpni. done.
Qed.

Lemma node_maps_inv_covers s : node_maps_inv s → registry_covers s.
Proof.
  intros [(_ & _ & Hi) _] j p Hj. apply Hi. split; [lia|]. by rewrite Nat2Z.id.
Qed.

(** Binding the vertices may hand out ids, but touches neither the node
    maps nor a registered id. *)
Lemma bind_vertices_nodes ivs s :
  registry_covers s →
  let s' := foldl (bind_vertex parent_mesh ParentVertexIDMap) s ivs in
  registry_covers s' ∧ parent_node_ids_ s' = parent_node_ids_ s ∧
  parent_to_submesh_node_ids_ s' = parent_to_submesh_node_ids_ s ∧
  elements s' = elements s.
Proof.
  intros Hcov.
  apply (foldl_preserves (λ s', registry_covers s' ∧
           parent_node_ids_ s' = parent_node_ids_ s ∧
           parent_to_submesh_node_ids_ s' = parent_to_submesh_node_ids_ s ∧
           elements s' = elements s)); [|done].
  intros s0 iv (H1 & H2 & H3 & H4). unfold bind_vertex.
  set (p := rd (vertex_nodeId parent_mesh) _).
  destruct (Get_cases p (node_ids s0)) as [(v & Hv & ->)|(Hn & ->)].
  - split; [|done]. intros j q Hj. cbn in *. by apply H1.
  - split; [|done]. intros j q Hj. cbn in *.
    rewrite lookup_insert_ne; [by apply H1|]. intros ->.
    specialize (H1 j q Hj). congruence.
Qed.

(** The vertex loop of a leaf whose nodes are registered: every vertex
    slot receives the position of its node in [parent_node_ids_]. *)
Lemma relabel_vertices_round_trip k s e0 m :
  elements s !! k = Some e0 → registry_covers s → (m ≤ length (node e0))%nat →
  (∀ n, (n < m)%nat → node e0 !!! n ∈ parent_node_ids_ s) →
  let s' := foldl (relabel_vertex k) s (seq 0 m) in
  node_frame k s s' ∧
  ∃ e1, elements s' !! k = Some e1 ∧ length (node e1) = length (node e0) ∧
        (∀ n, (n < m)%nat →
              0 ≤ node e1 !!! n ∧
              parent_node_ids_ s !! Z.to_nat (node e1 !!! n) = Some (node e0 !!! n)) ∧
        (∀ n, (m ≤ n)%nat → node e1 !!! n = node e0 !!! n).
Proof.
  intros Hk Hcov Hm Hin.
  pose (I := λ (i : nat) (s' : NCState),
    (i ≤ m)%nat → node_frame k s s' ∧
    ∃ e1, elements s' !! k = Some e1 ∧ length (node e1) = length (node e0) ∧
          (∀ n, (n < i)%nat →
                0 ≤ node e1 !!! n ∧
                parent_node_ids_ s !! Z.to_nat (node e1 !!! n) = Some (node e0 !!! n)) ∧
          (∀ n, (i ≤ n)%nat → node e1 !!! n = node e0 !!! n)).
  cut (I m (foldl (relabel_vertex k) s (seq 0 m))); [intros H; by apply H|].
  apply (foldl_seq_inv I).
  { intros _. split; [done|]. exists e0. split; [done|]. split; [done|].
    split; [intros; lia|done]. }
  intros i s' Hi IH _. destruct (IH ltac:(lia)) as ((F1 & F2 & F3 & F4 & F5) & e1 & Hk1 & Hl1 & Hlo & Hhi).
  destruct (proj1 (list_elem_of_lookup _ _) (Hin i Hi)) as [j Hj].
  assert (relabel_vertex k s' i
          = MFEM_ASSERT 123 true
              (set_elements (alter (λ el, set_node (<[i := Z.of_nat j]> (node el)) el) k
                                   (elements s')) s')) as ->.
  { unfold relabel_vertex. rewrite (list_lookup_total_correct _ _ _ Hk1).
    rewrite (Hhi i) by lia. unfold Get. rewrite F1, (Hcov _ _ Hj). cbn [negb].
    rewrite <- F1. by rewrite set_node_ids_same. }
  split.
  - unfold node_frame. cbn. rewrite length_alter. repeat split; try done.
    intros j' Hj'. rewrite list_lookup_alter_ne by done. by apply F5.
  - exists (set_node (<[i := Z.of_nat j]> (node e1)) e1). cbn.
    rewrite list_lookup_alter_eq, Hk1. split; [done|]. rewrite length_insert.
    split; [done|]. split.
    + intros n Hn. destruct (decide (n = i)) as [->|Hne].
      * rewrite list_lookup_total_insert_eq by lia. rewrite Nat2Z.id. split; [lia|].
        by rewrite Hj.
      * rewrite list_lookup_total_insert_ne by done. apply Hlo. lia.
    + intros n Hn. rewrite list_lookup_total_insert_ne by lia. apply Hhi. lia.
Qed.

(** The edge loop of a leaf whose edge nodes are registered creates no
    node. *)
Lemma reference_edges_known k e1 es s :
  elements s !! k = Some e1 → registry_covers s →
  (∀ e, e ∈ es →
        nodes_FindId parent_mesh (rd (parent_node_ids_ s) (rd (node e1) e.1))
                     (rd (parent_node_ids_ s) (rd (node e1) e.2)) ∈ parent_node_ids_ s) →
  let s' := foldl (reference_edge parent_mesh k) s es in
  node_ids s' = node_ids s ∧ parent_node_ids_ s' = parent_node_ids_ s ∧
  parent_to_submesh_node_ids_ s' = parent_to_submesh_node_ids_ s ∧
  elements s' = elements s.
Proof.
  revert s. induction es as [|e es IH]; intros s Hk Hcov Hin; cbn; [done|].
  assert (∃ b, reference_edge parent_mesh k s e = MFEM_ASSERT 131 b s) as [b ->].
  { unfold reference_edge. rewrite (list_lookup_total_correct _ _ _ Hk).
    set (pid := nodes_FindId parent_mesh _ _).
    destruct (proj1 (list_elem_of_lookup _ _) (Hin e ltac:(apply elem_of_cons; by left)))
      as [j Hj].
    exists (0 <=? pid). unfold Get. cbn [node_ids MFEM_ASSERT]. fold pid in Hj.
    rewrite (Hcov _ _ Hj). by destruct s. }
  destruct (IH (MFEM_ASSERT 131 b s)) as (H1 & H2 & H3 & H4); [done|done| |done].
  intros e' He'. cbn. apply Hin. apply elem_of_cons. by right.
Qed.

Lemma remap_children_nodes k is_ s :
  node_frame k s (foldl (remap_child k) s is_).
Proof.
  apply (foldl_preserves (node_frame k s)); [|done].
  intros s0 i (H1 & H2 & H3 & H4 & H5). unfold remap_child.
  destruct (umap_index _ _) as [v m]. unfold node_frame. cbn.
  rewrite length_alter. repeat split; try done.
  intros j Hj. rewrite list_lookup_alter_ne by done. by apply H5.
Qed.

(** The visit of an element whose nodes, if it is a leaf, are all
    registered. *)
Lemma relabel_element_nodes k s e0 :
  elements s !! k = Some e0 → registry_covers s →
  (IsLeaf e0 = true →
   slots_fit parent_mesh e0 ∧ ∀ x, node_of_leaf parent_mesh e0 x → x ∈ parent_node_ids_ s) →
  let r := relabel_element parent_mesh ref_type_num_children k s in
  node_frame k s r.1 ∧
  (IsLeaf e0 = true →
   ∃ e', elements r.1 !! k = Some e' ∧ relabelled parent_mesh (parent_node_ids_ s) e0 e').
Proof.
  intros Hk Hcov Hleaf. unfold relabel_element.
  rewrite (list_lookup_total_correct _ _ _ Hk).
  match goal with |- context [elements ?x !!! k] => set (s1 := x) end.
  assert (node_frame k s s1 ∧
          (IsLeaf e0 = true →
           ∃ e', elements s1 !! k = Some e' ∧
                 relabelled parent_mesh (parent_node_ids_ s) e0 e')) as [Hf Hr].
  { subst s1. destruct (IsLeaf e0) eqn:HL; [|split; [apply remap_children_nodes|done]].
    destruct (Hleaf eq_refl) as [[Hnv Hed] Hin].
    destruct (relabel_vertices_round_trip k s e0 (nv (GI parent_mesh (geom e0))) Hk Hcov Hnv)
      as (Hfv & e1 & Hk1 & Hl1 & Hlo & _).
    { intros n Hn. apply Hin. left. by exists n. }
    set (sv := foldl (relabel_vertex k) s _) in *.
    destruct Hfv as (F1 & F2 & F3 & F4 & F5).
    assert (∀ z, 0 ≤ z < Z.of_nat (nv (GI parent_mesh (geom e0))) →
                 rd (parent_node_ids_ s) (rd (node e1) z) = rd (node e0) z) as Hrd.
    { intros z Hz. unfold rd. destruct (Hlo (Z.to_nat z) ltac:(lia)) as [_ Hl].
      by apply list_lookup_total_correct. }
    destruct (reference_edges_known k e1 (edges (GI parent_mesh (geom e0))) sv Hk1)
      as (G1 & G2 & G3 & G4).
    { intros j p Hj. rewrite F1. apply Hcov. by rewrite <- F2. }
    { intros e He. destruct (Hed e He) as [He1 He2]. rewrite F2, !Hrd by done.
      apply Hin. right. by exists e. }
    split.
    - unfold node_frame. rewrite G1, G2, G3, G4. done.
    - intros _. exists e1. rewrite G4. done. }
  destruct (parent (elements s1 !!! k) <? 0); [done|].
  destruct (parent_to_submesh_element_ids_ s1 !! parent (elements s1 !!! k)) as [v|];
    [|done].
  cbn [fst]. destruct Hf as (F1 & F2 & F3 & F4 & F5). split.
  - unfold node_frame. cbn. rewrite length_alter. repeat split; try done.
    intros j Hj. rewrite list_lookup_alter_ne by done. by apply F5.
  - intros HL. destruct (Hr HL) as (e' & He' & Hrel). exists (set_parent v e'). cbn.
    rewrite list_lookup_alter_eq, He'. done.
Qed.

(** The second walk creates no node when the nodes of every leaf are
    registered, and relabels the vertex slots of the leaves it visits. *)
Lemma second_walk_nodes (E0 : list Element) (N : list Z) m : ∀ k s,
  (k + m = length E0)%nat → length (elements s) = length E0 →
  parent_node_ids_ s = N → registry_covers s →
  (∀ j e0, E0 !! j = Some e0 → IsLeaf e0 = true →
           slots_fit parent_mesh e0 ∧ ∀ x, node_of_leaf parent_mesh e0 x → x ∈ N) →
  (∀ j, (k ≤ j)%nat → elements s !! j = E0 !! j) →
  (∀ j e0, (j < k)%nat → E0 !! j = Some e0 → IsLeaf e0 = true →
           ∃ e', elements s !! j = Some e' ∧ relabelled parent_mesh N e0 e') →
  let r := second_walk parent_mesh ref_type_num_children (seq k m) s in
  parent_node_ids_ r.1 = N ∧
  parent_to_submesh_node_ids_ r.1 = parent_to_submesh_node_ids_ s ∧
  (r.2 = true →
   ∀ j e0, E0 !! j = Some e0 → IsLeaf e0 = true →
           ∃ e', elements r.1 !! j = Some e' ∧ relabelled parent_mesh N e0 e').
Proof.
  induction m as [|m IH]; intros k s Hkm Hlen HN Hcov HE0 Hrest Hdone; cbn [seq second_walk].
  { cbn. split; [done|]. split; [done|]. intros _ j e0 Hj HL.
    apply Hdone; [|done..]. apply lookup_lt_Some in Hj. lia. }
  destruct (lookup_lt_is_Some_2 E0 k ltac:(lia)) as [e0 He0].
  assert (elements s !! k = Some e0) as Hk by (by rewrite Hrest).
  pose proof (relabel_element_nodes k s e0 Hk Hcov) as Hstep.
  rewrite HN in Hstep. specialize (Hstep (HE0 k e0 He0)).
  destruct (relabel_element parent_mesh ref_type_num_children k s) as [s1 ok].
  cbn [fst] in Hstep. destruct Hstep as ((F1 & F2 & F3 & F4 & F5) & Hrel).
  destruct ok.
  2:{ cbn. split; [congruence|]. split; [done|]. done. }
  destruct (IH (S k) s1) as (A & B & C); try done; try lia.
  - congruence.
  - intros j p Hj. rewrite F1. apply Hcov. by rewrite <- F2.
  - intros j Hj. rewrite F5 by lia. apply Hrest. lia.
  - intros j e0' Hj He0' HL. destruct (decide (j = k)) as [->|Hne].
    + assert (e0' = e0) as -> by congruence. by apply Hrel.
    + rewrite F5 by done. apply Hdone; [lia|done..].
  - split; [done|]. split; [congruence|done].
Qed.

End DomainNodes.

(** X18.  In the domain pass, when the geometry table fits every selected
    leaf (its vertex slots are slots of [node] and its edges join vertex
    slots), the second walk creates no node: [parent_node_ids_] is the
    strictly increasing list of the nodes of the vertices and edges of the
    selected leaves, the two node maps are inverse to each other, and in a
    completed pass [parent_node_ids_[el.node[n]]] is node [n] of the parent
    element, for every vertex slot [n] of every leaf. *)
Theorem X18_domain_nodes_collected (parent_mesh : ParNCMesh) (attributes : list Z)
    (GetSubMeshElementFromParent : Z → Z) (ParentVertexIDMap : list Z)
    (ref_type_num_children : Z → nat) (s : NCState) (completed : bool) :
  domain_pass parent_mesh attributes GetSubMeshElementFromParent ParentVertexIDMap
              ref_type_num_children = (s, completed) →
  (∀ pe, pe ∈ p_elements parent_mesh → HasAttribute (attribute pe) attributes = true →
         IsLeaf pe = true → slots_fit parent_mesh pe) →
  StronglySorted Z.lt (parent_node_ids_ s) ∧
  (∀ x, x ∈ parent_node_ids_ s ↔
        ∃ pe, pe ∈ p_elements parent_mesh ∧ HasAttribute (attribute pe) attributes = true ∧
              IsLeaf pe = true ∧ node_of_leaf parent_mesh pe x) ∧
  (∀ j n, parent_node_ids_ s !! j = Some n ↔
          parent_to_submesh_node_ids_ s !! n = Some (Z.of_nat j)) ∧
  (completed = true →
   ∀ i e p n, elements s !! i = Some e → parent_element_ids_ s !! i = Some p →
              IsLeaf e = true → (n < nv (GI parent_mesh (geom e)))%nat →
              0 ≤ node e !!! n ∧
              parent_node_ids_ s !! Z.to_nat (node e !!! n)
              = Some (node (p_elements parent_mesh !!! Z.to_nat p) !!! n)).
Proof.
  intros Hrun Hfit.
  pose proof (domain_pass_links _ _ _ _ _ _ _ Hrun) as (Hpe & _ & _ & Hprof & _).
  cbv zeta in Hpe, Hprof.
  destruct (registered_nodes parent_mesh attributes GetSubMeshElementFromParent)
    as (HN & Hinv & Hsorted & He2).
  destruct (first_walk_result parent_mesh attributes GetSubMeshElementFromParent)
    as (He1 & _).
  set (s1 := first_walk parent_mesh attributes GetSubMeshElementFromParent init_state) in *.
  set (s2 := register_new_nodes 90 s1) in *.
  set (sel := selected parent_mesh attributes (length (p_elements parent_mesh))) in *.
  set (copy := λ ipe, set_index (GetSubMeshElementFromParent
                                   (index (p_elements parent_mesh !!! ipe)))
                                (p_elements parent_mesh !!! ipe)) in *.
  destruct (bind_vertices_nodes parent_mesh ParentVertexIDMap
              (seq 0 (length ParentVertexIDMap)) s2 (node_maps_inv_covers _ Hinv))
    as (Hcov & B2 & B3 & B4).
  set (s3 := foldl _ s2 _) in *.
  assert (∀ pe, (pe ∈ p_elements parent_mesh ∧ HasAttribute (attribute pe) attributes = true)
                ↔ ∃ ipe, ipe ∈ sel ∧ pe = p_elements parent_mesh !!! ipe) as Hsel.
  { intros pe. split.
    - intros [[i Hi]%list_elem_of_lookup Ha]. exists i.
      pose proof (list_lookup_total_correct _ _ _ Hi) as Et. split; [|done].
      apply selected_elem. rewrite Et. split; [by eapply lookup_lt_Some|done].
    - intros (ipe & [Hlt Ha]%selected_elem & ->). split; [|done].
      by apply list_elem_of_lookup_total_2. }
  assert (∀ x, x ∈ new_nodes s1 ↔
               ∃ pe, pe ∈ p_elements parent_mesh ∧
                     HasAttribute (attribute pe) attributes = true ∧
                     IsLeaf pe = true ∧ node_of_leaf parent_mesh pe x) as Hmem.
  { intros x. unfold s1. rewrite first_walk_nodes. fold sel. split.
    - intros (ipe & Hin & HL & Hx). exists (p_elements parent_mesh !!! ipe).
      destruct (proj2 (Hsel _) (ex_intro _ ipe (conj Hin eq_refl))) as [H1 H2]. done.
    - intros (pe & Hin & Ha & HL & Hx).
      destruct (proj1 (Hsel pe) (conj Hin Ha)) as (ipe & Hi & ->). by exists ipe. }
  assert (∀ j e0, elements s3 !! j = Some e0 → IsLeaf e0 = true →
            slots_fit parent_mesh e0 ∧
            ∀ x, node_of_leaf parent_mesh e0 x → x ∈ new_nodes s1) as HE0.
  { intros j e0 Hj HL. rewrite B4, He2, He1 in Hj.
    apply list_lookup_fmap_Some in Hj as (ipe & -> & Hipe).
    destruct (proj2 (Hsel (p_elements parent_mesh !!! ipe))) as [Hin Ha].
    { exists ipe. split; [by eapply list_elem_of_lookup_2|done]. }
    split; [exact (Hfit _ Hin Ha HL)|].
    intros x Hx. apply Hmem. exists (p_elements parent_mesh !!! ipe).
    split; [done|]. split; [done|]. split; [exact HL|exact Hx]. }
  unfold domain_pass in Hrun. fold s1 s2 s3 in Hrun.
  destruct (second_walk_nodes parent_mesh ref_type_num_children (elements s3) (new_nodes s1)
              (length (elements s3)) 0 s3) as (A & B & C); try done.
  { by rewrite B2. }
  { intros; lia. }
  rewrite Hrun in A, B, C. cbn [fst snd] in A, B, C.
  split; [by rewrite A|]. split; [by rewrite A|]. split.
  { rewrite A, B, B3, <- HN. by apply node_maps_inv_bijection. }
  intros -> i e p n Hi Hp HL Hn. rewrite A.
  rewrite Hpe in Hp. apply list_lookup_fmap_Some in Hp as (ipe & -> & Hipe).
  destruct (Hprof i ipe Hipe) as (e' & He' & Hpr).
  assert (e' = e) as -> by congruence.
  assert (geom e = geom (copy ipe) ∧ ref_type e = ref_type (copy ipe)) as [Hg Hr].
  { unfold profile in Hpr. by injection Hpr. }
  assert (elements s3 !! i = Some (copy ipe)) as H0.
  { rewrite B4, He2, He1, list_lookup_fmap, Hipe. done. }
  destruct (C eq_refl i (copy ipe) H0) as (e'' & He'' & Hrel).
  { unfold IsLeaf in *. by rewrite <- Hr. }
  assert (e'' = e) as -> by congruence.
  rewrite Nat2Z.id. apply (Hrel n). by rewrite <- Hg.
Qed.

Lemma X18_domain_nodes_collected_witness :
  StronglySorted Z.lt (parent_node_ids_ quad_domain_state) ∧
  ∀ j n, parent_node_ids_ quad_domain_state !! j = Some n ↔
         parent_to_submesh_node_ids_ quad_domain_state !! n = Some (Z.of_nat j).
Proof.
  assert (∀ pe, pe ∈ p_elements quad_domain_mesh → HasAttribute (attribute pe) [1] = true →
                IsLeaf pe = true → slots_fit quad_domain_mesh pe) as Hfit.
  { intros pe Hin _ _. cbn in Hin.
    repeat (apply elem_of_cons in Hin as [->|Hin]); [..|by apply elem_of_nil in Hin];
      (split; [cbn; lia|]); intros e He; cbn in He;
      repeat (apply elem_of_cons in He as [->|He]); try (by apply elem_of_nil in He);
      cbn; lia. }
  destruct (X18_domain_nodes_collected _ _ _ _ _ _ _ quad_domain_run Hfit)
    as (H1 & _ & H3 & _).
  split; [exact H1|exact H3].
Defined.

(** ** Where the nodes of the boundary branch come from *)

Lemma foldl_insert_present_elem (l : list Z) ns x :
  x ∈ foldl (λ ns y, if y =? -1 then ns else set_insert y ns) ns l →
  x ∈ ns ∨ (x ≠ -1 ∧ x ∈ l).
Proof.
  revert ns. induction l as [|c l IH]; intros ns; cbn; [by left|].
  intros [Hx|[Hne Hx]]%IH.
  - destruct (c =? -1) eqn:E; [by left|].
    apply set_insert_elem in Hx as [->|Hx]; [|by left].
    right. split; [lia|]. apply elem_of_cons. by left.
  - right. split; [done|]. apply elem_of_cons. by right.
Qed.

Section BoundaryNodes.

Variable parent_mesh : ParNCMesh.
Variable Dim : Z.
Variable attributes : list Z.
Variable indeterminate : list Z.

(** The ascent collects no node. *)
Lemma ascend_new_nodes fuel attr g ft fn new_elem_id s :
  new_nodes (ascend parent_mesh Dim indeterminate fuel attr g ft fn new_elem_id s).1
  = new_nodes s.
Proof.
  revert fn new_elem_id s. induction fuel as [|fuel IH]; intros fn new_elem_id s; [done|].
  cbn [ascend]. destruct (ParentFaceNodes parent_mesh fn) as [child_slot fn'].
  destruct (child_slot =? -1); [done|].
  destruct (map_find fn' (pnodes_new_elem s)) as [[key pelem_id]|].
  - match goal with |- context [if ?c then _ else _] => destruct c end; [|done].
    by rewrite IH.
  - cbn [AddElement]. by rewrite IH.
Qed.

Lemma visit_face_new_nodes fuel i face s x :
  x ∈ new_nodes (visit_face parent_mesh Dim attributes indeterminate fuel i face s).1 →
  x ∈ new_nodes s ∨
  (HasAttribute (f_attribute face) attributes = true ∧
   GetMeshIdType parent_mesh (f_index face) ≠ MASTER ∧
   node_of_face parent_mesh face x).
Proof.
  unfold visit_face.
  destruct (HasAttribute (f_attribute face) attributes) eqn:Ha; cbn [negb orb]; [|by left].
  destruct (bool_decide (GetMeshIdType parent_mesh (f_index face) = MASTER)) eqn:Hm;
    [by left|].
  apply bool_decide_eq_false in Hm.
  destruct (map_find _ (pnodes_new_elem s)); [by left|].
  cbn [AddElement]. rewrite ascend_new_nodes.
  cbn [new_nodes set_new_nodes set_elements set_pnodes_new_elem set_parent_element_ids
       set_parent_to_submesh_element_ids MFEM_ASSERT].
  set (fn := FindFaceNodes parent_mesh face).
  intros Hx.
  apply (foldl_set_insert_elem
           (λ e : Z * Z, nodes_FindId parent_mesh (rd fn e.1) (rd fn e.2))) in Hx
    as [Hx|(e & He & ->)].
  - apply foldl_insert_present_elem in Hx as [Hx|[Hne Hx]]; [by left|].
    right. split; [done|]. split; [done|]. left. done.
  - right. split; [done|]. split; [done|]. right. by exists e.
Qed.

Lemma face_loop_new_nodes fuel slots : ∀ i ipe s x,
  x ∈ new_nodes (face_loop parent_mesh Dim attributes indeterminate fuel slots i ipe s).1 →
  x ∈ new_nodes s ∨
  ∃ face, face ∈ slots ∧ unused face = false ∧
          HasAttribute (f_attribute face) attributes = true ∧
          GetMeshIdType parent_mesh (f_index face) ≠ MASTER ∧
          node_of_face parent_mesh face x.
Proof.
  induction slots as [|face slots IH]; intros i ipe s x; cbn [face_loop]; [by left|].
  destruct (ipe <? faces_Size parent_mesh); [|by left].
  destruct (unused face) eqn:Hu.
  - intros [Hx|(f & Hf & H)]%IH; [by left|]. right. exists f.
    split; [apply elem_of_cons; by right|done].
  - pose proof (visit_face_new_nodes fuel i face s x) as Hv.
    destruct (visit_face _ _ _ _ _ _ _ _) as [s1 ok1]. cbn [fst] in Hv.
    pose proof (IH (i + 1) (ipe + 1) s1 x) as Hl.
    destruct (face_loop _ _ _ _ _ _ _ _ _) as [s2 ok2]. cbn [fst] in *.
    intros [Hx|(f & Hf & H)]%Hl.
    + destruct (Hv Hx) as [?|(H1 & H2 & H3)]; [by left|]. right. exists face.
      split; [apply elem_of_cons; by left|done].
    + right. exists f. split; [apply elem_of_cons; by right|done].
Qed.

End BoundaryNodes.

(** X19.  The boundary branch takes its nodes from the selected faces
    only: every entry of [parent_node_ids_] is a face node other than -1, or
    the node of an edge, of a used face of the parent that carries a
    requested attribute and is not a master. *)
Theorem X19_boundary_nodes_from_selected_faces (parent_mesh : ParNCMesh) (Dim : Z)
    (attributes indeterminate : list Z) (fuel : nat) (s : NCState) (sorts : nat) (x : Z) :
  boundary_branch parent_mesh Dim attributes indeterminate fuel = Some (s, sorts) →
  x ∈ parent_node_ids_ s →
  ∃ face, face ∈ p_faces parent_mesh ∧ unused face = false ∧
          HasAttribute (f_attribute face) attributes = true ∧
          GetMeshIdType parent_mesh (f_index face) ≠ MASTER ∧
          ((x ≠ -1 ∧ x ∈ take MaxFaceNodes (FindFaceNodes parent_mesh face)) ∨
           (∃ e, e ∈ edges (GI parent_mesh
                              (face_geom_from_nodes (FindFaceNodes parent_mesh face))) ∧
                 x = nodes_FindId parent_mesh (rd (FindFaceNodes parent_mesh face) e.1)
                                  (rd (FindFaceNodes parent_mesh face) e.2))).
Proof.
  unfold boundary_branch.
  destruct (boundary_pass parent_mesh Dim attributes indeterminate fuel) as [[s1 k]|] eqn:Hpass;
    [|done].
  intros [= <- _]. rewrite (proj1 (sign_in_leaves_registry parent_mesh s1)).
  unfold boundary_pass in Hpass.
  destruct (discover_inv_discover parent_mesh Dim attributes indeterminate fuel) as [j Hj].
  pose proof (face_loop_new_nodes parent_mesh Dim attributes indeterminate fuel
                (p_faces parent_mesh) 0 0 init_state x) as Hloop.
  assert (new_nodes (discover parent_mesh Dim attributes indeterminate fuel).1
          = new_nodes (face_loop parent_mesh Dim attributes indeterminate fuel
                                 (p_faces parent_mesh) 0 0 init_state).1) as Hnn.
  { unfold discover. by destruct (face_loop _ _ _ _ _ _ _ _ _) as [s0 ok]. }
  destruct (discover _ _ _ _ _) as [s0 ok]. destruct ok; [|done]. cbn [fst] in Hj, Hnn.
  destruct Hj as [_ _ _ _ _ (H4a & H4b & H4c) H5 _].
  destruct (register_nodes_inv 368 (new_nodes s0) s0) as [_ Hids].
  { by apply node_maps_inv_empty. }
  { by apply StronglySorted_lt_NoDup. }
  { intros n _. rewrite H4a. apply not_elem_of_nil. }
  destruct (reorder_loop_node_maps _ _ _ _ Hpass) as (Hn1 & _).
  rewrite Hn1. cbn [parent_node_ids_ set_new_nodes]. unfold register_new_nodes.
  rewrite Hids, H4a, Hnn. cbn [app]. intros Hx.
  destruct (Hloop Hx) as [Hx0|Hface]; [by apply elem_of_nil in Hx0|done].
Qed.

Lemma X19_boundary_nodes_from_selected_faces_witness :
  ∃ face, face ∈ p_faces edge_tree_mesh ∧ unused face = false ∧
          HasAttribute (f_attribute face) [1] = true ∧
          GetMeshIdType edge_tree_mesh (f_index face) ≠ MASTER ∧
          ((parent_node_ids_ edge_tree_signed !!! 0%nat ≠ -1 ∧
            parent_node_ids_ edge_tree_signed !!! 0%nat
              ∈ take MaxFaceNodes (FindFaceNodes edge_tree_mesh face)) ∨
           (∃ e, e ∈ edges (GI edge_tree_mesh
                              (face_geom_from_nodes (FindFaceNodes edge_tree_mesh face))) ∧
                 parent_node_ids_ edge_tree_signed !!! 0%nat
                 = nodes_FindId edge_tree_mesh (rd (FindFaceNodes edge_tree_mesh face) e.1)
                                (rd (FindFaceNodes edge_tree_mesh face) e.2))).
Proof.
  assert (parent_node_ids_ edge_tree_signed !!! 0%nat ∈ parent_node_ids_ edge_tree_signed)
    as Hin.
  { apply list_elem_of_lookup_total_2. vm_compute. lia. }
  exact (X19_boundary_nodes_from_selected_faces edge_tree_mesh 1 [1] [0; 0; 0; 0] 10
           edge_tree_signed 2%nat _ edge_tree_branch_run Hin).
Defined.

(** * Two runs on the same parent mesh *)

(** ** Element arrays that agree up to the node arrays *)

Lemma erased_alter (g1 g2 h : Element → Element) (i : nat) (els1 els2 : list Element) :
  (∀ x, set_node [] (g1 x) = h (set_node [] x)) →
  (∀ x, set_node [] (g2 x) = h (set_node [] x)) →
  set_node [] <$> els1 = set_node [] <$> els2 →
  set_node [] <$> alter g1 i els1 = set_node [] <$> alter g2 i els2.
Proof.
  intros H1 H2 E.
  rewrite (list_fmap_alter (set_node []) g1 h), (list_fmap_alter (set_node []) g2 h), E;
    [done|apply Forall_forall; intros; auto..].
Qed.

Lemma erased_app (els1 els2 : list Element) e :
  set_node [] <$> els1 = set_node [] <$> els2 →
  set_node [] <$> (els1 ++ [e]) = set_node [] <$> (els2 ++ [e]).
Proof. intros E. by rewrite !fmap_app, E. Qed.

Lemma erased_length (els1 els2 : list Element) :
  set_node [] <$> els1 = set_node [] <$> els2 → length els1 = length els2.
Proof. intros E. apply (f_equal length) in E. by rewrite !length_fmap in E. Qed.

Lemma erased_rd (els1 els2 : list Element) i :
  set_node [] <$> els1 = set_node [] <$> els2 →
  set_node [] (rd els1 i) = set_node [] (rd els2 i).
Proof.
  intros E. unfold rd. rewrite !list_lookup_total_alt.
  assert ((set_node [] <$> els1) !! Z.to_nat i = (set_node [] <$> els2) !! Z.to_nat i) as Hi
    by (by rewrite E).
  rewrite !list_lookup_fmap in Hi.
  destruct (els1 !! Z.to_nat i), (els2 !! Z.to_nat i); cbn in *; congruence.
Qed.

Lemma erased_wire Dim p c n (els1 els2 : list Element) :
  set_node [] <$> els1 = set_node [] <$> els2 →
  set_node [] <$> wire Dim p c n els1 = set_node [] <$> wire Dim p c n els2.
Proof.
  intros E. unfold wire, upd.
  apply (erased_alter _ _ (set_parent p)); [done..|].
  apply (erased_alter _ _ id); [done..|].
  by apply (erased_alter _ _ (set_ref_type (if Dim =? 2 then Refinement_XY else Refinement_X))).
Qed.

Section TwoRuns.

Variable parent_mesh : ParNCMesh.
Variable Dim : Z.
Variable attributes : list Z.
Variables ind1 ind2 : list Z.

Lemma fix_parent_elem_runs fn key pelem_id s1 s2 :
  same_but_nodes s1 s2 →
  same_but_nodes (fix_parent_elem ind1 fn key pelem_id s1)
                 (fix_parent_elem ind2 fn key pelem_id s2).
Proof.
  intros H. split_runs H. unfold fix_parent_elem. cbn [elements pnodes_new_elem].
  pose proof (erased_rd _ _ pelem_id HE) as Hrd.
  assert (IsLeaf (rd els1 pelem_id) = IsLeaf (rd els2 pelem_id)) as ->.
  { unfold IsLeaf. by injection Hrd as _ -> _. }
  split; [|done]. cbn. unfold upd.
  destruct (IsLeaf (rd els2 pelem_id)); by apply (erased_alter _ _ id).
Qed.

Lemma ascend_runs fuel attr g ft : ∀ fn new_elem_id s1 s2,
  same_but_nodes s1 s2 →
  same_but_nodes (ascend parent_mesh Dim ind1 fuel attr g ft fn new_elem_id s1).1
                 (ascend parent_mesh Dim ind2 fuel attr g ft fn new_elem_id s2).1 ∧
  (ascend parent_mesh Dim ind1 fuel attr g ft fn new_elem_id s1).2
  = (ascend parent_mesh Dim ind2 fuel attr g ft fn new_elem_id s2).2.
Proof.
  induction fuel as [|fuel IH]; intros fn new_elem_id s1 s2 H; [done|].
  cbn [ascend]. destruct (ParentFaceNodes parent_mesh fn) as [child_slot fn'].
  destruct (child_slot =? -1).
  { split; [|done]. split_runs H. split; [|done]. cbn. unfold upd.
    by apply (erased_alter _ _ (set_parent (-1))). }
  assert (pnodes_new_elem s1 = pnodes_new_elem s2) as Hpm.
  { split_runs H. done. }
  rewrite Hpm. destruct (map_find fn' (pnodes_new_elem s2)) as [[key pelem_id]|].
  - match goal with |- context [if ?c then _ else _] => destruct c end.
    + apply IH. pose proof (fix_parent_elem_runs fn' key pelem_id s1 s2 H) as Hf.
      destruct (fix_parent_elem ind1 fn' key pelem_id s1) as [a1 ? ? ? ? ? ? ? ? ?] eqn:E1.
      destruct (fix_parent_elem ind2 fn' key pelem_id s2) as [a2 ? ? ? ? ? ? ? ? ?] eqn:E2.
      destruct Hf as [HE Hs]. cbn in HE, Hs. injection Hs as <- <- <- <- <- <- <- <- <-.
      split; [|done]. cbn. by apply erased_wire.
    + split; [|done]. split_runs H. split; [|done]. cbn. by apply erased_wire.
  - cbn [AddElement]. split_runs H. cbn [elements set_elements pnodes_new_elem
      set_pnodes_new_elem parent_element_ids_ set_parent_element_ids].
    rewrite (erased_length _ _ HE). apply IH. split; [|done]. cbn.
    apply erased_wire. by apply erased_app.
Qed.

Lemma visit_face_runs fuel i face s1 s2 :
  same_but_nodes s1 s2 →
  same_but_nodes (visit_face parent_mesh Dim attributes ind1 fuel i face s1).1
                 (visit_face parent_mesh Dim attributes ind2 fuel i face s2).1 ∧
  (visit_face parent_mesh Dim attributes ind1 fuel i face s1).2
  = (visit_face parent_mesh Dim attributes ind2 fuel i face s2).2.
Proof.
  intros H. unfold visit_face.
  match goal with |- context [if ?c then _ else _] => destruct c end; [done|].
  assert (pnodes_new_elem s1 = pnodes_new_elem s2) as Hpm.
  { split_runs H. done. }
  rewrite Hpm. destruct (map_find _ (pnodes_new_elem s2)); [done|].
  cbn [AddElement]. split_runs H.
  cbn [elements set_elements pnodes_new_elem set_pnodes_new_elem parent_element_ids_
       set_parent_element_ids parent_to_submesh_element_ids_
       set_parent_to_submesh_element_ids new_nodes set_new_nodes MFEM_ASSERT].
  rewrite (erased_length _ _ HE). apply ascend_runs. split; [|done]. cbn. unfold upd.
  apply (erased_alter _ _ id); [done..|].
  apply (erased_alter _ _ (set_rank (face_rank parent_mesh face))); [done..|].
  by apply erased_app.
Qed.

Lemma face_loop_runs fuel slots : ∀ i ipe s1 s2,
  same_but_nodes s1 s2 →
  same_but_nodes (face_loop parent_mesh Dim attributes ind1 fuel slots i ipe s1).1
                 (face_loop parent_mesh Dim attributes ind2 fuel slots i ipe s2).1 ∧
  (face_loop parent_mesh Dim attributes ind1 fuel slots i ipe s1).2
  = (face_loop parent_mesh Dim attributes ind2 fuel slots i ipe s2).2.
Proof.
  induction slots as [|face slots IH]; intros i ipe s1 s2 H; cbn [face_loop]; [done|].
  destruct (ipe <? faces_Size parent_mesh); [|done].
  destruct (unused face); [by apply IH|].
  destruct (visit_face_runs fuel i face s1 s2 H) as [Hv Hok].
  destruct (visit_face parent_mesh Dim attributes ind1 fuel i face s1) as [a1 ok1].
  destruct (visit_face parent_mesh Dim attributes ind2 fuel i face s2) as [a2 ok2].
  cbn [fst snd] in Hv, Hok. subst ok2.
  destruct (IH (i + 1) (ipe + 1) a1 a2 Hv) as [Hl Hok'].
  destruct (face_loop parent_mesh Dim attributes ind1 fuel slots (i + 1) (ipe + 1) a1)
    as [b1 ok1'].
  destruct (face_loop parent_mesh Dim attributes ind2 fuel slots (i + 1) (ipe + 1) a2)
    as [b2 ok2'].
  cbn [fst snd] in *. by subst.
Qed.

Lemma discover_runs fuel :
  same_but_nodes (discover parent_mesh Dim attributes ind1 fuel).1
                 (discover parent_mesh Dim attributes ind2 fuel).1 ∧
  (discover parent_mesh Dim attributes ind1 fuel).2
  = (discover parent_mesh Dim attributes ind2 fuel).2.
Proof.
  unfold discover.
  destruct (face_loop_runs fuel (p_faces parent_mesh) 0 0 init_state init_state) as [Hl Hok];
    [done|].
  destruct (face_loop parent_mesh Dim attributes ind1 fuel (p_faces parent_mesh) 0 0 init_state)
    as [b1 ok1].
  destruct (face_loop parent_mesh Dim attributes ind2 fuel (p_faces parent_mesh) 0 0 init_state)
    as [b2 ok2].
  cbn [fst snd] in *. subst ok2. split; [|done]. split_runs Hl.
  cbn. rewrite (erased_length _ _ HE). done.
Qed.

End TwoRuns.

Lemma same_but_nodes_key s1 s2 :
  same_but_nodes s1 s2 →
  order_key s1 = order_key s2 ∧
  (λ e, (geom e, attribute e, ref_type e, index e)) <$> elements s1
  = (λ e, (geom e, attribute e, ref_type e, index e)) <$> elements s2 ∧
  new_nodes s1 = new_nodes s2.
Proof.
  intros H. split_runs H. unfold order_key. cbn.
  assert (∀ {B} (f : Element → B), (∀ e, f (set_node [] e) = f e) →
            f <$> els1 = f <$> els2) as Hf.
  { intros B f Hfe.
    assert (∀ els : list Element, f <$> els = f <$> (set_node [] <$> els)) as Hc.
    { intros els. rewrite <- list_fmap_compose. apply list_fmap_ext. intros ? e _. cbn.
      by rewrite Hfe. }
    by rewrite (Hc els1), (Hc els2), HE. }
  split; [|split; [|done]].
  - by rewrite (Hf _ parent).
  - by apply Hf.
Qed.

Lemma register_new_nodes_key line s :
  order_key (set_new_nodes [] (register_new_nodes line s)) = order_key s ∧
  elements (set_new_nodes [] (register_new_nodes line s)) = elements s.
Proof.
  unfold register_new_nodes. generalize (new_nodes s) as ns. intros ns. revert s.
  induction ns as [|n ns IH]; intros s; cbn [foldl]; [done|].
  destruct (IH (register_node line s n)) as [-> ->].
  unfold register_node. by destruct (Get n (node_ids s)) as [[? ?] ?].
Qed.

Lemma reorder_step_rows_eq s :
  (λ e, (geom e, attribute e, ref_type e, index e)) <$> elements (reorder_step s)
  = Permute (sorted_new_to_old s)
            ((λ e, (geom e, attribute e, ref_type e, index e)) <$> elements s).
Proof.
  pose proof (sorted_new_to_old_perm s) as Hp.
  assert (Forall (λ i, (i < length (elements s))%nat) (sorted_new_to_old s)) as Hall.
  { apply Forall_forall. intros i Hi. rewrite Hp in Hi. apply elem_of_seq in Hi. lia. }
  unfold reorder_step. cbn [elements set_elements set_parent_element_ids
    set_face_nodes_table set_parent_to_submesh_element_ids].
  rewrite relink_all_rows. by rewrite Permute_fmap.
Qed.

Lemma reorder_loop_rows_eq fuel : ∀ s1 s2,
  order_key s1 = order_key s2 →
  (λ e, (geom e, attribute e, ref_type e, index e)) <$> elements s1
  = (λ e, (geom e, attribute e, ref_type e, index e)) <$> elements s2 →
  ∀ s1' k1 s2' k2,
    reorder_loop fuel s1 = Some (s1', k1) → reorder_loop fuel s2 = Some (s2', k2) →
    (λ e, (geom e, attribute e, ref_type e, index e)) <$> elements s1'
    = (λ e, (geom e, attribute e, ref_type e, index e)) <$> elements s2'.
Proof.
  induction fuel as [|fuel IH]; intros s1 s2 Hk Hr s1' k1 s2' k2; cbn;
    rewrite (parental_sorted_key _ _ Hk); destruct (parental_sorted s2); try done.
  - by intros [= <- _] [= <- _].
  - by intros [= <- _] [= <- _].
  - destruct (reorder_loop fuel (reorder_step s1)) as [[a1 j1]|] eqn:E1; [|done].
    destruct (reorder_loop fuel (reorder_step s2)) as [[a2 j2]|] eqn:E2; [|done].
    intros [= <- _] [= <- _].
    apply (IH (reorder_step s1) (reorder_step s2)) with j1 j2; try done.
    + by apply reorder_step_key.
    + by rewrite !reorder_step_rows_eq, (sorted_new_to_old_key _ _ Hk), Hr.
Qed.

(** C3.  Two constructions of a boundary submesh from the same parent mesh
    and the same attributes, whatever the uninitialised array of line 320
    holds in each: the discovery loops finish alike and leave states that
    differ in the node (child) arrays of the elements at most; the
    reordering loops apply the same permutations, in the same number of
    sorts (or neither finishes); and the elements end in the same order:
    the same parent ids, parent links, geometries, attributes, refinement
    types and indices at every position.  The parent mesh, the dimension and
    the attributes are the only other inputs of the pass. *)
Theorem C3_ordering_determined (parent_mesh : ParNCMesh) (Dim : Z) (attributes : list Z)
    (fuel : nat) (ind1 ind2 : list Z) :
  (discover parent_mesh Dim attributes ind1 fuel).2
  = (discover parent_mesh Dim attributes ind2 fuel).2 ∧
  same_but_nodes (discover parent_mesh Dim attributes ind1 fuel).1
                 (discover parent_mesh Dim attributes ind2 fuel).1 ∧
  reorder_permutations fuel
    (set_new_nodes [] (register_new_nodes 368 (discover parent_mesh Dim attributes ind1 fuel).1))
  = reorder_permutations fuel
      (set_new_nodes [] (register_new_nodes 368
                           (discover parent_mesh Dim attributes ind2 fuel).1)) ∧
  match boundary_pass parent_mesh Dim attributes ind1 fuel,
        boundary_pass parent_mesh Dim attributes ind2 fuel with
  | Some (s1, k1), Some (s2, k2) =>
      k1 = k2 ∧ parent_element_ids_ s1 = parent_element_ids_ s2 ∧
      parent <$> elements s1 = parent <$> elements s2 ∧
      (λ e, (geom e, attribute e, ref_type e, index e)) <$> elements s1
      = (λ e, (geom e, attribute e, ref_type e, index e)) <$> elements s2
  | None, None => True
  | _, _ => False
  end.
Proof.
  destruct (discover_runs parent_mesh Dim attributes ind1 ind2 fuel) as [Hd Hok].
  unfold boundary_pass.
  destruct (discover parent_mesh Dim attributes ind1 fuel) as [d1 ok1].
  destruct (discover parent_mesh Dim attributes ind2 fuel) as [d2 ok2].
  cbn [fst snd] in *. subst ok2. split; [done|]. split; [done|].
  destruct (same_but_nodes_key _ _ Hd) as (Hk & Hr & _).
  destruct (register_new_nodes_key 368 d1) as [K1 E1].
  destruct (register_new_nodes_key 368 d2) as [K2 E2].
  set (a1 := set_new_nodes [] (register_new_nodes 368 d1)) in *.
  set (a2 := set_new_nodes [] (register_new_nodes 368 d2)) in *.
  assert (order_key a1 = order_key a2) as Hka by congruence.
  destruct (reorder_loop_order_key a1 a2 fuel Hka) as [Hperm Hloop].
  split; [done|]. destruct ok1; [|done].
  pose proof (reorder_loop_rows_eq fuel a1 a2 Hka) as Hrows.
  rewrite E1, E2 in Hrows. specialize (Hrows Hr).
  destruct (reorder_loop fuel a1) as [[s1 k1]|], (reorder_loop fuel a2) as [[s2 k2]|];
    try done.
  destruct Hloop as [-> Hkey]. unfold order_key in Hkey. injection Hkey as Hp _ Hpe.
  split; [done|]. split; [done|]. split; [done|]. by eapply Hrows.
Qed.

(** * The parent id recorded with each element *)

Lemma map_entry_unique (m : list (list Z * Z)) k1 v1 k2 v2 :
  NoDup (map_keys m) → (k1, v1) ∈ m → (k2, v2) ∈ m → sort_ints k1 = sort_ints k2 →
  k1 = k2 ∧ v1 = v2.
Proof.
  induction m as [|[k v] m IH]; intros Hnd H1 H2 Hs; [by apply elem_of_nil in H1|].
  cbn in Hnd. apply NoDup_cons in Hnd as [Hk Hnd].
  apply elem_of_cons in H1 as [H1|H1], H2 as [H2|H2].
  - by simplify_eq.
  - simplify_eq. exfalso. apply Hk. apply map_keys_elem. exists (k2, v2). by split.
  - simplify_eq. exfalso. apply Hk. apply map_keys_elem. exists (k1, v1). by split.
  - by apply IH.
Qed.

Lemma map_erase_elem_iff key (m : list (list Z * Z)) kv :
  kv ∈ map_erase key m ↔ kv ∈ m ∧ sort_ints kv.1 ≠ sort_ints key.
Proof.
  unfold map_erase. rewrite list_elem_of_In, filter_In, <- list_elem_of_In, negb_true_iff.
  split; intros [Hin Hne]; (split; [done|]).
  - intros Heq. symmetry in Heq. apply FaceNodes_equiv_spec in Heq. congruence.
  - destruct (FaceNodes_equiv key kv.1) eqn:E; [|done].
    apply FaceNodes_equiv_spec in E. congruence.
Qed.

(** Re-keying (lines 329-330) replaces the entry found by one with the same
    value under the new tuple. *)
Lemma map_rekey_elem fn key p (m : list (list Z * Z)) kv :
  NoDup (map_keys m) → map_find fn m = Some (key, p) →
  (kv ∈ map_emplace fn p (map_erase key m) ↔
   (kv ∈ m ∧ sort_ints kv.1 ≠ sort_ints key) ∨ kv = (fn, p)).
Proof.
  intros Hnd Hfind. destruct (map_find_key _ _ _ _ Hfind) as [Hsort Hin].
  assert (map_find fn (map_erase key m) = None) as Hnone.
  { apply map_find_None. intros (kv' & Hkv' & Hs)%map_keys_elem.
    apply map_erase_elem_iff in Hkv' as [_ Hne]. congruence. }
  unfold map_emplace. rewrite Hnone, elem_of_app, list_elem_of_singleton.
  by rewrite map_erase_elem_iff.
Qed.

Section RecordedIds.

Variable parent_mesh : ParNCMesh.
Variable Dim : Z.
Variable attributes : list Z.
Variable indeterminate : list Z.

Lemma ids_ok_elements els els' pe m p2s :
  ids_ok parent_mesh attributes els pe m p2s →
  length els' = length els →
  (∀ k e, els !! k = Some e →
          ∃ e', els' !! k = Some e' ∧ (IsLeaf e = false → IsLeaf e' = false)) →
  ids_ok parent_mesh attributes els' pe m p2s.
Proof.
  intros [Hall Hent] Hlen Hkeep. split.
  - intros k Hk. apply Hall. lia.
  - intros key v Hin. destruct (Hent key v Hin) as (Hv & p & e & Hp & He & Hborn).
    split; [done|]. destruct (Hkeep _ _ He) as (e' & He' & Hl). exists p, e'.
    split; [done|]. split; [done|]. destruct Hborn as [?|[? ?]]; [by left|right].
    split; [done|]. by apply Hl.
Qed.

Lemma upd_keeps n (f : Element → Element) (els : list Element) :
  (∀ e, ref_type (f e) = ref_type e) →
  ∀ k e, els !! k = Some e →
         ∃ e', upd n f els !! k = Some e' ∧ (IsLeaf e = false → IsLeaf e' = false).
Proof.
  intros Hf k e Hk. rewrite upd_lookup, Hk. cbn. eexists. split; [done|].
  case_decide; [|done]. unfold IsLeaf. by rewrite Hf.
Qed.

Lemma wire_keeps p c n (els : list Element) :
  ∀ k e, els !! k = Some e →
         ∃ e', wire Dim p c n els !! k = Some e' ∧ (IsLeaf e = false → IsLeaf e' = false).
Proof.
  intros k e Hk. rewrite wire_lookup, Hk. cbn. eexists. split; [done|].
  apply wired_keeps_internal.
Qed.

Lemma ids_ok_rekey els pe m p2s fn key p :
  NoDup (map_keys m) → map_find fn m = Some (key, p) →
  ids_ok parent_mesh attributes els pe m p2s →
  ids_ok parent_mesh attributes els pe (map_emplace fn p (map_erase key m)) p2s.
Proof.
  intros Hnd Hfind [Hall Hent].
  destruct (map_find_key _ _ _ _ Hfind) as [Hsort Hin]. split.
  - intros k Hk. destruct (Hall k Hk) as [key' Hkey'].
    destruct (decide (sort_ints key' = sort_ints key)) as [Heq|Hne].
    + destruct (map_entry_unique m _ _ _ _ Hnd Hkey' Hin Heq) as [_ <-].
      exists fn. apply (map_rekey_elem fn key _ m); [done..|]. by right.
    + exists key'. apply (map_rekey_elem fn key p m); [done..|]. by left.
  - intros key' v Hkv. apply (map_rekey_elem fn key p m) in Hkv; [|done..].
    destruct Hkv as [[Hkv _]|Heq]; [by apply Hent|].
    injection Heq as -> ->.
    destruct (Hent key p Hin) as (Hv & q & e & Hq & He & Hborn).
    split; [done|]. exists q, e. split; [done|]. split; [done|].
    destruct Hborn as [[(H0 & face & H1 & H2 & H3 & H4 & H5) Hm]|
                       [(fn0 & slot & fn1 & H1 & H2 & H3 & H4) Hl]].
    + left. split; [|done]. split; [done|]. exists face. repeat (split; [done|]). congruence.
    + right. split; [|done]. exists fn0, slot, fn1. repeat (split; [done|]).
      split; [congruence|done].
Qed.

Lemma ids_ok_new_parent els pe m p2s fn0 slot fn attr c n :
  length pe = length els →
  ParentFaceNodes parent_mesh fn0 = (slot, fn) → slot ≠ -1 → map_find fn m = None →
  ids_ok parent_mesh attributes els pe m p2s →
  ids_ok parent_mesh attributes
    (wire Dim (Z.of_nat (length els)) c n
          (els ++ [new_Element (face_geom_from_nodes fn) attr]))
    (pe ++ [faces_FindId parent_mesh (rd fn 0) (rd fn 1) (rd fn 2) (rd fn 3)])
    (map_emplace fn (Z.of_nat (length els)) m) p2s.
Proof.
  intros Hlen HP Hslot Hfind [Hall Hent]. unfold map_emplace. rewrite Hfind. split.
  - intros k Hk. rewrite wire_length, length_app in Hk. cbn in Hk.
    destruct (decide (k = length els)) as [->|Hne].
    + exists fn. apply elem_of_app. right. by apply list_elem_of_singleton.
    + destruct (Hall k ltac:(lia)) as [key Hkey]. exists key. apply elem_of_app. by left.
  - intros key v [Hin|Heq%list_elem_of_singleton]%elem_of_app.
    + destruct (Hent key v Hin) as (Hv & p & e & Hp & He & Hborn).
      split; [done|].
      destruct (wire_keeps (Z.of_nat (length els)) c n
                  (els ++ [new_Element (face_geom_from_nodes fn) attr]) (Z.to_nat v) e)
        as (e' & He' & Hl).
      { by apply lookup_app_l_Some. }
      exists p, e'. split; [by apply lookup_app_l_Some|]. split; [done|].
      destruct Hborn as [?|[? ?]]; [by left|right]. split; [done|]. by apply Hl.
    + injection Heq as -> ->. split; [lia|]. rewrite Nat2Z.id.
      destruct (wire_refined Dim (Z.of_nat (length els)) c n
                  (els ++ [new_Element (face_geom_from_nodes fn) attr])
                  (new_Element (face_geom_from_nodes fn) attr)) as (e' & He' & Hl).
      { rewrite Nat2Z.id. by rewrite lookup_app_r, Nat.sub_diag by lia. }
      rewrite Nat2Z.id in He'. eexists _, e'.
      split; [by rewrite <- Hlen, lookup_app_r, Nat.sub_diag by lia|]. split; [done|].
      right. split; [|done]. by exists fn0, slot, fn.
Qed.

Lemma ids_inv_fix i s fn key p :
  discover_inv i s → ids_inv parent_mesh attributes s →
  map_find fn (pnodes_new_elem s) = Some (key, p) →
  ids_inv parent_mesh attributes (fix_parent_elem indeterminate fn key p s).
Proof.
  intros Hinv Hids Hfind. unfold fix_parent_elem, ids_inv.
  cbn [elements set_elements parent_element_ids_ set_pnodes_new_elem pnodes_new_elem
       parent_to_submesh_element_ids_].
  apply ids_ok_rekey; [apply Hinv|done|].
  eapply ids_ok_elements; [exact Hids| |].
  - destruct (IsLeaf _); by rewrite upd_length.
  - destruct (IsLeaf _); by apply upd_keeps.
Qed.

Lemma ascend_ids fuel attr g ft i : ∀ fn n s,
  discover_inv i s → ids_inv parent_mesh attributes s →
  ids_inv parent_mesh attributes
    (ascend parent_mesh Dim indeterminate fuel attr g ft fn n s).1.
Proof.
  induction fuel as [|fuel IH]; intros fn n s Hinv Hids; [done|].
  cbn [ascend]. destruct (ParentFaceNodes parent_mesh fn) as [child_slot fn'] eqn:HP.
  destruct (Z.eqb_spec child_slot (-1)) as [|Hslot].
  { cbn [fst]. unfold ids_inv. cbn. eapply ids_ok_elements; [exact Hids| |].
    - by rewrite upd_length.
    - by apply upd_keeps. }
  destruct (map_find fn' (pnodes_new_elem s)) as [[key p]|] eqn:Hfind.
  - assert (0 ≤ p) as Hp by (eapply map_wf_find; [apply Hinv|done]).
    pose proof (ids_inv_fix i s fn' key p Hinv Hids Hfind) as Hfix.
    match goal with |- context [if ?c then _ else _] => destruct c end.
    + apply IH.
      * apply discover_inv_wire; [done|]. by apply discover_inv_fix.
      * unfold ids_inv. cbn. eapply ids_ok_elements; [exact Hfix| |].
        -- by rewrite wire_length.
        -- apply wire_keeps.
    + cbn [fst]. unfold ids_inv. cbn. eapply ids_ok_elements; [exact Hids| |].
      * by rewrite wire_length.
      * apply wire_keeps.
  - cbn [AddElement]. apply IH.
    + apply discover_inv_wire; [lia|].
      exact (discover_inv_new_parent i s fn' attr _ Hfind Hinv).
    + unfold ids_inv. cbn. eapply ids_ok_new_parent; try done. apply Hinv.
Qed.

Lemma discover_inv_next i s : discover_inv i s → discover_inv (i + 1) s.
Proof.
  intros [H1 H2 H3 Hk Hl H4 H5 H6]. constructor; try done.
  intros p v Hpv. destruct (H6 p v Hpv) as (? & ? & ?). split; [lia|]. by split.
Qed.

Lemma ids_ok_new_face els pe m p2s i face (f1 f2 : Element → Element) attr :
  length pe = length els → map_find (FindFaceNodes parent_mesh face) m = None →
  (∀ p v, p2s !! p = Some v → p < i) →
  0 ≤ i → p_faces parent_mesh !! Z.to_nat i = Some face → unused face = false →
  HasAttribute (f_attribute face) attributes = true →
  GetMeshIdType parent_mesh (f_index face) ≠ MASTER →
  (∀ e, ref_type (f1 e) = ref_type e) → (∀ e, ref_type (f2 e) = ref_type e) →
  ids_ok parent_mesh attributes els pe m p2s →
  ids_ok parent_mesh attributes
    (upd (Z.of_nat (length els)) f2
       (upd (Z.of_nat (length els)) f1
          (els ++ [new_Element (face_geom_from_nodes (FindFaceNodes parent_mesh face)) attr])))
    (pe ++ [i])
    (map_assign (FindFaceNodes parent_mesh face) (Z.of_nat (length els)) m)
    (<[i := Z.of_nat (length els)]> p2s).
Proof.
  intros Hlen Hfind Hlt Hi Hface Hused Hattr Hmaster Hf1 Hf2 [Hall Hent].
  set (fn := FindFaceNodes parent_mesh face) in *.
  set (new := new_Element (face_geom_from_nodes fn) attr).
  assert (∀ k e, (els ++ [new]) !! k = Some e →
            ∃ e', upd (Z.of_nat (length els)) f2
                      (upd (Z.of_nat (length els)) f1 (els ++ [new])) !! k = Some e' ∧
                  (IsLeaf e = false → IsLeaf e' = false)) as Hkeep.
  { intros k e Hk.
    destruct (upd_keeps (Z.of_nat (length els)) f1 _ Hf1 k e Hk) as (e1 & He1 & Hl1).
    destruct (upd_keeps (Z.of_nat (length els)) f2 _ Hf2 k e1 He1) as (e2 & He2 & Hl2).
    exists e2. split; [done|]. auto. }
  unfold map_assign. rewrite Hfind. split.
  - intros k Hk. rewrite !upd_length, length_app in Hk. cbn in Hk.
    destruct (decide (k = length els)) as [->|Hne].
    + exists fn. apply elem_of_app. right. by apply list_elem_of_singleton.
    + destruct (Hall k ltac:(lia)) as [key Hkey]. exists key. apply elem_of_app. by left.
  - intros key v [Hin|Heq%list_elem_of_singleton]%elem_of_app.
    + destruct (Hent key v Hin) as (Hv & p & e & Hp & He & Hborn).
      split; [done|].
      destruct (Hkeep (Z.to_nat v) e) as (e' & He' & Hl); [by apply lookup_app_l_Some|].
      exists p, e'. split; [by apply lookup_app_l_Some|]. split; [done|].
      destruct Hborn as [[Hb Hm]|[? ?]]; [left|right].
      * split; [done|]. rewrite lookup_insert_ne; [done|]. specialize (Hlt _ _ Hm). lia.
      * split; [done|]. by apply Hl.
    + injection Heq as -> ->. split; [lia|]. rewrite Nat2Z.id.
      destruct (Hkeep (length els) new) as (e' & He' & _).
      { by rewrite lookup_app_r, Nat.sub_diag by lia. }
      exists i, e'. split; [by rewrite <- Hlen, lookup_app_r, Nat.sub_diag by lia|].
      split; [done|]. left. split; [|by rewrite lookup_insert_eq].
      split; [done|]. by exists face.
Qed.

Lemma visit_face_ids fuel i face s :
  0 ≤ i → p_faces parent_mesh !! Z.to_nat i = Some face → unused face = false →
  discover_inv i s → ids_inv parent_mesh attributes s →
  ids_inv parent_mesh attributes
    (visit_face parent_mesh Dim attributes indeterminate fuel i face s).1.
Proof.
  intros Hi Hface Hused Hinv Hids. unfold visit_face.
  destruct (negb (HasAttribute (f_attribute face) attributes)
            || bool_decide (GetMeshIdType parent_mesh (f_index face) = MASTER)) eqn:Hsel;
    [done|].
  apply orb_false_iff in Hsel as [Hattr Hmaster].
  apply negb_false_iff in Hattr. apply bool_decide_eq_false in Hmaster.
  destruct (map_find _ (pnodes_new_elem s)) eqn:Hfind; [done|].
  cbn [AddElement].
  destruct Hinv as [H1 H2 H3 Hk Hl H4 H5 H6].
  destruct (map_assign_fresh (FindFaceNodes parent_mesh face)
              (Z.of_nat (length (elements s))) _ Hk Hfind) as [F1 F2].
  apply (ascend_ids fuel _ _ _ (i + 1)).
  - constructor; cbn.
    + rewrite !upd_length, !length_app. cbn. lia.
    + repeat apply parents_wf_upd; try done. apply Forall_app. split; [done|].
      constructor; [cbn; lia|done].
    + apply map_wf_assign; [lia|done].
    + done.
    + rewrite F2, !upd_length, length_app. cbn. lia.
    + done.
    + apply foldl_set_insert_sorted; [intros; by apply set_insert_sorted|].
      apply foldl_set_insert_sorted; [|done].
      intros ns x Hs. destruct (x =? -1); [done|]. by apply set_insert_sorted.
    + intros p v. destruct (decide (i = p)) as [<-|Hne].
      * rewrite lookup_insert_eq. intros [= <-]. split; [lia|]. split; [lia|].
        by rewrite Nat2Z.id, <- H1, lookup_app_r, Nat.sub_diag.
      * rewrite lookup_insert_ne by done. intros Hpv.
        destruct (H6 p v Hpv) as (? & ? & Hl'). split; [lia|]. split; [done|].
        rewrite lookup_app_l; [done|]. by eapply lookup_lt_Some.
  - unfold ids_inv. cbn. apply ids_ok_new_face; try done.
    intros p v Hpv. destruct (H6 p v Hpv) as (? & _). lia.
Qed.

Lemma face_loop_ids fuel pre slots : ∀ ipe s,
  p_faces parent_mesh = pre ++ slots →
  discover_inv (Z.of_nat (length pre)) s → ids_inv parent_mesh attributes s →
  ids_inv parent_mesh attributes
    (face_loop parent_mesh Dim attributes indeterminate fuel slots
               (Z.of_nat (length pre)) ipe s).1.
Proof.
  revert pre. induction slots as [|face slots IH]; intros pre ipe s Hsplit Hinv Hids;
    cbn [face_loop]; [done|].
  destruct (ipe <? faces_Size parent_mesh); [|done].
  assert (p_faces parent_mesh = (pre ++ [face]) ++ slots) as Hsplit'.
  { by rewrite <- app_assoc. }
  assert (Z.of_nat (length pre) + 1 = Z.of_nat (length (pre ++ [face]))) as Hnext.
  { rewrite length_app. cbn. lia. }
  destruct (unused face) eqn:Hused.
  - rewrite Hnext. apply IH; [done| |done]. rewrite <- Hnext. by apply discover_inv_next.
  - assert (p_faces parent_mesh !! Z.to_nat (Z.of_nat (length pre)) = Some face) as Hface.
    { rewrite Nat2Z.id, Hsplit. by rewrite lookup_app_r, Nat.sub_diag by lia. }
    pose proof (visit_face_inv parent_mesh Dim attributes indeterminate fuel
                  (Z.of_nat (length pre)) face s ltac:(lia) Hinv) as Hv.
    pose proof (visit_face_ids fuel (Z.of_nat (length pre)) face s ltac:(lia) Hface Hused
                  Hinv Hids) as Hvi.
    destruct (visit_face _ _ _ _ _ _ _ _) as [s1 ok1]. cbn [fst] in Hv, Hvi.
    rewrite Hnext in Hv |- *.
    pose proof (IH (pre ++ [face]) (ipe + 1) s1 Hsplit' Hv Hvi) as Hl.
    destruct (face_loop _ _ _ _ _ _ _ _ _) as [s2 ok2]. done.
Qed.

Lemma ids_inv_init : ids_inv parent_mesh attributes init_state.
Proof.
  split; cbn.
  - intros k Hk. lia.
  - intros key v Hin. by apply elem_of_nil in Hin.
Qed.

Lemma discover_ids fuel :
  ids_inv parent_mesh attributes (discover parent_mesh Dim attributes indeterminate fuel).1.
Proof.
  unfold discover.
  pose proof (face_loop_ids fuel [] (p_faces parent_mesh) 0 init_state eq_refl
                discover_inv_init ids_inv_init) as Hl.
  cbn [length Z.of_nat] in Hl.
  destruct (face_loop _ _ _ _ _ _ _ _ _) as [s ok]. done.
Qed.

End RecordedIds.

(** C10.  Whatever the parent mesh answers and however far the ascents get,
    the discovery loop pairs every element with the parent face id that
    belongs to it: every element is registered in [pnodes_new_elem], and the
    entry of [parent_element_ids_] at its position is the slot of the
    selected face it was created for (lines 222 and 239) or, for an ancestor
    synthesized during an ascent, what [parent.faces.FindId] answers for the
    parent tuple it was created for (lines 284 and 287), the key it is
    registered under being a rearrangement of that face's or tuple's nodes.
    So the two arrays have the same size, and the assertion of line 348 is
    reached and holds. *)
Theorem C10_parent_ids_paired (parent_mesh : ParNCMesh) (Dim : Z)
    (attributes indeterminate : list Z) (fuel : nat) (s : NCState) (finished : bool) :
  discover parent_mesh Dim attributes indeterminate fuel = (s, finished) →
  (∀ k, (k < length (elements s))%nat →
        ∃ key p, (key, Z.of_nat k) ∈ pnodes_new_elem s ∧
                 parent_element_ids_ s !! k = Some p ∧
                 ((0 ≤ p ∧
                   ∃ face, p_faces parent_mesh !! Z.to_nat p = Some face ∧
                           unused face = false ∧
                           HasAttribute (f_attribute face) attributes = true ∧
                           GetMeshIdType parent_mesh (f_index face) ≠ MASTER ∧
                           key ≡ₚ FindFaceNodes parent_mesh face) ∨
                  (∃ fn0 slot fn, ParentFaceNodes parent_mesh fn0 = (slot, fn) ∧
                                  slot ≠ -1 ∧ key ≡ₚ fn ∧
                                  p = faces_FindId parent_mesh (rd fn 0) (rd fn 1)
                                                   (rd fn 2) (rd fn 3)))) ∧
  length (parent_element_ids_ s) = length (elements s) ∧
  (348, true) ∈ asserts s.
Proof.
  intros Hrun. split; [|by eapply discover_sizes].
  pose proof (discover_ids parent_mesh Dim attributes indeterminate fuel) as [Hall Hent].
  rewrite Hrun in Hall, Hent. cbn [fst] in Hall, Hent.
  intros k Hk. destruct (Hall k Hk) as [key Hkey].
  destruct (Hent key _ Hkey) as (_ & p & e & Hp & _ & Hborn). rewrite Nat2Z.id in Hp.
  exists key, p. split; [done|]. split; [done|].
  destruct Hborn as [[(H0 & face & H1 & H2 & H3 & H4 & H5) _]|
                     [(fn0 & slot & fn & H1 & H2 & H3 & H4) _]].
  - left. split; [done|]. exists face. repeat (split; [done|]). by apply sort_ints_perm_eq.
  - right. exists fn0, slot, fn. repeat (split; [done|]). split; [|done].
    by apply sort_ints_perm_eq.
Qed.

Lemma C10_parent_ids_paired_witness :
  (∃ key p, (key, 8) ∈ pnodes_new_elem edge_tree_discovery ∧
            parent_element_ids_ edge_tree_discovery !! 8%nat = Some p ∧
            ((0 ≤ p ∧
              ∃ face, p_faces edge_tree_mesh !! Z.to_nat p = Some face ∧
                      unused face = false ∧
                      HasAttribute (f_attribute face) [1] = true ∧
                      GetMeshIdType edge_tree_mesh (f_index face) ≠ MASTER ∧
                      key ≡ₚ FindFaceNodes edge_tree_mesh face) ∨
             (∃ fn0 slot fn, ParentFaceNodes edge_tree_mesh fn0 = (slot, fn) ∧
                             slot ≠ -1 ∧ key ≡ₚ fn ∧
                             p = faces_FindId edge_tree_mesh (rd fn 0) (rd fn 1)
                                              (rd fn 2) (rd fn 3)))) ∧
  length (parent_element_ids_ edge_tree_discovery) = length (elements edge_tree_discovery) ∧
  (348, true) ∈ asserts edge_tree_discovery.
Proof.
  assert (discover edge_tree_mesh 1 [1] [0; 0; 0; 0] 10 = (edge_tree_discovery, true)) as Hrun
    by (vm_compute; reflexivity).
  destruct (C10_parent_ids_paired edge_tree_mesh 1 [1] [0; 0; 0; 0] 10 edge_tree_discovery
              true Hrun) as (H1 & H2 & H3).
  split; [|split; [exact H2|exact H3]].
  assert (8 < length (elements edge_tree_discovery))%nat as H8 by (vm_compute; lia).
  exact (H1 8%nat H8).
Defined.

(** * The identity maps when the constructor returns *)

(** ** Parent ids are recorded once *)

Lemma ids_distinct_NoDup (pe : list Z) :
  ids_distinct pe ↔ NoDup (filter (λ p, p ≠ -1) pe).
Proof.
  induction pe as [|x pe IH].
  { split; [constructor|]. intros _ i j p Hi. done. }
  rewrite filter_cons. split.
  - intros Hd.
    assert (ids_distinct pe) as Hd'.
    { intros i j p Hi Hj Hp. by injection (Hd (S i) (S j) p Hi Hj Hp). }
    case_decide as Hx; [|by apply IH].
    apply NoDup_cons. split; [|by apply IH].
    intros [_ [j Hj]%list_elem_of_lookup]%list_elem_of_filter.
    by specialize (Hd 0%nat (S j) x eq_refl Hj Hx).
  - intros Hnd i j p Hi Hj Hp.
    assert (NoDup (filter (λ p, p ≠ -1) pe) ∧ (x ≠ -1 → x ∉ pe)) as [Hnd' Hx].
    { case_decide as Hx.
      - apply NoDup_cons in Hnd as [Hn Hnd]. split; [done|]. intros _ Hin. apply Hn.
        by apply list_elem_of_filter.
      - done. }
    destruct i as [|i], j as [|j]; cbn in Hi, Hj.
    + done.
    + injection Hi as ->. exfalso. apply (Hx Hp). by eapply list_elem_of_lookup_2.
    + injection Hj as ->. exfalso. apply (Hx Hp). by eapply list_elem_of_lookup_2.
    + f_equal. by apply (proj2 IH Hnd' i j p).
Qed.

Lemma ids_distinct_perm (pe pe' : list Z) : pe ≡ₚ pe' → ids_distinct pe → ids_distinct pe'.
Proof. rewrite !ids_distinct_NoDup. by intros ->. Qed.

Lemma tuple_nodes (fn : list Z) :
  length fn = MaxFaceNodes → [rd fn 0; rd fn 1; rd fn 2; rd fn 3] = fn.
Proof. destruct fn as [|a [|b [|c [|d [|e fn]]]]]; done. Qed.

Section IdentityMaps.

Variable parent_mesh : ParNCMesh.
Variable attributes : list Z.
Hypothesis Hsized : parent_tuples_sized parent_mesh.
Hypothesis Htable : face_table_consistent parent_mesh.

(** The key under which an element is registered determines its parent
    id, unless that is [-1]. *)
Lemma recorded_id_key key1 key2 p :
  born_of_face parent_mesh attributes key1 p ∨ born_of_ascent parent_mesh key1 p →
  born_of_face parent_mesh attributes key2 p ∨ born_of_ascent parent_mesh key2 p →
  p ≠ -1 → sort_ints key1 = sort_ints key2.
Proof.
  assert (∀ key, born_of_face parent_mesh attributes key p ∨ born_of_ascent parent_mesh key p →
                 p ≠ -1 →
                 ∃ face, p_faces parent_mesh !! Z.to_nat p = Some face ∧
                         sort_ints key = sort_ints (FindFaceNodes parent_mesh face)) as Hface.
  { intros key [(_ & face & H1 & _ & _ & _ & H5)|(fn0 & slot & fn & H1 & H2 & H3 & H4)] Hp.
    - by exists face.
    - subst p. destruct (Htable _ _ _ _ Hp) as (_ & face & Hf & Hperm).
      exists face. split; [done|]. rewrite H3. apply sort_ints_perm_eq.
      rewrite Hperm. by rewrite (tuple_nodes fn (Hsized _ _ _ H1 H2)). }
  intros H1 H2 Hp. destruct (Hface _ H1 Hp) as (f1 & Hf1 & ->).
  destruct (Hface _ H2 Hp) as (f2 & Hf2 & ->). congruence.
Qed.

Lemma ids_inv_distinct j s :
  discover_inv j s → ids_inv parent_mesh attributes s →
  ids_distinct (parent_element_ids_ s).
Proof.
  intros Hinv [Hall Hent] i k p Hi Hk Hp.
  pose proof (inv_len _ _ Hinv) as Hlen.
  destruct (Hall i) as [key1 H1]; [rewrite <- Hlen; by eapply lookup_lt_Some|].
  destruct (Hall k) as [key2 H2]; [rewrite <- Hlen; by eapply lookup_lt_Some|].
  destruct (Hent _ _ H1) as (_ & p1 & e1 & Hp1 & _ & B1).
  destruct (Hent _ _ H2) as (_ & p2 & e2 & Hp2 & _ & B2).
  rewrite Nat2Z.id in Hp1, Hp2. assert (p1 = p) as -> by congruence.
  assert (p2 = p) as -> by congruence.
  assert (sort_ints key1 = sort_ints key2) as Hs.
  { apply (recorded_id_key key1 key2 p); [tauto|tauto|done]. }
  destruct (map_entry_unique _ _ _ _ _ (inv_keys _ _ Hinv) H1 H2 Hs) as [_ Heq]. lia.
Qed.

End IdentityMaps.

(** ** The element maps after the reordering loop *)

Lemma boundary_pass_element_map parent_mesh Dim attributes indeterminate fuel s sorts :
  parent_tuples_sized parent_mesh → face_table_consistent parent_mesh →
  boundary_pass parent_mesh Dim attributes indeterminate fuel = Some (s, sorts) →
  ∀ i p, parent_element_ids_ s !! i = Some p → p ≠ -1 →
         parent_to_submesh_element_ids_ s !! p = Some (Z.of_nat i) ∨
         (sorts = 0%nat ∧ parent_to_submesh_element_ids_ s !! p = None ∧
          ∃ e, elements s !! i = Some e ∧ IsLeaf e = false).
Proof.
  intros Hsized Htable. unfold boundary_pass.
  destruct (discover_inv_discover parent_mesh Dim attributes indeterminate fuel) as [j Hinv].
  pose proof (discover_ids parent_mesh Dim attributes indeterminate fuel) as Hids.
  destruct (discover parent_mesh Dim attributes indeterminate fuel) as [d ok].
  cbn [fst] in Hinv, Hids. destruct ok; [|done].
  pose proof (ids_inv_distinct parent_mesh attributes Hsized Htable j d Hinv Hids) as Hdist.
  destruct (register_nodes_frame 368 (new_nodes d) d) as (He & Hpe & Hm & _).
  set (a := set_new_nodes [] (register_new_nodes 368 d)).
  assert (elements a = elements d ∧ parent_element_ids_ a = parent_element_ids_ d ∧
          parent_to_submesh_element_ids_ a = parent_to_submesh_element_ids_ d)
    as (Ea & Pa & Ma).
  { unfold a, register_new_nodes. cbn. by rewrite He, Hpe, Hm. }
  intros Hloop i p Hi Hp.
  destruct (reorder_loop_last_step _ _ _ _ Hloop) as [[-> ->]|[Hs [s0 ->]]].
  - rewrite Pa in Hi. rewrite Ma, Ea. destruct Hids as [Hall Hent].
    destruct (Hall i) as [key Hkey].
    { rewrite <- (inv_len _ _ Hinv). by eapply lookup_lt_Some. }
    destruct (Hent _ _ Hkey) as (_ & p' & e & Hp' & Hel & Hborn).
    rewrite Nat2Z.id in Hp', Hel. assert (p' = p) as -> by congruence.
    destruct Hborn as [[_ Hmap]|[_ Hleaf]]; [by left|].
    destruct (parent_to_submesh_element_ids_ d !! p) as [v|] eqn:Hv.
    + left. destruct (inv_emap _ _ Hinv p v Hv) as (_ & H0 & Hl).
      pose proof (Hdist _ _ _ Hl Hi Hp) as <-. f_equal. lia.
    + right. split; [done|]. split; [done|]. by exists e.
  - left.
    assert (length (parent_element_ids_ a) = length (elements a)) as Hlen.
    { rewrite Pa, Ea. apply Hinv. }
    destruct (reorder_loop_rows _ _ _ _ Hlen Hloop) as [Hrows Hlen'].
    assert (parent_element_ids_ (reorder_step s0) ≡ₚ parent_element_ids_ d) as Hperm.
    { unfold element_rows in Hrows. apply (fmap_Permutation fst) in Hrows.
      rewrite !fst_zip in Hrows by (rewrite length_fmap; lia). by rewrite Hrows, Pa. }
    assert (ids_distinct (parent_element_ids_ (reorder_step s0))) as Hdist'.
    { eapply ids_distinct_perm; [symmetry; exact Hperm|done]. }
    apply (proj2 (rebuild_parent_to_submesh_spec _)); [done|done|].
    intros k Hk Hkp. apply Hk. by apply (Hdist' k i p).
Qed.

(** ** What the steps after the loops do to the maps *)

Lemma extends_by_zero_refl m : extends_by_zero m m.
Proof. intros n. by left. Qed.

Lemma extends_by_zero_trans m0 m1 m2 :
  extends_by_zero m0 m1 → extends_by_zero m1 m2 → extends_by_zero m0 m2.
Proof.
  intros H1 H2 n. destruct (H2 n) as [E2|[N2 Z2]], (H1 n) as [E1|[N1 Z1]].
  - left. congruence.
  - right. split; [done|]. congruence.
  - right. split; [congruence|done].
  - right. by split.
Qed.

Lemma extends_by_zero_index m0 m x :
  extends_by_zero m0 m → extends_by_zero m0 (umap_index m x).2.
Proof. intros H. by destruct (umap_index_default m0 m x H) as (_ & H2 & _). Qed.

Lemma ref_type_alter_node (f : Element → list Z) k (els : list Element) :
  ref_type <$> alter (λ el, set_node (f el) el) k els = ref_type <$> els.
Proof.
  rewrite (list_fmap_alter ref_type _ id); [apply alter_id_list|].
  apply Forall_forall. by intros e _.
Qed.

Lemma sign_in_leaves_maps parent_mesh s :
  parent_element_ids_ (sign_in_leaves parent_mesh s) = parent_element_ids_ s ∧
  parent_to_submesh_element_ids_ (sign_in_leaves parent_mesh s)
  = parent_to_submesh_element_ids_ s ∧
  parent_node_ids_ (sign_in_leaves parent_mesh s) = parent_node_ids_ s ∧
  extends_by_zero (parent_to_submesh_node_ids_ s)
                  (parent_to_submesh_node_ids_ (sign_in_leaves parent_mesh s)) ∧
  ref_type <$> elements (sign_in_leaves parent_mesh s) = ref_type <$> elements s.
Proof.
  pose (P := λ s' : NCState,
    parent_element_ids_ s' = parent_element_ids_ s ∧
    parent_to_submesh_element_ids_ s' = parent_to_submesh_element_ids_ s ∧
    parent_node_ids_ s' = parent_node_ids_ s ∧
    extends_by_zero (parent_to_submesh_node_ids_ s) (parent_to_submesh_node_ids_ s') ∧
    ref_type <$> elements s' = ref_type <$> elements s).
  unfold sign_in_leaves. apply (foldl_preserves P).
  2:{ unfold P. repeat split; try done. apply extends_by_zero_refl. }
  intros s0 k H0. unfold sign_in_leaf. destruct (IsLeaf _); [|done].
  apply (foldl_preserves P).
  - intros s1 n (H1 & H2 & H3 & H4 & H5). unfold relabel_leaf_vertex.
    pose proof (extends_by_zero_index _ _ (node (elements s1 !!! k) !!! n) H4) as Hx.
    cbn [parent_to_submesh_node_ids_ MFEM_ASSERT] in *.
    destruct (umap_index _ _) as [v m]. cbn in *. unfold P. cbn.
    rewrite ref_type_alter_node. done.
  - apply (foldl_preserves P); [|done].
    intros s1 ed (H1 & H2 & H3 & H4 & H5). unfold sign_in_edge.
    destruct (Get _ _) as [[? ?] ?]. done.
Qed.

Lemma copy_coordinates_maps {Pos} (CalcVertexPos : Z → Pos) s initial :
  let s' := (copy_coordinates Pos CalcVertexPos s initial).1 in
  parent_element_ids_ s' = parent_element_ids_ s ∧
  parent_to_submesh_element_ids_ s' = parent_to_submesh_element_ids_ s ∧
  parent_node_ids_ s' = parent_node_ids_ s ∧
  parent_to_submesh_node_ids_ s' = parent_to_submesh_node_ids_ s ∧
  elements s' = elements s ∧
  (∀ b, (107, b) ∈ asserts s' → (107, b) ∈ asserts s).
Proof.
  unfold copy_coordinates.
  apply (foldl_preserves (λ sc : NCState * list Pos,
    parent_element_ids_ sc.1 = parent_element_ids_ s ∧
    parent_to_submesh_element_ids_ sc.1 = parent_to_submesh_element_ids_ s ∧
    parent_node_ids_ sc.1 = parent_node_ids_ s ∧
    parent_to_submesh_node_ids_ sc.1 = parent_to_submesh_node_ids_ s ∧
    elements sc.1 = elements s ∧
    (∀ b, (107, b) ∈ asserts sc.1 → (107, b) ∈ asserts s))); [|done].
  intros [s0 co] pn (H1 & H2 & H3 & H4 & H5 & H6). unfold copy_position.
  destruct (Get pn (node_ids s0)) as [[n new] g]. cbn in *. repeat split; try done.
  intros b [Hb|Hb%list_elem_of_singleton]%elem_of_app; [by apply H6|done].
Qed.

Lemma finish_maps parent_nodes {Pos} (CalcVertexPos : Z → Pos) has_coordinates initial s :
  let s' := finish parent_nodes Pos CalcVertexPos has_coordinates initial s in
  parent_element_ids_ s' = parent_element_ids_ s ∧
  parent_to_submesh_element_ids_ s' = parent_to_submesh_element_ids_ s ∧
  parent_node_ids_ s' = parent_node_ids_ s ∧
  extends_by_zero (parent_to_submesh_node_ids_ s) (parent_to_submesh_node_ids_ s') ∧
  elements s' = elements s ∧
  (∀ b, (107, b) ∈ asserts s' → (107, b) ∈ asserts s).
Proof.
  unfold finish.
  destruct (reparent_nodes_spec parent_nodes s) as (_ & R2 & R3 & R4 & R5 & R6 & _ & R8).
  assert (extends_by_zero (parent_to_submesh_node_ids_ s)
            (parent_to_submesh_node_ids_ (reparent_nodes parent_nodes s).1)) as Hx.
  { intros n. destruct (R2 n) as [?|(? & ? & _)]; [by left|by right]. }
  destruct has_coordinates.
  - destruct (copy_coordinates_maps CalcVertexPos (reparent_nodes parent_nodes s).1 initial)
      as (K1 & K2 & K3 & K4 & K5 & K6).
    cbn zeta. rewrite K1, K2, K3, K4, K5, R3, R4, R5, R6. repeat split; try done.
    intros b Hb. rewrite <- R8. by apply K6.
  - cbn zeta. rewrite R3, R4, R5, R6. repeat split; try done. intros b. by rewrite R8.
Qed.

Lemma node_maps_extended s0 (m : gmap Z Z) :
  node_maps_inv s0 → extends_by_zero (parent_to_submesh_node_ids_ s0) m →
  (∀ j n, parent_node_ids_ s0 !! j = Some n → m !! n = Some (Z.of_nat j)) ∧
  (∀ n v, m !! n = Some v →
          (0 ≤ v ∧ parent_node_ids_ s0 !! Z.to_nat v = Some n) ∨
          (n ∉ parent_node_ids_ s0 ∧ v = 0)).
Proof.
  intros Hinv Hx. pose proof (node_maps_inv_bijection s0 Hinv) as Hbij.
  destruct Hinv as [(_ & _ & Hi) Hidx]. split.
  - intros j n Hj. apply Hbij in Hj. destruct (Hx n) as [->|[Hn _]]; [done|congruence].
  - intros n v Hv. destruct (Hx n) as [E|[Hn Hz]].
    + left. rewrite E, <- Hidx in Hv. by apply Hi.
    + right. split; [|congruence]. intros [j Hj]%list_elem_of_lookup.
      apply Hbij in Hj. congruence.
Qed.

(** ** The maps when the constructor returns *)

(** C1, amended.  When the constructor returns, on the boundary branch:
    every key/value pair [(p, v)] of [parent_to_submesh_element_ids_] has
    [p ≠ -1] and [parent_element_ids_[v] == p]; for every submesh element
    [i] whose parent id is not [-1] (the id recorded for a synthesized
    ancestor that the parent's face table does not hold, which the rebuild
    of lines 457-462 skips),
    [parent_to_submesh_element_ids_[parent_element_ids_[i]] == i], unless
    the loop never sorted and [i] is an internal element synthesized by an
    ascent, whose parent id then is no key of the map; for every submesh
    node [j], [parent_to_submesh_node_ids_[parent_node_ids_[j]] == j], and
    any other key of the node map was inserted by a look-up (lines 501, 523
    and 524) and holds 0.  On the domain branch:
    [parent_to_submesh_element_ids_[parent_element_ids_[i]] == i] for every
    submesh element [i], any other key of the element map holding 0 (line
    161); and the same for the nodes unless the assertion of line 107
    failed.  For the elements of the boundary branch, the parent's face
    table is taken to answer [FindId] with the slot of a face that has the
    nodes asked for, and parent tuples to have [MaxFaceNodes] entries. *)
Theorem C1_identity_maps :
  (∀ parent_mesh Dim attributes indeterminate fuel parent_nodes (Pos : Type)
     (CalcVertexPos : Z → Pos) has_coordinates initial s sorts,
     construct_boundary parent_mesh Dim attributes indeterminate fuel parent_nodes Pos
                        CalcVertexPos has_coordinates initial = Some (s, sorts) →
     (∀ p v, parent_to_submesh_element_ids_ s !! p = Some v →
             p ≠ -1 ∧ 0 ≤ v ∧ parent_element_ids_ s !! Z.to_nat v = Some p) ∧
     (parent_tuples_sized parent_mesh → face_table_consistent parent_mesh →
      ∀ i p, parent_element_ids_ s !! i = Some p → p ≠ -1 →
             parent_to_submesh_element_ids_ s !! p = Some (Z.of_nat i) ∨
             (sorts = 0%nat ∧ parent_to_submesh_element_ids_ s !! p = None ∧
              ∃ e, elements s !! i = Some e ∧ IsLeaf e = false)) ∧
     (∀ j n, parent_node_ids_ s !! j = Some n →
             parent_to_submesh_node_ids_ s !! n = Some (Z.of_nat j)) ∧
     (∀ n v, parent_to_submesh_node_ids_ s !! n = Some v →
             (0 ≤ v ∧ parent_node_ids_ s !! Z.to_nat v = Some n) ∨
             (n ∉ parent_node_ids_ s ∧ v = 0))) ∧
  (∀ parent_mesh attributes GetSubMeshElementFromParent ParentVertexIDMap
     ref_type_num_children parent_nodes (Pos : Type) (CalcVertexPos : Z → Pos)
     has_coordinates initial s,
     construct_domain parent_mesh attributes GetSubMeshElementFromParent ParentVertexIDMap
                      ref_type_num_children parent_nodes Pos CalcVertexPos has_coordinates
                      initial = Some s →
     (∀ i p, parent_element_ids_ s !! i = Some p →
             parent_to_submesh_element_ids_ s !! p = Some (Z.of_nat i)) ∧
     (∀ p v, parent_to_submesh_element_ids_ s !! p = Some v →
             (0 ≤ v ∧ parent_element_ids_ s !! Z.to_nat v = Some p) ∨
             (p ∉ parent_element_ids_ s ∧ v = 0)) ∧
     (asserts_hold 107 s →
      (∀ j n, parent_node_ids_ s !! j = Some n →
              parent_to_submesh_node_ids_ s !! n = Some (Z.of_nat j)) ∧
      (∀ n v, parent_to_submesh_node_ids_ s !! n = Some v →
              (0 ≤ v ∧ parent_node_ids_ s !! Z.to_nat v = Some n) ∨
              (n ∉ parent_node_ids_ s ∧ v = 0)))).
Proof.
  split.
  - intros parent_mesh Dim attributes indeterminate fuel parent_nodes Pos CalcVertexPos
      has_coordinates initial s sorts.
    unfold construct_boundary, boundary_branch.
    destruct (boundary_pass parent_mesh Dim attributes indeterminate fuel) as [[b k]|] eqn:Hpass;
      [|done].
    intros [= <- <-].
    destruct identity_maps_after_pass as [Hb _].
    destruct (Hb _ _ _ _ _ _ _ Hpass) as (E1 & _ & _).
    destruct (boundary_pass_nodes _ _ _ _ _ _ _ Hpass) as (Hinv & _ & _).
    destruct (sign_in_leaves_maps parent_mesh b) as (S1 & S2 & S3 & S4 & S5).
    destruct (finish_maps parent_nodes CalcVertexPos has_coordinates initial
                (sign_in_leaves parent_mesh b)) as (F1 & F2 & F3 & F4 & F5 & _).
    cbn zeta in F1, F2, F3, F4, F5.
    set (s := finish parent_nodes Pos CalcVertexPos has_coordinates initial
                (sign_in_leaves parent_mesh b)) in *.
    rewrite F1, F2, F3, S1, S2, S3.
    destruct (node_maps_extended b (parent_to_submesh_node_ids_ s) Hinv) as [N1 N2].
    { eapply extends_by_zero_trans; [exact S4|exact F4]. }
    split; [done|]. split; [|by split].
    intros Hsized Htable i p Hi Hp.
    destruct (boundary_pass_element_map _ _ _ _ _ _ _ Hsized Htable Hpass i p Hi Hp)
      as [?|(H0 & Hn & e & He & Hl)]; [by left|].
    right. split; [done|]. split; [done|].
    assert ((ref_type <$> elements s) !! i = Some (ref_type e)) as Hr.
    { by rewrite F5, S5, list_lookup_fmap, He. }
    rewrite list_lookup_fmap in Hr. destruct (elements s !! i) as [e'|]; [|done].
    exists e'. split; [done|]. unfold IsLeaf in *. injection Hr as ->. done.
  - intros parent_mesh attributes G V R parent_nodes Pos CalcVertexPos has_coordinates
      initial s. unfold construct_domain.
    destruct (domain_pass parent_mesh attributes G V R) as [sd completed] eqn:Hrun.
    destruct completed; [|done]. intros [= <-].
    destruct (domain_pass_links _ _ _ _ _ _ _ Hrun) as (_ & _ & [M1 M2] & _).
    destruct (second_walk_inv_domain_pass parent_mesh attributes G V R) as [k Hk].
    rewrite Hrun in Hk. cbn [fst] in Hk.
    destruct (finish_maps parent_nodes CalcVertexPos has_coordinates initial sd)
      as (F1 & F2 & F3 & F4 & F5 & F6).
    cbn zeta in F1, F2, F3, F4, F5, F6.
    set (s := finish parent_nodes Pos CalcVertexPos has_coordinates initial sd) in *.
    rewrite F1, F2, F3. split; [done|]. split.
    + intros p v Hv. destruct (M2 p v Hv) as [?|(? & ? & _)]; [by left|by right].
    + intros H107. apply (node_maps_extended sd); [|done].
      apply (sw_nodes _ _ _ Hk). intros b Hb. apply H107. revert Hb.
      destruct (reparent_nodes_spec parent_nodes sd) as (_ & _ & _ & _ & _ & _ & _ & R8).
      unfold s, finish. destruct has_coordinates.
      * unfold copy_coordinates.
        apply (foldl_preserves (λ sc : NCState * list Pos,
                 (107, b) ∈ asserts sd → (107, b) ∈ asserts sc.1)).
        -- intros [s0 co] pn H0 Hin. unfold copy_position.
           destruct (Get pn (node_ids s0)) as [[n new] g]. cbn. apply elem_of_app. left.
           by apply H0.
        -- cbn. by rewrite R8.
      * by rewrite R8.
Qed.

Lemma edge_tree_tuples_sized : parent_tuples_sized edge_tree_mesh.
Proof.
  intros fn0 slot fn H Hs. cbn in H. unfold edge_tree_parent in H.
  repeat case_bool_decide; injection H as <- <-; done.
Qed.

Lemma edge_tree_face_table : face_table_consistent edge_tree_mesh.
Proof.
  intros a b c d. cbn [faces_FindId edge_tree_mesh].
  destruct (list_find (λ fn, fn = [a; b; c; d]) edge_tree_faces) as [[i fn]|] eqn:E; [|done].
  intros _. apply list_find_Some in E as (Hi & -> & _). split; [lia|]. rewrite Nat2Z.id.
  destruct i as [|[|[|[|[|i]]]]]; cbn in Hi; try done; injection Hi as <- <- <- <-;
    eexists; (split; [reflexivity|done]).
Qed.

Lemma edge_tree_construction :
  construct_boundary edge_tree_mesh 1 [1] [0; 0; 0; 0] 10
    (λ n, if n =? 5 then (2, 9) else (n, n)) Z (λ n, 10 * n) true (replicate 7 0)
  = Some (edge_tree_constructed, 2%nat).
Proof. vm_compute. reflexivity. Qed.

Lemma quad_domain_construction :
  construct_domain quad_domain_mesh [1] (λ i, i) [0; 1; 2; 3; 4; 5; 6; 7; 8]
    (λ r, if r =? Refinement_XY then 4%nat else 2%nat)
    (λ n, if n =? 104 then (0, 50) else (n, n)) Z (λ n, 10 * n) true (replicate 21 0)
  = Some quad_domain_constructed.
Proof. vm_compute. reflexivity. Qed.

Lemma quad_domain_constructed_asserts line : asserts_hold line quad_domain_constructed.
Proof.
  intros b Hb.
  assert (Forall (λ a : Z * bool, a.2 = true) (asserts quad_domain_constructed)) as HF
    by (vm_compute; repeat constructor).
  eapply Forall_forall in HF; [|exact Hb]. done.
Qed.

Lemma C1_identity_maps_witness :
  parent_to_submesh_element_ids_ edge_tree_constructed !! 4 = Some 6 ∧
  parent_to_submesh_node_ids_ edge_tree_constructed !! 2 = Some 3 ∧
  parent_to_submesh_node_ids_ quad_domain_constructed !! 104 = Some 9.
Proof.
  destruct C1_identity_maps as [Hb Hd].
  destruct (Hb _ _ _ _ _ _ _ _ _ _ _ _ edge_tree_construction) as (_ & He & Hn & _).
  specialize (He edge_tree_tuples_sized edge_tree_face_table).
  destruct (Hd _ _ _ _ _ _ _ _ _ _ _ quad_domain_construction) as (_ & _ & Hq).
  assert (parent_element_ids_ edge_tree_constructed !! 6%nat = Some 4) as H6
    by (vm_compute; reflexivity).
  assert (parent_node_ids_ edge_tree_constructed !! 3%nat = Some 2) as H3
    by (vm_compute; reflexivity).
  assert (parent_node_ids_ quad_domain_constructed !! 9%nat = Some 104) as H9
    by (vm_compute; reflexivity).
  split; [|split].
  - destruct (He 6%nat 4 H6 ltac:(lia)) as [H|[H _]]; [exact H|discriminate H].
  - exact (Hn 3%nat 2 H3).
  - destruct (Hq (quad_domain_constructed_asserts 107)) as [Hq1 _]. exact (Hq1 9%nat 104 H9).
Defined.
